(** * Protocol selection of UCP: a shallow embedding of [proto_select.c]

    The development follows [src/ucp/proto/proto_select.c]:

    - machine integers ([size_t], [uint64_t] masks and keys) are [Z] with the
      wrap-around written out;
    - [double] is Rocq's primitive binary64 [float], specified by
      [FloatAxioms] against [SpecFloat];
    - the temporary threshold array is a [list], the selection hash a
      [gmap] from the 64-bit key to the value slot;
    - functions that may fail return [ucs_status_t]; functions that can run
      into an assertion (or into behaviour the C standard leaves undefined)
      return an [outcome]. *)

From Stdlib Require Import ZArith List Lia Bool FinFun Sorted.
From Stdlib Require Import Floats.
From stdpp Require Import gmap.
Import ListNotations.

Local Open Scope Z_scope.

(** ** Machine integers *)

Definition SIZE_MAX : Z := 2 ^ 64 - 1.
Definition UINT64_MAX : Z := 2 ^ 64 - 1.

(** A value of type [size_t]. *)
Definition is_size_t (z : Z) : Prop := 0 <= z <= SIZE_MAX.

(** Unsigned 64-bit wrap-around, for [x + 1] and [x - 1] on [size_t]. *)
Definition wrap64 (z : Z) : Z := z mod 2 ^ 64.

(** [ucs_min] on [size_t]. *)
Definition ucs_min (a b : Z) : Z := if a <? b then a else b.

(** ** Double precision *)

Module Double.

(** [DBL_MAX] of <float.h>. *)
Definition DBL_MAX : float := Eval vm_compute in
  SF2Prim (S754_finite false (Z.to_pos (2 ^ 53 - 1)) 971).

(** [UCP_PROTO_MSGLEN_EPSILON]. *)
Definition UCP_PROTO_MSGLEN_EPSILON : float := Eval vm_compute in
  SF2Prim (S754_finite false (Z.to_pos (2 ^ 52)) (-53)).

(** Conversion of a [size_t] to [double], as the C compiler inserts it in
    [start + UCP_PROTO_MSGLEN_EPSILON], [x_intersect > start] and
    [(double)SIZE_MAX]: the nearest binary64 value, ties to even.  A
    non-zero [z] of [d] binary digits has the 53-bit mantissa
    [z * 2^(53 - d)] when [d <= 53]; otherwise the low [d - 53] bits are
    rounded away. *)
Definition size_t_to_SF (z : Z) : spec_float :=
  match z with
  | Zpos _ =>
      let d := Z.log2 z + 1 in
      if d <=? 53 then
        S754_finite false (Z.to_pos (z * 2 ^ (53 - d))) (d - 53)
      else
        let sh := d - 53 in
        let q := z / 2 ^ sh in
        let r := z mod 2 ^ sh in
        let half := 2 ^ (sh - 1) in
        let q' :=
          if (r <? half) || ((r =? half) && Z.even q) then q else q + 1 in
        if q' =? 2 ^ 53 then S754_finite false (Z.to_pos (2 ^ 52)) (sh + 1)
        else S754_finite false (Z.to_pos q') sh
  | _ => S754_zero false
  end.

Definition of_size_t (z : Z) : float := SF2Prim (size_t_to_SF z).

(** Conversion of a [double] to [size_t], the cast [(size_t)x_intersect]:
    truncation toward zero.  The cast is defined by C only for values in
    [(-1, 2^64)]; the caller checks [x > start] and [x < (double)SIZE_MAX]
    before it converts. *)
Definition to_size_t (x : float) : Z :=
  match Prim2SF x with
  | S754_finite false m e => Z.shiftl (Zpos m) e
  | _ => 0
  end.

(** [isnan(x) || isinf(x)]. *)
Definition is_nan_or_inf (x : float) : bool := is_nan x || is_infinity x.

End Double.

(** ** Status codes, assertions and outcomes *)

Inductive ucs_status_t : Set :=
| UCS_OK
| UCS_ERR_NO_MEMORY
| UCS_ERR_NO_ELEM
| UCS_ERR_UNSUPPORTED
| UCS_ERR_INVALID_PARAM.

(** The assertions of [proto_select.c], by the condition they check. *)
Inductive assertion : Set :=
| Assert_append_increasing     (* max_length > thresh_elem->max_length *)
| Assert_proto_mask_nonzero    (* proto_mask != 0 *)
| Assert_result_not_DBL_MAX    (* curr.result != DBL_MAX *)
| Assert_best_found            (* best.proto_id != UCP_PROTO_ID_INVALID *)
| Assert_msg_length_le_max     (* msg_length <= max_length *)
| Assert_ep_cfg_index          (* ep_cfg_index != UCP_WORKER_CFG_INDEX_NULL *)
| Assert_rkey_ep_cfg_index     (* rkey_config_key->ep_cfg_index == ep_cfg_index *)
| Assert_thresh_list_nonempty  (* !ucs_array_is_empty(&tmp_thresh_list) *)
| Assert_khret_fresh.          (* khret is BUCKET_EMPTY or BUCKET_CLEAR *)

(** What a call comes to: a value, an error status, a failed assertion (the
    process is aborted), behaviour that C leaves undefined, or a loop cut
    short by the iteration bound of the model. *)
Inductive outcome (A : Type) : Type :=
| Ok (a : A)
| Err (status : ucs_status_t)
| Fatal (a : assertion)
| Undefined
| NoFuel.

Arguments Ok {A} a.
Arguments Err {A} status.
Arguments Fatal {A} a.
Arguments Undefined {A}.
Arguments NoFuel {A}.

Definition bind {A B : Type} (o : outcome A) (k : A -> outcome B) : outcome B :=
  match o with
  | Ok a => k a
  | Err s => Err s
  | Fatal a => Fatal a
  | Undefined => Undefined
  | NoFuel => NoFuel
  end.

Notation "'let*' x ':=' e 'in' k" := (bind e (fun x => k))
  (at level 10, x name, e at level 100, k at level 200).

(** [ucs_assert] is compiled in only when assertions are enabled in the
    build; [ucs_assert_always] is always checked. *)
Definition ucs_assert {A : Type} (enable_assert : bool) (cond : bool)
    (a : assertion) (k : outcome A) : outcome A :=
  if enable_assert && negb cond then Fatal a else k.

Definition ucs_assert_always {A : Type} (cond : bool) (a : assertion)
    (k : outcome A) : outcome A :=
  if cond then k else Fatal a.

(** ** Linear functions *)

(** [ucs_linear_func_t]: the function [c + m * x]. *)
Record ucs_linear_func_t : Set := { func_c : float; func_m : float }.

(** Modelled from the spec: [ucs_linear_func_apply] is declared in a header
    that is not under src/; "perf is an affine function c + m·x". *)
Definition ucs_linear_func_apply (f : ucs_linear_func_t) (x : float) : float :=
  (func_c f + func_m f * x)%float.

(** Modelled from the spec: [ucs_linear_func_intersect] is declared in a
    header that is not under src/; "solve f_best(x) = f_q(x)", and only a
    real solution is a success ([None] stands for the error status). *)
Definition ucs_linear_func_intersect (f1 f2 : ucs_linear_func_t) : option float :=
  let x := ((func_c f2 - func_c f1) / (func_m f1 - func_m f2))%float in
  if Double.is_nan_or_inf x then None else Some x.

(** ** Protocol capabilities *)

Definition UCP_PROTO_MAX_COUNT : Z := 64.

(** Modelled from the spec: the two sentinels of [cfg_thresh] are defined in
    a header that is not under src/; "cfg_thresh ∈ {AUTO, INF} ∪ ℕ". *)
Definition UCS_MEMUNITS_INF : Z := SIZE_MAX.
Definition UCS_MEMUNITS_AUTO : Z := SIZE_MAX - 1.

(** [ucp_proto_perf_range_t]. *)
Record ucp_proto_perf_range_t : Set := {
  range_max_length : Z;
  range_perf : ucs_linear_func_t
}.

(** [ucp_proto_caps_t]; [num_ranges] is the length of [ranges]. *)
Record ucp_proto_caps_t : Set := {
  cfg_thresh : Z;
  min_length : Z;
  ranges : list ucp_proto_perf_range_t
}.

Definition num_ranges (caps : ucp_proto_caps_t) : nat := length (ranges caps).

(** ** Protocol masks *)

Definition UCS_BIT (i : Z) : Z := Z.shiftl 1 i.

(** A [ucp_proto_id_mask_t]. *)
Definition is_mask (mask : Z) : Prop := 0 <= mask < 2 ^ 64.

(** [ucs_for_each_bit]: the set bits of a 64-bit mask, lowest first. *)
Definition ucs_for_each_bit (mask : Z) : list Z :=
  List.filter (Z.testbit mask) (map Z.of_nat (seq 0 64)).

Definition popcount (mask : Z) : nat := length (ucs_for_each_bit mask).

(** [mask |= UCS_BIT(i)] and [mask &= ~UCS_BIT(i)]. *)
Definition mask_set (mask i : Z) : Z := Z.lor mask (UCS_BIT i).
Definition mask_clear (mask i : Z) : Z := Z.land mask (Z.lnot (UCS_BIT i)).

(** ** The temporary threshold list *)

(** [ucp_proto_threshold_tmp_elem_t]. *)
Record ucp_proto_threshold_tmp_elem_t : Set := {
  tmp_max_length : Z;
  tmp_proto_id : Z
}.

(** [ucs_array_append] on the fixed array of [UCP_PROTO_MAX_COUNT] entries
    that [ucp_proto_select_elem_init_thresh] declares: a fixed array cannot
    grow. *)
Definition ucs_array_append (thresh_list : list ucp_proto_threshold_tmp_elem_t)
    (e : ucp_proto_threshold_tmp_elem_t)
  : outcome (list ucp_proto_threshold_tmp_elem_t) :=
  if Z.of_nat (length thresh_list) <? UCP_PROTO_MAX_COUNT
  then Ok (thresh_list ++ [e])
  else Err UCS_ERR_NO_MEMORY.

Section Build.

(** Whether [ucs_assert] is compiled in. *)
Variable enable_assert : bool.

Definition ucp_proto_thresholds_append
    (thresh_list : list ucp_proto_threshold_tmp_elem_t)
    (max_length proto_id : Z)
  : outcome (list ucp_proto_threshold_tmp_elem_t) :=
  let new := {| tmp_max_length := max_length; tmp_proto_id := proto_id |} in
  match last thresh_list with
  | Some thresh_elem =>
      (* Consolidate with last protocol if possible *)
      ucs_assert enable_assert (tmp_max_length thresh_elem <? max_length)
        Assert_append_increasing
        (if tmp_proto_id thresh_elem =? proto_id
         then Ok (<[pred (length thresh_list) := new]> thresh_list)
         else ucs_array_append thresh_list new)
  | None => ucs_array_append thresh_list new
  end.

(** *** The lower envelope: [ucp_proto_thresholds_select_best] *)

(** The pair [best] (and [curr]) of the loop; [None] is
    [UCP_PROTO_ID_INVALID]. *)
Record best_t : Set := { best_proto_id : option Z; best_result : float }.

(** Find best protocol at the 'start' point: the first [ucs_for_each_bit]
    loop, over the bits that are left to visit. *)
Fixpoint find_best (ids : list Z) (proto_perf : Z -> ucs_linear_func_t)
    (x : float) (best : best_t) : outcome best_t :=
  match ids with
  | [] => Ok best
  | curr :: ids' =>
      let result := ucs_linear_func_apply (proto_perf curr) x in
      ucs_assert enable_assert (negb (result =? Double.DBL_MAX)%float)
        Assert_result_not_DBL_MAX
        (find_best ids' proto_perf x
           (if (result <? best_result best)%float
            then {| best_proto_id := Some curr; best_result := result |}
            else best))
  end.

(** One round of the second [ucs_for_each_bit] loop: the intersection of
    [curr] with the best protocol lowers [midpoint] when it lies after
    [start] and below [SIZE_MAX]. *)
Definition midpoint_step (proto_perf : Z -> ucs_linear_func_t)
    (best_id start midpoint curr : Z) : Z :=
  match ucs_linear_func_intersect (proto_perf curr) (proto_perf best_id) with
  | Some x_intersect =>
      if (Double.of_size_t start <? x_intersect)%float then
        if (x_intersect <? Double.of_size_t SIZE_MAX)%float
        then ucs_min (Double.to_size_t x_intersect) midpoint
        else midpoint
      else midpoint
  | None => midpoint
  end.

(** The [do ... while (midpoint < end)] loop; one unit of [fuel] per
    iteration. *)
Fixpoint select_best_loop (fuel : nat) (proto_mask : Z)
    (proto_perf : Z -> ucs_linear_func_t)
    (thresh_list : list ucp_proto_threshold_tmp_elem_t)
    (start end_ : Z) : outcome (list ucp_proto_threshold_tmp_elem_t) :=
  match fuel with
  | O => NoFuel
  | S fuel' =>
      ucs_assert enable_assert (negb (proto_mask =? 0))
        Assert_proto_mask_nonzero
        (let* best :=
           find_best (ucs_for_each_bit proto_mask) proto_perf
             (Double.of_size_t start + Double.UCP_PROTO_MSGLEN_EPSILON)%float
             {| best_proto_id := None; best_result := Double.DBL_MAX |} in
         match best_proto_id best with
         | None =>
             (* the assertion fails; without it the invalid id is used as a
                shift count and as an array index *)
             ucs_assert enable_assert false Assert_best_found Undefined
         | Some best_id =>
             let proto_mask' := mask_clear proto_mask best_id in
             let midpoint :=
               fold_left (midpoint_step proto_perf best_id start)
                         (ucs_for_each_bit proto_mask') end_ in
             let* thresh_list' :=
               ucp_proto_thresholds_append thresh_list midpoint best_id in
             if midpoint <? end_
             then select_best_loop fuel' proto_mask' proto_perf thresh_list'
                    (wrap64 (midpoint + 1)) end_
             else Ok thresh_list'
         end)
  end.

(** A mask holds at most 64 protocols, and every iteration removes one. *)
Definition ucp_proto_thresholds_select_best (proto_mask : Z)
    (proto_perf : Z -> ucs_linear_func_t)
    (thresh_list : list ucp_proto_threshold_tmp_elem_t)
    (start end_ : Z) : outcome (list ucp_proto_threshold_tmp_elem_t) :=
  select_best_loop (S (popcount proto_mask)) proto_mask proto_perf thresh_list
    start end_.

(** *** Range narrowing: [ucp_proto_thresholds_select_next] *)

(** The variables of the loop over the protocols. *)
Record select_next_state : Type := {
  valid_proto_mask : Z;   (* Valid protocols in the range *)
  forced_proto_mask : Z;  (* Protocols forced by user *)
  max_length : Z;
  proto_perf : Z -> ucs_linear_func_t
}.

(** The local array [proto_perf] is not initialized; only the entries of
    valid protocols, which the loop writes, are read. *)
Definition proto_perf_uninit : Z -> ucs_linear_func_t :=
  fun _ => {| func_c := 0; func_m := 0 |}.

Definition perf_set (proto_perf : Z -> ucs_linear_func_t) (proto_id : Z)
    (f : ucs_linear_func_t) : Z -> ucs_linear_func_t :=
  fun i => if i =? proto_id then f else proto_perf i.

(** Find first (and only) range which contains 'msg_length'. *)
Definition find_range (caps : ucp_proto_caps_t) (msg_length : Z)
  : option ucp_proto_perf_range_t :=
  List.find (fun r => msg_length <=? range_max_length r) (ranges caps).

(** Update 'max_length' by the maximal message length of the protocol. *)
Definition select_next_range (caps : ucp_proto_caps_t) (msg_length proto_id : Z)
    (st : select_next_state) : select_next_state :=
  match find_range caps msg_length with
  | Some r =>
      {| valid_proto_mask := mask_set (valid_proto_mask st) proto_id;
         forced_proto_mask := forced_proto_mask st;
         max_length := ucs_min (max_length st) (range_max_length r);
         proto_perf := perf_set (proto_perf st) proto_id (range_perf r) |}
  | None => st
  end.

(** Apply user threshold configuration. *)
Definition select_next_thresh (caps : ucp_proto_caps_t) (msg_length proto_id : Z)
    (st : select_next_state) : select_next_state :=
  if cfg_thresh caps =? UCS_MEMUNITS_AUTO then st
  else if cfg_thresh caps =? UCS_MEMUNITS_INF then
    (* 'inf' - protocol is disabled *)
    {| valid_proto_mask := mask_clear (valid_proto_mask st) proto_id;
       forced_proto_mask := forced_proto_mask st;
       max_length := max_length st;
       proto_perf := proto_perf st |}
  else if cfg_thresh caps <=? msg_length then
    (* The protocol is force-activated on 'msg_length' and above *)
    {| valid_proto_mask := valid_proto_mask st;
       forced_proto_mask := mask_set (forced_proto_mask st) proto_id;
       max_length := max_length st;
       proto_perf := proto_perf st |}
  else
    (* The protocol is completely disabled up to 'cfg_thresh' - 1 *)
    {| valid_proto_mask := mask_clear (valid_proto_mask st) proto_id;
       forced_proto_mask := forced_proto_mask st;
       max_length := ucs_min (max_length st) (wrap64 (cfg_thresh caps - 1));
       proto_perf := proto_perf st |}.

(** The body of the loop for one protocol. *)
Definition select_next_step (proto_caps : Z -> ucp_proto_caps_t)
    (msg_length : Z) (st : select_next_state) (proto_id : Z)
  : select_next_state :=
  let caps := proto_caps proto_id in
  (* Check if the protocol supports message length 'msg_length' *)
  if msg_length <? min_length caps then st
  else select_next_thresh caps msg_length proto_id
         (select_next_range caps msg_length proto_id st).

(** Find the valid and configured protocols starting from 'msg_length'. *)
Definition select_next_scan (proto_mask : Z)
    (proto_caps : Z -> ucp_proto_caps_t) (msg_length : Z)
  : select_next_state :=
  fold_left (select_next_step proto_caps msg_length)
    (ucs_for_each_bit proto_mask)
    {| valid_proto_mask := 0;
       forced_proto_mask := 0;
       max_length := SIZE_MAX;
       proto_perf := proto_perf_uninit |}.

(** If we have forced protocols by user-configured threshold, use only
    those. *)
Definition select_next_mask (st : select_next_state) : Z :=
  let forced := Z.land (forced_proto_mask st) (valid_proto_mask st) in
  if forced =? 0 then valid_proto_mask st else forced.

(** Select a protocol for 'msg_length', return last message length for the
    proto: the new list and [*max_length_p]. *)
Definition ucp_proto_thresholds_select_next (proto_mask : Z)
    (proto_caps : Z -> ucp_proto_caps_t)
    (thresh_list : list ucp_proto_threshold_tmp_elem_t) (msg_length : Z)
  : outcome (list ucp_proto_threshold_tmp_elem_t * Z) :=
  let st := select_next_scan proto_mask proto_caps msg_length in
  ucs_assert enable_assert (msg_length <=? max_length st)
    Assert_msg_length_le_max
    (if valid_proto_mask st =? 0 then Err UCS_ERR_UNSUPPORTED
     else
       let* thresh_list' :=
         ucp_proto_thresholds_select_best (select_next_mask st)
           (proto_perf st) thresh_list msg_length (max_length st) in
       Ok (thresh_list', max_length st)).

(** *** The sweep over all message sizes *)

(** The [do ... while (max_length < SIZE_MAX)] loop of
    [ucp_proto_select_elem_init_thresh]. *)
Fixpoint init_thresh_loop (fuel : nat) (proto_mask : Z)
    (proto_caps : Z -> ucp_proto_caps_t)
    (thresh_list : list ucp_proto_threshold_tmp_elem_t) (msg_length : Z)
  : outcome (list ucp_proto_threshold_tmp_elem_t) :=
  match fuel with
  | O => NoFuel
  | S fuel' =>
      let* r := ucp_proto_thresholds_select_next proto_mask proto_caps
                  thresh_list msg_length in
      let '(thresh_list', max_length) := r in
      if max_length <? SIZE_MAX
      then init_thresh_loop fuel' proto_mask proto_caps thresh_list'
             (wrap64 (max_length + 1))
      else Ok thresh_list'
  end.

End Build.

(** ** Selection elements *)

(** [ucp_proto_select_param_t] is read through the union
    [ucp_proto_select_key_t] as the 64-bit word [key.u64]. *)
Definition ucp_proto_select_param_t : Set := Z.

(** [ucp_proto_select_init_protocols_t]; [priv_buf] is the size of the
    buffer, [None] for a null pointer. *)
Record ucp_proto_select_init_protocols_t : Type := {
  select_param : ucp_proto_select_param_t;
  mask : Z;
  caps : Z -> ucp_proto_caps_t;
  priv_buf : option Z;
  priv_offsets : Z -> Z
}.

(** [ucp_proto_config_t]: the protocol is its index in [ucp_protocols], the
    private area its offset in [priv_buf]. *)
Record ucp_proto_config_t : Set := {
  config_select_param : ucp_proto_select_param_t;
  config_proto : Z;
  config_priv : Z
}.

(** [ucp_proto_threshold_elem_t]. *)
Record ucp_proto_threshold_elem_t : Set := {
  max_msg_length : Z;
  proto_config : ucp_proto_config_t
}.

(** [ucp_proto_select_elem_t]. *)
Record ucp_proto_select_elem_t : Set := {
  thresholds : list ucp_proto_threshold_elem_t;
  elem_priv_buf : option Z
}.

(** *** Threshold lookup: [ucp_proto_thresholds_search_slow] *)

(** The [for] loop over [idx]; reading [thresholds[idx]] past the array is
    undefined. *)
Fixpoint search_slow_loop (fuel : nat)
    (thresholds : list ucp_proto_threshold_elem_t) (msg_length : Z)
    (idx : nat) : outcome (nat * ucp_proto_threshold_elem_t) :=
  match fuel with
  | O => NoFuel
  | S fuel' =>
      match thresholds !! idx with
      | None => Undefined
      | Some e =>
          if max_msg_length e <? msg_length
          then search_slow_loop fuel' thresholds msg_length (S idx)
          else Ok (idx, e)
      end
  end.

(** The index reached and the element [&thresholds[idx]] points to. *)
Definition ucp_proto_thresholds_search_slow
    (thresholds : list ucp_proto_threshold_elem_t) (msg_length : Z)
  : outcome (nat * ucp_proto_threshold_elem_t) :=
  search_slow_loop (S (length thresholds)) thresholds msg_length 0.

(** *** Building the thresholds: [ucp_proto_select_elem_init_thresh] *)

(** The message lengths at which a narrowing step can end: the range ends
    and the configured thresholds of the protocols of the mask. *)
Definition breakpoints (proto_mask : Z) (proto_caps : Z -> ucp_proto_caps_t)
  : list Z :=
  flat_map (fun proto_id =>
              wrap64 (cfg_thresh (proto_caps proto_id) - 1)
              :: map range_max_length (ranges (proto_caps proto_id)))
           (ucs_for_each_bit proto_mask).

(** Every step of the sweep ends at a later breakpoint, or at [SIZE_MAX]. *)
Definition sweep_bound (proto_mask : Z) (proto_caps : Z -> ucp_proto_caps_t)
  : nat :=
  S (length (breakpoints proto_mask proto_caps)).

(** Copy the temporary thresholds list to an array inside select_elem. *)
Definition copy_thresh (proto_init : ucp_proto_select_init_protocols_t)
    (tmp_elem : ucp_proto_threshold_tmp_elem_t) : ucp_proto_threshold_elem_t :=
  let proto_id := tmp_proto_id tmp_elem in
  {| max_msg_length := tmp_max_length tmp_elem;
     proto_config :=
       {| config_select_param := select_param proto_init;
          config_proto := proto_id;
          config_priv := priv_offsets proto_init proto_id |} |}.

(** The heap allocations of the file, each of which can fail. *)
Inductive allocation : Set :=
| Alloc_proto_init      (* ucs_malloc of the proto_init structure *)
| Alloc_priv_buf        (* ucs_malloc(ucp_protocols_count * UCP_PROTO_PRIV_MAX) *)
| Realloc_priv_buf      (* ucs_realloc(proto_init->priv_buf, offset) *)
| Alloc_thresholds.     (* ucs_calloc(ucs_array_length(&tmp_thresh_list), ...) *)

(** *** The protocol registry and the worker *)

(** [ucp_worker_h], as far as this file reads it:
    [worker->rkey_config[i].key.ep_cfg_index]. *)
Record ucp_worker_t : Type := {
  rkey_config_ep_cfg_index : Z -> Z
}.

(** [ucp_proto_init_params_t], without the output pointers; the
    configuration keys are named by their indices, [None] for a null
    [rkey_config_key]. *)
Record ucp_proto_init_params_t : Type := {
  init_worker : ucp_worker_t;
  init_select_param : ucp_proto_select_param_t;
  init_ep_config_key : Z;
  init_rkey_config_key : option Z
}.

(** An entry of [ucp_protocols]: the [init] callback either fails or fills
    in the capabilities and [*priv_size]. *)
Record ucp_proto_t : Type := {
  proto_init : ucp_proto_init_params_t -> option (ucp_proto_caps_t * Z)
}.

Definition caps_set (caps : Z -> ucp_proto_caps_t) (proto_id : Z)
    (c : ucp_proto_caps_t) : Z -> ucp_proto_caps_t :=
  fun i => if i =? proto_id then c else caps i.

Definition offsets_set (priv_offsets : Z -> Z) (proto_id offset : Z)
  : Z -> Z :=
  fun i => if i =? proto_id then offset else priv_offsets i.

(** The fields of a [ucp_proto_select_init_protocols_t] that are not yet
    written. *)
Definition caps_uninit : Z -> ucp_proto_caps_t :=
  fun _ => {| cfg_thresh := 0; min_length := 0; ranges := [] |}.

Definition offsets_uninit : Z -> Z := fun _ => 0.

Section Selection.

Variable enable_assert : bool.

(** Which allocations succeed. *)
Variable alloc_ok : allocation -> bool.

(** The registry [ucp_protocols]; [ucp_protocols_count] is its length. *)
Variable ucp_protocols : list ucp_proto_t.

(** The null configuration index, defined in a header that is not under
    src/. *)
Variable UCP_WORKER_CFG_INDEX_NULL : Z.

Definition ucp_protocols_count : nat := length ucp_protocols.

(** The variables of the loop of [ucp_proto_select_init_protocols]:
    [proto_init->mask], [caps], [priv_offsets] and [offset]. *)
Record init_protocols_state : Type := {
  ip_mask : Z;
  ip_caps : Z -> ucp_proto_caps_t;
  ip_priv_offsets : Z -> Z;
  ip_offset : Z
}.

(** Initialize one protocol and get its capabilities. *)
Definition init_protocols_step (init_params : ucp_proto_init_params_t)
    (st : init_protocols_state) (p : Z * ucp_proto_t) : init_protocols_state :=
  let '(proto_id, proto) := p in
  match proto_init proto init_params with
  | None => st
  | Some (c, priv_size) =>
      {| ip_mask := mask_set (ip_mask st) proto_id;
         ip_caps := caps_set (ip_caps st) proto_id c;
         ip_priv_offsets := offsets_set (ip_priv_offsets st) proto_id (ip_offset st);
         ip_offset := wrap64 (ip_offset st + priv_size) |}
  end.

Definition ucp_proto_select_init_protocols (worker : ucp_worker_t)
    (ep_cfg_index rkey_cfg_index : Z)
    (select_param : ucp_proto_select_param_t)
  : outcome ucp_proto_select_init_protocols_t :=
  ucs_assert enable_assert (negb (ep_cfg_index =? UCP_WORKER_CFG_INDEX_NULL))
    Assert_ep_cfg_index
    (ucs_assert_always
       ((rkey_cfg_index =? UCP_WORKER_CFG_INDEX_NULL)
        || (rkey_config_ep_cfg_index worker rkey_cfg_index =? ep_cfg_index))
       Assert_rkey_ep_cfg_index
       (let init_params :=
          {| init_worker := worker;
             init_select_param := select_param;
             init_ep_config_key := ep_cfg_index;
             init_rkey_config_key :=
               if rkey_cfg_index =? UCP_WORKER_CFG_INDEX_NULL then None
               else Some rkey_cfg_index |} in
        if negb (alloc_ok Alloc_priv_buf) then Err UCS_ERR_NO_MEMORY
        else
          let st :=
            fold_left (init_protocols_step init_params)
              (combine (map Z.of_nat (seq 0 ucp_protocols_count)) ucp_protocols)
              {| ip_mask := 0;
                 ip_caps := caps_uninit;
                 ip_priv_offsets := offsets_uninit;
                 ip_offset := 0 |} in
          if ip_mask st =? 0 then
            (* No protocol can support the given selection parameters *)
            Err UCS_ERR_NO_ELEM
          else if ip_offset st =? 0 then
            Ok {| select_param := select_param;
                  mask := ip_mask st;
                  caps := ip_caps st;
                  priv_buf := None;
                  priv_offsets := ip_priv_offsets st |}
          else if alloc_ok Realloc_priv_buf then
            Ok {| select_param := select_param;
                  mask := ip_mask st;
                  caps := ip_caps st;
                  priv_buf := Some (ip_offset st);
                  priv_offsets := ip_priv_offsets st |}
          else Err UCS_ERR_NO_MEMORY)).


Definition ucp_proto_select_elem_init_thresh
    (proto_init : ucp_proto_select_init_protocols_t)
  : outcome ucp_proto_select_elem_t :=
  let* tmp_thresh_list :=
    init_thresh_loop enable_assert
      (sweep_bound (mask proto_init) (caps proto_init))
      (mask proto_init) (caps proto_init) [] 0 in
  ucs_assert_always (negb (Nat.eqb (length tmp_thresh_list) 0))
    Assert_thresh_list_nonempty
    (if alloc_ok Alloc_thresholds
     then Ok {| thresholds := map (copy_thresh proto_init) tmp_thresh_list;
                elem_priv_buf := priv_buf proto_init |}
     else Err UCS_ERR_NO_MEMORY).

Definition ucp_proto_select_elem_init (worker : ucp_worker_t)
    (ep_cfg_index rkey_cfg_index : Z)
    (select_param : ucp_proto_select_param_t)
  : outcome ucp_proto_select_elem_t :=
  if negb (alloc_ok Alloc_proto_init) then Err UCS_ERR_NO_MEMORY
  else
    let* proto_init :=
      ucp_proto_select_init_protocols worker ep_cfg_index rkey_cfg_index
        select_param in
    ucp_proto_select_elem_init_thresh proto_init.

End Selection.

(** ** The selection cache *)

(** A value slot of the hash: [kh_put] leaves the value of a new bucket
    unwritten. *)
Inductive slot : Set :=
| Slot_uninit
| Slot_elem (select_elem : ucp_proto_select_elem_t).

(** The result code of [kh_put]. *)
Inductive ucs_kh_put_t : Set :=
| UCS_KH_PUT_FAILED
| UCS_KH_PUT_KEY_PRESENT
| UCS_KH_PUT_BUCKET_EMPTY
| UCS_KH_PUT_BUCKET_CLEAR.

(** What an insertion meets inside the table, which the map does not show:
    whether growing the table succeeds, and whether the bucket found for a
    new key held a deleted one. *)
Record kh_put_oracle : Set := {
  kh_resize_ok : bool;
  kh_bucket_deleted : bool
}.

(** The operations on a [ucp_proto_select_t], in program order. *)
Inductive event : Set :=
| Ev_kh_put (key : Z)
| Ev_cache_reset
| Ev_kh_value (khiter : Z)
| Ev_elem_init
| Ev_kh_del (khiter : Z).

(** [ucp_proto_select_t]: the hash from [key.u64] to the value slot and the
    one-entry cache.  A pointer to a value of the hash is the key of its
    bucket; [None] is the null pointer.  [trace] is a ghost field that
    records the operations applied so far, latest last. *)
Record ucp_proto_select_t : Type := {
  hash : gmap Z slot;
  cache_key : Z;
  cache_value : option Z;
  trace : list event
}.

(** Modelled from the spec: [kh_put] of the hash library, which is not under
    src/; "Insert params into the hash (allocates/rehashes as needed,
    yielding a value slot)".  The iterator of a bucket is its key. *)
Definition kh_put (h : gmap Z slot) (key : Z) (o : kh_put_oracle)
  : option Z * ucs_kh_put_t * gmap Z slot :=
  if negb (kh_resize_ok o) then (None, UCS_KH_PUT_FAILED, h)
  else match h !! key with
       | Some _ => (Some key, UCS_KH_PUT_KEY_PRESENT, h)
       | None =>
           (Some key,
            if kh_bucket_deleted o then UCS_KH_PUT_BUCKET_CLEAR
            else UCS_KH_PUT_BUCKET_EMPTY,
            <[key := Slot_uninit]> h)
       end.

(** Modelled from the spec: [kh_del] of the hash library, which is not under
    src/; "On failure, delete the slot". *)
Definition kh_del (h : gmap Z slot) (khiter : Z) : gmap Z slot :=
  delete khiter h.

Definition ucp_proto_select_cache_reset (proto_select : ucp_proto_select_t)
  : ucp_proto_select_t :=
  {| hash := hash proto_select;
     cache_key := UINT64_MAX;
     cache_value := None;
     trace := trace proto_select ++ [Ev_cache_reset] |}.

Definition ucp_proto_select_init : ucs_status_t * ucp_proto_select_t :=
  (UCS_OK,
   ucp_proto_select_cache_reset
     {| hash := ∅; cache_key := 0; cache_value := None; trace := [] |}).

Definition khret_is_fresh (khret : ucs_kh_put_t) : bool :=
  match khret with
  | UCS_KH_PUT_BUCKET_EMPTY | UCS_KH_PUT_BUCKET_CLEAR => true
  | _ => false
  end.

Section Lookup.

Variable enable_assert : bool.
Variable alloc_ok : allocation -> bool.
Variable ucp_protocols : list ucp_proto_t.
Variable UCP_WORKER_CFG_INDEX_NULL : Z.

(** The pointer returned ([None] for [NULL]) and the selection context
    after the call. *)
Definition ucp_proto_select_lookup_slow (worker : ucp_worker_t)
    (proto_select : ucp_proto_select_t) (ep_cfg_index rkey_cfg_index : Z)
    (select_param : ucp_proto_select_param_t) (o : kh_put_oracle)
  : outcome (option Z * ucp_proto_select_t) :=
  let key := select_param in
  let '(khiter, khret, h) := kh_put (hash proto_select) key o in
  let proto_select :=
    {| hash := h;
       cache_key := cache_key proto_select;
       cache_value := cache_value proto_select;
       trace := trace proto_select ++ [Ev_kh_put key] |} in
  ucs_assert_always (khret_is_fresh khret) Assert_khret_fresh
    (* Adding hash values may reallocate the array, so the cached pointer
       to select_elem may not be valid anymore. *)
    (let proto_select := ucp_proto_select_cache_reset proto_select in
     match khiter with
     | None => Undefined
     | Some khiter =>
         let proto_select :=
           {| hash := hash proto_select;
              cache_key := cache_key proto_select;
              cache_value := cache_value proto_select;
              trace := trace proto_select ++ [Ev_kh_value khiter; Ev_elem_init] |} in
         match ucp_proto_select_elem_init enable_assert alloc_ok ucp_protocols
                 UCP_WORKER_CFG_INDEX_NULL worker ep_cfg_index rkey_cfg_index
                 select_param with
         | Ok select_elem =>
             Ok (Some khiter,
                 {| hash := <[khiter := Slot_elem select_elem]> (hash proto_select);
                    cache_key := cache_key proto_select;
                    cache_value := cache_value proto_select;
                    trace := trace proto_select |})
         | Err _ =>
             Ok (None,
                 {| hash := kh_del (hash proto_select) khiter;
                    cache_key := cache_key proto_select;
                    cache_value := cache_value proto_select;
                    trace := trace proto_select ++ [Ev_kh_del khiter] |})
         | Fatal a => Fatal a
         | Undefined => Undefined
         | NoFuel => NoFuel
         end
     end).

End Lookup.

(** * Properties *)

Lemma ucs_min_eq a b : ucs_min a b = Z.min a b.
Proof. unfold ucs_min. destruct (Z.ltb_spec a b); lia. Qed.

(** ** Double precision *)

(** The conversion agrees with the rounding of [SpecFloat] and with the
    primitive conversion on sample points, among them ties and the carry
    into the next binade. *)
Example size_t_to_SF_samples :
  forallb (fun z => match SFcompare (Double.size_t_to_SF z)
                             (binary_normalize prec emax z 0 false) with
                    | Some Eq => true | _ => false end)
          [0; 1; 2; 3; 1024; 2 ^ 52; 2 ^ 53 - 1; 2 ^ 53; 2 ^ 53 + 1;
           2 ^ 53 + 2; 2 ^ 53 + 3; 2 ^ 54 + 2; 2 ^ 54 + 6; 2 ^ 54 - 1;
           2 ^ 63; 2 ^ 63 + 1024; 2 ^ 63 + 1025; 2 ^ 63 + 3072;
           2 ^ 64 - 1024; 2 ^ 64 - 1025; 2 ^ 64 - 1] = true.
Proof. vm_compute. reflexivity. Qed.

(** ** Facts on binary64 values

    What the selection needs of the arithmetic is little: the order is a
    strict order, and a double that compares above [(double)start] and
    below [(double)SIZE_MAX] truncates to a [size_t] that is at least
    [start]. *)

Lemma digits2_pos_bounds (p : positive) :
  2 ^ (Zpos (digits2_pos p) - 1) <= Zpos p < 2 ^ Zpos (digits2_pos p).
Proof.
  induction p as [p IH | p IH |]; simpl digits2_pos.
  - rewrite Pos2Z.inj_succ. change (Zpos p~1) with (2 * Zpos p + 1).
    replace (Z.succ (Zpos (digits2_pos p)) - 1)
      with (Z.succ (Zpos (digits2_pos p) - 1)) by lia.
    rewrite !Z.pow_succ_r by lia.
    set (a := 2 ^ (Zpos (digits2_pos p) - 1)) in *.
    set (b := 2 ^ Zpos (digits2_pos p)) in *. lia.
  - rewrite Pos2Z.inj_succ. change (Zpos p~0) with (2 * Zpos p).
    replace (Z.succ (Zpos (digits2_pos p)) - 1)
      with (Z.succ (Zpos (digits2_pos p) - 1)) by lia.
    rewrite !Z.pow_succ_r by lia.
    set (a := 2 ^ (Zpos (digits2_pos p) - 1)) in *.
    set (b := 2 ^ Zpos (digits2_pos p)) in *. lia.
  - simpl. lia.
Qed.

(** A valid positive binary64 number has a mantissa below [2^53], and a
    full 53-bit mantissa unless it is subnormal. *)
Lemma valid_binary_finite (s : bool) (m : positive) (e : Z) :
  valid_binary (S754_finite s m e) = true ->
  Zpos m < 2 ^ 53 /\ e <= 971 /\ (e = -1074 \/ 2 ^ 52 <= Zpos m).
Proof.
  unfold valid_binary, SpecFloat.valid_binary, bounded, canonical_mantissa, fexp.
  change (SpecFloat.emin prec emax) with (-1074).
  change prec with 53. change emax with 1024.
  intros H. apply andb_true_iff in H. destruct H as [Hc He].
  apply Z.eqb_eq in Hc. apply Z.leb_le in He.
  pose proof (digits2_pos_bounds m) as [Hlo Hhi].
  set (d := Zpos (digits2_pos m)) in *.
  assert (Hd : d <= 53) by lia.
  split; [| split; [lia |]].
  - eapply Z.lt_le_trans; [exact Hhi |].
    apply Z.pow_le_mono_r; lia.
  - destruct (Z.eq_dec e (-1074)) as [| Hne]; [now left | right].
    assert (d = 53) by lia.
    replace (d - 1) with 52 in Hlo by lia. exact Hlo.
Qed.

Lemma size_t_to_SF_finite (z : Z) :
  0 < z < 2 ^ 64 ->
  exists m e,
    Double.size_t_to_SF z = S754_finite false m e /\
    2 ^ 52 <= Zpos m < 2 ^ 53 /\ -52 <= e <= 12 /\
    z <= Z.shiftl (Zpos m + 1) e /\ z <= 2 ^ (53 + e).
Proof.
  intros [Hz0 Hz64].
  destruct z as [| p |]; try lia.
  unfold Double.size_t_to_SF.
  set (z := Zpos p) in *.
  pose proof (Z.log2_spec z Hz0) as [Hlo Hhi].
  pose proof (Z.log2_nonneg z) as Hl0.
  assert (Hl64 : Z.log2 z < 64) by (apply Z.log2_lt_pow2; lia).
  rewrite <- Z.add_1_r in Hhi.
  set (d := Z.log2 z + 1) in *.
  replace (Z.log2 z) with (d - 1) in Hlo by lia.
  cbv zeta.
  destruct (Z.leb_spec d 53) as [Hd | Hd].
  - (* the value is representable *)
    set (k := 53 - d).
    assert (Hk : 0 <= k) by lia.
    assert (Hpk : 0 < 2 ^ k) by (apply Z.pow_pos_nonneg; lia).
    assert (H52 : 2 ^ 52 = 2 ^ (d - 1) * 2 ^ k)
      by (rewrite <- Z.pow_add_r by lia; f_equal; lia).
    assert (H53 : 2 ^ 53 = 2 ^ d * 2 ^ k)
      by (rewrite <- Z.pow_add_r by lia; f_equal; lia).
    exists (Z.to_pos (z * 2 ^ k)), (d - 53).
    split; [reflexivity |].
    rewrite Z2Pos.id by nia.
    split; [nia |]. split; [lia |]. split.
    + replace (d - 53) with (- k) by lia.
      rewrite Z.shiftl_opp_r, Z.shiftr_div_pow2 by lia.
      apply Z.div_le_lower_bound; lia.
    + replace (53 + (d - 53)) with d by lia. lia.
  - (* the low bits are rounded away *)
    set (sh := d - 53).
    assert (Hsh : 1 <= sh <= 11) by lia.
    assert (Hpsh : 0 < 2 ^ sh) by (apply Z.pow_pos_nonneg; lia).
    pose proof (Z.div_mod z (2 ^ sh) ltac:(lia)) as Hdm.
    pose proof (Z.mod_pos_bound z (2 ^ sh) Hpsh) as Hr.
    set (q := z / 2 ^ sh) in *. set (r := z mod 2 ^ sh) in *.
    assert (Hd1 : 2 ^ (d - 1) = 2 ^ 52 * 2 ^ sh)
      by (rewrite <- Z.pow_add_r by lia; f_equal; lia).
    assert (Hd2 : 2 ^ d = 2 ^ 53 * 2 ^ sh)
      by (rewrite <- Z.pow_add_r by lia; f_equal; lia).
    assert (Hq : 2 ^ 52 <= q < 2 ^ 53) by nia.
    set (q' := if (r <? 2 ^ (sh - 1)) || ((r =? 2 ^ (sh - 1)) && Z.even q)
               then q else q + 1).
    assert (Hq' : q' = q \/ q' = q + 1)
      by (unfold q'; destruct (_ || _); auto).
    destruct (Z.eqb_spec q' (2 ^ 53)) as [Hc | Hc].
    + exists (Z.to_pos (2 ^ 52)), (sh + 1).
      split; [reflexivity |].
      rewrite Z2Pos.id by lia.
      split; [lia |]. split; [lia |].
      assert (Hs1 : 2 ^ (sh + 1) = 2 * 2 ^ sh)
        by (rewrite Z.pow_add_r by lia; lia).
      split.
      * rewrite Z.shiftl_mul_pow2 by lia. nia.
      * replace (53 + (sh + 1)) with (d + 1) by lia.
        rewrite Z.pow_add_r by lia. lia.
    + exists (Z.to_pos q'), sh.
      split; [reflexivity |].
      rewrite Z2Pos.id by lia.
      split; [lia |]. split; [lia |]. split.
      * rewrite Z.shiftl_mul_pow2 by lia. nia.
      * replace (53 + sh) with d by lia. lia.
Qed.

Lemma size_t_to_SF_valid (z : Z) :
  0 <= z < 2 ^ 64 -> valid_binary (Double.size_t_to_SF z) = true.
Proof.
  intros Hz.
  destruct (Z.eq_dec z 0) as [-> | Hne]; [reflexivity |].
  destruct (size_t_to_SF_finite z ltac:(lia)) as (m & e & -> & Hm & He & _).
  unfold valid_binary, SpecFloat.valid_binary, bounded, canonical_mantissa, fexp.
  change (SpecFloat.emin prec emax) with (-1074).
  change prec with 53. change emax with 1024.
  pose proof (digits2_pos_bounds m) as [Hlo Hhi].
  set (d := Zpos (digits2_pos m)) in *.
  assert (Hd : d = 53).
  { destruct (Z.lt_trichotomy d 53) as [Hlt | [Heq | Hgt]]; [| exact Heq |].
    - assert (2 ^ d <= 2 ^ 52) by (apply Z.pow_le_mono_r; lia). lia.
    - assert (2 ^ 53 <= 2 ^ (d - 1)) by (apply Z.pow_le_mono_r; lia). lia. }
  apply andb_true_iff. split.
  - apply Z.eqb_eq. lia.
  - apply Z.leb_le. lia.
Qed.

Lemma Prim2SF_of_size_t (z : Z) :
  0 <= z < 2 ^ 64 -> Prim2SF (Double.of_size_t z) = Double.size_t_to_SF z.
Proof.
  intros Hz. unfold Double.of_size_t.
  apply Prim2SF_SF2Prim, size_t_to_SF_valid, Hz.
Qed.

Lemma shiftl_mono (a b e : Z) :
  0 <= a <= b -> Z.shiftl a e <= Z.shiftl b e.
Proof.
  intros Hab. destruct (Z.le_gt_cases 0 e) as [He | He].
  - rewrite !Z.shiftl_mul_pow2 by lia.
    apply Z.mul_le_mono_nonneg_r; [apply Z.pow_nonneg|]; lia.
  - replace e with (- - e) by lia.
    rewrite !Z.shiftl_opp_r, !Z.shiftr_div_pow2 by lia.
    apply Z.div_le_mono; [apply Z.pow_pos_nonneg|]; lia.
Qed.

Lemma shiftl_normal_lower (m e : Z) :
  2 ^ 52 <= m -> -52 <= e -> 2 ^ (52 + e) <= Z.shiftl m e.
Proof.
  intros Hm He. destruct (Z.le_gt_cases 0 e) as [He0 | He0].
  - rewrite Z.shiftl_mul_pow2, Z.pow_add_r by lia.
    apply Z.mul_le_mono_nonneg_r; [apply Z.pow_nonneg|]; lia.
  - replace e with (- - e) at 2 by lia.
    rewrite Z.shiftl_opp_r, Z.shiftr_div_pow2 by lia.
    apply Z.div_le_lower_bound; [apply Z.pow_pos_nonneg; lia |].
    rewrite <- Z.pow_add_r by lia.
    replace (- e + (52 + e)) with 52 by lia. exact Hm.
Qed.

Lemma shiftl_below_two64 (m e : Z) :
  0 < m < 2 ^ 53 -> e <= 11 -> 0 <= Z.shiftl m e < 2 ^ 64.
Proof.
  intros Hm He. split; [apply Z.shiftl_nonneg; lia |].
  eapply Z.le_lt_trans; [apply (shiftl_mono m (2 ^ 53 - 1) e); lia |].
  destruct (Z.le_gt_cases 0 e) as [He0 | He0].
  - rewrite Z.shiftl_mul_pow2 by lia.
    assert (0 < 2 ^ e <= 2 ^ 11)
      by (split; [apply Z.pow_pos_nonneg | apply Z.pow_le_mono_r]; lia).
    change (2 ^ 64) with (2 ^ 53 * 2 ^ 11). nia.
  - replace e with (- - e) by lia.
    rewrite Z.shiftl_opp_r, Z.shiftr_div_pow2 by lia.
    assert (1 <= 2 ^ (- e)) by (apply (Z.pow_le_mono_r 2 0); lia).
    eapply Z.le_lt_trans;
      [apply Z.div_le_upper_bound with (q := 2 ^ 53 - 1) |]; nia.
Qed.

Lemma to_size_t_nonneg (x : float) : 0 <= Double.to_size_t x.
Proof.
  unfold Double.to_size_t.
  destruct (Prim2SF x) as [| | | [] m e]; try lia.
  apply Z.shiftl_nonneg; lia.
Qed.

(** [x_intersect < (double)SIZE_MAX] bounds the converted value. *)
Lemma to_size_t_below_SIZE_MAX (x : float) :
  (x <? Double.of_size_t SIZE_MAX)%float = true ->
  Double.to_size_t x <= SIZE_MAX.
Proof.
  rewrite ltb_spec, Prim2SF_of_size_t by (unfold SIZE_MAX; lia).
  unfold Double.to_size_t.
  pose proof (Prim2SF_valid x) as Hv.
  destruct (Prim2SF x) as [| | | [] m e]; try (unfold SIZE_MAX; lia).
  apply valid_binary_finite in Hv. destruct Hv as (Hm & _ & Hn).
  change (Double.size_t_to_SF SIZE_MAX)
    with (S754_finite false (Z.to_pos (2 ^ 52)) 12).
  unfold SFltb, SFcompare. intros H.
  assert (He : e <= 11).
  { destruct (Z.compare_spec e 12) as [-> | Hlt | Hgt]; try discriminate; [| lia].
    exfalso. destruct Hn as [Hn | Hn]; [lia |].
    fold (Pos.compare m (Z.to_pos (2 ^ 52))) in H.
    destruct (Pos.compare_spec m (Z.to_pos (2 ^ 52))) as [| Hlt |];
      try discriminate.
    apply Pos2Z.pos_lt_pos in Hlt. rewrite Z2Pos.id in Hlt; lia. }
  pose proof (shiftl_below_two64 (Zpos m) e ltac:(lia) He).
  unfold SIZE_MAX. lia.
Qed.

(** The guard [x_intersect > start] of the lower-envelope loop: a midpoint
    taken from such an intersection is never before [start]. *)
Lemma to_size_t_above_start (start : Z) (x : float) :
  0 <= start <= SIZE_MAX ->
  (Double.of_size_t start <? x)%float = true ->
  (x <? Double.of_size_t SIZE_MAX)%float = true ->
  start <= Double.to_size_t x.
Proof.
  intros Hs Hgt Hlt.
  destruct (Z.eq_dec start 0) as [-> | Hne]; [apply to_size_t_nonneg |].
  revert Hgt Hlt.
  rewrite !ltb_spec, !Prim2SF_of_size_t by (unfold SIZE_MAX in *; lia).
  unfold Double.to_size_t.
  pose proof (Prim2SF_valid x) as Hv.
  destruct (size_t_to_SF_finite start ltac:(unfold SIZE_MAX in *; lia))
    as (mD & eD & -> & HmD & HeD & Hup & Hpow).
  change (Double.size_t_to_SF SIZE_MAX)
    with (S754_finite false (Z.to_pos (2 ^ 52)) 12).
  destruct (Prim2SF x) as [sx | sx | | sx m e]; unfold SFltb, SFcompare.
  - discriminate.
  - destruct sx; discriminate.
  - discriminate.
  - apply valid_binary_finite in Hv. destruct Hv as (Hm & _ & Hn).
    destruct sx; [discriminate |].
    intros Hgt _.
    destruct (Z.compare_spec eD e) as [<- | Hlt | Hgt']; try discriminate.
    + (* same exponent, larger mantissa *)
      fold (Pos.compare mD m) in Hgt.
      destruct (Pos.compare_spec mD m) as [| Hlt |]; try discriminate.
      apply Pos2Z.pos_lt_pos in Hlt.
      etransitivity; [exact Hup |].
      apply shiftl_mono. lia.
    + (* larger exponent: a normal number of a later binade *)
      destruct Hn as [Hn | Hn]; [lia |].
      etransitivity; [exact Hpow |].
      etransitivity; [| apply shiftl_normal_lower; lia].
      apply Z.pow_le_mono_r; lia.
Qed.

(** *** The order of binary64 values

    [SFcompare] is the lexicographic order of a key: the sign class, then
    the exponent, then the mantissa.  A NaN has no key and compares with
    nothing. *)

Definition sf_key (x : spec_float) : option (Z * Z * Z) :=
  match x with
  | S754_nan => None
  | S754_zero _ => Some (0, 0, 0)
  | S754_infinity s => Some (if s then -2 else 2, 0, 0)
  | S754_finite s m e =>
      if s then Some (-1, - e, Zneg m) else Some (1, e, Zpos m)
  end.

Definition lex3 (a b : Z * Z * Z) : comparison :=
  match fst (fst a) ?= fst (fst b) with
  | Eq => match snd (fst a) ?= snd (fst b) with
          | Eq => snd a ?= snd b
          | c => c
          end
  | c => c
  end.

Lemma SFcompare_key (x y : spec_float) :
  SFcompare x y =
  match sf_key x, sf_key y with
  | Some a, Some b => Some (lex3 a b)
  | _, _ => None
  end.
Proof.
  destruct x as [sx | sx | | sx mx ex], y as [sy | sy | | sy my ey];
    try destruct sx; try destruct sy; try reflexivity.
  simpl. unfold lex3. simpl.
  rewrite Z.compare_opp, (Z.compare_antisym ex ey).
  destruct (ex ?= ey); reflexivity.
Qed.

Lemma lex3_Lt (a b : Z * Z * Z) :
  lex3 a b = Lt <->
  fst (fst a) < fst (fst b) \/
  (fst (fst a) = fst (fst b) /\
   (snd (fst a) < snd (fst b) \/
    (snd (fst a) = snd (fst b) /\ snd a < snd b))).
Proof.
  unfold lex3.
  destruct (Z.compare_spec (fst (fst a)) (fst (fst b)));
    destruct (Z.compare_spec (snd (fst a)) (snd (fst b)));
    destruct (Z.compare_spec (snd a) (snd b));
    split; intros; try discriminate; try reflexivity; lia.
Qed.

Lemma lex3_Eq (a b : Z * Z * Z) :
  lex3 a b = Eq <->
  fst (fst a) = fst (fst b) /\ snd (fst a) = snd (fst b) /\ snd a = snd b.
Proof.
  unfold lex3.
  destruct (Z.compare_spec (fst (fst a)) (fst (fst b)));
    destruct (Z.compare_spec (snd (fst a)) (snd (fst b)));
    destruct (Z.compare_spec (snd a) (snd b));
    split; intros; try discriminate; try reflexivity; lia.
Qed.

Lemma ltb_key (x y : float) :
  (x <? y)%float = true <->
  exists a b, sf_key (Prim2SF x) = Some a /\ sf_key (Prim2SF y) = Some b /\
              lex3 a b = Lt.
Proof.
  rewrite ltb_spec. unfold SFltb. rewrite SFcompare_key.
  destruct (sf_key (Prim2SF x)) as [a |], (sf_key (Prim2SF y)) as [b |];
    split; try discriminate;
    try (intros (a' & b' & Ha & Hb & _); discriminate).
  - intros H. exists a, b. destruct (lex3 a b); try discriminate. auto.
  - intros (a' & b' & Ha & Hb & Hl). injection Ha as <-. injection Hb as <-.
    rewrite Hl. reflexivity.
Qed.

Lemma leb_key (x y : float) :
  (x <=? y)%float = true <->
  exists a b, sf_key (Prim2SF x) = Some a /\ sf_key (Prim2SF y) = Some b /\
              (lex3 a b = Lt \/ lex3 a b = Eq).
Proof.
  rewrite leb_spec. unfold SFleb. rewrite SFcompare_key.
  destruct (sf_key (Prim2SF x)) as [a |], (sf_key (Prim2SF y)) as [b |];
    split; try discriminate;
    try (intros (a' & b' & Ha & Hb & _); discriminate).
  - intros H. exists a, b. destruct (lex3 a b); try discriminate; auto.
  - intros (a' & b' & Ha & Hb & Hl). injection Ha as <-. injection Hb as <-.
    destruct Hl as [-> | ->]; reflexivity.
Qed.

Lemma ltb_irrefl (x : float) : (x <? x)%float = false.
Proof.
  apply not_true_is_false. intros H.
  apply ltb_key in H as (a & b & Ha & Hb & Hl).
  rewrite Ha in Hb. injection Hb as <-. apply lex3_Lt in Hl. lia.
Qed.

(** If [x < y] and [z] is not below [y], then [z] is not at or below [x]. *)
Lemma ltb_not_leb (x y z : float) :
  (x <? y)%float = true -> (z <? y)%float = false -> (z <=? x)%float = false.
Proof.
  intros Hxy Hzy. apply not_true_is_false. intros Hzx.
  apply ltb_key in Hxy as (a & b & Ha & Hb & Hab).
  apply leb_key in Hzx as (c & a' & Hc & Ha' & Hca).
  rewrite Ha in Ha'. injection Ha' as <-.
  assert (Hcb : (z <? y)%float = true).
  { apply ltb_key. exists c, b. split; [exact Hc |]. split; [exact Hb |].
    apply lex3_Lt. apply lex3_Lt in Hab.
    destruct Hca as [Hca | Hca];
      [apply lex3_Lt in Hca | apply lex3_Eq in Hca]; lia. }
  congruence.
Qed.

Lemma leb_false_ltb (x y : float) :
  (x <=? y)%float = false -> (x <? y)%float = false.
Proof.
  intros Hle. apply not_true_is_false. intros Hlt.
  apply ltb_key in Hlt as (a & b & Ha & Hb & Hab).
  assert ((x <=? y)%float = true) by (apply leb_key; exists a, b; auto).
  congruence.
Qed.

Lemma ltb_trans (x y z : float) :
  (x <? y)%float = true -> (y <? z)%float = true -> (x <? z)%float = true.
Proof.
  intros Hxy Hyz.
  apply ltb_key in Hxy as (a & b & Ha & Hb & Hab).
  apply ltb_key in Hyz as (b' & c & Hb' & Hc & Hbc).
  rewrite Hb in Hb'. injection Hb' as <-.
  apply ltb_key. exists a, c. split; [exact Ha |]. split; [exact Hc |].
  apply lex3_Lt. apply lex3_Lt in Hab, Hbc. lia.
Qed.

Lemma ltb_leb_false (x y : float) :
  (x <? y)%float = true -> (y <=? x)%float = false.
Proof. intros H. apply (ltb_not_leb x y y H), ltb_irrefl. Qed.

(** ** Masks *)

Lemma UCS_BIT_testbit (i j : Z) :
  0 <= i -> Z.testbit (UCS_BIT i) j = (i =? j).
Proof.
  intros Hi. unfold UCS_BIT. rewrite Z.shiftl_1_l.
  apply Z.pow2_bits_eqb, Hi.
Qed.

Lemma mask_set_testbit (mask i j : Z) :
  0 <= i -> Z.testbit (mask_set mask i) j = Z.testbit mask j || (i =? j).
Proof.
  intros Hi. unfold mask_set.
  rewrite Z.lor_spec, UCS_BIT_testbit by exact Hi. reflexivity.
Qed.

Lemma mask_clear_testbit (mask i j : Z) :
  0 <= i -> 0 <= j ->
  Z.testbit (mask_clear mask i) j = Z.testbit mask j && negb (i =? j).
Proof.
  intros Hi Hj. unfold mask_clear.
  rewrite Z.land_spec, Z.lnot_spec, UCS_BIT_testbit by assumption.
  reflexivity.
Qed.

Lemma is_mask_testbit_high (mask j : Z) :
  is_mask mask -> 64 <= j -> Z.testbit mask j = false.
Proof.
  intros [H0 H64] Hj.
  destruct (Z.eq_dec mask 0) as [-> | Hne]; [apply Z.bits_0 |].
  apply Z.bits_above_log2; [exact H0 |].
  assert (Z.log2 mask < 64) by (apply Z.log2_lt_pow2; lia). lia.
Qed.

Lemma is_mask_intro (mask : Z) :
  0 <= mask -> (forall j, 64 <= j -> Z.testbit mask j = false) -> is_mask mask.
Proof.
  intros H0 Hhigh. split; [exact H0 |].
  destruct (Z.eq_dec mask 0) as [-> | Hne]; [lia |].
  apply Z.log2_lt_pow2; [lia |].
  destruct (Z.lt_ge_cases (Z.log2 mask) 64) as [| Hge]; [assumption |].
  pose proof (Z.bit_log2 mask ltac:(lia)) as Hb.
  rewrite Hhigh in Hb by exact Hge. discriminate.
Qed.

Lemma is_mask_0 : is_mask 0.
Proof. unfold is_mask. lia. Qed.

Lemma mask_set_is_mask (mask i : Z) :
  is_mask mask -> 0 <= i < 64 -> is_mask (mask_set mask i).
Proof.
  intros Hm Hi. apply is_mask_intro.
  - unfold mask_set, UCS_BIT. apply Z.lor_nonneg. split; [apply Hm |].
    apply Z.shiftl_nonneg. lia.
  - intros j Hj. rewrite mask_set_testbit by lia.
    rewrite (is_mask_testbit_high mask j Hm Hj).
    destruct (Z.eqb_spec i j); [lia | reflexivity].
Qed.

Lemma mask_clear_is_mask (mask i : Z) :
  is_mask mask -> 0 <= i -> is_mask (mask_clear mask i).
Proof.
  intros Hm Hi. apply is_mask_intro.
  - unfold mask_clear. apply Z.land_nonneg. left. apply Hm.
  - intros j Hj. rewrite mask_clear_testbit by lia.
    rewrite (is_mask_testbit_high mask j Hm Hj). reflexivity.
Qed.

Lemma land_is_mask (a b : Z) : is_mask a -> is_mask b -> is_mask (Z.land a b).
Proof.
  intros Ha Hb. apply is_mask_intro.
  - apply Z.land_nonneg. left. apply Ha.
  - intros j Hj. rewrite Z.land_spec, (is_mask_testbit_high a j Ha Hj).
    reflexivity.
Qed.

(** The protocols that [ucs_for_each_bit] visits. *)
Lemma in_for_each_bit (mask i : Z) :
  In i (ucs_for_each_bit mask) <-> 0 <= i < 64 /\ Z.testbit mask i = true.
Proof.
  unfold ucs_for_each_bit. rewrite filter_In, in_map_iff. split.
  - intros [(n & <- & Hn) Hb]. apply in_seq in Hn. split; [lia | exact Hb].
  - intros [Hi Hb]. split; [| exact Hb].
    exists (Z.to_nat i). rewrite in_seq. split; lia.
Qed.

Lemma for_each_bit_nil (mask : Z) :
  is_mask mask -> ucs_for_each_bit mask = [] -> mask = 0.
Proof.
  intros Hm Hnil. apply Z.bits_inj'. intros j Hj. rewrite Z.bits_0.
  destruct (Z.lt_ge_cases j 64) as [Hlt | Hge];
    [| apply is_mask_testbit_high; assumption].
  destruct (Z.testbit mask j) eqn:Hb; [| reflexivity].
  assert (Hin : In j (ucs_for_each_bit mask))
    by (apply in_for_each_bit; split; [lia | exact Hb]).
  rewrite Hnil in Hin. destruct Hin.
Qed.

Lemma for_each_bit_0 : ucs_for_each_bit 0 = [].
Proof. reflexivity. Qed.

Lemma filter_length_remove {A : Type} (f g : A -> bool) (l : list A) (x : A) :
  List.NoDup l -> In x l -> f x = true -> g x = false ->
  (forall y, y <> x -> g y = f y) ->
  S (length (List.filter g l)) = length (List.filter f l).
Proof.
  intros Hnd Hin Hfx Hgx Hother.
  induction l as [| a l IH]; [destruct Hin |].
  inversion Hnd as [| ? ? Hnotin Hnd']; subst.
  destruct Hin as [-> | Hin].
  - simpl. rewrite Hfx, Hgx. simpl. f_equal.
    f_equal. apply filter_ext_in. intros y Hy. apply Hother.
    intros ->. contradiction.
  - simpl. rewrite (Hother a) by (intros ->; contradiction).
    destruct (f a); simpl; rewrite <- (IH Hnd' Hin); reflexivity.
Qed.

Lemma ids_NoDup : List.NoDup (map Z.of_nat (seq 0 64)).
Proof.
  apply Finite.Injective_map_NoDup; [| apply seq_NoDup].
  intros a b. apply Nat2Z.inj.
Qed.

(** Removing a protocol of the mask leaves one protocol less. *)
Lemma popcount_mask_clear (mask b : Z) :
  In b (ucs_for_each_bit mask) ->
  S (popcount (mask_clear mask b)) = popcount mask.
Proof.
  intros Hin. apply in_for_each_bit in Hin as [Hb Htb].
  unfold popcount, ucs_for_each_bit.
  apply (filter_length_remove (Z.testbit mask)
           (Z.testbit (mask_clear mask b)) (map Z.of_nat (seq 0 64)) b).
  - exact ids_NoDup.
  - apply in_map_iff. exists (Z.to_nat b). split; [lia |].
    apply in_seq. lia.
  - exact Htb.
  - rewrite mask_clear_testbit, Z.eqb_refl by lia. apply andb_false_r.
  - intros y Hy.
    destruct (Z.lt_ge_cases y 0) as [Hneg | Hpos].
    + rewrite !Z.testbit_neg_r by lia. reflexivity.
    + rewrite mask_clear_testbit by lia.
      destruct (Z.eqb_spec b y); [congruence | apply andb_true_r].
Qed.

Lemma for_each_bit_NoDup (mask : Z) : List.NoDup (ucs_for_each_bit mask).
Proof. apply List.NoDup_filter, ids_NoDup. Qed.

Lemma StronglySorted_filter {A : Type} (R : A -> A -> Prop) (f : A -> bool)
    (l : list A) :
  StronglySorted R l -> StronglySorted R (List.filter f l).
Proof.
  induction 1 as [| a l Hs IH Ha]; simpl; [constructor |].
  destruct (f a); [| exact IH]. constructor; [exact IH |].
  apply List.Forall_forall. intros y Hy. apply filter_In in Hy as [Hy _].
  revert y Hy. apply List.Forall_forall. exact Ha.
Qed.

Lemma seq_ids_sorted (a n : nat) :
  StronglySorted Z.lt (map Z.of_nat (seq a n)).
Proof.
  revert a. induction n as [| n IH]; intros a; simpl; constructor.
  - apply IH.
  - apply List.Forall_forall. intros y Hy.
    apply in_map_iff in Hy as (k & <- & Hk). apply in_seq in Hk. lia.
Qed.

(** The bits are visited in ascending order. *)
Lemma for_each_bit_sorted (mask : Z) :
  StronglySorted Z.lt (ucs_for_each_bit mask).
Proof. apply StronglySorted_filter, seq_ids_sorted. Qed.

(** From here on the bits of a mask and the conversions between [size_t]
    and [double] are used through the lemmas above only. *)
Arguments ucs_for_each_bit : simpl never.
Opaque ucs_for_each_bit Double.of_size_t Double.to_size_t.

(** ** The lower envelope *)

Lemma ucs_assert_pass {A : Type} (ea cond : bool) (a : assertion)
    (k : outcome A) :
  cond = true -> ucs_assert ea cond a k = k.
Proof. intros ->. unfold ucs_assert. rewrite andb_false_r. reflexivity. Qed.

Lemma ucs_assert_Ok {A : Type} (ea cond : bool) (a : assertion)
    (k : outcome A) (v : A) :
  ucs_assert ea cond a k = Ok v -> k = Ok v.
Proof. unfold ucs_assert. destruct (ea && negb cond); [discriminate | auto]. Qed.

Lemma ucs_assert_cases {A : Type} (ea cond : bool) (a : assertion)
    (k : outcome A) :
  ucs_assert ea cond a k = k \/
  (ea = true /\ cond = false /\ ucs_assert ea cond a k = Fatal a).
Proof. unfold ucs_assert. destruct ea, cond; simpl; auto. Qed.

Lemma ucs_array_append_cases (tl : list ucp_proto_threshold_tmp_elem_t)
    (e : ucp_proto_threshold_tmp_elem_t) :
  ucs_array_append tl e = Ok (tl ++ [e]) \/
  ucs_array_append tl e = Err UCS_ERR_NO_MEMORY.
Proof. unfold ucs_array_append. destruct (_ <? _); auto. Qed.

Lemma thresholds_append_cases (ea : bool)
    (tl : list ucp_proto_threshold_tmp_elem_t) (max_length proto_id : Z) :
  (exists tl', ucp_proto_thresholds_append ea tl max_length proto_id = Ok tl') \/
  ucp_proto_thresholds_append ea tl max_length proto_id = Err UCS_ERR_NO_MEMORY \/
  ucp_proto_thresholds_append ea tl max_length proto_id
    = Fatal Assert_append_increasing.
Proof.
  unfold ucp_proto_thresholds_append.
  set (new := {| tmp_max_length := max_length; tmp_proto_id := proto_id |}).
  destruct (last tl) as [e |].
  - destruct (ucs_assert_cases ea (tmp_max_length e <? max_length)
                Assert_append_increasing
                (if tmp_proto_id e =? proto_id
                 then Ok (<[Nat.pred (length tl) := new]> tl)
                 else ucs_array_append tl new)) as [-> | (_ & _ & ->)];
      [| auto].
    destruct (_ =? _); [eauto |].
    destruct (ucs_array_append_cases tl new) as [-> | ->]; eauto.
  - destruct (ucs_array_append_cases tl new) as [-> | ->]; eauto.
Qed.

(** The first loop stops on the assertion on [DBL_MAX] or returns the
    initial pair or a protocol of the list. *)
Lemma find_best_cases (ea : bool) (ids : list Z)
    (perf : Z -> ucs_linear_func_t) (x : float) (best : best_t) :
  find_best ea ids perf x best = Fatal Assert_result_not_DBL_MAX \/
  exists best',
    find_best ea ids perf x best = Ok best' /\
    (best_proto_id best' = best_proto_id best \/
     exists b, best_proto_id best' = Some b /\ In b ids).
Proof.
  revert best. induction ids as [| curr ids IH]; intros best; simpl.
  - right. exists best. auto.
  - destruct (ucs_assert_cases ea
                (negb (ucs_linear_func_apply (perf curr) x =? Double.DBL_MAX)%float)
                Assert_result_not_DBL_MAX
                (find_best ea ids perf x
                   (if (ucs_linear_func_apply (perf curr) x <? best_result best)%float
                    then {| best_proto_id := Some curr;
                            best_result := ucs_linear_func_apply (perf curr) x |}
                    else best))) as [-> | (_ & _ & ->)]; [| now left].
    destruct (IH (if (ucs_linear_func_apply (perf curr) x <? best_result best)%float
                  then {| best_proto_id := Some curr;
                          best_result := ucs_linear_func_apply (perf curr) x |}
                  else best)) as [H | (best' & H & Hid)]; [now left |].
    right. exists best'. split; [exact H |].
    destruct Hid as [Hid | (b & Hb & Hin)].
    + destruct (_ <? _)%float; simpl in Hid; [| now left].
      right. exists curr. split; [exact Hid | now left].
    + right. exists b. split; [exact Hb | now right].
Qed.

Lemma midpoint_step_le (perf : Z -> ucs_linear_func_t)
    (best_id start midpoint curr : Z) :
  midpoint_step perf best_id start midpoint curr <= midpoint.
Proof.
  unfold midpoint_step.
  destruct (ucs_linear_func_intersect _ _) as [x |]; [| lia].
  destruct (_ <? _)%float; [| lia].
  destruct (_ <? _)%float; [| lia].
  rewrite ucs_min_eq. lia.
Qed.

(** The guard [x_intersect > start] keeps the midpoint at or after
    [start]. *)
Lemma midpoint_step_ge (perf : Z -> ucs_linear_func_t)
    (best_id start midpoint curr : Z) :
  0 <= start <= SIZE_MAX -> start <= midpoint ->
  start <= midpoint_step perf best_id start midpoint curr.
Proof.
  intros Hs Hm. unfold midpoint_step.
  destruct (ucs_linear_func_intersect _ _) as [x |]; [| lia].
  destruct (_ <? x)%float eqn:Hgt; [| lia].
  destruct (x <? _)%float eqn:Hlt; [| lia].
  pose proof (to_size_t_above_start start x Hs Hgt Hlt).
  rewrite ucs_min_eq. lia.
Qed.

Lemma midpoint_fold_le (perf : Z -> ucs_linear_func_t)
    (best_id start : Z) (ids : list Z) (midpoint : Z) :
  fold_left (midpoint_step perf best_id start) ids midpoint <= midpoint.
Proof.
  revert midpoint. induction ids as [| curr ids IH]; intros midpoint; simpl.
  - lia.
  - etransitivity; [apply IH | apply midpoint_step_le].
Qed.

Lemma midpoint_fold_ge (perf : Z -> ucs_linear_func_t)
    (best_id start : Z) (ids : list Z) (midpoint : Z) :
  0 <= start <= SIZE_MAX -> start <= midpoint ->
  start <= fold_left (midpoint_step perf best_id start) ids midpoint.
Proof.
  intros Hs. revert midpoint.
  induction ids as [| curr ids IH]; intros midpoint Hm; simpl.
  - exact Hm.
  - apply IH, midpoint_step_ge; assumption.
Qed.

(** A midpoint before [end] comes from an intersection with a protocol
    that is still in the mask. *)
Lemma midpoint_lt_end_mask_nonzero (perf : Z -> ucs_linear_func_t)
    (best_id start end_ proto_mask : Z) :
  fold_left (midpoint_step perf best_id start)
            (ucs_for_each_bit proto_mask) end_ < end_ ->
  proto_mask <> 0.
Proof.
  intros Hlt ->. rewrite for_each_bit_0 in Hlt. simpl in Hlt. lia.
Qed.

Lemma popcount_pos (mask : Z) :
  is_mask mask -> mask <> 0 -> (0 < popcount mask)%nat.
Proof.
  intros Hm Hne. unfold popcount.
  destruct (ucs_for_each_bit mask) eqn:Hb; [| simpl; lia].
  exfalso. apply Hne, for_each_bit_nil; assumption.
Qed.

(** With one unit of fuel per protocol of the mask the loop comes to an end,
    the mask is not empty at the top of any iteration, and more fuel does
    not change the result. *)
Lemma select_best_loop_fuel (ea : bool) (n : nat) :
  forall (proto_mask : Z) (perf : Z -> ucs_linear_func_t)
         (tl : list ucp_proto_threshold_tmp_elem_t) (start end_ : Z),
    is_mask proto_mask -> proto_mask <> 0 -> (popcount proto_mask <= n)%nat ->
    select_best_loop ea n proto_mask perf tl start end_ <> NoFuel /\
    select_best_loop ea n proto_mask perf tl start end_
      <> Fatal Assert_proto_mask_nonzero /\
    forall n', (popcount proto_mask <= n')%nat ->
      select_best_loop ea n' proto_mask perf tl start end_
      = select_best_loop ea n proto_mask perf tl start end_.
Proof.
  induction n as [| n IH]; intros proto_mask perf tl start end_ Hm Hne Hpc.
  - pose proof (popcount_pos proto_mask Hm Hne). lia.
  - assert (Hstep : forall k,
      select_best_loop ea (S k) proto_mask perf tl start end_ =
      let* best :=
        find_best ea (ucs_for_each_bit proto_mask) perf
          (Double.of_size_t start + Double.UCP_PROTO_MSGLEN_EPSILON)%float
          {| best_proto_id := None; best_result := Double.DBL_MAX |} in
      match best_proto_id best with
      | None => ucs_assert ea false Assert_best_found Undefined
      | Some best_id =>
          let proto_mask' := mask_clear proto_mask best_id in
          let midpoint :=
            fold_left (midpoint_step perf best_id start)
                      (ucs_for_each_bit proto_mask') end_ in
          let* thresh_list' :=
            ucp_proto_thresholds_append ea tl midpoint best_id in
          if midpoint <? end_
          then select_best_loop ea k proto_mask' perf thresh_list'
                 (wrap64 (midpoint + 1)) end_
          else Ok thresh_list'
      end).
    { intros k. simpl. apply ucs_assert_pass.
      destruct (Z.eqb_spec proto_mask 0); [contradiction | reflexivity]. }
    assert (Hbody : forall k,
      (popcount proto_mask <= S k)%nat ->
      select_best_loop ea (S k) proto_mask perf tl start end_ <> NoFuel /\
      select_best_loop ea (S k) proto_mask perf tl start end_
        <> Fatal Assert_proto_mask_nonzero /\
      select_best_loop ea (S k) proto_mask perf tl start end_
      = select_best_loop ea (S n) proto_mask perf tl start end_).
    { intros k Hk. rewrite !Hstep.
      destruct (find_best_cases ea (ucs_for_each_bit proto_mask) perf
                  (Double.of_size_t start + Double.UCP_PROTO_MSGLEN_EPSILON)%float
                  {| best_proto_id := None; best_result := Double.DBL_MAX |})
        as [-> | (best & -> & Hid)]; simpl; [repeat split; discriminate |].
      destruct Hid as [-> | (b & -> & Hin)].
      - unfold ucs_assert. destruct ea; simpl; repeat split; discriminate.
      - set (mask' := mask_clear proto_mask b).
        set (midpoint := fold_left (midpoint_step perf b start)
                                   (ucs_for_each_bit mask') end_).
        assert (Hb : 0 <= b < 64) by (apply in_for_each_bit in Hin; tauto).
        destruct (thresholds_append_cases ea tl midpoint b)
          as [(tl' & ->) | [-> | ->]]; simpl;
          [| repeat split; (discriminate || reflexivity) ..].
        destruct (Z.ltb_spec midpoint end_) as [Hlt | Hge];
          [| repeat split; (discriminate || reflexivity)].
        assert (Hm' : is_mask mask')
          by (apply mask_clear_is_mask; [exact Hm | lia]).
        assert (Hne' : mask' <> 0)
          by (eapply midpoint_lt_end_mask_nonzero; exact Hlt).
        pose proof (popcount_mask_clear proto_mask b Hin) as Hpop.
        fold mask' in Hpop.
        destruct (IH mask' perf tl' (wrap64 (midpoint + 1)) end_ Hm' Hne'
                    ltac:(lia)) as (H1 & H2 & H3).
        rewrite (H3 k) by lia. auto. }
    destruct (Hbody n Hpc) as (H1 & H2 & _).
    split; [exact H1 |]. split; [exact H2 |].
    intros n' Hn'. destruct n' as [| k].
    + pose proof (popcount_pos proto_mask Hm Hne). lia.
    + apply (Hbody k Hn').
Qed.


(** Two protocols that cross at 16 bytes: [0 + 1 * x] and [8 + 0.5 * x]. *)
Definition perf_cross (i : Z) : ucs_linear_func_t :=
  if i =? 0 then {| func_c := 0; func_m := 1 |}
  else {| func_c := 8; func_m := 0.5 |}.


(** ** Threshold lookup *)

Lemma search_slow_loop_spec (thresholds : list ucp_proto_threshold_elem_t)
    (msg_length : Z) (fuel : nat) :
  forall idx : nat,
    (forall j e, (j < idx)%nat -> thresholds !! j = Some e ->
                 max_msg_length e < msg_length) ->
    (exists k e, (idx <= k)%nat /\ thresholds !! k = Some e /\
                 msg_length <= max_msg_length e) ->
    (length thresholds < idx + fuel)%nat ->
    exists i e,
      search_slow_loop fuel thresholds msg_length idx = Ok (i, e) /\
      thresholds !! i = Some e /\
      msg_length <= max_msg_length e /\
      forall j e', (j < i)%nat -> thresholds !! j = Some e' ->
                   max_msg_length e' < msg_length.
Proof.
  induction fuel as [| fuel IH]; intros idx Hbefore (k & ek & Hk & Hlk & Hmk) Hfuel.
  - apply lookup_lt_Some in Hlk. lia.
  - simpl. destruct (thresholds !! idx) as [e |] eqn:He.
    + destruct (Z.ltb_spec (max_msg_length e) msg_length) as [Hlt | Hge].
      * apply IH.
        -- intros j e' Hj Hje'.
           destruct (Nat.eq_dec j idx) as [-> | Hne].
           ++ rewrite He in Hje'. injection Hje' as <-. exact Hlt.
           ++ apply (Hbefore j e'); [lia | exact Hje'].
        -- exists k, ek. split; [| auto].
           destruct (Nat.eq_dec k idx) as [-> | Hne]; [| lia].
           rewrite He in Hlk. injection Hlk as <-. lia.
        -- lia.
      * exists idx, e. auto.
    + apply lookup_ge_None in He. apply lookup_lt_Some in Hlk. lia.
Qed.

(** C6: on an array whose final entry has [max_msg_length == SIZE_MAX], the
    search returns, for every message length, the entry at the smallest
    index [i] with [msg_length <= thresholds[i].max_msg_length]; it reads no
    entry past the final one. *)
Theorem search_slow_first_match
    (thresholds : list ucp_proto_threshold_elem_t) (msg_length : Z)
    (final : ucp_proto_threshold_elem_t) :
  last thresholds = Some final -> max_msg_length final = SIZE_MAX ->
  is_size_t msg_length ->
  exists i e,
    ucp_proto_thresholds_search_slow thresholds msg_length = Ok (i, e) /\
    thresholds !! i = Some e /\
    (i < length thresholds)%nat /\
    msg_length <= max_msg_length e /\
    forall j e', (j < i)%nat -> thresholds !! j = Some e' ->
                 max_msg_length e' < msg_length.
Proof.
  intros Hlast Hmax Hlen.
  unfold ucp_proto_thresholds_search_slow.
  destruct (search_slow_loop_spec thresholds msg_length
              (S (length thresholds)) 0%nat) as (i & e & Hs & Hi & Hle & Hmin).
  - intros j e Hj. lia.
  - rewrite last_lookup in Hlast.
    exists (Nat.pred (length thresholds)), final.
    split; [lia |]. split; [exact Hlast |].
    rewrite Hmax. apply Hlen.
  - lia.
  - exists i, e. split; [exact Hs |]. split; [exact Hi |].
    split; [eapply lookup_lt_Some; exact Hi |]. auto.
Qed.

Definition thresholds_cross : list ucp_proto_threshold_elem_t :=
  [ {| max_msg_length := 16;
       proto_config := {| config_select_param := 0; config_proto := 0;
                          config_priv := 0 |} |};
    {| max_msg_length := SIZE_MAX;
       proto_config := {| config_select_param := 0; config_proto := 1;
                          config_priv := 0 |} |} ].

Lemma search_slow_first_match_witness :
  exists i e,
    ucp_proto_thresholds_search_slow thresholds_cross 17 = Ok (i, e) /\
    thresholds_cross !! i = Some e /\
    (i < length thresholds_cross)%nat /\
    17 <= max_msg_length e /\
    forall j e', (j < i)%nat -> thresholds_cross !! j = Some e' ->
                 max_msg_length e' < 17.
Proof.
  apply (search_slow_first_match thresholds_cross 17
           {| max_msg_length := SIZE_MAX;
              proto_config := {| config_select_param := 0; config_proto := 1;
                                 config_priv := 0 |} |}).
  - reflexivity.
  - reflexivity.
  - unfold is_size_t, SIZE_MAX. lia.
Defined.

(** ** Range narrowing *)

(** What the loop of [ucp_proto_thresholds_select_next] decides for one
    protocol at [msg_length]. *)

(** The protocol supports [msg_length]: it is not below [min_length] and
    some range contains it. *)
Definition range_valid (c : ucp_proto_caps_t) (msg_length : Z) : bool :=
  negb (msg_length <? min_length c)
  && match find_range c msg_length with Some _ => true | None => false end.

(** [cfg_thresh] is a number: neither [auto] nor [inf]. *)
Definition thresh_finite (c : ucp_proto_caps_t) : bool :=
  negb (cfg_thresh c =? UCS_MEMUNITS_AUTO)
  && negb (cfg_thresh c =? UCS_MEMUNITS_INF).

(** The protocol is disabled at [msg_length] by its configuration. *)
Definition thresh_disabled (c : ucp_proto_caps_t) (msg_length : Z) : bool :=
  negb (cfg_thresh c =? UCS_MEMUNITS_AUTO)
  && ((cfg_thresh c =? UCS_MEMUNITS_INF) || (msg_length <? cfg_thresh c)).

(** The protocol is force-activated at [msg_length]. *)
Definition thresh_forced (c : ucp_proto_caps_t) (msg_length : Z) : bool :=
  thresh_finite c && (cfg_thresh c <=? msg_length).

(** The bit of the protocol in [valid_proto_mask] and in
    [forced_proto_mask] after the loop. *)
Definition valid_at (c : ucp_proto_caps_t) (msg_length : Z) : bool :=
  range_valid c msg_length && negb (thresh_disabled c msg_length).

Definition forced_at (c : ucp_proto_caps_t) (msg_length : Z) : bool :=
  negb (msg_length <? min_length c) && thresh_forced c msg_length.

(** The values by which the protocol lowers [max_length]. *)
Definition range_bound (c : ucp_proto_caps_t) (msg_length : Z) : list Z :=
  if msg_length <? min_length c then []
  else match find_range c msg_length with
       | Some r => [range_max_length r]
       | None => []
       end.

Definition thresh_bound (c : ucp_proto_caps_t) (msg_length : Z) : list Z :=
  if negb (msg_length <? min_length c) && thresh_finite c
     && (msg_length <? cfg_thresh c)
  then [wrap64 (cfg_thresh c - 1)]
  else [].

Definition list_min (d : Z) (l : list Z) : Z := fold_right Z.min d l.

Lemma list_min_app (d : Z) (l1 l2 : list Z) :
  list_min d (l1 ++ l2) = Z.min (list_min d l1) (list_min d l2).
Proof.
  unfold list_min. induction l1 as [| a l1 IH]; simpl.
  - clear. induction l2 as [| b l2 IH]; simpl; lia.
  - rewrite IH. lia.
Qed.

Lemma list_min_le (d : Z) (l : list Z) : list_min d l <= d.
Proof. unfold list_min. induction l; simpl; lia. Qed.

Lemma list_min_lower (d lo : Z) (l : list Z) :
  lo <= d -> Forall (fun x => lo <= x) l -> lo <= list_min d l.
Proof.
  intros Hd Hl. unfold list_min. induction Hl; simpl; lia.
Qed.

Lemma list_min_In (d : Z) (l : list Z) :
  list_min d l = d \/ In (list_min d l) l.
Proof.
  unfold list_min. induction l as [| a l IH]; simpl; [now left |].
  destruct (Z.min_spec a (fold_right Z.min d l)) as [[_ ->] | [_ ->]].
  - right. now left.
  - destruct IH as [-> | IH]; [now left | right; now right].
Qed.

Section Scan.

Variable proto_caps : Z -> ucp_proto_caps_t.
Variable msg_length : Z.

Let step := select_next_step proto_caps msg_length.

Lemma step_valid_other (st : select_next_state) (i j : Z) :
  0 <= i -> 0 <= j -> i <> j ->
  Z.testbit (valid_proto_mask (step st j)) i
  = Z.testbit (valid_proto_mask st) i.
Proof.
  intros Hi Hj Hne. unfold step, select_next_step.
  destruct (msg_length <? _); [reflexivity |].
  unfold select_next_thresh, select_next_range.
  destruct (find_range _ _); repeat (destruct (_ =? _) || destruct (_ <=? _));
    simpl; rewrite ?mask_clear_testbit, ?mask_set_testbit by lia;
    destruct (Z.eqb_spec j i); try lia;
    rewrite ?orb_false_r, ?andb_true_r; reflexivity.
Qed.

Lemma step_forced_other (st : select_next_state) (i j : Z) :
  0 <= i -> 0 <= j -> i <> j ->
  Z.testbit (forced_proto_mask (step st j)) i
  = Z.testbit (forced_proto_mask st) i.
Proof.
  intros Hi Hj Hne. unfold step, select_next_step.
  destruct (msg_length <? _); [reflexivity |].
  unfold select_next_thresh, select_next_range.
  destruct (find_range _ _); repeat (destruct (_ =? _) || destruct (_ <=? _));
    simpl; rewrite ?mask_clear_testbit, ?mask_set_testbit by lia;
    destruct (Z.eqb_spec j i); try lia;
    rewrite ?orb_false_r, ?andb_true_r; reflexivity.
Qed.

Lemma step_perf_other (st : select_next_state) (i j : Z) :
  i <> j -> proto_perf (step st j) i = proto_perf st i.
Proof.
  intros Hne. unfold step, select_next_step.
  destruct (msg_length <? _); [reflexivity |].
  unfold select_next_thresh, select_next_range, perf_set.
  destruct (find_range _ _); repeat (destruct (_ =? _) || destruct (_ <=? _));
    simpl; destruct (Z.eqb_spec i j); try lia; reflexivity.
Qed.

Lemma step_valid_self (st : select_next_state) (i : Z) :
  0 <= i -> Z.testbit (valid_proto_mask st) i = false ->
  Z.testbit (valid_proto_mask (step st i)) i
  = valid_at (proto_caps i) msg_length.
Proof.
  intros Hi Hst. unfold step, select_next_step, valid_at, range_valid,
    thresh_disabled.
  destruct (msg_length <? _); [exact Hst |].
  unfold select_next_thresh, select_next_range.
  destruct (find_range _ _);
    destruct (cfg_thresh (proto_caps i) =? UCS_MEMUNITS_AUTO);
    destruct (cfg_thresh (proto_caps i) =? UCS_MEMUNITS_INF);
    destruct (Z.leb_spec (cfg_thresh (proto_caps i)) msg_length);
    destruct (Z.ltb_spec msg_length (cfg_thresh (proto_caps i))); try lia;
    simpl; rewrite ?mask_clear_testbit, ?mask_set_testbit by lia;
    rewrite ?Z.eqb_refl, ?Hst; reflexivity.
Qed.

Lemma step_forced_self (st : select_next_state) (i : Z) :
  0 <= i -> Z.testbit (forced_proto_mask st) i = false ->
  Z.testbit (forced_proto_mask (step st i)) i
  = forced_at (proto_caps i) msg_length.
Proof.
  intros Hi Hst. unfold step, select_next_step, forced_at, thresh_forced,
    thresh_finite.
  destruct (msg_length <? _); [exact Hst |].
  unfold select_next_thresh, select_next_range.
  destruct (find_range _ _);
    destruct (cfg_thresh (proto_caps i) =? UCS_MEMUNITS_AUTO);
    destruct (cfg_thresh (proto_caps i) =? UCS_MEMUNITS_INF);
    destruct (Z.leb_spec (cfg_thresh (proto_caps i)) msg_length);
    simpl; rewrite ?mask_clear_testbit, ?mask_set_testbit by lia;
    rewrite ?Z.eqb_refl, ?Hst; reflexivity.
Qed.

Lemma step_perf_self (st : select_next_state) (i : Z)
    (r : ucp_proto_perf_range_t) :
  range_valid (proto_caps i) msg_length = true ->
  find_range (proto_caps i) msg_length = Some r ->
  proto_perf (step st i) i = range_perf r.
Proof.
  intros Hv Hr. unfold range_valid in Hv. apply andb_true_iff in Hv as [Hmin _].
  unfold step, select_next_step.
  destruct (msg_length <? _); [discriminate |].
  unfold select_next_thresh, select_next_range, perf_set. rewrite Hr.
  repeat (destruct (_ =? _) || destruct (_ <=? _)); simpl;
    rewrite Z.eqb_refl; reflexivity.
Qed.

Lemma step_max_length (st : select_next_state) (i : Z) :
  max_length (step st i)
  = list_min (max_length st)
      (range_bound (proto_caps i) msg_length
       ++ thresh_bound (proto_caps i) msg_length).
Proof.
  unfold step, select_next_step, range_bound, thresh_bound, thresh_finite.
  destruct (msg_length <? _); [reflexivity |].
  unfold select_next_thresh, select_next_range.
  destruct (find_range _ _);
    destruct (cfg_thresh (proto_caps i) =? UCS_MEMUNITS_AUTO);
    destruct (cfg_thresh (proto_caps i) =? UCS_MEMUNITS_INF);
    destruct (Z.leb_spec (cfg_thresh (proto_caps i)) msg_length);
    destruct (Z.ltb_spec msg_length (cfg_thresh (proto_caps i))); try lia;
    simpl; rewrite ?ucs_min_eq; lia.
Qed.

Lemma step_is_mask (st : select_next_state) (i : Z) :
  0 <= i < 64 ->
  is_mask (valid_proto_mask st) -> is_mask (forced_proto_mask st) ->
  is_mask (valid_proto_mask (step st i)) /\
  is_mask (forced_proto_mask (step st i)).
Proof.
  intros Hi Hv Hf. unfold step, select_next_step.
  destruct (msg_length <? _); [auto |].
  unfold select_next_thresh, select_next_range.
  destruct (find_range _ _); repeat (destruct (_ =? _) || destruct (_ <=? _));
    simpl; split;
    auto using mask_set_is_mask, mask_clear_is_mask with zarith;
    repeat (apply mask_set_is_mask || apply mask_clear_is_mask);
    auto; lia.
Qed.

End Scan.

Section ScanFold.

Variable proto_caps : Z -> ucp_proto_caps_t.
Variable msg_length : Z.

Let scan_from (ids : list Z) (st : select_next_state) : select_next_state :=
  fold_left (select_next_step proto_caps msg_length) ids st.

Lemma scan_valid_notin (ids : list Z) (st : select_next_state) (i : Z) :
  0 <= i -> Forall (fun j => 0 <= j) ids -> ~ In i ids ->
  Z.testbit (valid_proto_mask (scan_from ids st)) i
  = Z.testbit (valid_proto_mask st) i /\
  Z.testbit (forced_proto_mask (scan_from ids st)) i
  = Z.testbit (forced_proto_mask st) i /\
  proto_perf (scan_from ids st) i = proto_perf st i.
Proof.
  unfold scan_from. intros Hi Hids. revert st.
  induction Hids as [| j ids Hj Hids IH]; intros st Hnotin; simpl.
  - auto.
  - assert (Hne : i <> j) by (intros ->; apply Hnotin; now left).
    destruct (IH (select_next_step proto_caps msg_length st j))
      as (H1 & H2 & H3); [intros H; apply Hnotin; now right |].
    rewrite H1, H2, H3.
    rewrite step_valid_other, step_forced_other, step_perf_other by assumption.
    auto.
Qed.

Lemma scan_valid_in (ids : list Z) (st : select_next_state) (i : Z) :
  0 <= i -> Forall (fun j => 0 <= j) ids -> List.NoDup ids -> In i ids ->
  Z.testbit (valid_proto_mask st) i = false ->
  Z.testbit (forced_proto_mask st) i = false ->
  Z.testbit (valid_proto_mask (scan_from ids st)) i
  = valid_at (proto_caps i) msg_length /\
  Z.testbit (forced_proto_mask (scan_from ids st)) i
  = forced_at (proto_caps i) msg_length /\
  forall r, range_valid (proto_caps i) msg_length = true ->
            find_range (proto_caps i) msg_length = Some r ->
            proto_perf (scan_from ids st) i = range_perf r.
Proof.
  unfold scan_from. intros Hi Hids. revert st.
  induction Hids as [| j ids Hj Hids IH]; intros st Hnd Hin Hv Hf;
    [destruct Hin |].
  inversion Hnd as [| ? ? Hnotin Hnd']; subst. simpl.
  destruct (Z.eq_dec j i) as [-> | Hne].
  - destruct (scan_valid_notin ids (select_next_step proto_caps msg_length st i)
                i Hi Hids Hnotin) as (H1 & H2 & H3).
    unfold scan_from in H1, H2, H3. rewrite H1, H2, H3.
    rewrite step_valid_self, step_forced_self by assumption.
    split; [reflexivity |]. split; [reflexivity |].
    intros r Hr Hfind. apply step_perf_self; assumption.
  - destruct Hin as [-> | Hin]; [contradiction |].
    apply IH; try assumption.
    + rewrite step_valid_other by (try assumption; congruence). exact Hv.
    + rewrite step_forced_other by (try assumption; congruence). exact Hf.
Qed.

Lemma scan_max_length_from (ids : list Z) (st : select_next_state) :
  max_length (scan_from ids st)
  = list_min (max_length st)
      (flat_map (fun i => range_bound (proto_caps i) msg_length
                          ++ thresh_bound (proto_caps i) msg_length) ids).
Proof.
  unfold scan_from. revert st. induction ids as [| j ids IH]; intros st; simpl.
  - reflexivity.
  - rewrite IH, step_max_length.
    rewrite (list_min_app _ (_ ++ _) (flat_map _ _)).
    set (a := range_bound _ _ ++ thresh_bound _ _).
    set (b := flat_map _ ids).
    clearbody a b. clear.
    unfold list_min.
    induction b as [| x b IHb]; simpl.
    + pose proof (list_min_le (max_length st) a). unfold list_min in *. lia.
    + lia.
Qed.

Lemma scan_is_mask_from (ids : list Z) (st : select_next_state) :
  Forall (fun j => 0 <= j < 64) ids ->
  is_mask (valid_proto_mask st) -> is_mask (forced_proto_mask st) ->
  is_mask (valid_proto_mask (scan_from ids st)) /\
  is_mask (forced_proto_mask (scan_from ids st)).
Proof.
  unfold scan_from. intros Hids. revert st.
  induction Hids as [| j ids Hj Hids IH]; intros st Hv Hf; simpl; [auto |].
  destruct (step_is_mask proto_caps msg_length st j Hj Hv Hf).
  apply IH; assumption.
Qed.

End ScanFold.

Lemma for_each_bit_range (mask : Z) :
  Forall (fun j => 0 <= j < 64) (ucs_for_each_bit mask).
Proof.
  apply List.Forall_forall. intros j Hj.
  apply in_for_each_bit in Hj. tauto.
Qed.

(** The masks, the costs and the bound computed by the loop of
    [ucp_proto_thresholds_select_next]. *)
Lemma select_next_scan_spec (proto_mask : Z)
    (proto_caps : Z -> ucp_proto_caps_t) (msg_length : Z) :
  let st := select_next_scan proto_mask proto_caps msg_length in
  is_mask (valid_proto_mask st) /\ is_mask (forced_proto_mask st) /\
  (forall i, 0 <= i ->
     Z.testbit (valid_proto_mask st) i
     = Z.testbit proto_mask i && (i <? 64)
       && valid_at (proto_caps i) msg_length) /\
  (forall i, 0 <= i ->
     Z.testbit (forced_proto_mask st) i
     = Z.testbit proto_mask i && (i <? 64)
       && forced_at (proto_caps i) msg_length) /\
  (forall i r, In i (ucs_for_each_bit proto_mask) ->
     range_valid (proto_caps i) msg_length = true ->
     find_range (proto_caps i) msg_length = Some r ->
     proto_perf st i = range_perf r) /\
  max_length st
  = list_min SIZE_MAX
      (flat_map (fun i => range_bound (proto_caps i) msg_length
                          ++ thresh_bound (proto_caps i) msg_length)
                (ucs_for_each_bit proto_mask)).
Proof.
  intros st. unfold st, select_next_scan.
  set (st0 := {| valid_proto_mask := 0; forced_proto_mask := 0;
                 max_length := SIZE_MAX; proto_perf := proto_perf_uninit |}).
  pose proof (for_each_bit_range proto_mask) as Hrange.
  assert (Hpos : Forall (fun j => 0 <= j) (ucs_for_each_bit proto_mask))
    by (eapply List.Forall_impl; [| exact Hrange]; simpl; intros; lia).
  destruct (scan_is_mask_from proto_caps msg_length (ucs_for_each_bit proto_mask)
              st0 Hrange is_mask_0 is_mask_0) as [Hv Hf].
  split; [exact Hv |]. split; [exact Hf |].
  assert (Hbits : forall i, 0 <= i ->
    (Z.testbit (valid_proto_mask
       (fold_left (select_next_step proto_caps msg_length)
                  (ucs_for_each_bit proto_mask) st0)) i
     = Z.testbit proto_mask i && (i <? 64) && valid_at (proto_caps i) msg_length)
    /\
    (Z.testbit (forced_proto_mask
       (fold_left (select_next_step proto_caps msg_length)
                  (ucs_for_each_bit proto_mask) st0)) i
     = Z.testbit proto_mask i && (i <? 64) && forced_at (proto_caps i) msg_length)).
  { intros i Hi.
    destruct (in_dec Z.eq_dec i (ucs_for_each_bit proto_mask)) as [Hin | Hnin].
    - destruct (scan_valid_in proto_caps msg_length _ st0 i Hi Hpos
                  (for_each_bit_NoDup proto_mask) Hin (Z.bits_0 i) (Z.bits_0 i))
        as (H1 & H2 & _).
      apply in_for_each_bit in Hin as [Hr Hb].
      rewrite H1, H2, Hb. destruct (Z.ltb_spec i 64); [auto | lia].
    - destruct (scan_valid_notin proto_caps msg_length _ st0 i Hi Hpos Hnin)
        as (H1 & H2 & _).
      rewrite H1, H2. simpl. rewrite Z.bits_0.
      destruct (Z.testbit proto_mask i) eqn:Hb; [| auto].
      destruct (Z.ltb_spec i 64); [| auto].
      exfalso. apply Hnin, in_for_each_bit. split; [lia | exact Hb]. }
  split; [intros i Hi; apply Hbits, Hi |].
  split; [intros i Hi; apply Hbits, Hi |].
  split.
  - intros i r Hin Hr Hfind.
    assert (Hi : 0 <= i) by (apply in_for_each_bit in Hin; lia).
    destruct (scan_valid_in proto_caps msg_length _ st0 i Hi Hpos
                (for_each_bit_NoDup proto_mask) Hin (Z.bits_0 i) (Z.bits_0 i))
      as (_ & _ & H3).
    apply H3; assumption.
  - apply (scan_max_length_from proto_caps msg_length _ st0).
Qed.

Lemma flat_map_ext_In {A B : Type} (f g : A -> list B) (l : list A) :
  (forall a, In a l -> f a = g a) -> flat_map f l = flat_map g l.
Proof.
  induction l as [| a l IH]; intros H; simpl; [reflexivity |].
  rewrite (H a) by now left. rewrite IH; [reflexivity |].
  intros b Hb. apply H. now right.
Qed.

(** The bound (b) as the specification words it: [cfg_thresh - 1] for every
    protocol whose [cfg_thresh] is finite and greater than [msg_length]. *)
Definition claimed_thresh_bound (c : ucp_proto_caps_t) (msg_length : Z)
  : list Z :=
  if thresh_finite c && (msg_length <? cfg_thresh c)
  then [cfg_thresh c - 1] else [].

(** [max_length] as the specification words it: the minimum of [SIZE_MAX],
    of the end of the containing range of every protocol that supports
    [msg_length], and of the bounds (b). *)
Definition claimed_max_length (proto_mask : Z)
    (proto_caps : Z -> ucp_proto_caps_t) (msg_length : Z) : Z :=
  list_min SIZE_MAX
    (flat_map (fun i => range_bound (proto_caps i) msg_length
                        ++ claimed_thresh_bound (proto_caps i) msg_length)
              (ucs_for_each_bit proto_mask)).

(** The bounds of a protocol as the code applies them: both only when
    [msg_length] is not below the [min_length] of the protocol. *)
Definition narrowing_bounds (c : ucp_proto_caps_t) (msg_length : Z) : list Z :=
  if msg_length <? min_length c then []
  else range_bound c msg_length ++ claimed_thresh_bound c msg_length.

(** A protocol without a threshold that covers all sizes, and one that
    starts at 100 bytes and is configured to start at 200. *)
Definition caps_min_length (i : Z) : ucp_proto_caps_t :=
  if i =? 0 then
    {| cfg_thresh := UCS_MEMUNITS_AUTO; min_length := 0;
       ranges := [ {| range_max_length := SIZE_MAX;
                      range_perf := {| func_c := 0; func_m := 1 |} |} ] |}
  else
    {| cfg_thresh := 200; min_length := 100;
       ranges := [ {| range_max_length := SIZE_MAX;
                      range_perf := {| func_c := 8; func_m := 0.5 |} |} ] |}.

(** C5, as stated, fails: a protocol whose [min_length] is above
    [msg_length] is skipped before its threshold is looked at, so its
    [cfg_thresh - 1] does not lower [max_length]. *)
Lemma narrowing_claimed_counterexample :
  max_length (select_next_scan 3 caps_min_length 0) = SIZE_MAX /\
  claimed_max_length 3 caps_min_length 0 = 199 /\
  max_length (select_next_scan 3 caps_min_length 0)
    <> claimed_max_length 3 caps_min_length 0.
Proof.
  assert (H1 : max_length (select_next_scan 3 caps_min_length 0) = SIZE_MAX)
    by (vm_compute; reflexivity).
  assert (H2 : claimed_max_length 3 caps_min_length 0 = 199)
    by (vm_compute; reflexivity).
  split; [exact H1 |]. split; [exact H2 |].
  rewrite H1, H2. unfold SIZE_MAX. lia.
Qed.

(** C5 (amended): in a range-narrowing step at [msg_length], [max_length]
    starts at [SIZE_MAX] and is lowered to the minimum of, over the
    protocols of the mask whose [min_length] is not above [msg_length],
    (a) the end of the range that contains [msg_length] and (b)
    [cfg_thresh - 1] when [cfg_thresh] is finite and greater than
    [msg_length]; each protocol of kind (b) is excluded from the valid
    mask. *)
Theorem narrowing_max_length (proto_mask : Z)
    (proto_caps : Z -> ucp_proto_caps_t) (msg_length : Z) :
  0 <= msg_length ->
  (forall i, In i (ucs_for_each_bit proto_mask) ->
             is_size_t (cfg_thresh (proto_caps i))) ->
  let st := select_next_scan proto_mask proto_caps msg_length in
  max_length st
  = list_min SIZE_MAX
      (flat_map (fun i => narrowing_bounds (proto_caps i) msg_length)
                (ucs_for_each_bit proto_mask)) /\
  forall i, In i (ucs_for_each_bit proto_mask) ->
    min_length (proto_caps i) <= msg_length ->
    thresh_finite (proto_caps i) = true ->
    msg_length < cfg_thresh (proto_caps i) ->
    Z.testbit (valid_proto_mask st) i = false.
Proof.
  intros HL Hwf st.
  destruct (select_next_scan_spec proto_mask proto_caps msg_length)
    as (_ & _ & Hvalid & _ & _ & Hmax).
  fold st in Hvalid, Hmax. split.
  - rewrite Hmax. f_equal. apply flat_map_ext_In.
    + intros i Hin. specialize (Hwf i Hin). unfold is_size_t, SIZE_MAX in Hwf.
      unfold narrowing_bounds, range_bound, thresh_bound, claimed_thresh_bound.
      destruct (msg_length <? min_length (proto_caps i)); [reflexivity |].
      simpl. destruct (thresh_finite (proto_caps i)); [| reflexivity].
      simpl. destruct (Z.ltb_spec msg_length (cfg_thresh (proto_caps i)));
        [| reflexivity].
      unfold wrap64. rewrite Z.mod_small by lia. reflexivity.
  - intros i Hin Hmin Hfin Hlt.
    assert (Hi : 0 <= i) by (apply in_for_each_bit in Hin; lia).
    rewrite (Hvalid i Hi). unfold valid_at, thresh_disabled.
    unfold thresh_finite in Hfin. apply andb_true_iff in Hfin as [Ha _].
    rewrite Ha. destruct (Z.ltb_spec msg_length (cfg_thresh (proto_caps i)));
      [| lia].
    rewrite orb_true_r. simpl. rewrite !andb_false_r. reflexivity.
Qed.

Lemma narrowing_max_length_witness :
  max_length (select_next_scan 3 caps_min_length 150)
  = list_min SIZE_MAX
      (flat_map (fun i => narrowing_bounds (caps_min_length i) 150)
                (ucs_for_each_bit 3)) /\
  forall i, In i (ucs_for_each_bit 3) ->
    min_length (caps_min_length i) <= 150 ->
    thresh_finite (caps_min_length i) = true ->
    150 < cfg_thresh (caps_min_length i) ->
    Z.testbit (valid_proto_mask (select_next_scan 3 caps_min_length 150)) i
    = false.
Proof.
  apply (narrowing_max_length 3 caps_min_length 150).
  - lia.
  - intros i Hin. apply in_for_each_bit in Hin as [Hi _].
    unfold caps_min_length, is_size_t.
    destruct (i =? 0); vm_compute; split; discriminate.
Defined.

(** ** The threshold list under construction *)

(** The protocol that a list assigns to [msg_length]: the one of the first
    element that reaches it. *)
Definition tmp_lookup (tl : list ucp_proto_threshold_tmp_elem_t)
    (msg_length : Z) : option Z :=
  option_map tmp_proto_id
    (List.find (fun e => msg_length <=? tmp_max_length e) tl).

(** The elements are strictly increasing in [max_length] and all stay below
    [bound]. *)
Definition thresh_inv (tl : list ucp_proto_threshold_tmp_elem_t) (bound : Z)
  : Prop :=
  StronglySorted Z.lt (map tmp_max_length tl) /\
  Forall (fun e => tmp_max_length e < bound) tl.

Lemma StronglySorted_snoc (l : list Z) (x : Z) :
  StronglySorted Z.lt l -> Forall (fun y => y < x) l ->
  StronglySorted Z.lt (l ++ [x]).
Proof.
  intros Hs Hl. induction Hs as [| a l Hs IH Ha]; simpl.
  - repeat constructor.
  - inversion Hl; subst. constructor; [apply IH; assumption |].
    apply Forall_app. split; [assumption |]. repeat constructor. assumption.
Qed.

Lemma StronglySorted_snoc_inv (l : list Z) (x : Z) :
  StronglySorted Z.lt (l ++ [x]) ->
  StronglySorted Z.lt l /\ Forall (fun y => y < x) l.
Proof.
  induction l as [| a l IH]; simpl; intros Hs.
  - split; constructor.
  - inversion Hs as [| ? ? Hs' Ha]; subst.
    destruct (IH Hs') as [H1 H2].
    apply Forall_app in Ha as [Ha Hx].
    split; constructor; try assumption.
    inversion Hx; assumption.
Qed.

Lemma thresh_inv_nil (bound : Z) : thresh_inv [] bound.
Proof. split; constructor. Qed.

Lemma find_app_split {A : Type} (f : A -> bool) (l1 l2 : list A) :
  List.find f (l1 ++ l2)
  = match List.find f l1 with
    | Some x => Some x
    | None => List.find f l2
    end.
Proof.
  induction l1 as [| a l1 IH]; simpl; [reflexivity |].
  destruct (f a); [reflexivity | exact IH].
Qed.

Lemma tmp_lookup_app_l (tl1 tl2 : list ucp_proto_threshold_tmp_elem_t)
    (L p : Z) :
  tmp_lookup tl1 L = Some p -> tmp_lookup (tl1 ++ tl2) L = Some p.
Proof.
  unfold tmp_lookup. induction tl1 as [| e tl1 IH]; simpl; [discriminate |].
  destruct (L <=? tmp_max_length e); auto.
Qed.

Lemma tmp_lookup_app_r (tl1 tl2 : list ucp_proto_threshold_tmp_elem_t)
    (L : Z) :
  Forall (fun e => tmp_max_length e < L) tl1 ->
  tmp_lookup (tl1 ++ tl2) L = tmp_lookup tl2 L.
Proof.
  unfold tmp_lookup. induction 1 as [| e tl1 He Hf IH]; simpl; [reflexivity |].
  destruct (Z.leb_spec L (tmp_max_length e)); [lia | exact IH].
Qed.

Lemma tmp_lookup_single (max_length proto_id L : Z) :
  tmp_lookup [{| tmp_max_length := max_length; tmp_proto_id := proto_id |}] L
  = if L <=? max_length then Some proto_id else None.
Proof. unfold tmp_lookup. simpl. destruct (L <=? max_length); reflexivity. Qed.

(** What a successful append does: a new last element, or the last element
    extended when it carries the same protocol. *)
Lemma thresholds_append_Ok (ea : bool)
    (tl tl' : list ucp_proto_threshold_tmp_elem_t) (max_length proto_id : Z) :
  ucp_proto_thresholds_append ea tl max_length proto_id = Ok tl' ->
  let new := {| tmp_max_length := max_length; tmp_proto_id := proto_id |} in
  tl' = tl ++ [new] \/
  exists tl0 m0,
    tl = tl0 ++ [{| tmp_max_length := m0; tmp_proto_id := proto_id |}] /\
    tl' = tl0 ++ [new].
Proof.
  intros H new. unfold ucp_proto_thresholds_append in H. fold new in H.
  destruct (last tl) as [e |] eqn:Hlast.
  - apply ucs_assert_Ok in H.
    destruct (Z.eqb_spec (tmp_proto_id e) proto_id) as [Heq | Hne].
    + right. injection H as <-.
      apply last_Some in Hlast as [tl0 ->].
      exists tl0, (tmp_max_length e). split.
      * destruct e as [m0 id0]. simpl in Heq. subst id0. reflexivity.
      * rewrite length_app. simpl.
        replace (Nat.pred (length tl0 + 1)) with (length tl0 + 0)%nat by lia.
        rewrite insert_app_r. reflexivity.
    + left. destruct (ucs_array_append_cases tl new) as [Ha | Ha];
        rewrite Ha in H; [injection H as <-; reflexivity | discriminate].
  - left. destruct (ucs_array_append_cases tl new) as [Ha | Ha];
      rewrite Ha in H; [injection H as <-; reflexivity | discriminate].
Qed.

(** [tl'] continues [tl] over the message lengths [start .. end_]: a length
    [L] of that interval is assigned a protocol that satisfies [ok L]. *)
Record extends (tl tl' : list ucp_proto_threshold_tmp_elem_t)
    (start end_ : Z) (ok : Z -> Z -> Prop) : Prop := {
  ext_inv : thresh_inv tl' (end_ + 1);
  ext_stable : forall L p, tmp_lookup tl L = Some p -> tmp_lookup tl' L = Some p;
  ext_new : forall L, start <= L <= end_ ->
                      exists p, tmp_lookup tl' L = Some p /\ ok L p;
  ext_ids : forall p, In p (map tmp_proto_id tl') ->
                      In p (map tmp_proto_id tl) \/
                      exists L, start <= L <= end_ /\ ok L p;
  ext_last : exists e, last tl' = Some e /\ tmp_max_length e = end_
}.

Lemma extends_trans (tl tl1 tl2 : list ucp_proto_threshold_tmp_elem_t)
    (start mid end_ : Z) (ok : Z -> Z -> Prop) :
  start <= mid + 1 -> mid <= end_ ->
  extends tl tl1 start mid ok -> extends tl1 tl2 (mid + 1) end_ ok ->
  extends tl tl2 start end_ ok.
Proof.
  intros Hsm Hme [I1 S1 N1 D1 L1] [I2 S2 N2 D2 L2]. split.
  - exact I2.
  - intros L p H. apply S2, S1, H.
  - intros L HL. destruct (Z.le_gt_cases L mid) as [Hle | Hgt].
    + destruct (N1 L ltac:(lia)) as (p & Hp & Hok).
      exists p. split; [apply S2, Hp | exact Hok].
    + apply N2. lia.
  - intros p Hp. destruct (D2 p Hp) as [H | (L & HL & Hok)].
    + destruct (D1 p H) as [H' | (L & HL & Hok)]; [now left | right].
      exists L. split; [lia | exact Hok].
    + right. exists L. split; [lia | exact Hok].
  - exact L2.
Qed.

Lemma extends_ok_impl (tl tl' : list ucp_proto_threshold_tmp_elem_t)
    (start end_ : Z) (ok ok' : Z -> Z -> Prop) :
  (forall L p, start <= L <= end_ -> ok L p -> ok' L p) ->
  extends tl tl' start end_ ok -> extends tl tl' start end_ ok'.
Proof.
  intros Himp [I S N D L]. split; try assumption.
  - intros L0 HL. destruct (N L0 HL) as (p & Hp & Hok). eauto.
  - intros p Hp. destruct (D p Hp) as [H | (L0 & HL & Hok)]; [now left |].
    right. exists L0. auto.
Qed.

(** An append at or after the bound of the list continues it up to the new
    [max_length]. *)
Lemma thresholds_append_extends (ea : bool)
    (tl tl' : list ucp_proto_threshold_tmp_elem_t)
    (start max_length proto_id : Z) :
  thresh_inv tl start -> start <= max_length ->
  ucp_proto_thresholds_append ea tl max_length proto_id = Ok tl' ->
  extends tl tl' start max_length (fun _ p => p = proto_id).
Proof.
  intros [Hs Hb] Hle Happ.
  apply thresholds_append_Ok in Happ.
  set (new := {| tmp_max_length := max_length; tmp_proto_id := proto_id |})
    in *.
  assert (Hlt : Forall (fun e => tmp_max_length e < max_length) tl)
    by (eapply List.Forall_impl; [| exact Hb]; simpl; intros; lia).
  destruct Happ as [-> | (tl0 & m0 & -> & ->)].
  - split.
    + split.
      * rewrite map_app. apply StronglySorted_snoc; [exact Hs |].
        apply Forall_map. exact Hlt.
      * apply Forall_app. split.
        -- eapply List.Forall_impl; [| exact Hlt]. simpl. intros; lia.
        -- repeat constructor. simpl. lia.
    + intros L p. apply tmp_lookup_app_l.
    + intros L HL. exists proto_id. split; [| reflexivity].
      unfold new. rewrite tmp_lookup_app_r, tmp_lookup_single.
      * destruct (Z.leb_spec L max_length); [reflexivity | lia].
      * eapply List.Forall_impl; [| exact Hb]. simpl. intros; lia.
    + intros p Hp. rewrite map_app in Hp. apply in_app_or in Hp as [Hp | Hp];
        [now left | right].
      simpl in Hp. destruct Hp as [<- | []].
      exists start. split; [lia | reflexivity].
    + exists new. split; [apply last_snoc | reflexivity].
  - apply Forall_app in Hb as [Hb0 Hbm], Hlt as [Hlt0 _].
    rewrite map_app in Hs. apply StronglySorted_snoc_inv in Hs as [Hs0 Hlast].
    inversion Hbm as [| ? ? Hm0 _]; subst. simpl in Hm0.
    split.
    + split.
      * rewrite map_app. apply StronglySorted_snoc; [exact Hs0 |].
        apply Forall_map. exact Hlt0.
      * apply Forall_app. split.
        -- eapply List.Forall_impl; [| exact Hlt0]. simpl. intros; lia.
        -- repeat constructor. simpl. lia.
    + intros L p Hp.
      destruct (tmp_lookup tl0 L) as [q |] eqn:Hq.
      * rewrite (tmp_lookup_app_l tl0 _ L q Hq) in Hp.
        rewrite (tmp_lookup_app_l tl0 _ L q Hq). exact Hp.
      * unfold tmp_lookup in *. rewrite find_app_split in Hp |- *.
        destruct (List.find _ tl0); [discriminate |].
        simpl in Hp |- *.
        destruct (Z.leb_spec L m0); [| discriminate].
        destruct (Z.leb_spec L max_length); [exact Hp | lia].
    + intros L HL. exists proto_id. split; [| reflexivity].
      unfold new. rewrite tmp_lookup_app_r, tmp_lookup_single.
      * destruct (Z.leb_spec L max_length); [reflexivity | lia].
      * eapply List.Forall_impl; [| exact Hb0]. simpl. intros; lia.
    + intros p Hp. rewrite !map_app in *. simpl in *.
      apply in_app_or in Hp as [Hp | Hp]; left; apply in_or_app; auto.
    + exists new. split; [apply last_snoc | reflexivity].
Qed.

Lemma for_each_bit_mask_clear (mask b p : Z) :
  In p (ucs_for_each_bit (mask_clear mask b)) ->
  In p (ucs_for_each_bit mask).
Proof.
  rewrite !in_for_each_bit. intros [Hp Hb]. split; [exact Hp |].
  destruct (Z.lt_ge_cases b 0) as [Hneg | Hpos].
  - unfold mask_clear, UCS_BIT in Hb.
    rewrite Z.shiftl_1_l, Z.pow_neg_r in Hb by lia.
    rewrite Z.land_spec in Hb. apply andb_true_iff in Hb. tauto.
  - rewrite mask_clear_testbit in Hb by lia.
    apply andb_true_iff in Hb. tauto.
Qed.

(** The protocol that the first iteration of the lower-envelope loop finds
    at [start]. *)
Definition best_at (ea : bool) (proto_mask : Z)
    (perf : Z -> ucs_linear_func_t) (start : Z) : outcome best_t :=
  find_best ea (ucs_for_each_bit proto_mask) perf
    (Double.of_size_t start + Double.UCP_PROTO_MSGLEN_EPSILON)%float
    {| best_proto_id := None; best_result := Double.DBL_MAX |}.

Lemma select_best_loop_S (ea : bool) (n : nat) (proto_mask : Z)
    (perf : Z -> ucs_linear_func_t)
    (tl : list ucp_proto_threshold_tmp_elem_t) (start end_ : Z) :
  select_best_loop ea (S n) proto_mask perf tl start end_ =
  ucs_assert ea (negb (proto_mask =? 0)) Assert_proto_mask_nonzero
    (let* best := best_at ea proto_mask perf start in
     match best_proto_id best with
     | None => ucs_assert ea false Assert_best_found Undefined
     | Some best_id =>
         let proto_mask' := mask_clear proto_mask best_id in
         let midpoint :=
           fold_left (midpoint_step perf best_id start)
                     (ucs_for_each_bit proto_mask') end_ in
         let* thresh_list' :=
           ucp_proto_thresholds_append ea tl midpoint best_id in
         if midpoint <? end_
         then select_best_loop ea n proto_mask' perf thresh_list'
                (wrap64 (midpoint + 1)) end_
         else Ok thresh_list'
     end).
Proof. reflexivity. Qed.

Lemma bind_Ok {A B : Type} (o : outcome A) (k : A -> outcome B) (b : B) :
  bind o k = Ok b -> exists a, o = Ok a /\ k a = Ok b.
Proof. destruct o; simpl; try discriminate. eauto. Qed.

(** A successful run of the lower-envelope loop continues the list from
    [start] to [end_] with protocols of the mask, and assigns to [start] the
    protocol found best there. *)
Lemma select_best_loop_extends (ea : bool) (n : nat) :
  forall (proto_mask : Z) (perf : Z -> ucs_linear_func_t)
         (tl tl' : list ucp_proto_threshold_tmp_elem_t) (start end_ : Z),
    0 <= start <= end_ -> end_ <= SIZE_MAX -> thresh_inv tl start ->
    select_best_loop ea n proto_mask perf tl start end_ = Ok tl' ->
    extends tl tl' start end_
      (fun _ p => In p (ucs_for_each_bit proto_mask)) /\
    exists best b,
      best_at ea proto_mask perf start = Ok best /\
      best_proto_id best = Some b /\
      tmp_lookup tl' start = Some b.
Proof.
  induction n as [| n IH];
    intros proto_mask perf tl tl' start end_ Hse Hend Hinv H;
    [discriminate |].
  rewrite select_best_loop_S in H. apply ucs_assert_Ok in H.
  apply bind_Ok in H as (best & Hfb & H).
  destruct (best_proto_id best) as [b |] eqn:Hb;
    [| apply ucs_assert_Ok in H; discriminate].
  assert (Hin : In b (ucs_for_each_bit proto_mask)).
  { destruct (find_best_cases ea (ucs_for_each_bit proto_mask) perf
                (Double.of_size_t start + Double.UCP_PROTO_MSGLEN_EPSILON)%float
                {| best_proto_id := None; best_result := Double.DBL_MAX |})
      as [Hf | (best' & Hf & Hid)];
      fold (best_at ea proto_mask perf start) in Hf;
      rewrite Hfb in Hf; [discriminate |].
    injection Hf as <-. rewrite Hb in Hid.
    destruct Hid as [Hid | (b' & Hb' & Hin')]; [discriminate |].
    injection Hb' as <-. exact Hin'. }
  cbv zeta in H.
  set (mask' := mask_clear proto_mask b) in *.
  set (midpoint := fold_left (midpoint_step perf b start)
                             (ucs_for_each_bit mask') end_) in *.
  assert (Hmid : start <= midpoint <= end_).
  { split; [apply midpoint_fold_ge; lia | apply midpoint_fold_le]. }
  apply bind_Ok in H as (tl1 & Happ & H).
  pose proof (thresholds_append_extends ea tl tl1 start midpoint b Hinv
                (proj1 Hmid) Happ) as Hext1.
  assert (Hstart1 : tmp_lookup tl1 start = Some b).
  { destruct (ext_new _ _ _ _ _ Hext1 start ltac:(lia)) as (p & Hp & ->).
    exact Hp. }
  assert (Hext1' : extends tl tl1 start midpoint
                     (fun _ p => In p (ucs_for_each_bit proto_mask))).
  { eapply extends_ok_impl; [| exact Hext1]. cbv beta. intros _ p _ ->.
    exact Hin. }
  destruct (Z.ltb_spec midpoint end_) as [Hlt | Hge].
  - unfold wrap64 in H. rewrite Z.mod_small in H
      by (unfold SIZE_MAX in Hend; lia).
    destruct (IH mask' perf tl1 tl' (midpoint + 1) end_ ltac:(lia) Hend
                (ext_inv _ _ _ _ _ Hext1) H) as [Hext2 _].
    split.
    + eapply extends_trans with (mid := midpoint); [lia | lia | exact Hext1' |].
      eapply extends_ok_impl; [| exact Hext2]. cbv beta. intros _ p _.
      apply for_each_bit_mask_clear.
    + exists best, b. split; [exact Hfb |]. split; [exact Hb |].
      apply (ext_stable _ _ _ _ _ Hext2), Hstart1.
  - injection H as <-. assert (midpoint = end_) as Heq by lia.
    rewrite Heq in Hext1'. split; [exact Hext1' |].
    exists best, b. auto.
Qed.

(** ** The sweep *)

(** The fields of the capabilities are [size_t] values. *)
Definition caps_wf (proto_mask : Z) (proto_caps : Z -> ucp_proto_caps_t)
  : Prop :=
  forall i, In i (ucs_for_each_bit proto_mask) ->
            is_size_t (cfg_thresh (proto_caps i)).

(** The protocols among which a narrowing step at [msg_length] selects. *)
Definition competing (proto_mask : Z) (proto_caps : Z -> ucp_proto_caps_t)
    (msg_length : Z) : Z :=
  select_next_mask (select_next_scan proto_mask proto_caps msg_length).

Lemma find_range_Some (c : ucp_proto_caps_t) (L : Z)
    (r : ucp_proto_perf_range_t) :
  find_range c L = Some r -> In r (ranges c) /\ L <= range_max_length r.
Proof.
  unfold find_range. intros H. apply find_some in H as [Hin Hle].
  apply Z.leb_le in Hle. auto.
Qed.

Lemma scan_max_length_bounds (proto_mask : Z)
    (proto_caps : Z -> ucp_proto_caps_t) (L : Z) :
  0 <= L <= SIZE_MAX -> caps_wf proto_mask proto_caps ->
  L <= max_length (select_next_scan proto_mask proto_caps L) <= SIZE_MAX.
Proof.
  intros HL Hwf.
  destruct (select_next_scan_spec proto_mask proto_caps L)
    as (_ & _ & _ & _ & _ & Hmax).
  rewrite Hmax. split; [| apply list_min_le].
  apply list_min_lower; [lia |].
  apply List.Forall_forall. intros x Hx.
  apply in_flat_map in Hx as (i & Hi & Hx).
  specialize (Hwf i Hi). unfold is_size_t, SIZE_MAX in Hwf.
  apply in_app_or in Hx as [Hx | Hx].
  - unfold range_bound in Hx. destruct (L <? _); [destruct Hx |].
    destruct (find_range _ _) as [r |] eqn:Hr; [| destruct Hx].
    destruct Hx as [<- | []]. apply find_range_Some in Hr. tauto.
  - unfold thresh_bound in Hx.
    destruct (negb _ && _ && (L <? _)) eqn:Hc; [| destruct Hx].
    destruct Hx as [<- | []].
    apply andb_true_iff in Hc as [_ Hc]. apply Z.ltb_lt in Hc.
    unfold wrap64. rewrite Z.mod_small by lia. lia.
Qed.

Lemma select_next_Ok (ea : bool) (proto_mask : Z)
    (proto_caps : Z -> ucp_proto_caps_t)
    (tl tl' : list ucp_proto_threshold_tmp_elem_t) (L mx : Z) :
  ucp_proto_thresholds_select_next ea proto_mask proto_caps tl L
  = Ok (tl', mx) ->
  let st := select_next_scan proto_mask proto_caps L in
  mx = max_length st /\ valid_proto_mask st <> 0 /\
  ucp_proto_thresholds_select_best ea (competing proto_mask proto_caps L)
    (proto_perf st) tl L (max_length st) = Ok tl'.
Proof.
  intros H st. unfold ucp_proto_thresholds_select_next in H.
  unfold competing. fold st in H |- *. apply ucs_assert_Ok in H.
  destruct (Z.eqb_spec (valid_proto_mask st) 0) as [| Hne]; [discriminate |].
  apply bind_Ok in H as (tl1 & Hbest & H). inversion H; subst. auto.
Qed.

Lemma select_next_extends (ea : bool) (proto_mask : Z)
    (proto_caps : Z -> ucp_proto_caps_t)
    (tl tl' : list ucp_proto_threshold_tmp_elem_t) (L mx : Z) :
  0 <= L <= SIZE_MAX -> caps_wf proto_mask proto_caps -> thresh_inv tl L ->
  ucp_proto_thresholds_select_next ea proto_mask proto_caps tl L
  = Ok (tl', mx) ->
  let st := select_next_scan proto_mask proto_caps L in
  mx = max_length st /\ L <= mx <= SIZE_MAX /\
  extends tl tl' L mx
    (fun _ p => In p (ucs_for_each_bit (competing proto_mask proto_caps L))) /\
  exists best b,
    best_at ea (competing proto_mask proto_caps L) (proto_perf st) L = Ok best /\
    best_proto_id best = Some b /\
    tmp_lookup tl' L = Some b.
Proof.
  intros HL Hwf Hinv H st.
  apply select_next_Ok in H as (-> & _ & H). fold st in H |- *.
  pose proof (scan_max_length_bounds proto_mask proto_caps L HL Hwf) as Hb.
  fold st in Hb.
  split; [reflexivity |]. split; [exact Hb |].
  unfold ucp_proto_thresholds_select_best in H.
  eapply select_best_loop_extends; [| | exact Hinv | exact H]; lia.
Qed.

(** The message lengths at which the narrowing steps of the sweep start,
    from a given one on: the next step starts after [max_length], unless
    that is [SIZE_MAX]. *)
Inductive sweep_reaches (proto_mask : Z) (proto_caps : Z -> ucp_proto_caps_t)
  : Z -> Z -> Prop :=
| sweep_here (s : Z) : sweep_reaches proto_mask proto_caps s s
| sweep_next (s s' : Z) :
    max_length (select_next_scan proto_mask proto_caps s) < SIZE_MAX ->
    sweep_reaches proto_mask proto_caps
      (max_length (select_next_scan proto_mask proto_caps s) + 1) s' ->
    sweep_reaches proto_mask proto_caps s s'.

(** [p] competes in the step that covers [L], in a sweep from [from]. *)
Definition step_competes (proto_mask : Z) (proto_caps : Z -> ucp_proto_caps_t)
    (from L p : Z) : Prop :=
  exists s,
    sweep_reaches proto_mask proto_caps from s /\
    s <= L <= max_length (select_next_scan proto_mask proto_caps s) /\
    In p (ucs_for_each_bit (competing proto_mask proto_caps s)).

Lemma sweep_reaches_ge (proto_mask : Z) (proto_caps : Z -> ucp_proto_caps_t)
    (from s : Z) :
  caps_wf proto_mask proto_caps -> 0 <= from <= SIZE_MAX ->
  sweep_reaches proto_mask proto_caps from s -> from <= s <= SIZE_MAX.
Proof.
  intros Hwf Hfrom Hr. induction Hr as [s | s s' Hlt Hr IH]; [lia |].
  pose proof (scan_max_length_bounds proto_mask proto_caps s Hfrom Hwf).
  lia.
Qed.

Lemma init_thresh_loop_extends (ea : bool) (proto_mask : Z)
    (proto_caps : Z -> ucp_proto_caps_t) (n : nat) :
  caps_wf proto_mask proto_caps ->
  forall (tl tl' : list ucp_proto_threshold_tmp_elem_t) (L : Z),
    0 <= L <= SIZE_MAX -> thresh_inv tl L ->
    init_thresh_loop ea n proto_mask proto_caps tl L = Ok tl' ->
    extends tl tl' L SIZE_MAX (step_competes proto_mask proto_caps L) /\
    forall s, sweep_reaches proto_mask proto_caps L s ->
      exists best b,
        best_at ea (competing proto_mask proto_caps s)
          (proto_perf (select_next_scan proto_mask proto_caps s)) s = Ok best /\
        best_proto_id best = Some b /\
        tmp_lookup tl' s = Some b.
Proof.
  intros Hwf. induction n as [| n IH]; intros tl tl' L HL Hinv H;
    [discriminate |].
  cbn [init_thresh_loop] in H.
  apply bind_Ok in H as ([tl1 mx] & Hnext & H).
  destruct (select_next_extends ea proto_mask proto_caps tl tl1 L mx HL Hwf
              Hinv Hnext) as (Hmx & Hb & Hext1 & best & b & Hbest & Hid & Hlk).
  assert (Hext1' : extends tl tl1 L mx (step_competes proto_mask proto_caps L)).
  { eapply extends_ok_impl; [| exact Hext1]. cbv beta.
    intros L' p HL' Hp. exists L. split; [constructor |].
    split; [rewrite <- Hmx; lia | exact Hp]. }
  destruct (Z.ltb_spec mx SIZE_MAX) as [Hlt | Hge].
  - unfold wrap64 in H. rewrite Z.mod_small in H by (unfold SIZE_MAX in *; lia).
    destruct (IH tl1 tl' (mx + 1) ltac:(lia) (ext_inv _ _ _ _ _ Hext1) H)
      as [Hext2 Hstarts].
    split.
    + eapply extends_trans with (mid := mx); [lia | lia | exact Hext1' |].
      eapply extends_ok_impl; [| exact Hext2]. cbv beta.
      intros L' p HL' (s & Hr & Hs & Hp). exists s.
      split; [| auto]. apply sweep_next; rewrite <- Hmx; assumption.
    + intros s Hr. inversion Hr as [| ? ? Hlt' Hr']; subst.
      * exists best, b. split; [exact Hbest |]. split; [exact Hid |].
        apply (ext_stable _ _ _ _ _ Hext2), Hlk.
      * apply Hstarts. exact Hr'.
  - injection H as <-. assert (mx = SIZE_MAX) by lia. subst mx.
    split.
    + rewrite <- H. exact Hext1'.
    + intros s Hr. inversion Hr as [| ? ? Hlt' Hr']; subst.
      * exists best, b. auto.
      * lia.
Qed.

(** ** The installed thresholds *)

Lemma find_first_index {A : Type} (f : A -> bool) (l : list A) (x : A) :
  List.find f l = Some x ->
  exists i : nat, l !! i = Some x /\ f x = true /\
    forall (j : nat) (y : A), (j < i)%nat -> l !! j = Some y -> f y = false.
Proof.
  induction l as [| a l IH]; simpl; [discriminate |].
  destruct (f a) eqn:Hfa.
  - intros H. injection H as <-. exists 0%nat.
    split; [reflexivity |]. split; [exact Hfa |]. intros j y Hj. lia.
  - intros H. destruct (IH H) as (i & Hi & Hfx & Hmin).
    exists (S i). split; [exact Hi |]. split; [exact Hfx |].
    intros [| j] y Hj Hy.
    + injection Hy as <-. exact Hfa.
    + apply (Hmin j y); [lia | exact Hy].
Qed.

(** The search returns the first element that reaches [msg_length]. *)
Lemma search_slow_find (thresholds : list ucp_proto_threshold_elem_t)
    (msg_length : Z) (e : ucp_proto_threshold_elem_t) :
  List.find (fun e => msg_length <=? max_msg_length e) thresholds = Some e ->
  exists i, ucp_proto_thresholds_search_slow thresholds msg_length = Ok (i, e).
Proof.
  intros Hfind. apply find_first_index in Hfind as (i & Hi & Hle & Hmin).
  apply Z.leb_le in Hle.
  destruct (search_slow_loop_spec thresholds msg_length
              (S (length thresholds)) 0%nat) as (i' & e' & Hs & Hi' & Hle' & Hmin').
  - intros j y Hj. lia.
  - exists i, e. split; [lia | auto].
  - lia.
  - exists i'. unfold ucp_proto_thresholds_search_slow. rewrite Hs.
    destruct (Nat.lt_trichotomy i i') as [Hlt | [-> | Hgt]].
    + specialize (Hmin' i e Hlt Hi). lia.
    + rewrite Hi in Hi'. injection Hi' as <-. reflexivity.
    + specialize (Hmin i' e' Hgt Hi'). apply Z.leb_gt in Hmin. lia.
Qed.

Lemma find_map {A B : Type} (f : B -> bool) (g : A -> B) (l : list A) :
  List.find f (map g l) = option_map g (List.find (fun a => f (g a)) l).
Proof.
  induction l as [| a l IH]; simpl; [reflexivity |].
  destruct (f (g a)); [reflexivity | exact IH].
Qed.

(** The search on the installed array returns the protocol that the
    temporary list assigns to the message length. *)
Lemma search_slow_copy (proto_init : ucp_proto_select_init_protocols_t)
    (tl : list ucp_proto_threshold_tmp_elem_t) (msg_length p : Z) :
  tmp_lookup tl msg_length = Some p ->
  exists i e,
    ucp_proto_thresholds_search_slow (map (copy_thresh proto_init) tl)
      msg_length = Ok (i, e) /\
    config_proto (proto_config e) = p.
Proof.
  unfold tmp_lookup. intros H.
  destruct (List.find _ tl) as [t |] eqn:Hfind; [| discriminate].
  injection H as <-.
  destruct (search_slow_find (map (copy_thresh proto_init) tl) msg_length
              (copy_thresh proto_init t)) as [i Hi].
  - rewrite find_map. simpl. rewrite Hfind. reflexivity.
  - exists i, (copy_thresh proto_init t). split; [exact Hi | reflexivity].
Qed.

Lemma elem_init_thresh_Ok (ea : bool) (alloc_ok : allocation -> bool)
    (proto_init : ucp_proto_select_init_protocols_t)
    (select_elem : ucp_proto_select_elem_t) :
  ucp_proto_select_elem_init_thresh ea alloc_ok proto_init = Ok select_elem ->
  exists tl,
    init_thresh_loop ea (sweep_bound (mask proto_init) (caps proto_init))
      (mask proto_init) (caps proto_init) [] 0 = Ok tl /\
    tl <> [] /\
    select_elem = {| thresholds := map (copy_thresh proto_init) tl;
                     elem_priv_buf := priv_buf proto_init |}.
Proof.
  unfold ucp_proto_select_elem_init_thresh. intros H.
  apply bind_Ok in H as (tl & Hloop & H).
  exists tl. split; [exact Hloop |].
  unfold ucs_assert_always in H.
  destruct tl as [| t tl]; [discriminate |]. split; [discriminate |].
  simpl in H. destruct (alloc_ok Alloc_thresholds); [| discriminate].
  injection H as <-. reflexivity.
Qed.

(** C2: the thresholds of a select element produced by a successful
    selection are not empty, strictly increasing in [max_msg_length], and
    end with [SIZE_MAX]. *)
Theorem thresholds_increasing (enable_assert : bool)
    (alloc_ok : allocation -> bool)
    (proto_init : ucp_proto_select_init_protocols_t)
    (select_elem : ucp_proto_select_elem_t) :
  caps_wf (mask proto_init) (caps proto_init) ->
  ucp_proto_select_elem_init_thresh enable_assert alloc_ok proto_init
  = Ok select_elem ->
  thresholds select_elem <> [] /\
  StronglySorted Z.lt (map max_msg_length (thresholds select_elem)) /\
  exists final, last (thresholds select_elem) = Some final /\
                max_msg_length final = SIZE_MAX.
Proof.
  intros Hwf H. apply elem_init_thresh_Ok in H as (tl & Hloop & Hne & ->).
  simpl.
  destruct (init_thresh_loop_extends enable_assert _ _ _ Hwf [] tl 0
              ltac:(unfold SIZE_MAX; lia) (thresh_inv_nil 0) Hloop)
    as [[[Hsorted _] _ _ _ (final & Hlast & Hmax)] _].
  split; [| split].
  - destruct tl; [contradiction | discriminate].
  - rewrite map_map. simpl. exact Hsorted.
  - exists (copy_thresh proto_init final). split; [| exact Hmax].
    apply last_Some in Hlast as [tl0 ->].
    rewrite map_app. apply last_snoc.
Qed.

(** The protocols that compete at [s]: the valid ones, and only the forced
    ones among them when there are any. *)
Lemma competing_spec (proto_mask : Z) (proto_caps : Z -> ucp_proto_caps_t)
    (s p : Z) :
  In p (ucs_for_each_bit (competing proto_mask proto_caps s)) <->
  In p (ucs_for_each_bit proto_mask) /\
  valid_at (proto_caps p) s = true /\
  (forced_at (proto_caps p) s = true \/
   forall q, In q (ucs_for_each_bit proto_mask) ->
             valid_at (proto_caps q) s = true ->
             forced_at (proto_caps q) s = false).
Proof.
  unfold competing, select_next_mask.
  destruct (select_next_scan_spec proto_mask proto_caps s)
    as (_ & _ & Hvalid & Hforced & _ & _).
  set (st := select_next_scan proto_mask proto_caps s) in *.
  assert (Hland : forall q, 0 <= q < 64 ->
    Z.testbit (Z.land (forced_proto_mask st) (valid_proto_mask st)) q
    = Z.testbit proto_mask q && valid_at (proto_caps q) s
      && forced_at (proto_caps q) s).
  { intros q Hq. rewrite Z.land_spec, Hvalid, Hforced by lia.
    destruct (Z.ltb_spec q 64); [| lia].
    destruct (Z.testbit proto_mask q), (valid_at _ _), (forced_at _ _);
      reflexivity. }
  assert (Hv : forall q, 0 <= q < 64 ->
    Z.testbit (valid_proto_mask st) q
    = Z.testbit proto_mask q && valid_at (proto_caps q) s).
  { intros q Hq. rewrite Hvalid by lia.
    destruct (Z.ltb_spec q 64); [| lia].
    rewrite andb_true_r. reflexivity. }
  destruct (Z.eqb_spec (Z.land (forced_proto_mask st) (valid_proto_mask st)) 0)
    as [Hz | Hnz].
  - rewrite !in_for_each_bit. split.
    + intros [Hp Hb]. rewrite Hv in Hb by exact Hp.
      apply andb_true_iff in Hb as [Hb1 Hb2].
      split; [auto |]. split; [exact Hb2 |]. right.
      intros q Hq Hq2. apply in_for_each_bit in Hq as [Hq Hq1].
      pose proof (Hland q Hq) as Hl. rewrite Hz, Z.bits_0, Hq1, Hq2 in Hl.
      simpl in Hl. auto.
    + intros ([Hp Hb] & Hval & _). split; [exact Hp |].
      rewrite Hv, Hb, Hval by exact Hp. reflexivity.
  - rewrite !in_for_each_bit. split.
    + intros [Hp Hb]. rewrite Hland in Hb by exact Hp.
      apply andb_true_iff in Hb as [Hb Hb3].
      apply andb_true_iff in Hb as [Hb1 Hb2]. auto.
    + intros ([Hp Hb] & Hval & Hf). split; [exact Hp |].
      rewrite Hland, Hb, Hval by exact Hp. simpl.
      destruct Hf as [Hf | Hf]; [exact Hf |].
      exfalso. apply Hnz. apply Z.bits_inj'. intros q Hq.
      rewrite Z.bits_0.
      destruct (Z.lt_ge_cases q 64) as [Hlt | Hge].
      * rewrite Hland by lia.
        destruct (Z.testbit proto_mask q) eqn:Hq1; [| reflexivity].
        destruct (valid_at (proto_caps q) s) eqn:Hq2; [| reflexivity].
        simpl. apply Hf; [apply in_for_each_bit; split; [lia | exact Hq1]|].
        exact Hq2.
      * rewrite Z.land_spec.
        destruct (select_next_scan_spec proto_mask proto_caps s)
          as (_ & Hfm & _).
        fold st in Hfm.
        rewrite (is_mask_testbit_high _ q Hfm Hge). reflexivity.
Qed.

Lemma valid_at_not_INF (c : ucp_proto_caps_t) (s : Z) :
  valid_at c s = true -> cfg_thresh c <> UCS_MEMUNITS_INF.
Proof.
  unfold valid_at, thresh_disabled. intros H Heq.
  apply andb_true_iff in H as [_ H]. rewrite Heq in H.
  vm_compute in H. discriminate.
Qed.

(** C4: a protocol whose [cfg_thresh] is [inf] appears in no entry of the
    thresholds of a successful selection. *)
Theorem disabled_never_selected (enable_assert : bool)
    (alloc_ok : allocation -> bool)
    (proto_init : ucp_proto_select_init_protocols_t)
    (select_elem : ucp_proto_select_elem_t) (P : Z) :
  caps_wf (mask proto_init) (caps proto_init) ->
  ucp_proto_select_elem_init_thresh enable_assert alloc_ok proto_init
  = Ok select_elem ->
  cfg_thresh (caps proto_init P) = UCS_MEMUNITS_INF ->
  forall e, In e (thresholds select_elem) ->
            config_proto (proto_config e) <> P.
Proof.
  intros Hwf H HP e He Heq.
  apply elem_init_thresh_Ok in H as (tl & Hloop & Hne & ->).
  simpl in He. apply in_map_iff in He as (t & <- & Ht). simpl in Heq.
  destruct (init_thresh_loop_extends enable_assert _ _ _ Hwf [] tl 0
              ltac:(unfold SIZE_MAX; lia) (thresh_inv_nil 0) Hloop)
    as [Hext _].
  destruct (ext_ids _ _ _ _ _ Hext P) as [[] | (L & HL & s & Hr & Hs & Hp)].
  - rewrite <- Heq. apply in_map, Ht.
  - apply competing_spec in Hp as (_ & Hval & _).
    apply valid_at_not_INF in Hval. contradiction.
Qed.

(** ** Forced thresholds *)

Lemma list_min_le_In (d x : Z) (l : list Z) : In x l -> list_min d l <= x.
Proof.
  unfold list_min. induction l as [| a l IH]; simpl; [intros [] |].
  intros [-> | H]; [lia |]. specialize (IH H). lia.
Qed.

(** The protocol supports every message length. *)
Definition valid_everywhere (c : ucp_proto_caps_t) : Prop :=
  forall L, 0 <= L <= SIZE_MAX -> range_valid c L = true.

(** A step that starts below a finite threshold of a protocol that supports
    its start ends below that threshold. *)
Lemma scan_max_length_below_thresh (proto_mask : Z)
    (proto_caps : Z -> ucp_proto_caps_t) (s P : Z) :
  In P (ucs_for_each_bit proto_mask) ->
  is_size_t (cfg_thresh (proto_caps P)) ->
  thresh_finite (proto_caps P) = true ->
  range_valid (proto_caps P) s = true ->
  s < cfg_thresh (proto_caps P) -> 0 <= s ->
  max_length (select_next_scan proto_mask proto_caps s)
  <= cfg_thresh (proto_caps P) - 1.
Proof.
  intros Hin Hsz Hfin Hrv Hlt Hs.
  destruct (select_next_scan_spec proto_mask proto_caps s)
    as (_ & _ & _ & _ & _ & ->).
  apply list_min_le_In. apply in_flat_map. exists P. split; [exact Hin |].
  apply in_or_app. right. unfold thresh_bound.
  unfold range_valid in Hrv. apply andb_true_iff in Hrv as [-> _].
  rewrite Hfin. destruct (Z.ltb_spec s (cfg_thresh (proto_caps P))); [| lia].
  simpl. left. unfold wrap64, is_size_t, SIZE_MAX in *.
  rewrite Z.mod_small by lia. reflexivity.
Qed.

Lemma thresh_finite_spec (c : ucp_proto_caps_t) :
  thresh_finite c = true <->
  cfg_thresh c <> UCS_MEMUNITS_AUTO /\ cfg_thresh c <> UCS_MEMUNITS_INF.
Proof.
  unfold thresh_finite. rewrite andb_true_iff, !negb_true_iff, !Z.eqb_neq.
  reflexivity.
Qed.

(** C3 (amended): if protocol [P] has a finite threshold [T] and supports
    every message length, then for every length [L >= T] the selected
    protocol is one with a finite threshold at most [L] -- it is [P] when
    no other protocol has such a threshold -- and for every length [L < T]
    the selected protocol is not [P]. *)
Theorem forced_threshold_selected (enable_assert : bool)
    (alloc_ok : allocation -> bool)
    (proto_init : ucp_proto_select_init_protocols_t)
    (select_elem : ucp_proto_select_elem_t) (P T : Z) :
  caps_wf (mask proto_init) (caps proto_init) ->
  ucp_proto_select_elem_init_thresh enable_assert alloc_ok proto_init
  = Ok select_elem ->
  In P (ucs_for_each_bit (mask proto_init)) ->
  thresh_finite (caps proto_init P) = true ->
  cfg_thresh (caps proto_init P) = T ->
  valid_everywhere (caps proto_init P) ->
  forall L, is_size_t L ->
    exists i e,
      ucp_proto_thresholds_search_slow (thresholds select_elem) L = Ok (i, e) /\
      (T <= L ->
       thresh_finite (caps proto_init (config_proto (proto_config e))) = true /\
       cfg_thresh (caps proto_init (config_proto (proto_config e))) <= L /\
       ((forall q, In q (ucs_for_each_bit (mask proto_init)) ->
                   thresh_finite (caps proto_init q) = true ->
                   cfg_thresh (caps proto_init q) <= L -> q = P) ->
        config_proto (proto_config e) = P)) /\
      (L < T -> config_proto (proto_config e) <> P).
Proof.
  intros Hwf H HinP Hfin HT Hevery L HL.
  apply elem_init_thresh_Ok in H as (tl & Hloop & Hne & ->). simpl.
  destruct (init_thresh_loop_extends enable_assert _ _ _ Hwf [] tl 0
              ltac:(unfold SIZE_MAX; lia) (thresh_inv_nil 0) Hloop)
    as [Hext _].
  destruct (ext_new _ _ _ _ _ Hext L HL) as (p & Hp & s & Hr & Hs & Hcomp).
  destruct (search_slow_copy proto_init tl L p Hp) as (i & e & Hsearch & Hproto).
  exists i, e. split; [exact Hsearch |]. rewrite Hproto.
  pose proof (sweep_reaches_ge _ _ 0 s Hwf ltac:(unfold SIZE_MAX; lia) Hr)
    as Hsr.
  apply competing_spec in Hcomp as (Hpin & Hpval & Hpf).
  pose proof (Hevery s Hsr) as Hrv.
  pose proof (Hwf P HinP) as Hsz.
  apply thresh_finite_spec in Hfin as Hfin'. destruct Hfin' as [Hauto Hinf].
  split.
  - intros HTL.
    assert (HTs : T <= s).
    { destruct (Z.le_gt_cases T s) as [| Hgt]; [assumption |].
      pose proof (scan_max_length_below_thresh (mask proto_init)
                    (caps proto_init) s P HinP Hsz Hfin Hrv
                    ltac:(lia) ltac:(lia)).
      lia. }
    assert (HPvalid : valid_at (caps proto_init P) s = true).
    { unfold valid_at, thresh_disabled. rewrite Hrv. simpl.
      apply negb_true_iff, andb_false_iff. right.
      apply orb_false_iff. split; [apply Z.eqb_neq, Hinf |].
      apply Z.ltb_ge. lia. }
    assert (HPforced : forced_at (caps proto_init P) s = true).
    { unfold forced_at, thresh_forced. rewrite Hfin.
      unfold range_valid in Hrv. apply andb_true_iff in Hrv as [-> _].
      simpl. apply Z.leb_le. lia. }
    destruct Hpf as [Hpf | Hnone];
      [| rewrite (Hnone P HinP HPvalid) in HPforced; discriminate].
    unfold forced_at, thresh_forced in Hpf.
    apply andb_true_iff in Hpf as [_ Hpf].
    apply andb_true_iff in Hpf as [Hpfin Hple]. apply Z.leb_le in Hple.
    split; [exact Hpfin |]. split; [lia |].
    intros Huniq. apply Huniq; [exact Hpin | exact Hpfin | lia].
  - intros HLT Heq. rewrite Heq in Hpval.
    unfold valid_at, thresh_disabled in Hpval.
    apply andb_true_iff in Hpval as [_ Hd].
    apply negb_true_iff, andb_false_iff in Hd as [Hd | Hd].
    + apply negb_false_iff, Z.eqb_eq in Hd. contradiction.
    + apply orb_false_iff in Hd as [_ Hd]. apply Z.ltb_ge in Hd. lia.
Qed.

(** ** Two protocols *)

(** Two protocols that support every message length, with the costs
    [0 + 1 * x] and [8 + 0.5 * x] and given thresholds. *)
Definition caps_two (cfg0 cfg1 : Z) (i : Z) : ucp_proto_caps_t :=
  {| cfg_thresh := if i =? 0 then cfg0 else cfg1;
     min_length := 0;
     ranges := [ {| range_max_length := SIZE_MAX;
                    range_perf := perf_cross i |} ] |}.

Definition proto_init_two (cfg0 cfg1 : Z) : ucp_proto_select_init_protocols_t :=
  {| select_param := 0;
     mask := 3;
     caps := caps_two cfg0 cfg1;
     priv_buf := None;
     priv_offsets := fun _ => 0 |}.

Definition thresh_elem (max_length proto_id : Z) : ucp_proto_threshold_elem_t :=
  {| max_msg_length := max_length;
     proto_config := {| config_select_param := 0; config_proto := proto_id;
                        config_priv := 0 |} |}.

Definition select_elem_of (l : list ucp_proto_threshold_elem_t)
  : ucp_proto_select_elem_t :=
  {| thresholds := l; elem_priv_buf := None |}.

Definition all_alloc_ok : allocation -> bool := fun _ => true.

Lemma for_each_bit_3 : ucs_for_each_bit 3 = [0; 1].
Proof. vm_compute. reflexivity. Qed.

Lemma caps_two_wf (cfg0 cfg1 : Z) :
  is_size_t cfg0 -> is_size_t cfg1 -> caps_wf 3 (caps_two cfg0 cfg1).
Proof.
  intros H0 H1 i Hin. rewrite for_each_bit_3 in Hin.
  destruct Hin as [<- | [<- | []]]; assumption.
Qed.

Lemma caps_two_valid_everywhere (cfg0 cfg1 i : Z) :
  valid_everywhere (caps_two cfg0 cfg1 i).
Proof.
  intros L HL. unfold range_valid, find_range, caps_two. simpl.
  destruct (Z.ltb_spec L 0); [lia |].
  destruct (Z.leb_spec L SIZE_MAX); [reflexivity | lia].
Qed.

(** S1 of the specification, with a crossover at 16 bytes. *)
Example select_two_auto :
  ucp_proto_select_elem_init_thresh true all_alloc_ok
    (proto_init_two UCS_MEMUNITS_AUTO UCS_MEMUNITS_AUTO)
  = Ok (select_elem_of [thresh_elem 16 0; thresh_elem SIZE_MAX 1]).
Proof. vm_compute. reflexivity. Qed.

(** S2: the second protocol is forced from 1024 bytes on. *)
Example select_two_forced :
  ucp_proto_select_elem_init_thresh true all_alloc_ok
    (proto_init_two UCS_MEMUNITS_AUTO 1024)
  = Ok (select_elem_of [thresh_elem 1023 0; thresh_elem SIZE_MAX 1]).
Proof. vm_compute. reflexivity. Qed.

(** S3: the second protocol is disabled. *)
Example select_two_disabled :
  ucp_proto_select_elem_init_thresh true all_alloc_ok
    (proto_init_two UCS_MEMUNITS_AUTO UCS_MEMUNITS_INF)
  = Ok (select_elem_of [thresh_elem SIZE_MAX 0]).
Proof. vm_compute. reflexivity. Qed.

(** Both protocols are forced from 0 bytes on. *)
Example select_two_both_forced :
  ucp_proto_select_elem_init_thresh true all_alloc_ok (proto_init_two 0 0)
  = Ok (select_elem_of [thresh_elem 16 0; thresh_elem SIZE_MAX 1]).
Proof. vm_compute. reflexivity. Qed.

Lemma is_size_t_AUTO : is_size_t UCS_MEMUNITS_AUTO.
Proof. vm_compute. split; discriminate. Qed.

Lemma is_size_t_INF : is_size_t UCS_MEMUNITS_INF.
Proof. vm_compute. split; discriminate. Qed.

Lemma thresholds_increasing_witness :
  thresholds (select_elem_of [thresh_elem 16 0; thresh_elem SIZE_MAX 1]) <> [] /\
  StronglySorted Z.lt
    (map max_msg_length
       (thresholds (select_elem_of [thresh_elem 16 0; thresh_elem SIZE_MAX 1]))) /\
  exists final,
    last (thresholds (select_elem_of [thresh_elem 16 0; thresh_elem SIZE_MAX 1]))
    = Some final /\
    max_msg_length final = SIZE_MAX.
Proof.
  apply (thresholds_increasing true all_alloc_ok
           (proto_init_two UCS_MEMUNITS_AUTO UCS_MEMUNITS_AUTO)).
  - apply caps_two_wf; apply is_size_t_AUTO.
  - vm_compute. reflexivity.
Defined.

Lemma disabled_never_selected_witness :
  Forall (fun e => config_proto (proto_config e) <> 1)
         (thresholds (select_elem_of [thresh_elem SIZE_MAX 0])).
Proof.
  apply List.Forall_forall.
  apply (disabled_never_selected true all_alloc_ok
           (proto_init_two UCS_MEMUNITS_AUTO UCS_MEMUNITS_INF)).
  - apply caps_two_wf; [apply is_size_t_AUTO | apply is_size_t_INF].
  - vm_compute. reflexivity.
  - reflexivity.
Defined.

(** C3, as stated, fails when a second protocol is forced as well: both
    protocols have the threshold 0 and support every length, and the first
    one is selected up to 16 bytes. *)
Lemma forcing_claim_counterexample :
  thresh_finite (caps (proto_init_two 0 0) 1) = true /\
  cfg_thresh (caps (proto_init_two 0 0) 1) = 0 /\
  valid_everywhere (caps (proto_init_two 0 0) 1) /\
  ucp_proto_select_elem_init_thresh true all_alloc_ok (proto_init_two 0 0)
  = Ok (select_elem_of [thresh_elem 16 0; thresh_elem SIZE_MAX 1]) /\
  ucp_proto_thresholds_search_slow [thresh_elem 16 0; thresh_elem SIZE_MAX 1] 5
  = Ok (0%nat, thresh_elem 16 0) /\
  0 <= 5 /\ config_proto (proto_config (thresh_elem 16 0)) <> 1.
Proof.
  split; [vm_compute; reflexivity |]. split; [reflexivity |].
  split; [apply caps_two_valid_everywhere |].
  split; [vm_compute; reflexivity |]. split; [vm_compute; reflexivity |].
  split; [lia | discriminate].
Qed.

Lemma forced_threshold_selected_witness :
  exists i e,
    ucp_proto_thresholds_search_slow
      (thresholds (select_elem_of [thresh_elem 1023 0; thresh_elem SIZE_MAX 1]))
      2000 = Ok (i, e) /\
    (1024 <= 2000 ->
     thresh_finite (caps (proto_init_two UCS_MEMUNITS_AUTO 1024)
                      (config_proto (proto_config e))) = true /\
     cfg_thresh (caps (proto_init_two UCS_MEMUNITS_AUTO 1024)
                   (config_proto (proto_config e))) <= 2000 /\
     ((forall q,
         In q (ucs_for_each_bit (mask (proto_init_two UCS_MEMUNITS_AUTO 1024))) ->
         thresh_finite (caps (proto_init_two UCS_MEMUNITS_AUTO 1024) q) = true ->
         cfg_thresh (caps (proto_init_two UCS_MEMUNITS_AUTO 1024) q) <= 2000 ->
         q = 1) ->
      config_proto (proto_config e) = 1)) /\
    (2000 < 1024 -> config_proto (proto_config e) <> 1).
Proof.
  apply (forced_threshold_selected true all_alloc_ok
           (proto_init_two UCS_MEMUNITS_AUTO 1024)
           (select_elem_of [thresh_elem 1023 0; thresh_elem SIZE_MAX 1])
           1 1024).
  - apply caps_two_wf; [apply is_size_t_AUTO |].
    unfold is_size_t, SIZE_MAX. lia.
  - vm_compute. reflexivity.
  - simpl. rewrite for_each_bit_3. right. now left.
  - vm_compute. reflexivity.
  - reflexivity.
  - apply caps_two_valid_everywhere.
  - unfold is_size_t, SIZE_MAX. lia.
Defined.

(** ** The protocol found best *)

(** [b] has the least cost among [ids]: its cost is below [DBL_MAX], no
    protocol of [ids] costs less, and a protocol of [ids] with a lower id
    does not even cost the same. *)
Definition is_cheapest (cost : Z -> float) (ids : list Z) (b : Z) : Prop :=
  In b ids /\
  (cost b <? Double.DBL_MAX)%float = true /\
  (forall q, In q ids -> (cost q <? cost b)%float = false) /\
  (forall q, In q ids -> q < b -> (cost q <=? cost b)%float = false).

Lemma find_best_Ok_cons (ea : bool) (curr : Z) (ids : list Z)
    (perf : Z -> ucs_linear_func_t) (x : float) (best0 best : best_t) :
  find_best ea (curr :: ids) perf x best0 = Ok best ->
  find_best ea ids perf x
    (if (ucs_linear_func_apply (perf curr) x <? best_result best0)%float
     then {| best_proto_id := Some curr;
             best_result := ucs_linear_func_apply (perf curr) x |}
     else best0) = Ok best.
Proof. cbn [find_best]. apply ucs_assert_Ok. Qed.

Lemma find_best_invariant (ea : bool) (perf : Z -> ucs_linear_func_t)
    (x : float) (ids : list Z) :
  forall best0 best,
    find_best ea ids perf x best0 = Ok best ->
    let cost := fun q => ucs_linear_func_apply (perf q) x in
    (best_result best = best_result best0 \/
     (best_result best <? best_result best0)%float = true) /\
    (forall q, In q ids -> (cost q <? best_result best)%float = false) /\
    (best = best0 \/
     exists pre b post,
       ids = pre ++ b :: post /\
       best = {| best_proto_id := Some b; best_result := cost b |} /\
       (cost b <? best_result best0)%float = true /\
       forall q, In q pre -> (cost q <=? cost b)%float = false).
Proof.
  induction ids as [| curr ids IH]; intros best0 best H cost.
  - injection H as <-. split; [now left |]. split; [intros q [] | now left].
  - apply find_best_Ok_cons in H. fold (cost curr) in H.
    set (best1 := if (cost curr <? best_result best0)%float
                  then {| best_proto_id := Some curr;
                          best_result := cost curr |}
                  else best0) in *.
    destruct (IH best1 best H) as (Hdec & Hall & Hsel). fold cost in Hall, Hsel.
    destruct (cost curr <? best_result best0)%float eqn:Hupd.
    + (* the current protocol becomes the best *)
      assert (Hr1 : best_result best1 = cost curr) by reflexivity.
      rewrite Hr1 in Hdec. split; [| split].
      * right. destruct Hdec as [-> | Hlt]; [exact Hupd |].
        eapply ltb_trans; eassumption.
      * intros q [<- | Hq]; [| apply Hall, Hq].
        destruct Hdec as [-> | Hlt]; [apply ltb_irrefl |].
        apply leb_false_ltb, ltb_leb_false, Hlt.
      * right. destruct Hsel as [-> | (pre & b & post & -> & -> & Hb & Hpre)].
        -- exists [], curr, ids. split; [reflexivity |].
           split; [reflexivity |]. split; [exact Hupd | intros q []].
        -- exists (curr :: pre), b, post. split; [reflexivity |].
           split; [reflexivity |]. rewrite Hr1 in Hb. split.
           ++ eapply ltb_trans; eassumption.
           ++ intros q [<- | Hq]; [apply ltb_leb_false, Hb | apply Hpre, Hq].
    + (* the best is kept *)
      assert (Hr1 : best1 = best0) by reflexivity.
      rewrite Hr1 in Hdec, Hsel. split; [exact Hdec |]. split.
      * intros q [<- | Hq]; [| apply Hall, Hq].
        destruct Hdec as [-> | Hlt]; [exact Hupd |].
        apply leb_false_ltb. eapply ltb_not_leb; eassumption.
      * destruct Hsel as [-> | (pre & b & post & -> & -> & Hb & Hpre)];
          [now left | right].
        exists (curr :: pre), b, post. split; [reflexivity |].
        split; [reflexivity |]. split; [exact Hb |].
        intros q [<- | Hq]; [| apply Hpre, Hq].
        eapply ltb_not_leb; eassumption.
Qed.

Lemma StronglySorted_app_mid (pre post : list Z) (b q : Z) :
  StronglySorted Z.lt (pre ++ b :: post) ->
  In q (pre ++ b :: post) -> q < b -> In q pre.
Proof.
  induction pre as [| a pre IH]; simpl; intros Hs Hq Hlt.
  - inversion Hs as [| ? ? _ Hall]; subst.
    destruct Hq as [-> | Hq]; [lia |].
    pose proof (proj1 (List.Forall_forall _ _) Hall q Hq). lia.
  - inversion Hs as [| ? ? Hs' _]; subst.
    destruct Hq as [-> | Hq]; [now left | right]. apply IH; assumption.
Qed.

(** The first loop of an iteration finds the cheapest protocol of the
    mask at [start + 0.5], the lowest id among equals. *)
Lemma best_at_is_cheapest (ea : bool) (proto_mask : Z)
    (perf : Z -> ucs_linear_func_t) (start : Z) (best : best_t) (b : Z) :
  best_at ea proto_mask perf start = Ok best ->
  best_proto_id best = Some b ->
  is_cheapest
    (fun q => ucs_linear_func_apply (perf q)
                (Double.of_size_t start + Double.UCP_PROTO_MSGLEN_EPSILON)%float)
    (ucs_for_each_bit proto_mask) b.
Proof.
  unfold best_at. intros H Hb.
  destruct (find_best_invariant ea perf _ _ _ _ H) as (_ & Hall & Hsel).
  destruct Hsel as [-> | (pre & b' & post & Hids & -> & Hmax & Hpre)];
    [discriminate |].
  simpl in Hb, Hall, Hmax. injection Hb as ->.
  split; [rewrite Hids; apply in_or_app; right; now left |].
  split; [exact Hmax |]. split; [exact Hall |].
  intros q Hq Hlt. apply Hpre.
  pose proof (for_each_bit_sorted proto_mask) as Hs. rewrite Hids in Hs, Hq.
  eapply StronglySorted_app_mid; eassumption.
Qed.

(** ** The selected protocol and the costs *)

(** The cost [c + m * (L + 0.5)] of protocol [q] at [L], by the range that
    contains [L]. *)
Definition cost_at (proto_caps : Z -> ucp_proto_caps_t) (L q : Z) : float :=
  match find_range (proto_caps q) L with
  | Some r =>
      ucs_linear_func_apply (range_perf r)
        (Double.of_size_t L + Double.UCP_PROTO_MSGLEN_EPSILON)%float
  | None => nan
  end.

(** The protocols of the mask that are valid and not disabled at [L]. *)
Definition valid_protocols (proto_mask : Z)
    (proto_caps : Z -> ucp_proto_caps_t) (L : Z) : list Z :=
  List.filter (fun q => valid_at (proto_caps q) L)
              (ucs_for_each_bit proto_mask).

(** A protocol that is valid at the start of a step is valid in all of the
    step. *)
Lemma valid_at_step (proto_mask : Z) (proto_caps : Z -> ucp_proto_caps_t)
    (s L p : Z) :
  In p (ucs_for_each_bit proto_mask) ->
  valid_at (proto_caps p) s = true ->
  s <= L <= max_length (select_next_scan proto_mask proto_caps s) ->
  valid_at (proto_caps p) L = true.
Proof.
  intros Hin Hval HL. unfold valid_at in *.
  apply andb_true_iff in Hval as [Hrv Hd].
  unfold range_valid in Hrv. apply andb_true_iff in Hrv as [Hmin Hr].
  apply negb_true_iff, Z.ltb_ge in Hmin.
  destruct (find_range (proto_caps p) s) as [r |] eqn:Hfind; [| discriminate].
  assert (Hmax : max_length (select_next_scan proto_mask proto_caps s)
                 <= range_max_length r).
  { destruct (select_next_scan_spec proto_mask proto_caps s)
      as (_ & _ & _ & _ & _ & ->).
    apply list_min_le_In, in_flat_map. exists p. split; [exact Hin |].
    apply in_or_app. left. unfold range_bound.
    destruct (Z.ltb_spec s (min_length (proto_caps p))); [lia |].
    rewrite Hfind. now left. }
  apply andb_true_iff. split.
  - unfold range_valid. apply andb_true_iff. split.
    + apply negb_true_iff, Z.ltb_ge. lia.
    + destruct (find_range (proto_caps p) L) eqn:HfL; [reflexivity |].
      unfold find_range in HfL, Hfind. apply find_some in Hfind as [Hrin _].
      pose proof (find_none _ _ HfL r Hrin) as Hnone. simpl in Hnone.
      apply Z.leb_gt in Hnone. lia.
  - unfold thresh_disabled in *.
    destruct (cfg_thresh (proto_caps p) =? UCS_MEMUNITS_AUTO); [reflexivity |].
    simpl in *. apply negb_true_iff, orb_false_iff in Hd as [Hinf Hlt].
    rewrite Hinf. simpl. apply negb_true_iff. apply Z.ltb_ge in Hlt.
    apply Z.ltb_ge. lia.
Qed.

(** *** Preference between two protocols

    The first loop of [ucp_proto_thresholds_select_best] takes the protocol
    of the lower cost and, at equal cost, of the lower id. *)

Lemma ltb_leb (x y : float) :
  (x <? y)%float = true -> (x <=? y)%float = true.
Proof.
  intros H. apply ltb_key in H as (a & b & Ha & Hb & Hl).
  apply leb_key. exists a, b. auto.
Qed.

Lemma ltb_leb_trans (x y z : float) :
  (x <? y)%float = true -> (y <=? z)%float = true -> (x <? z)%float = true.
Proof.
  intros Hxy Hyz.
  apply ltb_key in Hxy as (a & b & Ha & Hb & Hab).
  apply leb_key in Hyz as (b' & c & Hb' & Hc & Hbc).
  rewrite Hb in Hb'. injection Hb' as <-.
  apply ltb_key. exists a, c. split; [exact Ha |]. split; [exact Hc |].
  apply lex3_Lt. apply lex3_Lt in Hab.
  destruct Hbc as [Hbc | Hbc];
    [apply lex3_Lt in Hbc | apply lex3_Eq in Hbc]; lia.
Qed.

Lemma leb_ltb_trans (x y z : float) :
  (x <=? y)%float = true -> (y <? z)%float = true -> (x <? z)%float = true.
Proof.
  intros Hxy Hyz.
  apply leb_key in Hxy as (a & b & Ha & Hb & Hab).
  apply ltb_key in Hyz as (b' & c & Hb' & Hc & Hbc).
  rewrite Hb in Hb'. injection Hb' as <-.
  apply ltb_key. exists a, c. split; [exact Ha |]. split; [exact Hc |].
  apply lex3_Lt. apply lex3_Lt in Hbc.
  destruct Hab as [Hab | Hab];
    [apply lex3_Lt in Hab | apply lex3_Eq in Hab]; lia.
Qed.

Lemma leb_trans (x y z : float) :
  (x <=? y)%float = true -> (y <=? z)%float = true -> (x <=? z)%float = true.
Proof.
  intros Hxy Hyz.
  apply leb_key in Hxy as (a & b & Ha & Hb & Hab).
  apply leb_key in Hyz as (b' & c & Hb' & Hc & Hbc).
  rewrite Hb in Hb'. injection Hb' as <-.
  apply leb_key. exists a, c. split; [exact Ha |]. split; [exact Hc |].
  rewrite !lex3_Lt, !lex3_Eq in *. lia.
Qed.

(** The cost [c + m * (L + 0.5)] of protocol [q] at [L] by the function
    [perf q], as the loop computes it. *)
Definition cost_of (perf : Z -> ucs_linear_func_t) (L q : Z) : float :=
  ucs_linear_func_apply (perf q)
    (Double.of_size_t L + Double.UCP_PROTO_MSGLEN_EPSILON)%float.

(** [p] is taken rather than [q]: it costs less, or the same with the lower
    id. *)
Definition prefers (cost : Z -> float) (p q : Z) : Prop :=
  (cost p <? cost q)%float = true \/
  ((cost p <=? cost q)%float = true /\ p < q).

(** [p] is the protocol of [ids] that minimizes the cost, ties broken by the
    lowest id. *)
Definition minimizes (cost : Z -> float) (ids : list Z) (p : Z) : Prop :=
  In p ids /\ forall q, In q ids -> q <> p -> prefers cost p q.

Lemma prefers_trans (cost : Z -> float) (p q r : Z) :
  prefers cost p q -> prefers cost q r -> prefers cost p r.
Proof.
  intros [Hpq | [Hpq Hid1]] [Hqr | [Hqr Hid2]].
  - left. eapply ltb_trans; eassumption.
  - left. eapply ltb_leb_trans; eassumption.
  - left. eapply leb_ltb_trans; eassumption.
  - right. split; [eapply leb_trans; eassumption | lia].
Qed.

Lemma prefers_ext (cost cost' : Z -> float) (p q : Z) :
  cost p = cost' p -> cost q = cost' q ->
  prefers cost p q -> prefers cost' p q.
Proof. unfold prefers. intros -> ->. auto. Qed.

Lemma minimizes_ext (cost cost' : Z -> float) (ids : list Z) (p : Z) :
  (forall q, In q ids -> cost q = cost' q) ->
  minimizes cost ids p -> minimizes cost' ids p.
Proof.
  intros Hext [Hin Hall]. split; [exact Hin |].
  intros q Hq Hne. eapply prefers_ext; [apply Hext, Hin | apply Hext, Hq |].
  apply Hall; assumption.
Qed.

(** The protocol found best is preferred to every other one that can be
    compared with it. *)
Lemma is_cheapest_prefers (cost : Z -> float) (ids : list Z) (b q : Z) :
  is_cheapest cost ids b -> In q ids ->
  prefers cost b q \/ prefers cost q b -> prefers cost b q.
Proof.
  intros (_ & _ & Hall & Hlow) Hq [H | [H | [H Hlt]]]; [exact H | |].
  - rewrite (Hall q Hq) in H. discriminate.
  - rewrite (Hlow q Hq Hlt) in H. discriminate.
Qed.

(** *** Crossings

    The second loop looks at the intersection [x] of the function of [q]
    with the function of the best protocol [p] when it lies after the first
    length [a] of the iteration and below [SIZE_MAX]. *)
Definition crossing (perf : Z -> ucs_linear_func_t) (a p q : Z) (x : float)
  : Prop :=
  ucs_linear_func_intersect (perf q) (perf p) = Some x /\
  (Double.of_size_t a <? x)%float = true /\
  (x <? Double.of_size_t SIZE_MAX)%float = true.

Lemma midpoint_step_crossing (perf : Z -> ucs_linear_func_t)
    (b a midpoint q : Z) (x : float) :
  crossing perf a b q x ->
  midpoint_step perf b a midpoint q = Z.min (Double.to_size_t x) midpoint.
Proof.
  intros (Hx & Ha & Hmax). unfold midpoint_step.
  rewrite Hx, Ha, Hmax. apply ucs_min_eq.
Qed.

Lemma midpoint_step_cases (perf : Z -> ucs_linear_func_t)
    (b a midpoint q : Z) :
  midpoint_step perf b a midpoint q = midpoint \/
  exists x, crossing perf a b q x /\
            midpoint_step perf b a midpoint q = Double.to_size_t x.
Proof.
  unfold midpoint_step, crossing.
  destruct (ucs_linear_func_intersect _ _) as [x |]; [| now left].
  destruct (Double.of_size_t a <? x)%float eqn:Ha; [| now left].
  destruct (x <? Double.of_size_t SIZE_MAX)%float eqn:Hmax; [| now left].
  rewrite ucs_min_eq.
  destruct (Z.min_spec (Double.to_size_t x) midpoint) as [[_ Hm] | [_ Hm]];
    rewrite Hm; [right | left; reflexivity].
  exists x. auto.
Qed.

(** The midpoint is the least of [end_] and of the lengths at which the
    other protocols cross the best one. *)
Lemma midpoint_fold_spec (perf : Z -> ucs_linear_func_t) (b a : Z)
    (ids : list Z) :
  forall end_,
    (forall q x, In q ids -> crossing perf a b q x ->
       fold_left (midpoint_step perf b a) ids end_ <= Double.to_size_t x) /\
    (fold_left (midpoint_step perf b a) ids end_ = end_ \/
     exists q x, In q ids /\ crossing perf a b q x /\
       fold_left (midpoint_step perf b a) ids end_ = Double.to_size_t x).
Proof.
  induction ids as [| c ids IH]; intros end_; simpl.
  - split; [intros q x [] | now left].
  - destruct (IH (midpoint_step perf b a end_ c)) as [Hlow Hhit]. split.
    + intros q x [-> | Hq] Hc; [| exact (Hlow q x Hq Hc)].
      pose proof (midpoint_fold_le perf b a ids
                    (midpoint_step perf b a end_ q)) as Hle.
      rewrite (midpoint_step_crossing perf b a end_ q x Hc) in Hle |- *. lia.
    + destruct Hhit as [Heq | (q & x & Hq & Hc & Heq)].
      * rewrite Heq.
        destruct (midpoint_step_cases perf b a end_ c)
          as [-> | (x & Hc & ->)]; [now left | right].
        exists c, x. auto.
      * right. exists q, x. auto.
Qed.

(** Whether a length is the integer part of a crossing. *)
Lemma crossing_at_dec (perf : Z -> ucs_linear_func_t) (a b : Z)
    (ids : list Z) (L : Z) :
  (exists q x, In q ids /\ crossing perf a b q x /\ Double.to_size_t x = L) \/
  (forall q x, In q ids -> crossing perf a b q x -> Double.to_size_t x <> L).
Proof.
  induction ids as [| c ids [(q & x & Hq & Hc & Hx) | IH]].
  - right. intros q x [].
  - left. exists q, x. split; [now right | auto].
  - unfold crossing.
    destruct (ucs_linear_func_intersect (perf c) (perf b)) as [x |] eqn:Hx.
    + destruct (Double.of_size_t a <? x)%float eqn:Ha.
      * destruct (x <? Double.of_size_t SIZE_MAX)%float eqn:Hmax.
        -- destruct (Z.eq_dec (Double.to_size_t x) L) as [Heq | Hne].
           ++ left. exists c, x. split; [now left | auto].
           ++ right. intros q y [<- | Hq] (Hy & Hc);
                [| apply (IH q y Hq); split; assumption].
              rewrite Hx in Hy. injection Hy as <-. exact Hne.
        -- right. intros q y [<- | Hq] (Hy & Ha' & Hm');
             [| apply (IH q y Hq); unfold crossing; auto].
           rewrite Hx in Hy. injection Hy as <-. congruence.
      * right. intros q y [<- | Hq] (Hy & Ha' & Hm');
          [| apply (IH q y Hq); unfold crossing; auto].
        rewrite Hx in Hy. injection Hy as <-. congruence.
    + right. intros q y [<- | Hq] (Hy & Ha' & Hm');
        [| apply (IH q y Hq); unfold crossing; auto].
      congruence.
Qed.

(** *** Costs that order the protocols as their lines do

    Between the lengths [s] and [e], the double-precision costs of the
    protocols [ids] behave as the affine functions they stand for: two
    protocols can be compared at every length; a protocol that is preferred
    at a length [a] stays preferred up to the length at which the function
    of the other one crosses its own after [a]; and when the crossing lies
    after [a + 0.5], where the costs at [a] are compared, the other
    protocol is preferred at every length after the one of the crossing. *)
Record lines_ordered (perf : Z -> ucs_linear_func_t) (ids : list Z)
    (s e : Z) : Prop := {
  lo_total : forall p q L,
    In p ids -> In q ids -> p <> q -> s <= L <= e ->
    prefers (cost_of perf L) p q \/ prefers (cost_of perf L) q p;
  lo_keep : forall p q a L,
    In p ids -> In q ids -> p <> q -> s <= a -> a <= L -> L <= e ->
    prefers (cost_of perf a) p q ->
    (forall x, crossing perf a p q x -> L < Double.to_size_t x) ->
    prefers (cost_of perf L) p q;
  lo_flip : forall p q a L x,
    In p ids -> In q ids -> p <> q -> s <= a -> a <= L -> L <= e ->
    prefers (cost_of perf a) p q ->
    crossing perf a p q x ->
    (Double.of_size_t a + Double.UCP_PROTO_MSGLEN_EPSILON <? x)%float = true ->
    Double.to_size_t x < L ->
    prefers (cost_of perf L) q p
}.

(** The conditions read the functions of the protocols of [ids] only. *)
Lemma lines_ordered_ext (perf perf' : Z -> ucs_linear_func_t)
    (ids : list Z) (s e : Z) :
  (forall q, In q ids -> perf q = perf' q) ->
  lines_ordered perf ids s e -> lines_ordered perf' ids s e.
Proof.
  intros Hext [Ht Hk Hf]. split.
  - intros p q L Hp Hq Hne HL.
    pose proof (Ht p q L Hp Hq Hne HL) as H.
    unfold prefers, cost_of in *.
    rewrite <- (Hext p Hp), <- (Hext q Hq). exact H.
  - intros p q a L Hp Hq Hne Hs Ha He.
    pose proof (Hk p q a L Hp Hq Hne Hs Ha He) as H.
    unfold prefers, cost_of, crossing in *.
    rewrite <- (Hext p Hp), <- (Hext q Hq). exact H.
  - intros p q a L x Hp Hq Hne Hs Ha He.
    pose proof (Hf p q a L x Hp Hq Hne Hs Ha He) as H.
    unfold prefers, cost_of, crossing in *.
    rewrite <- (Hext p Hp), <- (Hext q Hq). exact H.
Qed.

(** What the lower envelope assigns to [L]: the protocol [p] that minimizes
    the cost at [L]; or a protocol that minimizes the cost at a shorter
    length [a] and whose function is crossed after [a], between [L] and
    [L + 1], by the function of another protocol. *)
Definition envelope_ok (perf : Z -> ucs_linear_func_t) (ids : list Z)
    (s L p : Z) : Prop :=
  minimizes (cost_of perf L) ids p \/
  exists a q x,
    s <= a < L /\ minimizes (cost_of perf a) ids p /\
    In q ids /\ q <> p /\ crossing perf a p q x /\ Double.to_size_t x = L.

(** The protocols of [ids] that have left the mask are, from [start] on,
    each behind a protocol that is still in it. *)
Definition dominated (perf : Z -> ucs_linear_func_t) (ids : list Z)
    (proto_mask start e : Z) : Prop :=
  forall r, In r ids -> ~ In r (ucs_for_each_bit proto_mask) ->
    forall L, start <= L <= e ->
      exists q, In q (ucs_for_each_bit proto_mask) /\
                prefers (cost_of perf L) q r.

(** The iterations of the loop of [ucp_proto_thresholds_select_best]: from
    the mask and the start of one iteration to the mask and the start of
    the same or of a later one. *)
Inductive envelope_reaches (ea : bool) (perf : Z -> ucs_linear_func_t)
    (end_ : Z) : Z -> Z -> Z -> Z -> Prop :=
| envelope_here (proto_mask start : Z) :
    envelope_reaches ea perf end_ proto_mask start proto_mask start
| envelope_next (proto_mask start : Z) (best : best_t) (b : Z)
    (proto_mask' start' : Z) :
    best_at ea proto_mask perf start = Ok best ->
    best_proto_id best = Some b ->
    fold_left (midpoint_step perf b start)
      (ucs_for_each_bit (mask_clear proto_mask b)) end_ < end_ ->
    envelope_reaches ea perf end_ (mask_clear proto_mask b)
      (fold_left (midpoint_step perf b start)
         (ucs_for_each_bit (mask_clear proto_mask b)) end_ + 1)
      proto_mask' start' ->
    envelope_reaches ea perf end_ proto_mask start proto_mask' start'.

(** In the iterations from [proto_mask] and [start] on, a crossing that ends
    the range of the best protocol before [end_] lies after [a + 0.5],
    where the costs at the first length [a] of the iteration were
    compared.  With a crossing between [a] and [a + 0.5] the loop gives
    the best protocol the length [a] alone and removes it from the mask,
    although it is the one of the lower cost after the crossing. *)
Definition no_near_tie (ea : bool) (perf : Z -> ucs_linear_func_t)
    (end_ proto_mask start : Z) : Prop :=
  forall mask_i a best b q x,
    envelope_reaches ea perf end_ proto_mask start mask_i a ->
    best_at ea mask_i perf a = Ok best -> best_proto_id best = Some b ->
    In q (ucs_for_each_bit (mask_clear mask_i b)) ->
    crossing perf a b q x -> Double.to_size_t x < end_ ->
    (Double.of_size_t a + Double.UCP_PROTO_MSGLEN_EPSILON <? x)%float = true.

Lemma in_mask_clear (mask b q : Z) :
  0 <= b ->
  In q (ucs_for_each_bit (mask_clear mask b)) <->
  In q (ucs_for_each_bit mask) /\ q <> b.
Proof.
  intros Hb. rewrite !in_for_each_bit. split.
  - intros [Hq Hbit]. rewrite mask_clear_testbit in Hbit by lia.
    apply andb_true_iff in Hbit as [Hbit Hne].
    apply negb_true_iff, Z.eqb_neq in Hne. auto.
  - intros [[Hq Hbit] Hne]. split; [exact Hq |].
    rewrite mask_clear_testbit by lia. rewrite Hbit. simpl.
    apply negb_true_iff, Z.eqb_neq. auto.
Qed.

(** With costs that order the protocols as their lines do, the loop of
    [ucp_proto_thresholds_select_best] assigns to every length the protocol
    that minimizes the cost there, lengths of crossings apart. *)
Lemma select_best_loop_envelope (ea : bool)
    (perf : Z -> ucs_linear_func_t) (mask0 s e : Z) :
  lines_ordered perf (ucs_for_each_bit mask0) s e ->
  0 <= s -> e <= SIZE_MAX ->
  forall (n : nat) (proto_mask : Z)
         (tl tl' : list ucp_proto_threshold_tmp_elem_t) (start : Z),
    s <= start <= e -> thresh_inv tl start ->
    (forall q, In q (ucs_for_each_bit proto_mask) ->
               In q (ucs_for_each_bit mask0)) ->
    dominated perf (ucs_for_each_bit mask0) proto_mask start e ->
    no_near_tie ea perf e proto_mask start ->
    select_best_loop ea n proto_mask perf tl start e = Ok tl' ->
    extends tl tl' start e (envelope_ok perf (ucs_for_each_bit mask0) s).
Proof.
  intros Hord Hs He.
  induction n as [| n IH];
    intros proto_mask tl tl' start Hse Hinv Hsub Hdom Hnt H; [discriminate |].
  rewrite select_best_loop_S in H. apply ucs_assert_Ok in H.
  apply bind_Ok in H as (best & Hfb & H).
  destruct (best_proto_id best) as [b |] eqn:Hb;
    [| apply ucs_assert_Ok in H; discriminate].
  pose proof (best_at_is_cheapest ea proto_mask perf start best b Hfb Hb)
    as Hch.
  change (is_cheapest (cost_of perf start) (ucs_for_each_bit proto_mask) b)
    in Hch.
  assert (Hin : In b (ucs_for_each_bit proto_mask)) by apply Hch.
  assert (Hin0 : In b (ucs_for_each_bit mask0)) by apply Hsub, Hin.
  assert (Hb0 : 0 <= b) by (apply in_for_each_bit in Hin; lia).
  cbv zeta in H.
  set (mask' := mask_clear proto_mask b) in *.
  set (midpoint := fold_left (midpoint_step perf b start)
                             (ucs_for_each_bit mask') e) in *.
  assert (Hmid : start <= midpoint <= e).
  { split; [apply midpoint_fold_ge; lia | apply midpoint_fold_le]. }
  apply bind_Ok in H as (tl1 & Happ & H).
  pose proof (thresholds_append_extends ea tl tl1 start midpoint b Hinv
                (proj1 Hmid) Happ) as Hext1.
  (* at the first length the best protocol is preferred to all others *)
  assert (Hmask : forall q, In q (ucs_for_each_bit proto_mask) -> q <> b ->
            prefers (cost_of perf start) b q).
  { intros q Hq Hne. apply (is_cheapest_prefers _ _ _ _ Hch Hq).
    apply (lo_total _ _ _ _ Hord); auto; lia. }
  assert (Hfirst : forall q, In q (ucs_for_each_bit mask0) -> q <> b ->
            prefers (cost_of perf start) b q).
  { intros q Hq Hne.
    destruct (in_dec Z.eq_dec q (ucs_for_each_bit proto_mask)) as [Hqm | Hqm];
      [apply Hmask; assumption |].
    destruct (Hdom q Hq Hqm start ltac:(lia)) as (q' & Hq' & Hpref).
    destruct (Z.eq_dec q' b) as [-> | Hne']; [exact Hpref |].
    eapply prefers_trans; [apply (Hmask q' Hq' Hne') | exact Hpref]. }
  destruct (midpoint_fold_spec perf b start (ucs_for_each_bit mask') e)
    as [Hlow Hhit].
  fold midpoint in Hlow, Hhit.
  (* the lengths of this iteration *)
  assert (Hok : forall L, start <= L <= midpoint ->
            envelope_ok perf (ucs_for_each_bit mask0) s L b).
  { intros L HL. destruct (Z.eq_dec L start) as [-> | HneL].
    { left. split; [exact Hin0 | exact Hfirst]. }
    destruct (crossing_at_dec perf start b (ucs_for_each_bit mask') L)
      as [(q & x & Hq & Hc & Hx) | Hnone].
    - right. apply in_mask_clear in Hq as [Hq Hne]; [| exact Hb0].
      exists start, q, x. split; [lia |].
      split; [split; [exact Hin0 | exact Hfirst] |].
      split; [apply Hsub, Hq |]. auto.
    - left. split; [exact Hin0 |].
      assert (Hkeep : forall q, In q (ucs_for_each_bit proto_mask) ->
                q <> b -> prefers (cost_of perf L) b q).
      { intros q Hq Hne.
        apply (lo_keep _ _ _ _ Hord b q start L); auto; try lia.
        intros x Hc.
        assert (Hq' : In q (ucs_for_each_bit mask'))
          by (apply in_mask_clear; auto).
        pose proof (Hlow q x Hq' Hc). pose proof (Hnone q x Hq' Hc). lia. }
      intros q Hq Hne.
      destruct (in_dec Z.eq_dec q (ucs_for_each_bit proto_mask))
        as [Hqm | Hqm]; [apply Hkeep; assumption |].
      destruct (Hdom q Hq Hqm L ltac:(lia)) as (q' & Hq' & Hpref).
      destruct (Z.eq_dec q' b) as [-> | Hne']; [exact Hpref |].
      eapply prefers_trans; [apply (Hkeep q' Hq' Hne') | exact Hpref]. }
  assert (Hext1' : extends tl tl1 start midpoint
                     (envelope_ok perf (ucs_for_each_bit mask0) s)).
  { eapply extends_ok_impl; [| exact Hext1]. cbv beta. intros L p HL ->.
    apply Hok, HL. }
  destruct (Z.ltb_spec midpoint e) as [Hlt | Hge].
  - unfold wrap64 in H. rewrite Z.mod_small in H
      by (unfold SIZE_MAX in He; lia).
    eapply extends_trans with (mid := midpoint); [lia | lia | exact Hext1' |].
    apply (IH mask' tl1 tl' (midpoint + 1)); [lia | | | | | exact H].
    + exact (ext_inv _ _ _ _ _ Hext1).
    + intros q Hq. apply in_mask_clear in Hq as [Hq _]; auto.
    + (* the protocol that leaves the mask is behind the one that crosses *)
      destruct Hhit as [Heq | (q0 & x0 & Hq0 & Hc0 & Hx0)]; [lia |].
      pose proof Hq0 as Hq0'.
      apply in_mask_clear in Hq0' as [Hq0m Hne0]; [| exact Hb0].
      assert (Hflip : forall L, midpoint < L <= e ->
                prefers (cost_of perf L) q0 b).
      { intros L HL.
        apply (lo_flip _ _ _ _ Hord b q0 start L x0); auto; try lia.
        apply (Hnt proto_mask start best b q0 x0); auto; [constructor | lia]. }
      intros r Hr Hnot L HL.
      destruct (Z.eq_dec r b) as [-> | Hrb].
      * exists q0. split; [exact Hq0 | apply Hflip; lia].
      * assert (Hrm : ~ In r (ucs_for_each_bit proto_mask)).
        { intros Hrm. apply Hnot. apply in_mask_clear; auto. }
        destruct (Hdom r Hr Hrm L ltac:(lia)) as (q & Hq & Hpref).
        destruct (Z.eq_dec q b) as [-> | Hqb].
        -- exists q0. split; [exact Hq0 |].
           eapply prefers_trans; [apply Hflip; lia | exact Hpref].
        -- exists q. split; [apply in_mask_clear; auto | exact Hpref].
    + intros mask_i a best' b' q x Hr.
      apply (Hnt mask_i a best' b' q x).
      exact (envelope_next ea perf e proto_mask start best b mask_i a
               Hfb Hb Hlt Hr).
  - injection H as <-. assert (midpoint = e) as Heq by lia.
    rewrite Heq in Hext1'. exact Hext1'.
Qed.

(** *** The steps of the sweep *)

(** The functions with which the step at [s] runs the lower envelope: for a
    protocol that is valid at [s], the function of its range that contains
    [s]. *)
Definition step_perf (proto_mask : Z) (proto_caps : Z -> ucp_proto_caps_t)
    (s : Z) : Z -> ucs_linear_func_t :=
  proto_perf (select_next_scan proto_mask proto_caps s).

(** The range that contains [s] contains every length up to its end. *)
Lemma find_range_step (c : ucp_proto_caps_t) (s L : Z)
    (r : ucp_proto_perf_range_t) :
  find_range c s = Some r -> s <= L <= range_max_length r ->
  find_range c L = Some r.
Proof.
  unfold find_range. intros H HL.
  induction (ranges c) as [| r0 l IH]; [discriminate |].
  simpl in *. destruct (Z.leb_spec s (range_max_length r0)) as [Hs | Hs].
  - injection H as ->. destruct (Z.leb_spec L (range_max_length r)); [| lia].
    reflexivity.
  - destruct (Z.leb_spec L (range_max_length r0)); [lia |]. apply IH, H.
Qed.

(** The functions of a step give the costs of the competing protocols at
    every length of the step. *)
Lemma competing_costs (proto_mask : Z) (proto_caps : Z -> ucp_proto_caps_t)
    (s L q : Z) :
  In q (ucs_for_each_bit (competing proto_mask proto_caps s)) ->
  s <= L <= max_length (select_next_scan proto_mask proto_caps s) ->
  cost_at proto_caps L q = cost_of (step_perf proto_mask proto_caps s) L q.
Proof.
  intros Hq HL. apply competing_spec in Hq as (Hin & Hval & _).
  unfold valid_at in Hval. apply andb_true_iff in Hval as [Hrv _].
  pose proof Hrv as Hrv'. unfold range_valid in Hrv'.
  apply andb_true_iff in Hrv' as [Hmin Hfind].
  apply negb_true_iff, Z.ltb_ge in Hmin.
  destruct (find_range (proto_caps q) s) as [r |] eqn:Hr; [| discriminate].
  destruct (select_next_scan_spec proto_mask proto_caps s)
    as (_ & _ & _ & _ & Hperf & Hmax).
  assert (Hle : max_length (select_next_scan proto_mask proto_caps s)
                <= range_max_length r).
  { rewrite Hmax. apply list_min_le_In, in_flat_map. exists q.
    split; [exact Hin |]. apply in_or_app. left. unfold range_bound.
    destruct (Z.ltb_spec s (min_length (proto_caps q))); [lia |].
    rewrite Hr. now left. }
  unfold cost_at, cost_of, step_perf.
  rewrite (find_range_step _ s L r Hr) by lia.
  rewrite (Hperf q r Hin Hrv Hr). reflexivity.
Qed.

(** In the step at [s] the costs order the competing protocols as their
    lines do, and no range ends at a crossing that lies before the point
    where the costs were compared. *)
Definition step_regular (ea : bool) (proto_mask : Z)
    (proto_caps : Z -> ucp_proto_caps_t) (s : Z) : Prop :=
  lines_ordered (step_perf proto_mask proto_caps s)
    (ucs_for_each_bit (competing proto_mask proto_caps s)) s
    (max_length (select_next_scan proto_mask proto_caps s)) /\
  no_near_tie ea (step_perf proto_mask proto_caps s)
    (max_length (select_next_scan proto_mask proto_caps s))
    (competing proto_mask proto_caps s) s.

(** Every step of the sweep from [from] is regular. *)
Definition costs_ordered (ea : bool) (proto_mask : Z)
    (proto_caps : Z -> ucp_proto_caps_t) (from : Z) : Prop :=
  forall s, sweep_reaches proto_mask proto_caps from s ->
            step_regular ea proto_mask proto_caps s.

Lemma select_next_envelope (ea : bool) (proto_mask : Z)
    (proto_caps : Z -> ucp_proto_caps_t)
    (tl tl' : list ucp_proto_threshold_tmp_elem_t) (L mx : Z) :
  0 <= L <= SIZE_MAX -> caps_wf proto_mask proto_caps -> thresh_inv tl L ->
  step_regular ea proto_mask proto_caps L ->
  ucp_proto_thresholds_select_next ea proto_mask proto_caps tl L
  = Ok (tl', mx) ->
  extends tl tl' L mx
    (envelope_ok (step_perf proto_mask proto_caps L)
       (ucs_for_each_bit (competing proto_mask proto_caps L)) L).
Proof.
  intros HL Hwf Hinv [Hord Hnt] H.
  apply select_next_Ok in H as (-> & _ & H).
  pose proof (scan_max_length_bounds proto_mask proto_caps L HL Hwf) as Hb.
  unfold ucp_proto_thresholds_select_best in H.
  assert (Hdom : dominated (step_perf proto_mask proto_caps L)
                   (ucs_for_each_bit (competing proto_mask proto_caps L))
                   (competing proto_mask proto_caps L) L
                   (max_length (select_next_scan proto_mask proto_caps L)))
    by (intros r Hr Hnot; contradiction).
  exact (select_best_loop_envelope ea (step_perf proto_mask proto_caps L)
           (competing proto_mask proto_caps L) L _ Hord ltac:(lia) ltac:(lia)
           _ _ tl tl' L ltac:(lia) Hinv (fun q Hq => Hq) Hdom Hnt H).
Qed.

(** [p] is what the lower envelope of the step that covers [L] assigns to
    [L], in a sweep from [from]. *)
Definition step_envelope (proto_mask : Z) (proto_caps : Z -> ucp_proto_caps_t)
    (from L p : Z) : Prop :=
  exists s,
    sweep_reaches proto_mask proto_caps from s /\
    s <= L <= max_length (select_next_scan proto_mask proto_caps s) /\
    envelope_ok (step_perf proto_mask proto_caps s)
      (ucs_for_each_bit (competing proto_mask proto_caps s)) s L p.

Lemma init_thresh_loop_envelope (ea : bool) (proto_mask : Z)
    (proto_caps : Z -> ucp_proto_caps_t) (n : nat) :
  caps_wf proto_mask proto_caps ->
  forall (tl tl' : list ucp_proto_threshold_tmp_elem_t) (L : Z),
    0 <= L <= SIZE_MAX -> thresh_inv tl L ->
    costs_ordered ea proto_mask proto_caps L ->
    init_thresh_loop ea n proto_mask proto_caps tl L = Ok tl' ->
    extends tl tl' L SIZE_MAX (step_envelope proto_mask proto_caps L).
Proof.
  intros Hwf. induction n as [| n IH]; intros tl tl' L HL Hinv Hord H;
    [discriminate |].
  cbn [init_thresh_loop] in H.
  apply bind_Ok in H as ([tl1 mx] & Hnext & H).
  pose proof (select_next_envelope ea proto_mask proto_caps tl tl1 L mx HL
                Hwf Hinv (Hord L (sweep_here _ _ L)) Hnext) as Hext1.
  apply select_next_Ok in Hnext as (Hmx & _ & _).
  pose proof (scan_max_length_bounds proto_mask proto_caps L HL Hwf) as Hb.
  rewrite <- Hmx in Hb.
  assert (Hext1' : extends tl tl1 L mx (step_envelope proto_mask proto_caps L)).
  { eapply extends_ok_impl; [| exact Hext1]. cbv beta.
    intros L' p HL' Hp. exists L. split; [constructor |].
    split; [rewrite <- Hmx; lia | exact Hp]. }
  destruct (Z.ltb_spec mx SIZE_MAX) as [Hlt | Hge].
  - unfold wrap64 in H. rewrite Z.mod_small in H by (unfold SIZE_MAX in *; lia).
    eapply extends_trans with (mid := mx); [lia | lia | exact Hext1' |].
    eapply extends_ok_impl;
      [| apply (IH tl1 tl' (mx + 1));
         [lia | exact (ext_inv _ _ _ _ _ Hext1) | | exact H] ].
    + cbv beta. intros L' p HL' (s & Hr & Hs & Hp). exists s.
      split; [| auto]. apply sweep_next; rewrite <- Hmx; assumption.
    + intros s Hr. apply Hord. apply sweep_next; rewrite <- Hmx; assumption.
  - injection H as <-. assert (mx = SIZE_MAX) by lia. subst mx.
    rewrite <- H. exact Hext1'.
Qed.

(** *** The selected protocol at every length *)

(** A protocol that covers all sizes and a cheaper one that starts at 100
    bytes. *)
Definition caps_late (i : Z) : ucp_proto_caps_t :=
  {| cfg_thresh := UCS_MEMUNITS_AUTO;
     min_length := if i =? 0 then 0 else 100;
     ranges := [ {| range_max_length := SIZE_MAX;
                    range_perf := perf_cross i |} ] |}.

Definition proto_init_late : ucp_proto_select_init_protocols_t :=
  {| select_param := 0;
     mask := 3;
     caps := caps_late;
     priv_buf := None;
     priv_offsets := fun _ => 0 |}.



(** *** A selection whose steps are regular

    Two protocols without thresholds: the cost of the first one at [L] is
    [L + 0.5] itself, the cost of the second one is 16 at every length.
    The step that starts at length 0 runs to [SIZE_MAX], and the functions
    cross at 16 bytes. *)

(** **** Rounding

    What is needed of the arithmetic: the point [L + 0.5] and its product
    with one are, from 33 bytes on, numbers of a later binade than 16. *)

Lemma iter_pos_nat {A : Type} (f : A -> A) (n : positive) :
  forall x, SpecFloat.iter_pos f n x = Nat.iter (Pos.to_nat n) f x.
Proof.
  induction n as [n IH | n IH |]; intros x; cbn [SpecFloat.iter_pos].
  - rewrite !IH, Pos2Nat.inj_xI, <- Nat.iter_add, <- Nat.iter_succ_r.
    f_equal. lia.
  - rewrite !IH, Pos2Nat.inj_xO, <- Nat.iter_add. f_equal. lia.
  - reflexivity.
Qed.

Lemma shr_1_m (mrs : shr_record) :
  0 <= shr_m mrs -> shr_m (shr_1 mrs) = shr_m mrs / 2.
Proof.
  destruct mrs as [m r s]. simpl. intros Hm.
  destruct m as [| p | p]; [reflexivity | | lia].
  destruct p as [p | p |]; simpl.
  - rewrite Pos2Z.inj_xI. apply Z.div_unique with 1; lia.
  - rewrite Pos2Z.inj_xO. apply Z.div_unique with 0; lia.
  - reflexivity.
Qed.

Lemma shr_iter_m (n : nat) (mrs : shr_record) :
  0 <= shr_m mrs ->
  shr_m (Nat.iter n shr_1 mrs) = shr_m mrs / 2 ^ Z.of_nat n.
Proof.
  intros Hm. induction n as [| n IH].
  - simpl. rewrite Z.div_1_r. reflexivity.
  - rewrite Nat.iter_succ, shr_1_m, IH.
    + rewrite Nat2Z.inj_succ, Z.pow_succ_r by lia.
      rewrite Z.div_div by lia. f_equal. lia.
    + rewrite IH. apply Z.div_pos; lia.
Qed.

Lemma digits2_pos_unique (p : positive) (d : Z) :
  2 ^ (d - 1) <= Zpos p < 2 ^ d -> Zpos (digits2_pos p) = d.
Proof.
  intros [Hlo Hhi]. pose proof (digits2_pos_bounds p) as [Hlo' Hhi'].
  set (D := Zpos (digits2_pos p)) in *.
  destruct (Z.lt_trichotomy D d) as [Hlt | [Heq | Hgt]]; [| exact Heq |].
  - assert (2 ^ D <= 2 ^ (d - 1)) by (apply Z.pow_le_mono_r; lia). lia.
  - assert (2 ^ d <= 2 ^ (D - 1)) by (apply Z.pow_le_mono_r; lia). lia.
Qed.

Lemma round_nearest_even_cases (m : Z) (l : location) :
  round_nearest_even m l = m \/ round_nearest_even m l = m + 1.
Proof.
  destruct l as [| []]; simpl; auto. destruct (Z.even m); auto.
Qed.

(** The first step of a rounding: a mantissa of [d >= 53] digits is
    shifted down to 53 digits. *)
Lemma shr_fexp_normal (p : positive) (e : Z) :
  let d := Zpos (digits2_pos p) in
  53 <= d -> -1074 <= d + e - 53 ->
  exists mrs,
    shr_fexp prec emax (Zpos p) e loc_Exact = (mrs, d + e - 53) /\
    shr_m mrs = Zpos p / 2 ^ (d - 53).
Proof.
  intros d Hd He. unfold shr_fexp, fexp.
  change (SpecFloat.emin prec emax) with (-1074). change prec with 53.
  cbn [Zdigits2 shr_record_of_loc]. fold d.
  rewrite Z.max_l by lia.
  replace (d + e - 53 - e) with (d - 53) by lia.
  unfold shr. destruct (d - 53) as [| n | n] eqn:Hn; [| | lia].
  - eexists. split; [f_equal; lia |]. simpl. rewrite Z.div_1_r. reflexivity.
  - eexists. split; [f_equal; lia |].
    rewrite iter_pos_nat, shr_iter_m by (simpl; lia).
    rewrite positive_nat_Z. reflexivity.
Qed.

(** Rounding a positive mantissa of at least 53 digits gives a number with
    an exponent that is not below the one of its first digit. *)
Lemma binary_round_aux_normal (p : positive) (e : Z) :
  let d := Zpos (digits2_pos p) in
  53 <= d -> -1074 <= d + e - 53 -> d + e - 53 < 971 ->
  exists m' e',
    binary_round_aux prec emax false (Zpos p) e loc_Exact
    = S754_finite false m' e' /\ d + e - 53 <= e' <= d + e - 52.
Proof.
  intros d Hd He Hmax. unfold binary_round_aux.
  destruct (shr_fexp_normal p e Hd He) as (mrs & -> & Hm). fold d in Hm.
  cbv beta iota.
  pose proof (digits2_pos_bounds p) as [Hlo Hhi]. fold d in Hlo, Hhi.
  assert (Hm1 : 2 ^ 52 <= shr_m mrs < 2 ^ 53).
  { rewrite Hm.
    assert (Hp : 0 < 2 ^ (d - 53)) by (apply Z.pow_pos_nonneg; lia).
    assert (E1 : 2 ^ (d - 1) = 2 ^ 52 * 2 ^ (d - 53))
      by (rewrite <- Z.pow_add_r by lia; f_equal; lia).
    assert (E2 : 2 ^ d = 2 ^ 53 * 2 ^ (d - 53))
      by (rewrite <- Z.pow_add_r by lia; f_equal; lia).
    split.
    - apply Z.div_le_lower_bound; lia.
    - apply Z.div_lt_upper_bound; lia. }
  set (m2 := round_nearest_even (shr_m mrs) (loc_of_shr_record mrs)).
  assert (Hm2 : 2 ^ 52 <= m2 <= 2 ^ 53).
  { unfold m2.
    destruct (round_nearest_even_cases (shr_m mrs) (loc_of_shr_record mrs))
      as [-> | ->]; lia. }
  destruct m2 as [| q | q] eqn:Hq; [lia | | lia].
  assert (Hd2 : Zpos (digits2_pos q) = 53 \/ Zpos (digits2_pos q) = 54).
  { destruct (Z.eq_dec (Zpos q) (2 ^ 53)) as [Heq | Hne];
      [right | left]; apply digits2_pos_unique; lia. }
  fold d.
  destruct (shr_fexp_normal q (d + e - 53)) as (mrs2 & -> & Hm''); [lia | lia |].
  cbv beta iota.
  assert (Hpos : 0 < shr_m mrs2).
  { rewrite Hm''. destruct Hd2 as [-> | ->].
    - change (2 ^ (53 - 53)) with 1. rewrite Z.div_1_r. lia.
    - change (2 ^ (54 - 53)) with 2. apply Z.div_str_pos. lia. }
  destruct (shr_m mrs2) as [| m' | m']; [lia | | lia].
  change (emax - prec) with 971.
  destruct (Z.leb_spec (Zpos (digits2_pos q) + (d + e - 53) - 53) 971);
    [| lia].
  eexists _, _. split; [reflexivity | lia].
Qed.

Lemma fexp_normal (k : Z) :
  -1074 <= k - 53 -> fexp prec emax k = k - 53.
Proof.
  intros Hk. unfold fexp.
  change (SpecFloat.emin prec emax) with (-1074). change prec with 53. lia.
Qed.

Lemma pos_iter_xO (m p : positive) :
  Zpos (Pos.iter xO m p) = Zpos m * 2 ^ Zpos p.
Proof.
  induction p as [| p IH] using Pos.peano_ind.
  - cbn [Pos.iter]. rewrite Pos2Z.inj_xO. change (2 ^ 1) with 2. lia.
  - rewrite Pos.iter_succ, Pos2Z.inj_xO, IH, Pos2Z.inj_succ.
    rewrite Z.pow_succ_r by lia. lia.
Qed.

(** The point [L + 0.5] at which the costs at [L] are computed is, from 33
    bytes on, a number of the binade of 32 or of a later one. *)
Lemma msglen_point_finite (L : Z) :
  33 <= L < 2 ^ 64 ->
  exists m e,
    Prim2SF (Double.of_size_t L + Double.UCP_PROTO_MSGLEN_EPSILON)%float
    = S754_finite false m e /\ -47 <= e <= 14.
Proof.
  intros HL. rewrite add_spec, Prim2SF_of_size_t by lia.
  destruct (size_t_to_SF_finite L ltac:(lia))
    as (m0 & e0 & -> & Hm0 & He0 & _ & Hpow).
  assert (He : -47 <= e0).
  { destruct (Z.le_gt_cases (-47) e0) as [| Hlt]; [assumption |].
    assert (2 ^ (53 + e0) <= 2 ^ 5) by (apply Z.pow_le_mono_r; lia).
    change (2 ^ 5) with 32 in *. lia. }
  change (Prim2SF Double.UCP_PROTO_MSGLEN_EPSILON)
    with (S754_finite false 4503599627370496 (-53)).
  unfold SF64add, SFadd. rewrite Z.min_r by lia.
  assert (Hs : shl_align m0 e0 (-53)
               = (Pos.iter xO m0 (Z.to_pos (53 + e0)), -53)).
  { unfold shl_align. destruct (-53 - e0) as [| k | k] eqn:Hk; try lia.
    do 2 f_equal. lia. }
  rewrite Hs. change (shl_align 4503599627370496 (-53) (-53))
    with (4503599627370496%positive, -53).
  cbn [fst cond_Zopp].
  change (Zpos (Pos.iter xO m0 (Z.to_pos (53 + e0))) + 4503599627370496)
    with (Zpos (Pos.iter xO m0 (Z.to_pos (53 + e0)) + 4503599627370496)).
  cbn [binary_normalize].
  set (M := (Pos.iter xO m0 (Z.to_pos (53 + e0)) + 4503599627370496)%positive).
  assert (HM : Zpos M = Zpos m0 * 2 ^ (53 + e0) + 2 ^ 52).
  { unfold M. rewrite Pos2Z.inj_add, pos_iter_xO, Z2Pos.id by lia.
    reflexivity. }
  assert (Hp : 2 ^ 6 <= 2 ^ (53 + e0)) by (apply Z.pow_le_mono_r; lia).
  assert (E : 2 ^ (105 + e0) = 2 ^ 52 * 2 ^ (53 + e0))
    by (rewrite <- Z.pow_add_r by lia; f_equal; lia).
  assert (E' : 2 ^ (107 + e0) = 2 ^ 54 * 2 ^ (53 + e0))
    by (rewrite <- Z.pow_add_r by lia; f_equal; lia).
  pose proof (digits2_pos_bounds M) as [Hlo Hhi].
  set (d := Zpos (digits2_pos M)) in *.
  assert (Hd : 106 + e0 <= d <= 107 + e0).
  { split.
    - destruct (Z.le_gt_cases (106 + e0) d) as [| Hlt]; [assumption |].
      assert (2 ^ d <= 2 ^ (105 + e0)) by (apply Z.pow_le_mono_r; lia). nia.
    - destruct (Z.le_gt_cases d (107 + e0)) as [| Hlt]; [assumption |].
      assert (2 ^ (107 + e0) <= 2 ^ (d - 1))
        by (apply Z.pow_le_mono_r; lia).
      change (2 ^ 52) with 4503599627370496 in *.
      change (2 ^ 53) with 9007199254740992 in *.
      change (2 ^ 54) with 18014398509481984 in *. change (2 ^ 6) with 64 in *.
      nia. }
  unfold binary_round. fold d. rewrite fexp_normal by lia.
  assert (Hs' : shl_align M (-53) (d + -53 - 53) = (M, -53)).
  { unfold shl_align. destruct (d + -53 - 53 - -53) as [| k | k] eqn:Hk;
      try reflexivity. lia. }
  rewrite Hs'.
  destruct (binary_round_aux_normal M (-53)) as (m' & e' & -> & He');
    fold d; try lia.
  exists m', e'. split; [reflexivity |]. fold d in He'. lia.
Qed.

(** Multiplication by one keeps the binade of a normal positive number. *)
Lemma mul_one_finite (x : float) (m : positive) (e : Z) :
  Prim2SF x = S754_finite false m e -> -1074 < e < 971 ->
  exists m' e', Prim2SF (1 * x)%float = S754_finite false m' e' /\ e <= e'.
Proof.
  intros Hx He. pose proof (Prim2SF_valid x) as Hv. rewrite Hx in Hv.
  apply valid_binary_finite in Hv as (Hm & _ & [Hn | Hn]); [lia |].
  rewrite mul_spec, Hx.
  change (Prim2SF 1) with (S754_finite false 4503599627370496 (-52)).
  unfold SF64mul, SFmul. cbn [xorb].
  assert (Hd : Zpos (digits2_pos (4503599627370496 * m)) = 105).
  { apply digits2_pos_unique. rewrite Pos2Z.inj_mul.
    change (Zpos 4503599627370496) with (2 ^ 52).
    change (2 ^ (105 - 1)) with (2 ^ 52 * 2 ^ 52).
    change (2 ^ 105) with (2 ^ 52 * 2 ^ 53).
    change (2 ^ 52) with 4503599627370496 in *.
    change (2 ^ 53) with 9007199254740992 in *. lia. }
  destruct (binary_round_aux_normal (4503599627370496 * m) (-52 + e))
    as (m' & e' & -> & He'); rewrite ?Hd in *; try lia.
  exists m', e'. split; [reflexivity | lia].
Qed.

(** **** Evaluation on a few lengths *)

Definition prefers_b (cost : Z -> float) (p q : Z) : bool :=
  (cost p <? cost q)%float || ((cost p <=? cost q)%float && (p <? q)).


Lemma prefers_b_spec (cost : Z -> float) (p q : Z) :
  prefers_b cost p q = true <-> prefers cost p q.
Proof.
  unfold prefers_b, prefers.
  rewrite orb_true_iff, andb_true_iff, Z.ltb_lt. reflexivity.
Qed.

Definition lengths (s e : Z) : list Z :=
  map (fun k => s + Z.of_nat k) (seq 0 (Z.to_nat (e - s + 1))).

Lemma in_lengths (s e L : Z) : s <= L <= e -> In L (lengths s e).
Proof.
  intros HL. unfold lengths. apply in_map_iff.
  exists (Z.to_nat (L - s)). split; [lia |]. apply in_seq. lia.
Qed.

Definition crossing_b (perf : Z -> ucs_linear_func_t) (a p q : Z)
  : option float :=
  match ucs_linear_func_intersect (perf q) (perf p) with
  | Some x =>
      if ((Double.of_size_t a <? x) && (x <? Double.of_size_t SIZE_MAX))%float
      then Some x else None
  | None => None
  end.

Lemma crossing_b_spec (perf : Z -> ucs_linear_func_t) (a p q : Z)
    (x : float) :
  crossing perf a p q x <-> crossing_b perf a p q = Some x.
Proof.
  unfold crossing, crossing_b.
  destruct (ucs_linear_func_intersect (perf q) (perf p)) as [y |].
  - destruct (Double.of_size_t a <? y)%float eqn:Ha;
      destruct (y <? Double.of_size_t SIZE_MAX)%float eqn:Hmax; simpl;
      split; try discriminate;
      try (intros (Hy & Ha' & Hm'); injection Hy as <-; congruence).
    intros Hy. injection Hy as <-. auto.
  - split; [intros (Hy & _) |]; discriminate.
Qed.

(** The iterations of the loop, run to check that none ends at a crossing
    before the point where its costs were compared. *)
Fixpoint near_tie_free_b (fuel : nat) (ea : bool)
    (perf : Z -> ucs_linear_func_t) (end_ proto_mask start : Z) : bool :=
  match fuel with
  | O => false
  | S fuel' =>
      match best_at ea proto_mask perf start with
      | Ok best =>
          match best_proto_id best with
          | Some b =>
              let ids := ucs_for_each_bit (mask_clear proto_mask b) in
              let midpoint :=
                fold_left (midpoint_step perf b start) ids end_ in
              forallb
                (fun q =>
                   match crossing_b perf start b q with
                   | Some x =>
                       negb (Double.to_size_t x <? end_)
                       || (Double.of_size_t start
                           + Double.UCP_PROTO_MSGLEN_EPSILON <? x)%float
                   | None => true
                   end) ids
              && (negb (midpoint <? end_)
                  || near_tie_free_b fuel' ea perf end_
                       (mask_clear proto_mask b) (midpoint + 1))
          | None => true
          end
      | _ => true
      end
  end.

Lemma near_tie_free_b_true (ea : bool) (perf : Z -> ucs_linear_func_t)
    (end_ : Z) (n : nat) :
  forall proto_mask start,
    near_tie_free_b n ea perf end_ proto_mask start = true ->
    no_near_tie ea perf end_ proto_mask start.
Proof.
  induction n as [| n IH]; intros proto_mask start H; [discriminate |].
  intros mask_i a best b q x Hr.
  cbn [near_tie_free_b] in H. cbv zeta in H.
  inversion Hr as [| ? ? best0 b0 ? ? Hbest0 Hid0 Hlt0 Hr0]; subst.
  - intros Hbest Hid Hq Hc Hlt. rewrite Hbest, Hid in H.
    apply andb_true_iff in H as [H _].
    rewrite List.forallb_forall in H. specialize (H q Hq).
    apply crossing_b_spec in Hc. rewrite Hc in H.
    apply orb_true_iff in H as [H | H]; [| exact H].
    apply negb_true_iff, Z.ltb_ge in H. lia.
  - rewrite Hbest0, Hid0 in H. apply andb_true_iff in H as [_ H].
    apply orb_true_iff in H as [H | H];
      [apply negb_true_iff, Z.ltb_ge in H; lia |].
    exact (IH _ _ H mask_i a best b q x Hr0).
Qed.

(** **** The two protocols *)

(** A protocol whose cost is the point [L + 0.5] itself, and one of
    constant cost 16: they cross at 16 bytes. *)
Definition perf_flat (i : Z) : ucs_linear_func_t :=
  if i =? 0 then {| func_c := 0; func_m := 1 |}
  else {| func_c := 16; func_m := 0 |}.

Lemma prefers_asym (cost : Z -> float) (p q : Z) :
  prefers cost p q -> prefers cost q p -> False.
Proof.
  intros [Hpq | [Hpq Hid1]] [Hqp | [Hqp Hid2]].
  - pose proof (ltb_trans _ _ _ Hpq Hqp) as H. rewrite ltb_irrefl in H.
    discriminate.
  - rewrite (ltb_leb_false _ _ Hpq) in Hqp. discriminate.
  - rewrite (ltb_leb_false _ _ Hqp) in Hpq. discriminate.
  - lia.
Qed.

(** Up to 15 bytes the first protocol is preferred. *)
Lemma perf_flat_below (L : Z) :
  0 <= L <= 15 -> prefers (cost_of perf_flat L) 0 1.
Proof.
  intros HL.
  assert (H : forallb (fun L => prefers_b (cost_of perf_flat L) 0 1)
                (lengths 0 15) = true) by (vm_compute; reflexivity).
  rewrite List.forallb_forall in H.
  apply prefers_b_spec, H, in_lengths, HL.
Qed.

(** From 16 bytes on the second one is: from 33 bytes on because the cost
    of the first one lies in a later binade than 16. *)
Lemma perf_flat_above (L : Z) :
  16 <= L <= SIZE_MAX -> prefers (cost_of perf_flat L) 1 0.
Proof.
  intros HL. destruct (Z.le_gt_cases L 32) as [Hle | Hgt].
  - assert (H : forallb (fun L => prefers_b (cost_of perf_flat L) 1 0)
                  (lengths 16 32) = true) by (vm_compute; reflexivity).
    rewrite List.forallb_forall in H.
    apply prefers_b_spec, H, in_lengths. lia.
  - left. unfold cost_of, perf_flat, ucs_linear_func_apply. cbn.
    destruct (msglen_point_finite L ltac:(unfold SIZE_MAX in HL; lia))
      as (m & e & Hx & He).
    set (x := (Double.of_size_t L + Double.UCP_PROTO_MSGLEN_EPSILON)%float)
      in *.
    destruct (mul_one_finite x m e Hx ltac:(lia)) as (m' & e' & Hy & He').
    rewrite ltb_spec, !add_spec, mul_spec, Hy, Hx.
    change (Prim2SF 0) with (S754_zero false).
    change (Prim2SF 16) with (S754_finite false 4503599627370496 (-48)).
    cbn [SF64mul SFmul SF64add SFadd xorb].
    unfold SFltb, SFcompare.
    destruct (Z.compare_spec (-48) e') as [| |]; try lia; reflexivity.
Qed.

Lemma lines_ordered_flat : lines_ordered perf_flat [0; 1] 0 SIZE_MAX.
Proof.
  assert (Hx01 : ucs_linear_func_intersect (perf_flat 1) (perf_flat 0)
                 = Some 16%float) by (vm_compute; reflexivity).
  assert (Hx10 : ucs_linear_func_intersect (perf_flat 0) (perf_flat 1)
                 = Some 16%float) by (vm_compute; reflexivity).
  assert (H16 : Double.to_size_t 16 = 16) by (vm_compute; reflexivity).
  assert (Hlow : forall a, prefers (cost_of perf_flat a) 0 1 ->
                           0 <= a <= SIZE_MAX -> a <= 15).
  { intros a Hp Ha. destruct (Z.le_gt_cases a 15) as [| Hgt]; [assumption |].
    destruct (prefers_asym _ _ _ Hp (perf_flat_above a ltac:(lia))). }
  assert (Hhigh : forall a, prefers (cost_of perf_flat a) 1 0 ->
                            0 <= a <= SIZE_MAX -> 16 <= a).
  { intros a Hp Ha. destruct (Z.le_gt_cases 16 a) as [| Hlt]; [assumption |].
    destruct (prefers_asym _ _ _ Hp (perf_flat_below a ltac:(lia))). }
  assert (Hbefore : forall a, 0 <= a <= 15 ->
            (Double.of_size_t a <? 16)%float = true).
  { intros a Ha.
    assert (H : forallb (fun a => (Double.of_size_t a <? 16)%float)
                  (lengths 0 15) = true) by (vm_compute; reflexivity).
    rewrite List.forallb_forall in H. apply H, in_lengths, Ha. }
  assert (Hpair : forall p q, In p [0; 1] -> In q [0; 1] -> p <> q ->
            (p = 0 /\ q = 1) \/ (p = 1 /\ q = 0)).
  { intros p q [<- | [<- | []]] [<- | [<- | []]] Hne; auto; contradiction. }
  split.
  - intros p q L Hp Hq Hne HL.
    destruct (Hpair p q Hp Hq Hne) as [[-> ->] | [-> ->]];
      destruct (Z.le_gt_cases L 15);
      first [ left; apply perf_flat_below; lia
            | right; apply perf_flat_below; lia
            | left; apply perf_flat_above; lia
            | right; apply perf_flat_above; lia ].
  - intros p q a L Hp Hq Hne Hs Ha He Hpref Hfar.
    destruct (Hpair p q Hp Hq Hne) as [[-> ->] | [-> ->]].
    + pose proof (Hlow a Hpref ltac:(lia)) as Ha15.
      assert (Hc : crossing perf_flat a 0 1 16).
      { split; [exact Hx01 |]. split; [apply Hbefore; lia |].
        vm_compute. reflexivity. }
      apply Hfar in Hc. rewrite H16 in Hc. apply perf_flat_below. lia.
    + pose proof (Hhigh a Hpref ltac:(lia)). apply perf_flat_above. lia.
  - intros p q a L x Hp Hq Hne Hs Ha He Hpref (Hx & Hgt & Hlt) _ Hfloor.
    destruct (Hpair p q Hp Hq Hne) as [[-> ->] | [-> ->]].
    + rewrite Hx01 in Hx. injection Hx as <-. rewrite H16 in Hfloor.
      apply perf_flat_above. lia.
    + rewrite Hx10 in Hx. injection Hx as <-.
      pose proof (Hhigh a Hpref ltac:(lia)) as Ha16.
      pose proof (to_size_t_above_start a 16 ltac:(lia) Hgt Hlt) as Hle.
      rewrite H16 in Hle. assert (a = 16) as -> by lia.
      vm_compute in Hgt. discriminate.
Qed.

Definition caps_flat (i : Z) : ucp_proto_caps_t :=
  {| cfg_thresh := UCS_MEMUNITS_AUTO;
     min_length := 0;
     ranges := [ {| range_max_length := SIZE_MAX;
                    range_perf := perf_flat i |} ] |}.

Definition proto_init_flat : ucp_proto_select_init_protocols_t :=
  {| select_param := 0;
     mask := 3;
     caps := caps_flat;
     priv_buf := None;
     priv_offsets := fun _ => 0 |}.

Example elem_init_thresh_flat :
  ucp_proto_select_elem_init_thresh true all_alloc_ok proto_init_flat
  = Ok (select_elem_of [thresh_elem 16 0; thresh_elem SIZE_MAX 1]).
Proof. vm_compute. reflexivity. Qed.

(** The sweep has the one step [0 .. SIZE_MAX], in which both protocols
    compete. *)
Lemma costs_ordered_flat : costs_ordered true 3 caps_flat 0.
Proof.
  assert (E0 : max_length (select_next_scan 3 caps_flat 0) = SIZE_MAX)
    by (vm_compute; reflexivity).
  assert (I0 : ucs_for_each_bit (competing 3 caps_flat 0) = [0; 1])
    by (vm_compute; reflexivity).
  intros s Hr. inversion Hr as [| ? ? Hlt Hr']; subst; [| lia].
  split.
  - rewrite E0, I0.
    apply (lines_ordered_ext perf_flat); [| exact lines_ordered_flat].
    intros q [<- | [<- | []]]; vm_compute; reflexivity.
  - apply (near_tie_free_b_true _ _ _ 3). vm_compute. reflexivity.
Qed.


(** ** The sweep comes to an end *)

Lemma filter_length_lt {A : Type} (f g : A -> bool) (l : list A) (x : A) :
  (forall y, g y = true -> f y = true) ->
  In x l -> f x = true -> g x = false ->
  (length (List.filter g l) < length (List.filter f l))%nat.
Proof.
  intros Himp Hin Hfx Hgx.
  assert (Hle : forall l', (length (List.filter g l')
                            <= length (List.filter f l'))%nat).
  { induction l' as [| a l' IH]; simpl; [lia |].
    destruct (g a) eqn:Hga.
    - rewrite (Himp a Hga). simpl. lia.
    - destruct (f a); simpl; lia. }
  induction l as [| a l IH]; [destruct Hin |].
  destruct Hin as [-> | Hin]; simpl.
  - rewrite Hfx, Hgx. simpl. specialize (Hle l). lia.
  - specialize (IH Hin). destruct (g a) eqn:Hga.
    + rewrite (Himp a Hga). simpl. lia.
    + destruct (f a); simpl; lia.
Qed.

(** The breakpoints that a sweep at [L] has not passed yet. *)
Definition breakpoints_left (proto_mask : Z)
    (proto_caps : Z -> ucp_proto_caps_t) (L : Z) : nat :=
  length (List.filter (fun b => L <=? b) (breakpoints proto_mask proto_caps)).

(** A step ends at [SIZE_MAX] or at a breakpoint. *)
Lemma scan_max_length_breakpoint (proto_mask : Z)
    (proto_caps : Z -> ucp_proto_caps_t) (L : Z) :
  max_length (select_next_scan proto_mask proto_caps L) = SIZE_MAX \/
  In (max_length (select_next_scan proto_mask proto_caps L))
     (breakpoints proto_mask proto_caps).
Proof.
  destruct (select_next_scan_spec proto_mask proto_caps L)
    as (_ & _ & _ & _ & _ & ->).
  destruct (list_min_In SIZE_MAX
              (flat_map (fun i => range_bound (proto_caps i) L
                                  ++ thresh_bound (proto_caps i) L)
                        (ucs_for_each_bit proto_mask))) as [Heq | Hin];
    [left; exact Heq | right].
  set (v := list_min _ _) in *.
  apply in_flat_map in Hin as (i & Hi & Hin).
  unfold breakpoints. apply in_flat_map. exists i. split; [exact Hi |].
  apply in_app_or in Hin as [Hin | Hin].
  - right. unfold range_bound in Hin. destruct (L <? _); [destruct Hin |].
    destruct (find_range _ _) as [r |] eqn:Hr; [| destruct Hin].
    destruct Hin as [<- | []]. apply find_range_Some in Hr as [Hr _].
    apply in_map, Hr.
  - left. unfold thresh_bound in Hin.
    destruct (_ && _ && _); [| destruct Hin].
    destruct Hin as [<- | []]. reflexivity.
Qed.

Lemma competing_is_mask (proto_mask : Z) (proto_caps : Z -> ucp_proto_caps_t)
    (L : Z) :
  is_mask (competing proto_mask proto_caps L) /\
  (valid_proto_mask (select_next_scan proto_mask proto_caps L) <> 0 ->
   competing proto_mask proto_caps L <> 0).
Proof.
  unfold competing, select_next_mask.
  destruct (select_next_scan_spec proto_mask proto_caps L)
    as (Hv & Hf & _).
  destruct (Z.eqb_spec
              (Z.land (forced_proto_mask
                         (select_next_scan proto_mask proto_caps L))
                      (valid_proto_mask
                         (select_next_scan proto_mask proto_caps L))) 0)
    as [Hz | Hnz].
  - split; [exact Hv | auto].
  - split; [apply land_is_mask; assumption | auto].
Qed.

Lemma select_next_not_NoFuel (ea : bool) (proto_mask : Z)
    (proto_caps : Z -> ucp_proto_caps_t)
    (tl : list ucp_proto_threshold_tmp_elem_t) (L : Z) :
  ucp_proto_thresholds_select_next ea proto_mask proto_caps tl L <> NoFuel.
Proof.
  unfold ucp_proto_thresholds_select_next.
  set (st := select_next_scan proto_mask proto_caps L).
  destruct (ucs_assert_cases ea (L <=? max_length st) Assert_msg_length_le_max
              (if valid_proto_mask st =? 0 then Err UCS_ERR_UNSUPPORTED
               else
                 let* thresh_list' :=
                   ucp_proto_thresholds_select_best ea (select_next_mask st)
                     (proto_perf st) tl L (max_length st) in
                 Ok (thresh_list', max_length st)))
    as [-> | (_ & _ & ->)]; [| discriminate].
  destruct (Z.eqb_spec (valid_proto_mask st) 0) as [| Hne]; [discriminate |].
  destruct (competing_is_mask proto_mask proto_caps L) as [Hm Hnz].
  specialize (Hnz Hne). unfold competing in Hm, Hnz. fold st in Hm, Hnz.
  unfold ucp_proto_thresholds_select_best.
  destruct (select_best_loop_fuel ea (S (popcount (select_next_mask st)))
              (select_next_mask st) (proto_perf st) tl L (max_length st)
              Hm Hnz ltac:(lia)) as (Hfuel & _).
  destruct (select_best_loop _ _ _ _ _ _ _); simpl; congruence.
Qed.

Lemma init_thresh_loop_not_NoFuel (ea : bool) (proto_mask : Z)
    (proto_caps : Z -> ucp_proto_caps_t) (n : nat) :
  caps_wf proto_mask proto_caps ->
  forall (tl : list ucp_proto_threshold_tmp_elem_t) (L : Z),
    0 <= L <= SIZE_MAX ->
    (breakpoints_left proto_mask proto_caps L < n)%nat ->
    init_thresh_loop ea n proto_mask proto_caps tl L <> NoFuel.
Proof.
  intros Hwf. induction n as [| n IH]; intros tl L HL Hleft; [lia |].
  cbn [init_thresh_loop].
  pose proof (select_next_not_NoFuel ea proto_mask proto_caps tl L) as Hnf.
  destruct (ucp_proto_thresholds_select_next ea proto_mask proto_caps tl L)
    as [[tl1 mx] | | | |] eqn:Hnext; simpl; try congruence.
  apply select_next_Ok in Hnext as (-> & _ & _).
  set (mx := max_length (select_next_scan proto_mask proto_caps L)).
  destruct (Z.ltb_spec mx SIZE_MAX) as [Hlt | Hge]; [| discriminate].
  pose proof (scan_max_length_bounds proto_mask proto_caps L HL Hwf) as Hb.
  fold mx in Hb.
  unfold wrap64. rewrite Z.mod_small by (unfold SIZE_MAX in *; lia).
  apply IH; [lia |].
  destruct (scan_max_length_breakpoint proto_mask proto_caps L) as [Heq | Hin];
    fold mx in Heq || fold mx in Hin; [lia |].
  assert (breakpoints_left proto_mask proto_caps (mx + 1)
          < breakpoints_left proto_mask proto_caps L)%nat; [| lia].
  unfold breakpoints_left.
  apply filter_length_lt with (x := mx); [| exact Hin | |].
  - intros y Hy. apply Z.leb_le in Hy. apply Z.leb_le. lia.
  - apply Z.leb_le. lia.
  - apply Z.leb_gt. lia.
Qed.

(** The bound on the steps of the sweep is enough: the construction of the
    thresholds runs to a result, an error status or an assertion. *)
Lemma elem_init_thresh_not_NoFuel (ea : bool) (alloc_ok : allocation -> bool)
    (proto_init : ucp_proto_select_init_protocols_t) :
  caps_wf (mask proto_init) (caps proto_init) ->
  ucp_proto_select_elem_init_thresh ea alloc_ok proto_init <> NoFuel.
Proof.
  intros Hwf. unfold ucp_proto_select_elem_init_thresh.
  pose proof (init_thresh_loop_not_NoFuel ea (mask proto_init)
                (caps proto_init)
                (sweep_bound (mask proto_init) (caps proto_init)) Hwf [] 0
                ltac:(unfold SIZE_MAX; lia)) as Hnf.
  destruct (init_thresh_loop _ _ _ _ _ _) as [tl | | | |]; simpl;
    try congruence.
  - unfold ucs_assert_always.
    destruct (negb _); [| discriminate].
    destruct (alloc_ok _); discriminate.
  - exfalso. apply Hnf; [| reflexivity].
    unfold breakpoints_left, sweep_bound.
    pose proof (List.filter_length_le (fun b => 0 <=? b)
                  (breakpoints (mask proto_init) (caps proto_init))).
    lia.
Qed.

(** ** Error statuses of the element construction *)

Definition construction_error (status : ucs_status_t) : Prop :=
  status = UCS_ERR_NO_MEMORY \/ status = UCS_ERR_NO_ELEM \/
  status = UCS_ERR_UNSUPPORTED.

Lemma bind_Err {A B : Type} (o : outcome A) (k : A -> outcome B)
    (status : ucs_status_t) :
  bind o k = Err status ->
  o = Err status \/ exists a, o = Ok a /\ k a = Err status.
Proof.
  destruct o as [a | s | | |]; simpl; intros H; try discriminate.
  - right. exists a. split; [reflexivity | exact H].
  - left. injection H as ->. reflexivity.
Qed.

Lemma ucs_assert_Err {A : Type} (ea cond : bool) (a : assertion)
    (k : outcome A) (status : ucs_status_t) :
  ucs_assert ea cond a k = Err status -> k = Err status.
Proof. unfold ucs_assert. destruct (ea && negb cond); [discriminate | auto]. Qed.

Lemma thresholds_append_Err (ea : bool)
    (tl : list ucp_proto_threshold_tmp_elem_t) (max_length proto_id : Z)
    (status : ucs_status_t) :
  ucp_proto_thresholds_append ea tl max_length proto_id = Err status ->
  status = UCS_ERR_NO_MEMORY.
Proof.
  destruct (thresholds_append_cases ea tl max_length proto_id)
    as [(tl' & ->) | [-> | ->]]; congruence.
Qed.

Lemma find_best_not_Err (ea : bool) (ids : list Z)
    (perf : Z -> ucs_linear_func_t) (x : float) (best : best_t)
    (status : ucs_status_t) :
  find_best ea ids perf x best <> Err status.
Proof.
  destruct (find_best_cases ea ids perf x best) as [-> | (b & -> & _)];
    discriminate.
Qed.

Lemma select_best_loop_Err (ea : bool) (n : nat) :
  forall (proto_mask : Z) (perf : Z -> ucs_linear_func_t)
         (tl : list ucp_proto_threshold_tmp_elem_t) (start end_ : Z)
         (status : ucs_status_t),
    select_best_loop ea n proto_mask perf tl start end_ = Err status ->
    status = UCS_ERR_NO_MEMORY.
Proof.
  induction n as [| n IH]; intros proto_mask perf tl start end_ status H;
    [discriminate |].
  rewrite select_best_loop_S in H. apply ucs_assert_Err in H.
  apply bind_Err in H as [H | (best & _ & H)];
    [exfalso; eapply find_best_not_Err; exact H |].
  destruct (best_proto_id best) as [b |];
    [| apply ucs_assert_Err in H; discriminate].
  cbv zeta in H. apply bind_Err in H as [H | (tl1 & _ & H)].
  - eapply thresholds_append_Err, H.
  - destruct (_ <? _); [eapply IH, H | discriminate].
Qed.

Lemma init_thresh_loop_Err (ea : bool) (proto_mask : Z)
    (proto_caps : Z -> ucp_proto_caps_t) (n : nat) :
  forall (tl : list ucp_proto_threshold_tmp_elem_t) (L : Z)
         (status : ucs_status_t),
    init_thresh_loop ea n proto_mask proto_caps tl L = Err status ->
    status = UCS_ERR_NO_MEMORY \/ status = UCS_ERR_UNSUPPORTED.
Proof.
  induction n as [| n IH]; intros tl L status H; [discriminate |].
  cbn [init_thresh_loop] in H.
  apply bind_Err in H as [H | ([tl1 mx] & _ & H)].
  - unfold ucp_proto_thresholds_select_next in H.
    apply ucs_assert_Err in H.
    destruct (_ =? 0); [injection H as <-; now right |].
    apply bind_Err in H as [H | (tl1 & _ & H)]; [| discriminate].
    left. eapply select_best_loop_Err, H.
  - destruct (_ <? _); [eapply IH, H | discriminate].
Qed.

Lemma elem_init_Err (ea : bool) (alloc_ok : allocation -> bool)
    (ucp_protocols : list ucp_proto_t) (null_index : Z)
    (worker : ucp_worker_t) (ep_cfg_index rkey_cfg_index : Z)
    (param : ucp_proto_select_param_t) (status : ucs_status_t) :
  ucp_proto_select_elem_init ea alloc_ok ucp_protocols null_index worker
    ep_cfg_index rkey_cfg_index param = Err status ->
  construction_error status.
Proof.
  unfold ucp_proto_select_elem_init, construction_error. intros H.
  destruct (negb (alloc_ok Alloc_proto_init));
    [injection H as <-; now left |].
  apply bind_Err in H as [H | (proto_init & _ & H)].
  - unfold ucp_proto_select_init_protocols, ucs_assert_always in H.
    apply ucs_assert_Err in H.
    destruct (_ || _); [| discriminate].
    destruct (negb (alloc_ok Alloc_priv_buf));
      [injection H as <-; now left |].
    destruct (_ =? 0); [injection H as <-; right; now left |].
    destruct (_ =? 0); [discriminate |].
    destruct (alloc_ok Realloc_priv_buf);
      [discriminate | injection H as <-; now left].
  - unfold ucp_proto_select_elem_init_thresh, ucs_assert_always in H.
    apply bind_Err in H as [H | (tl & _ & H)].
    + apply init_thresh_loop_Err in H as [-> | ->]; auto.
    + destruct (negb _); [| discriminate].
      destruct (alloc_ok Alloc_thresholds);
        [discriminate | injection H as <-; now left].
Qed.

(** ** Slow lookup *)

Section LookupSlow.

Variable enable_assert : bool.
Variable alloc_ok : allocation -> bool.
Variable ucp_protocols : list ucp_proto_t.
Variable null_index : Z.
Variable worker : ucp_worker_t.
Variable ep_cfg_index rkey_cfg_index : Z.
Variable param : Z.

Let elem_init : outcome ucp_proto_select_elem_t :=
  ucp_proto_select_elem_init enable_assert alloc_ok ucp_protocols null_index
    worker ep_cfg_index rkey_cfg_index param.

Let lookup_slow (proto_select : ucp_proto_select_t) (o : kh_put_oracle)
  : outcome (option Z * ucp_proto_select_t) :=
  ucp_proto_select_lookup_slow enable_assert alloc_ok ucp_protocols null_index
    worker proto_select ep_cfg_index rkey_cfg_index param o.

(** The call on a key that is not in the hash, when the insertion does not
    fail, by the outcome of the element construction. *)
Lemma lookup_slow_fresh (proto_select : ucp_proto_select_t)
    (o : kh_put_oracle) :
  hash proto_select !! param = None -> kh_resize_ok o = true ->
  lookup_slow proto_select o =
  match elem_init with
  | Ok select_elem =>
      Ok (Some param,
          {| hash := <[param := Slot_elem select_elem]>
                       (<[param := Slot_uninit]> (hash proto_select));
             cache_key := UINT64_MAX;
             cache_value := None;
             trace := ((trace proto_select ++ [Ev_kh_put param])
                       ++ [Ev_cache_reset])
                      ++ [Ev_kh_value param; Ev_elem_init] |})
  | Err _ =>
      Ok (None,
          {| hash := kh_del (<[param := Slot_uninit]> (hash proto_select)) param;
             cache_key := UINT64_MAX;
             cache_value := None;
             trace := (((trace proto_select ++ [Ev_kh_put param])
                        ++ [Ev_cache_reset])
                       ++ [Ev_kh_value param; Ev_elem_init])
                      ++ [Ev_kh_del param] |})
  | Fatal a => Fatal a
  | Undefined => Undefined
  | NoFuel => NoFuel
  end.
Proof.
  intros Hfresh Hresize.
  unfold lookup_slow, ucp_proto_select_lookup_slow, kh_put. cbv zeta.
  rewrite Hresize, Hfresh. simpl. fold elem_init.
  destruct (kh_bucket_deleted o); simpl; destruct elem_init; reflexivity.
Qed.

(** The call on a key that is in the hash, or with an insertion that
    fails. *)
Lemma lookup_slow_not_fresh (proto_select : ucp_proto_select_t)
    (o : kh_put_oracle) :
  is_Some (hash proto_select !! param) \/ kh_resize_ok o = false ->
  lookup_slow proto_select o = Fatal Assert_khret_fresh.
Proof.
  intros H. unfold lookup_slow, ucp_proto_select_lookup_slow, kh_put.
  destruct (kh_resize_ok o); simpl; [| reflexivity].
  destruct H as [[s Hs] | H]; [| discriminate].
  rewrite Hs. reflexivity.
Qed.

End LookupSlow.

(** C7: when the element construction fails -- with [NO_MEMORY], [NO_ELEM]
    or [UNSUPPORTED] -- the slow lookup deletes the slot that it has just
    inserted and returns a null pointer, and the hash holds no entry for the
    parameters afterwards; when the construction succeeds, it returns a
    pointer to the value slot, which holds the constructed element. *)
Theorem lookup_slow_failure_deletes_slot (enable_assert : bool)
    (alloc_ok : allocation -> bool) (ucp_protocols : list ucp_proto_t)
    (null_index : Z) (worker : ucp_worker_t)
    (ep_cfg_index rkey_cfg_index param : Z)
    (proto_select : ucp_proto_select_t) (o : kh_put_oracle) :
  hash proto_select !! param = None -> kh_resize_ok o = true ->
  (forall status,
     ucp_proto_select_elem_init enable_assert alloc_ok ucp_protocols null_index
       worker ep_cfg_index rkey_cfg_index param = Err status ->
     construction_error status /\
     exists proto_select',
       ucp_proto_select_lookup_slow enable_assert alloc_ok ucp_protocols
         null_index worker proto_select ep_cfg_index rkey_cfg_index param o
       = Ok (None, proto_select') /\
       last (trace proto_select') = Some (Ev_kh_del param) /\
       hash proto_select' !! param = None /\
       hash proto_select' = hash proto_select) /\
  (forall select_elem,
     ucp_proto_select_elem_init enable_assert alloc_ok ucp_protocols null_index
       worker ep_cfg_index rkey_cfg_index param = Ok select_elem ->
     exists proto_select',
       ucp_proto_select_lookup_slow enable_assert alloc_ok ucp_protocols
         null_index worker proto_select ep_cfg_index rkey_cfg_index param o
       = Ok (Some param, proto_select') /\
       hash proto_select' !! param = Some (Slot_elem select_elem) /\
       forall k, k <> param ->
                 hash proto_select' !! k = hash proto_select !! k).
Proof.
  intros Hfresh Hresize.
  pose proof (lookup_slow_fresh enable_assert alloc_ok ucp_protocols null_index
                worker ep_cfg_index rkey_cfg_index param proto_select o
                Hfresh Hresize) as Hcall.
  split.
  - intros status Hinit. rewrite Hinit in Hcall.
    split; [eapply elem_init_Err; exact Hinit |].
    eexists. split; [exact Hcall |]. simpl. unfold kh_del.
    rewrite delete_insert_id by exact Hfresh.
    split; [apply last_snoc | auto].
  - intros select_elem Hinit. rewrite Hinit in Hcall.
    eexists. split; [exact Hcall |]. simpl. split.
    + apply lookup_insert_eq.
    + intros k Hk. rewrite !lookup_insert_ne by congruence. reflexivity.
Qed.

(** C8: a call of the slow lookup that returns has reset the cache to its
    sentinel (key all-ones, null value) after the insertion into the hash
    and before the value slot is taken, and the cache is in that state at
    the return, on the success path and on the failure path, which ends by
    deleting the slot. *)
Theorem lookup_slow_resets_cache (enable_assert : bool)
    (alloc_ok : allocation -> bool) (ucp_protocols : list ucp_proto_t)
    (null_index : Z) (worker : ucp_worker_t)
    (ep_cfg_index rkey_cfg_index param : Z)
    (proto_select proto_select' : ucp_proto_select_t) (o : kh_put_oracle)
    (ret : option Z) :
  ucp_proto_select_lookup_slow enable_assert alloc_ok ucp_protocols
    null_index worker proto_select ep_cfg_index rkey_cfg_index param o
  = Ok (ret, proto_select') ->
  cache_key proto_select' = UINT64_MAX /\
  cache_value proto_select' = None /\
  exists tail,
    trace proto_select'
    = trace proto_select
      ++ [Ev_kh_put param; Ev_cache_reset; Ev_kh_value param; Ev_elem_init]
      ++ tail /\
    ((ret = Some param /\ tail = []) \/
     (ret = None /\ tail = [Ev_kh_del param])).
Proof.
  intros Hcall.
  destruct (hash proto_select !! param) as [s |] eqn:Hfresh.
  - rewrite lookup_slow_not_fresh in Hcall by (left; eauto). discriminate.
  - destruct (kh_resize_ok o) eqn:Hresize.
    + rewrite lookup_slow_fresh in Hcall by assumption.
      destruct (ucp_proto_select_elem_init _ _ _ _ _ _ _ _);
        try discriminate; injection Hcall as <- <-; simpl;
        (split; [reflexivity |]); (split; [reflexivity |]).
      * exists []. rewrite <- !app_assoc. simpl. auto.
      * exists [Ev_kh_del param]. rewrite <- !app_assoc. simpl. auto.
    + rewrite lookup_slow_not_fresh in Hcall by (right; exact Hresize).
      discriminate.
Qed.

(** C10: the slow lookup requires that its parameters are not in the hash
    yet: on a key that has an entry, whatever the insertion meets, it does
    not return the entry but fails the assertion on the result of the
    insertion, which is always enabled. *)
Theorem lookup_slow_requires_fresh_key (enable_assert : bool)
    (alloc_ok : allocation -> bool) (ucp_protocols : list ucp_proto_t)
    (null_index : Z) (worker : ucp_worker_t)
    (ep_cfg_index rkey_cfg_index param : Z)
    (proto_select : ucp_proto_select_t) (o : kh_put_oracle) :
  is_Some (hash proto_select !! param) ->
  ucp_proto_select_lookup_slow enable_assert alloc_ok ucp_protocols
    null_index worker proto_select ep_cfg_index rkey_cfg_index param o
  = Fatal Assert_khret_fresh.
Proof.
  intros Hin. apply lookup_slow_not_fresh. left. exact Hin.
Qed.

(** *** A registry of two protocols *)

Definition proto_of_caps (c : ucp_proto_caps_t) (priv_size : Z) : ucp_proto_t :=
  {| proto_init := fun _ => Some (c, priv_size) |}.

Definition protocols_two : list ucp_proto_t :=
  [ proto_of_caps (caps_two UCS_MEMUNITS_AUTO UCS_MEMUNITS_AUTO 0) 8;
    proto_of_caps (caps_two UCS_MEMUNITS_AUTO UCS_MEMUNITS_AUTO 1) 16 ].

Definition worker_two : ucp_worker_t :=
  {| rkey_config_ep_cfg_index := fun _ => 0 |}.

Definition select_elem_two (param : Z) : ucp_proto_select_elem_t :=
  {| thresholds :=
       [ {| max_msg_length := 16;
            proto_config := {| config_select_param := param;
                               config_proto := 0; config_priv := 0 |} |};
         {| max_msg_length := SIZE_MAX;
            proto_config := {| config_select_param := param;
                               config_proto := 1; config_priv := 8 |} |} ];
     elem_priv_buf := Some 24 |}.

Definition put_ok : kh_put_oracle :=
  {| kh_resize_ok := true; kh_bucket_deleted := false |}.

(** The context after [ucp_proto_select_init]. *)
Definition proto_select_empty : ucp_proto_select_t :=
  snd ucp_proto_select_init.

(** The selection for the parameters 7 succeeds with the two protocols and
    fails with [NO_ELEM] when no protocol is registered. *)
Example elem_init_two :
  ucp_proto_select_elem_init true all_alloc_ok protocols_two 255 worker_two
    0 255 7 = Ok (select_elem_two 7).
Proof. vm_compute. reflexivity. Qed.

Example elem_init_none :
  ucp_proto_select_elem_init true all_alloc_ok [] 255 worker_two 0 255 7
  = Err UCS_ERR_NO_ELEM.
Proof. vm_compute. reflexivity. Qed.

Lemma lookup_slow_failure_deletes_slot_witness :
  (exists proto_select',
     ucp_proto_select_lookup_slow true all_alloc_ok protocols_two 255
       worker_two proto_select_empty 0 255 7 put_ok
     = Ok (Some 7, proto_select') /\
     hash proto_select' !! 7 = Some (Slot_elem (select_elem_two 7)) /\
     forall k, k <> 7 ->
               hash proto_select' !! k = hash proto_select_empty !! k) /\
  (construction_error UCS_ERR_NO_ELEM /\
   exists proto_select',
     ucp_proto_select_lookup_slow true all_alloc_ok [] 255
       worker_two proto_select_empty 0 255 7 put_ok
     = Ok (None, proto_select') /\
     last (trace proto_select') = Some (Ev_kh_del 7) /\
     hash proto_select' !! 7 = None /\
     hash proto_select' = hash proto_select_empty).
Proof.
  split.
  - apply (lookup_slow_failure_deletes_slot true all_alloc_ok protocols_two
             255 worker_two 0 255 7 proto_select_empty put_ok);
      [reflexivity | reflexivity | exact elem_init_two].
  - apply (lookup_slow_failure_deletes_slot true all_alloc_ok [] 255
             worker_two 0 255 7 proto_select_empty put_ok);
      [reflexivity | reflexivity | exact elem_init_none].
Defined.

(** The context after the failed lookup of the parameters 7 in the empty
    context. *)
Definition proto_select_failed : ucp_proto_select_t :=
  {| hash := kh_del (<[7 := Slot_uninit]> (hash proto_select_empty)) 7;
     cache_key := UINT64_MAX;
     cache_value := None;
     trace := [Ev_cache_reset; Ev_kh_put 7; Ev_cache_reset; Ev_kh_value 7;
               Ev_elem_init; Ev_kh_del 7] |}.

Example lookup_slow_none :
  ucp_proto_select_lookup_slow true all_alloc_ok [] 255
    worker_two proto_select_empty 0 255 7 put_ok
  = Ok (None, proto_select_failed).
Proof.
  rewrite lookup_slow_fresh by reflexivity.
  rewrite elem_init_none. reflexivity.
Qed.

Lemma lookup_slow_resets_cache_witness :
  cache_key proto_select_failed = UINT64_MAX /\
  cache_value proto_select_failed = None /\
  exists tail,
    trace proto_select_failed
    = trace proto_select_empty
      ++ [Ev_kh_put 7; Ev_cache_reset; Ev_kh_value 7; Ev_elem_init]
      ++ tail /\
    ((None = Some 7 /\ tail = []) \/
     (@None Z = None /\ tail = [Ev_kh_del 7])).
Proof.
  exact (lookup_slow_resets_cache true all_alloc_ok [] 255 worker_two 0 255 7
           proto_select_empty proto_select_failed put_ok None
           lookup_slow_none).
Defined.

(** A context that holds an entry for the parameters 7. *)
Definition proto_select_seven : ucp_proto_select_t :=
  {| hash := {[ 7 := Slot_elem (select_elem_two 7) ]};
     cache_key := UINT64_MAX;
     cache_value := None;
     trace := [] |}.

Lemma lookup_slow_requires_fresh_key_witness :
  ucp_proto_select_lookup_slow true all_alloc_ok protocols_two 255
    worker_two proto_select_seven 0 255 7 put_ok
  = Fatal Assert_khret_fresh.
Proof.
  apply (lookup_slow_requires_fresh_key true all_alloc_ok protocols_two 255
           worker_two 0 255 7 proto_select_seven put_ok).
  exists (Slot_elem (select_elem_two 7)). reflexivity.
Defined.

(** ** The calls run to an end *)

(** The capabilities that the protocols of the registry report hold a
    [size_t] in [cfg_thresh]. *)
Definition protocols_wf (ucp_protocols : list ucp_proto_t) : Prop :=
  forall proto init_params c priv_size,
    In proto ucp_protocols ->
    proto_init proto init_params = Some (c, priv_size) ->
    is_size_t (cfg_thresh c).

Lemma init_protocols_fold_wf (ucp_protocols : list ucp_proto_t)
    (init_params : ucp_proto_init_params_t) (l : list (Z * ucp_proto_t)) :
  protocols_wf ucp_protocols ->
  Forall (fun p => 0 <= fst p /\ In (snd p) ucp_protocols) l ->
  forall st,
    (forall i, 0 <= i -> Z.testbit (ip_mask st) i = true ->
               is_size_t (cfg_thresh (ip_caps st i))) ->
    forall i, 0 <= i ->
      Z.testbit (ip_mask (fold_left (init_protocols_step init_params) l st)) i
      = true ->
      is_size_t (cfg_thresh
                   (ip_caps (fold_left (init_protocols_step init_params) l st)
                      i)).
Proof.
  intros Hwf Hl. induction Hl as [| [proto_id proto] l [Hid Hin] Hl IH];
    intros st Hst; simpl; [exact Hst |].
  apply IH. intros i Hi.
  destruct (proto_init proto init_params) as [[c priv_size] |] eqn:Hinit;
    [| apply Hst, Hi].
  simpl in *. unfold caps_set. rewrite mask_set_testbit by exact Hid.
  destruct (Z.eqb_spec i proto_id) as [-> | Hne].
  - intros _. eapply Hwf; eassumption.
  - destruct (Z.eqb_spec proto_id i); [congruence |].
    rewrite orb_false_r. apply Hst, Hi.
Qed.

Lemma init_protocols_wf (ea : bool) (alloc_ok : allocation -> bool)
    (ucp_protocols : list ucp_proto_t) (null_index : Z)
    (worker : ucp_worker_t) (ep_cfg_index rkey_cfg_index : Z)
    (param : ucp_proto_select_param_t)
    (proto_init : ucp_proto_select_init_protocols_t) :
  protocols_wf ucp_protocols ->
  ucp_proto_select_init_protocols ea alloc_ok ucp_protocols null_index worker
    ep_cfg_index rkey_cfg_index param = Ok proto_init ->
  caps_wf (mask proto_init) (caps proto_init).
Proof.
  intros Hwf H. unfold ucp_proto_select_init_protocols, ucs_assert_always in H.
  apply ucs_assert_Ok in H.
  destruct (_ || _); [| discriminate].
  destruct (negb (alloc_ok Alloc_priv_buf)); [discriminate |].
  set (init_params := {| init_worker := worker |}) in H.
  set (l := combine _ ucp_protocols) in H.
  set (st0 := {| ip_mask := 0 |}) in H.
  assert (Hfold : forall i, 0 <= i ->
            Z.testbit (ip_mask (fold_left (init_protocols_step init_params)
                                          l st0)) i = true ->
            is_size_t (cfg_thresh
                         (ip_caps (fold_left (init_protocols_step init_params)
                                             l st0) i))).
  { apply (init_protocols_fold_wf ucp_protocols); [exact Hwf | |].
    - apply List.Forall_forall. intros [proto_id proto] Hp. simpl.
      split; [| eapply in_combine_r; exact Hp].
      apply in_combine_l, in_map_iff in Hp as (k & <- & _). lia.
    - intros i _ Hb. simpl in Hb. rewrite Z.bits_0 in Hb. discriminate. }
  assert (Hcaps : mask proto_init
                  = ip_mask (fold_left (init_protocols_step init_params) l st0)
                  /\ caps proto_init
                     = ip_caps (fold_left (init_protocols_step init_params)
                                          l st0)).
  { destruct (_ =? 0); [discriminate |].
    destruct (_ =? 0); [injection H as <-; auto |].
    destruct (alloc_ok Realloc_priv_buf); [| discriminate].
    injection H as <-; auto. }
  destruct Hcaps as [-> ->].
  intros i Hi. apply in_for_each_bit in Hi as [Hi Hb].
  apply Hfold; [lia | exact Hb].
Qed.

(** With a well-formed registry the construction of an element does not
    exhaust the bound on the steps of its sweep. *)
Lemma elem_init_not_NoFuel (ea : bool) (alloc_ok : allocation -> bool)
    (ucp_protocols : list ucp_proto_t) (null_index : Z)
    (worker : ucp_worker_t) (ep_cfg_index rkey_cfg_index : Z)
    (param : ucp_proto_select_param_t) :
  protocols_wf ucp_protocols ->
  ucp_proto_select_elem_init ea alloc_ok ucp_protocols null_index worker
    ep_cfg_index rkey_cfg_index param <> NoFuel.
Proof.
  intros Hwf. unfold ucp_proto_select_elem_init.
  destruct (negb (alloc_ok Alloc_proto_init)); [discriminate |].
  destruct (ucp_proto_select_init_protocols ea alloc_ok ucp_protocols
              null_index worker ep_cfg_index rkey_cfg_index param)
    as [proto_init | | | |] eqn:Hinit; simpl; try discriminate.
  - apply elem_init_thresh_not_NoFuel.
    eapply init_protocols_wf; eassumption.
  - unfold ucp_proto_select_init_protocols, ucs_assert_always, ucs_assert
      in Hinit.
    destruct (ea && _); [discriminate |].
    destruct (_ || _); [| discriminate].
    destruct (negb (alloc_ok Alloc_priv_buf)); [discriminate |].
    destruct (_ =? 0); [discriminate |].
    destruct (_ =? 0); [discriminate |].
    destruct (alloc_ok Realloc_priv_buf); discriminate.
Qed.

(** The slow lookup returns a pointer or null, or the process is aborted:
    the model reaches no other end when the key is new and the insertion
    succeeds. *)
Lemma lookup_slow_returns_or_aborts (ea : bool) (alloc_ok : allocation -> bool)
    (ucp_protocols : list ucp_proto_t) (null_index : Z)
    (worker : ucp_worker_t) (ep_cfg_index rkey_cfg_index param : Z)
    (proto_select : ucp_proto_select_t) (o : kh_put_oracle) :
  protocols_wf ucp_protocols ->
  ucp_proto_select_lookup_slow ea alloc_ok ucp_protocols null_index worker
    proto_select ep_cfg_index rkey_cfg_index param o <> NoFuel.
Proof.
  intros Hwf.
  destruct (hash proto_select !! param) as [s |] eqn:Hfresh.
  - rewrite lookup_slow_not_fresh by (left; eauto). discriminate.
  - destruct (kh_resize_ok o) eqn:Hresize.
    + rewrite lookup_slow_fresh by assumption.
      pose proof (elem_init_not_NoFuel ea alloc_ok ucp_protocols null_index
                    worker ep_cfg_index rkey_cfg_index param Hwf) as Hnf.
      destruct (ucp_proto_select_elem_init _ _ _ _ _ _ _ _);
        congruence.
    + rewrite lookup_slow_not_fresh by (right; exact Hresize). discriminate.
Qed.

(** * Further properties *)

(** ** The sweep: iterations and assertions *)

Lemma init_thresh_loop_more_fuel (ea : bool) (proto_mask : Z)
    (proto_caps : Z -> ucp_proto_caps_t) (n : nat) :
  forall (tl : list ucp_proto_threshold_tmp_elem_t) (L : Z) (k : nat),
    init_thresh_loop ea n proto_mask proto_caps tl L <> NoFuel ->
    init_thresh_loop ea (n + k) proto_mask proto_caps tl L
    = init_thresh_loop ea n proto_mask proto_caps tl L.
Proof.
  induction n as [| n IH]; intros tl L k H; [contradiction H; reflexivity |].
  cbn [init_thresh_loop Nat.add] in *.
  destruct (ucp_proto_thresholds_select_next ea proto_mask proto_caps tl L)
    as [[tl1 mx] | | | |]; simpl in *; try reflexivity.
  destruct (mx <? SIZE_MAX); [apply IH, H | reflexivity].
Qed.

(** X1: the [do ... while (max_length < SIZE_MAX)] loop of
    [ucp_proto_select_elem_init_thresh] ends within one iteration more than
    there are range ends and configured thresholds among the protocols of
    the mask: a larger bound on the iterations gives the same result. *)
Theorem sweep_terminates (enable_assert : bool) (proto_mask : Z)
    (proto_caps : Z -> ucp_proto_caps_t) (fuel : nat) :
  caps_wf proto_mask proto_caps ->
  (sweep_bound proto_mask proto_caps <= fuel)%nat ->
  init_thresh_loop enable_assert fuel proto_mask proto_caps [] 0 <> NoFuel /\
  init_thresh_loop enable_assert fuel proto_mask proto_caps [] 0
  = init_thresh_loop enable_assert (sweep_bound proto_mask proto_caps)
      proto_mask proto_caps [] 0.
Proof.
  intros Hwf Hfuel.
  assert (Hnf : init_thresh_loop enable_assert
                  (sweep_bound proto_mask proto_caps) proto_mask proto_caps
                  [] 0 <> NoFuel).
  { apply init_thresh_loop_not_NoFuel;
      [exact Hwf | unfold SIZE_MAX; lia |].
    unfold breakpoints_left, sweep_bound.
    pose proof (List.filter_length_le (fun b => 0 <=? b)
                  (breakpoints proto_mask proto_caps)).
    lia. }
  replace fuel
    with (sweep_bound proto_mask proto_caps
          + (fuel - sweep_bound proto_mask proto_caps))%nat by lia.
  rewrite init_thresh_loop_more_fuel by exact Hnf.
  split; [exact Hnf | reflexivity].
Qed.

Lemma sweep_terminates_witness :
  init_thresh_loop true 100 3 (caps_two 1024 UCS_MEMUNITS_AUTO) [] 0
  <> NoFuel /\
  init_thresh_loop true 100 3 (caps_two 1024 UCS_MEMUNITS_AUTO) [] 0
  = init_thresh_loop true (sweep_bound 3 (caps_two 1024 UCS_MEMUNITS_AUTO))
      3 (caps_two 1024 UCS_MEMUNITS_AUTO) [] 0.
Proof.
  apply (sweep_terminates true 3 (caps_two 1024 UCS_MEMUNITS_AUTO) 100).
  - apply caps_two_wf; [unfold is_size_t, SIZE_MAX; lia | apply is_size_t_AUTO].
  - vm_compute. lia.
Defined.

Lemma bind_Fatal {A B : Type} (o : outcome A) (k : A -> outcome B)
    (a : assertion) :
  bind o k = Fatal a -> o = Fatal a \/ exists x, o = Ok x /\ k x = Fatal a.
Proof.
  destruct o as [x | s | a' | |]; simpl; intros H; try discriminate.
  - right. exists x. split; [reflexivity | exact H].
  - left. injection H as ->. reflexivity.
Qed.

(** An append after the bound of the list passes the assertion on
    [max_length]. *)
Lemma thresholds_append_not_Fatal (ea : bool)
    (tl : list ucp_proto_threshold_tmp_elem_t)
    (start max_length proto_id : Z) (a : assertion) :
  thresh_inv tl start -> start <= max_length ->
  ucp_proto_thresholds_append ea tl max_length proto_id <> Fatal a.
Proof.
  intros [_ Hb] Hle. unfold ucp_proto_thresholds_append.
  set (new := {| tmp_max_length := max_length; tmp_proto_id := proto_id |}).
  destruct (last tl) as [e |] eqn:Hlast.
  - rewrite ucs_assert_pass.
    + destruct (_ =? _); [discriminate |].
      destruct (ucs_array_append_cases tl new) as [-> | ->]; discriminate.
    + apply Z.ltb_lt. apply last_Some in Hlast as [tl0 ->].
      apply Forall_app in Hb as [_ Hb]. inversion Hb; subst. lia.
  - destruct (ucs_array_append_cases tl new) as [-> | ->]; discriminate.
Qed.

Definition cost_assertion (a : assertion) : Prop :=
  a = Assert_result_not_DBL_MAX \/ a = Assert_best_found.

Lemma select_best_loop_Fatal (ea : bool) (n : nat) :
  forall (proto_mask : Z) (perf : Z -> ucs_linear_func_t)
         (tl : list ucp_proto_threshold_tmp_elem_t) (start end_ : Z)
         (a : assertion),
    0 <= start <= end_ -> end_ <= SIZE_MAX -> thresh_inv tl start ->
    proto_mask <> 0 ->
    select_best_loop ea n proto_mask perf tl start end_ = Fatal a ->
    ea = true /\ cost_assertion a.
Proof.
  induction n as [| n IH];
    intros proto_mask perf tl start end_ a Hse Hend Hinv Hne H;
    [discriminate |].
  rewrite select_best_loop_S in H.
  rewrite ucs_assert_pass in H
    by (destruct (Z.eqb_spec proto_mask 0); [contradiction | reflexivity]).
  apply bind_Fatal in H as [H | (best & Hfb & H)].
  - unfold best_at in H.
    destruct (find_best_cases ea (ucs_for_each_bit proto_mask) perf
                (Double.of_size_t start + Double.UCP_PROTO_MSGLEN_EPSILON)%float
                {| best_proto_id := None; best_result := Double.DBL_MAX |})
      as [Hf | (best' & Hf & _)]; rewrite Hf in H; [| discriminate].
    injection H as <-. split; [| now left].
    destruct ea; [reflexivity |]. exfalso. clear -Hf.
    revert Hf. generalize {| best_proto_id := None;
                             best_result := Double.DBL_MAX |}.
    induction (ucs_for_each_bit proto_mask) as [| c ids IHids]; intros b;
      simpl; [discriminate |].
    unfold ucs_assert. simpl. apply IHids.
  - destruct (best_proto_id best) as [b |] eqn:Hb.
    + cbv zeta in H.
      set (mask' := mask_clear proto_mask b) in *.
      set (midpoint := fold_left (midpoint_step perf b start)
                                 (ucs_for_each_bit mask') end_) in *.
      assert (Hmid : start <= midpoint <= end_).
      { split; [apply midpoint_fold_ge; lia | apply midpoint_fold_le]. }
      apply bind_Fatal in H as [H | (tl1 & Happ & H)].
      * exfalso. eapply thresholds_append_not_Fatal;
          [exact Hinv | exact (proj1 Hmid) | exact H].
      * destruct (Z.ltb_spec midpoint end_) as [Hlt | Hge]; [| discriminate].
        pose proof (thresholds_append_extends ea tl tl1 start midpoint b Hinv
                      (proj1 Hmid) Happ) as Hext.
        unfold wrap64 in H. rewrite Z.mod_small in H
          by (unfold SIZE_MAX in Hend; lia).
        eapply (IH mask' perf tl1 (midpoint + 1) end_ a);
          [lia | exact Hend | exact (ext_inv _ _ _ _ _ Hext) | | exact H].
        eapply midpoint_lt_end_mask_nonzero. exact Hlt.
    + unfold ucs_assert in H. destruct ea; simpl in H; [| discriminate].
      injection H as <-. split; [reflexivity | now right].
Qed.

Lemma select_next_Fatal (ea : bool) (proto_mask : Z)
    (proto_caps : Z -> ucp_proto_caps_t)
    (tl : list ucp_proto_threshold_tmp_elem_t) (L : Z) (a : assertion) :
  0 <= L <= SIZE_MAX -> caps_wf proto_mask proto_caps -> thresh_inv tl L ->
  ucp_proto_thresholds_select_next ea proto_mask proto_caps tl L = Fatal a ->
  ea = true /\ cost_assertion a.
Proof.
  intros HL Hwf Hinv H. unfold ucp_proto_thresholds_select_next in H.
  pose proof (scan_max_length_bounds proto_mask proto_caps L HL Hwf) as Hb.
  set (st := select_next_scan proto_mask proto_caps L) in *.
  rewrite ucs_assert_pass in H by (apply Z.leb_le; lia).
  destruct (Z.eqb_spec (valid_proto_mask st) 0) as [| Hne]; [discriminate |].
  apply bind_Fatal in H as [H | (tl1 & _ & H)]; [| discriminate].
  destruct (competing_is_mask proto_mask proto_caps L) as [_ Hnz].
  eapply select_best_loop_Fatal; [| | exact Hinv | | exact H]; try lia.
  apply Hnz, Hne.
Qed.

Lemma init_thresh_loop_Fatal (ea : bool) (proto_mask : Z)
    (proto_caps : Z -> ucp_proto_caps_t) (n : nat) :
  caps_wf proto_mask proto_caps ->
  forall (tl : list ucp_proto_threshold_tmp_elem_t) (L : Z) (a : assertion),
    0 <= L <= SIZE_MAX -> thresh_inv tl L ->
    init_thresh_loop ea n proto_mask proto_caps tl L = Fatal a ->
    ea = true /\ cost_assertion a.
Proof.
  intros Hwf. induction n as [| n IH]; intros tl L a HL Hinv H;
    [discriminate |].
  cbn [init_thresh_loop] in H.
  apply bind_Fatal in H as [H | ([tl1 mx] & Hnext & H)].
  - eapply select_next_Fatal; eassumption.
  - destruct (select_next_extends ea proto_mask proto_caps tl tl1 L mx HL Hwf
                Hinv Hnext) as (_ & Hb & Hext & _).
    destruct (Z.ltb_spec mx SIZE_MAX) as [Hlt | Hge]; [| discriminate].
    unfold wrap64 in H. rewrite Z.mod_small in H by (unfold SIZE_MAX in *; lia).
    eapply (IH tl1 (mx + 1) a); [lia | exact (ext_inv _ _ _ _ _ Hext) | exact H].
Qed.

(** X2: of the assertions on the way through
    [ucp_proto_select_elem_init_thresh], only the two on the costs --
    [curr.result != DBL_MAX] and [best.proto_id != UCP_PROTO_ID_INVALID] --
    can fail, and only where [ucs_assert] is compiled in: the assertions
    [max_length > thresh_elem->max_length], [proto_mask != 0],
    [msg_length <= max_length] and [!ucs_array_is_empty(&tmp_thresh_list)]
    hold in every run. *)
Theorem sweep_assertions (enable_assert : bool)
    (alloc_ok : allocation -> bool)
    (proto_init : ucp_proto_select_init_protocols_t) (a : assertion) :
  caps_wf (mask proto_init) (caps proto_init) ->
  ucp_proto_select_elem_init_thresh enable_assert alloc_ok proto_init
  = Fatal a ->
  enable_assert = true /\
  (a = Assert_result_not_DBL_MAX \/ a = Assert_best_found).
Proof.
  intros Hwf H. unfold ucp_proto_select_elem_init_thresh in H.
  apply bind_Fatal in H as [H | (tl & Hloop & H)].
  - eapply init_thresh_loop_Fatal;
      [exact Hwf | | apply (thresh_inv_nil 0) | exact H].
    unfold SIZE_MAX; lia.
  - exfalso.
    destruct (init_thresh_loop_extends enable_assert _ _ _ Hwf [] tl 0
                ltac:(unfold SIZE_MAX; lia) (thresh_inv_nil 0) Hloop)
      as [[_ _ _ _ (e & Hlast & _)] _].
    destruct tl as [| t tl]; [discriminate |].
    unfold ucs_assert_always in H. simpl in H.
    destruct (alloc_ok Alloc_thresholds); discriminate.
Qed.

(** One protocol whose estimated time is infinite. *)
Definition caps_inf (i : Z) : ucp_proto_caps_t :=
  {| cfg_thresh := UCS_MEMUNITS_AUTO; min_length := 0;
     ranges := [ {| range_max_length := SIZE_MAX;
                    range_perf := {| func_c := infinity; func_m := 0 |} |} ] |}.

Definition proto_init_inf : ucp_proto_select_init_protocols_t :=
  {| select_param := 0; mask := 1; caps := caps_inf; priv_buf := None;
     priv_offsets := fun _ => 0 |}.

Lemma sweep_assertions_witness :
  true = true /\
  (Assert_best_found = Assert_result_not_DBL_MAX \/
   Assert_best_found = Assert_best_found).
Proof.
  apply (sweep_assertions true all_alloc_ok proto_init_inf Assert_best_found).
  - intros i Hi. apply is_size_t_AUTO.
  - vm_compute. reflexivity.
Defined.

(** ** Consolidated entries *)

(** No two neighbours of the list carry the same protocol. *)
Definition adjacent_distinct (ids : list Z) : Prop :=
  forall (i : nat) (a b : Z),
    ids !! i = Some a -> ids !! S i = Some b -> a <> b.

Lemma adjacent_distinct_snoc (ids : list Z) (x : Z) :
  adjacent_distinct ids -> (forall y, last ids = Some y -> y <> x) ->
  adjacent_distinct (ids ++ [x]).
Proof.
  intros Had Hlast i a b Ha Hb.
  destruct (Nat.lt_ge_cases (S i) (length ids)) as [Hlt | Hge].
  - rewrite lookup_app_l in Ha, Hb by lia. eapply Had; eassumption.
  - assert (Hi : S i = length ids).
    { apply lookup_lt_Some in Hb. rewrite length_app in Hb. simpl in Hb. lia. }
    rewrite lookup_app_l in Ha by lia.
    rewrite lookup_app_r in Hb by lia.
    replace (S i - length ids)%nat with 0%nat in Hb by lia. simpl in Hb.
    injection Hb as <-. apply Hlast. rewrite last_lookup.
    replace (Nat.pred (length ids)) with i by lia. exact Ha.
Qed.

Lemma map_lookup {A B : Type} (f : A -> B) (l : list A) (i : nat) :
  map f l !! i = option_map f (l !! i).
Proof.
  revert i. induction l as [| a l IH]; intros [| i]; simpl; auto.
Qed.

Lemma last_map_Some {A B : Type} (f : A -> B) (l : list A) (y : B) :
  last (map f l) = Some y -> exists e, last l = Some e /\ f e = y.
Proof.
  rewrite !last_lookup, map_lookup, length_map.
  destruct (l !! Nat.pred (length l)) as [e |]; simpl; [| discriminate].
  intros H. injection H as <-. eauto.
Qed.

(** An append extends the last element when it carries the same protocol,
    and adds an element after a different protocol. *)
Lemma thresholds_append_ids (ea : bool)
    (tl tl' : list ucp_proto_threshold_tmp_elem_t) (max_length proto_id : Z) :
  ucp_proto_thresholds_append ea tl max_length proto_id = Ok tl' ->
  (map tmp_proto_id tl' = map tmp_proto_id tl /\
   exists e, last tl = Some e /\ tmp_proto_id e = proto_id) \/
  (map tmp_proto_id tl' = map tmp_proto_id tl ++ [proto_id] /\
   forall e, last tl = Some e -> tmp_proto_id e <> proto_id).
Proof.
  unfold ucp_proto_thresholds_append. intros H.
  set (new := {| tmp_max_length := max_length; tmp_proto_id := proto_id |})
    in *.
  destruct (last tl) as [e |] eqn:Hlast.
  - apply ucs_assert_Ok in H.
    destruct (Z.eqb_spec (tmp_proto_id e) proto_id) as [Heq | Hne].
    + left. injection H as <-. split; [| eauto].
      apply last_Some in Hlast as [tl0 ->].
      rewrite length_app. simpl.
      replace (Nat.pred (length tl0 + 1)) with (length tl0 + 0)%nat by lia.
      rewrite insert_app_r. simpl. rewrite !map_app. simpl.
      rewrite Heq. reflexivity.
    + right. destruct (ucs_array_append_cases tl new) as [Ha | Ha];
        rewrite Ha in H; [| discriminate].
      injection H as <-. rewrite map_app. split; [reflexivity |].
      intros e' He'. injection He' as <-. exact Hne.
  - right. destruct (ucs_array_append_cases tl new) as [Ha | Ha];
      rewrite Ha in H; [| discriminate].
    injection H as <-. rewrite map_app. split; [reflexivity |].
    intros e' He'. discriminate.
Qed.

Lemma thresholds_append_adjacent (ea : bool)
    (tl tl' : list ucp_proto_threshold_tmp_elem_t) (max_length proto_id : Z) :
  adjacent_distinct (map tmp_proto_id tl) ->
  ucp_proto_thresholds_append ea tl max_length proto_id = Ok tl' ->
  adjacent_distinct (map tmp_proto_id tl').
Proof.
  intros Had H.
  apply thresholds_append_ids in H as [[-> _] | [-> Hlast]]; [exact Had |].
  apply adjacent_distinct_snoc; [exact Had |].
  intros y Hy. apply last_map_Some in Hy as (e & He & <-).
  apply Hlast, He.
Qed.

Lemma select_best_loop_adjacent (ea : bool) (n : nat) :
  forall (proto_mask : Z) (perf : Z -> ucs_linear_func_t)
         (tl tl' : list ucp_proto_threshold_tmp_elem_t) (start end_ : Z),
    adjacent_distinct (map tmp_proto_id tl) ->
    select_best_loop ea n proto_mask perf tl start end_ = Ok tl' ->
    adjacent_distinct (map tmp_proto_id tl').
Proof.
  induction n as [| n IH]; intros proto_mask perf tl tl' start end_ Had H;
    [discriminate |].
  rewrite select_best_loop_S in H. apply ucs_assert_Ok in H.
  apply bind_Ok in H as (best & _ & H).
  destruct (best_proto_id best) as [b |];
    [| apply ucs_assert_Ok in H; discriminate].
  cbv zeta in H. apply bind_Ok in H as (tl1 & Happ & H).
  pose proof (thresholds_append_adjacent ea tl tl1 _ b Had Happ) as Had1.
  destruct (_ <? _); [eapply IH; eassumption |].
  injection H as <-. exact Had1.
Qed.

Lemma init_thresh_loop_adjacent (ea : bool) (proto_mask : Z)
    (proto_caps : Z -> ucp_proto_caps_t) (n : nat) :
  forall (tl tl' : list ucp_proto_threshold_tmp_elem_t) (L : Z),
    adjacent_distinct (map tmp_proto_id tl) ->
    init_thresh_loop ea n proto_mask proto_caps tl L = Ok tl' ->
    adjacent_distinct (map tmp_proto_id tl').
Proof.
  induction n as [| n IH]; intros tl tl' L Had H; [discriminate |].
  cbn [init_thresh_loop] in H.
  apply bind_Ok in H as ([tl1 mx] & Hnext & H).
  apply select_next_Ok in Hnext as (_ & _ & Hbest).
  unfold ucp_proto_thresholds_select_best in Hbest.
  pose proof (select_best_loop_adjacent ea _ _ _ tl tl1 _ _ Had Hbest) as Had1.
  destruct (_ <? _); [eapply IH; eassumption |].
  injection H as <-. exact Had1.
Qed.

(** X3: neighbouring entries of the thresholds of a successful selection carry
    different protocols: [ucp_proto_thresholds_append] consolidates an entry
    with the last one when both select the same protocol. *)
Theorem thresholds_consolidated (enable_assert : bool)
    (alloc_ok : allocation -> bool)
    (proto_init : ucp_proto_select_init_protocols_t)
    (select_elem : ucp_proto_select_elem_t) :
  ucp_proto_select_elem_init_thresh enable_assert alloc_ok proto_init
  = Ok select_elem ->
  forall (i : nat) (e1 e2 : ucp_proto_threshold_elem_t),
    thresholds select_elem !! i = Some e1 ->
    thresholds select_elem !! S i = Some e2 ->
    config_proto (proto_config e1) <> config_proto (proto_config e2).
Proof.
  intros H i e1 e2 H1 H2.
  apply elem_init_thresh_Ok in H as (tl & Hloop & _ & ->). simpl in H1, H2.
  assert (Had : adjacent_distinct (map tmp_proto_id tl)).
  { eapply init_thresh_loop_adjacent; [| exact Hloop].
    intros j a b Ha. destruct j; discriminate. }
  rewrite map_lookup in H1, H2.
  destruct (tl !! i) as [t1 |] eqn:Ht1; [| discriminate].
  destruct (tl !! S i) as [t2 |] eqn:Ht2; [| discriminate].
  injection H1 as <-. injection H2 as <-. simpl.
  apply (Had i); rewrite map_lookup; [rewrite Ht1 | rewrite Ht2]; reflexivity.
Qed.

Lemma thresholds_consolidated_witness :
  ucp_proto_select_elem_init_thresh true all_alloc_ok
    (proto_init_two 1024 UCS_MEMUNITS_AUTO)
  = Ok (select_elem_of [thresh_elem 1023 1; thresh_elem SIZE_MAX 0]) /\
  config_proto (proto_config (thresh_elem 1023 1))
  <> config_proto (proto_config (thresh_elem SIZE_MAX 0)).
Proof.
  assert (H : ucp_proto_select_elem_init_thresh true all_alloc_ok
                (proto_init_two 1024 UCS_MEMUNITS_AUTO)
              = Ok (select_elem_of
                      [thresh_elem 1023 1; thresh_elem SIZE_MAX 0]))
    by (vm_compute; reflexivity).
  split; [exact H |].
  apply (thresholds_consolidated true all_alloc_ok
           (proto_init_two 1024 UCS_MEMUNITS_AUTO) _ H 0%nat); reflexivity.
Defined.

(** ** Message lengths without a protocol *)

Lemma init_thresh_loop_UNSUPPORTED (ea : bool) (proto_mask : Z)
    (proto_caps : Z -> ucp_proto_caps_t) (n : nat) :
  caps_wf proto_mask proto_caps ->
  forall (tl : list ucp_proto_threshold_tmp_elem_t) (L : Z),
    0 <= L <= SIZE_MAX -> thresh_inv tl L ->
    init_thresh_loop ea n proto_mask proto_caps tl L
    = Err UCS_ERR_UNSUPPORTED ->
    exists s,
      sweep_reaches proto_mask proto_caps L s /\
      valid_proto_mask (select_next_scan proto_mask proto_caps s) = 0.
Proof.
  intros Hwf. induction n as [| n IH]; intros tl L HL Hinv H;
    [discriminate |].
  cbn [init_thresh_loop] in H.
  apply bind_Err in H as [H | ([tl1 mx] & Hnext & H)].
  - unfold ucp_proto_thresholds_select_next in H.
    apply ucs_assert_Err in H.
    destruct (Z.eqb_spec (valid_proto_mask
                            (select_next_scan proto_mask proto_caps L)) 0)
      as [Hz | Hnz].
    + exists L. split; [constructor | exact Hz].
    + apply bind_Err in H as [H | (tl1 & _ & H)]; [| discriminate].
      apply select_best_loop_Err in H. discriminate.
  - destruct (select_next_extends ea proto_mask proto_caps tl tl1 L mx HL Hwf
                Hinv Hnext) as (Hmx & Hb & Hext & _).
    destruct (Z.ltb_spec mx SIZE_MAX) as [Hlt | Hge]; [| discriminate].
    unfold wrap64 in H. rewrite Z.mod_small in H by (unfold SIZE_MAX in *; lia).
    destruct (IH tl1 (mx + 1) ltac:(lia) (ext_inv _ _ _ _ _ Hext) H)
      as (s & Hr & Hs).
    exists s. split; [| exact Hs].
    apply sweep_next; rewrite <- Hmx; assumption.
Qed.

Lemma valid_mask_zero (proto_mask : Z) (proto_caps : Z -> ucp_proto_caps_t)
    (s : Z) :
  valid_proto_mask (select_next_scan proto_mask proto_caps s) = 0 <->
  forall q, In q (ucs_for_each_bit proto_mask) ->
            valid_at (proto_caps q) s = false.
Proof.
  destruct (select_next_scan_spec proto_mask proto_caps s)
    as (Hm & _ & Hvalid & _).
  split.
  - intros Hz q Hq. apply in_for_each_bit in Hq as [Hq Hb].
    pose proof (Hvalid q ltac:(lia)) as Hv.
    rewrite Hz, Z.bits_0, Hb in Hv.
    destruct (Z.ltb_spec q 64); [| lia].
    destruct (valid_at (proto_caps q) s); [discriminate | reflexivity].
  - intros Hall. apply Z.bits_inj'. intros q Hq. rewrite Z.bits_0, Hvalid by lia.
    destruct (Z.testbit proto_mask q) eqn:Hb; [| reflexivity].
    destruct (Z.ltb_spec q 64); [| reflexivity]. simpl.
    apply Hall, in_for_each_bit. split; [lia | exact Hb].
Qed.

(** X4: [ucp_proto_select_elem_init_thresh] returns [UCS_ERR_UNSUPPORTED] only
    when a step of its sweep starts at a message length that no protocol of
    the mask supports with its configuration; and it returns that status
    whenever no protocol supports the length 0. *)
Theorem unsupported_iff_gap (enable_assert : bool)
    (alloc_ok : allocation -> bool)
    (proto_init : ucp_proto_select_init_protocols_t) :
  caps_wf (mask proto_init) (caps proto_init) ->
  (ucp_proto_select_elem_init_thresh enable_assert alloc_ok proto_init
   = Err UCS_ERR_UNSUPPORTED ->
   exists s,
     is_size_t s /\
     sweep_reaches (mask proto_init) (caps proto_init) 0 s /\
     forall q, In q (ucs_for_each_bit (mask proto_init)) ->
               valid_at (caps proto_init q) s = false) /\
  ((forall q, In q (ucs_for_each_bit (mask proto_init)) ->
              valid_at (caps proto_init q) 0 = false) ->
   ucp_proto_select_elem_init_thresh enable_assert alloc_ok proto_init
   = Err UCS_ERR_UNSUPPORTED).
Proof.
  intros Hwf. split.
  - intros H. unfold ucp_proto_select_elem_init_thresh in H.
    apply bind_Err in H as [H | (tl & _ & H)].
    + apply init_thresh_loop_UNSUPPORTED in H as (s & Hr & Hz);
        [| exact Hwf | unfold SIZE_MAX; lia | apply thresh_inv_nil].
      exists s. split; [| split; [exact Hr |]].
      * pose proof (sweep_reaches_ge _ _ 0 s Hwf ltac:(unfold SIZE_MAX; lia) Hr).
        unfold is_size_t. lia.
      * apply valid_mask_zero, Hz.
    + unfold ucs_assert_always in H. destruct (negb _); [| discriminate].
      destruct (alloc_ok Alloc_thresholds); discriminate.
  - intros Hgap. apply valid_mask_zero in Hgap.
    unfold ucp_proto_select_elem_init_thresh, sweep_bound.
    cbn [init_thresh_loop]. unfold ucp_proto_thresholds_select_next.
    pose proof (scan_max_length_bounds (mask proto_init) (caps proto_init) 0
                  ltac:(unfold SIZE_MAX; lia) Hwf) as Hb.
    rewrite ucs_assert_pass by (apply Z.leb_le; lia).
    rewrite Hgap. reflexivity.
Qed.

(** One protocol, for messages of at least 100 bytes. *)
Definition caps_from_100 (i : Z) : ucp_proto_caps_t :=
  {| cfg_thresh := UCS_MEMUNITS_AUTO; min_length := 100;
     ranges := [ {| range_max_length := SIZE_MAX;
                    range_perf := {| func_c := 0; func_m := 1 |} |} ] |}.

Definition proto_init_from_100 : ucp_proto_select_init_protocols_t :=
  {| select_param := 0; mask := 1; caps := caps_from_100; priv_buf := None;
     priv_offsets := fun _ => 0 |}.

Lemma unsupported_iff_gap_witness :
  ucp_proto_select_elem_init_thresh true all_alloc_ok proto_init_from_100
  = Err UCS_ERR_UNSUPPORTED.
Proof.
  apply (unsupported_iff_gap true all_alloc_ok proto_init_from_100).
  - intros i Hi. apply is_size_t_AUTO.
  - intros q Hq. reflexivity.
Defined.

(** ** The search beyond its precondition *)

Lemma search_slow_loop_Ok (thresholds : list ucp_proto_threshold_elem_t)
    (msg_length : Z) (fuel : nat) :
  forall (idx i : nat) (e : ucp_proto_threshold_elem_t),
    search_slow_loop fuel thresholds msg_length idx = Ok (i, e) ->
    (idx <= i)%nat /\ thresholds !! i = Some e /\
    msg_length <= max_msg_length e /\
    forall j e', (idx <= j < i)%nat -> thresholds !! j = Some e' ->
                 max_msg_length e' < msg_length.
Proof.
  induction fuel as [| fuel IH]; intros idx i e H; [discriminate |].
  simpl in H. destruct (thresholds !! idx) as [e0 |] eqn:He0; [| discriminate].
  destruct (Z.ltb_spec (max_msg_length e0) msg_length) as [Hlt | Hge].
  - destruct (IH (S idx) i e H) as (Hi & Hie & Hle & Hmin).
    split; [lia |]. split; [exact Hie |]. split; [exact Hle |].
    intros j e' Hj Hje'. destruct (Nat.eq_dec j idx) as [-> | Hne].
    + rewrite He0 in Hje'. injection Hje' as <-. exact Hlt.
    + apply (Hmin j e'); [lia | exact Hje'].
  - injection H as <- <-. split; [lia |]. split; [exact He0 |].
    split; [lia |]. intros j e' Hj. lia.
Qed.

Lemma lookup_In {A : Type} (l : list A) (i : nat) (x : A) :
  l !! i = Some x -> In x l.
Proof.
  revert i. induction l as [| a l IH]; intros [| i] H; try discriminate.
  - injection H as ->. now left.
  - right. eapply IH, H.
Qed.

Lemma search_slow_loop_past_end (thresholds : list ucp_proto_threshold_elem_t)
    (msg_length : Z) (fuel : nat) :
  forall idx : nat,
    Forall (fun e => max_msg_length e < msg_length) thresholds ->
    (idx <= length thresholds < idx + fuel)%nat ->
    search_slow_loop fuel thresholds msg_length idx = Undefined.
Proof.
  induction fuel as [| fuel IH]; intros idx Hall Hfuel; [lia |].
  simpl. destruct (thresholds !! idx) as [e |] eqn:He; [| reflexivity].
  pose proof (lookup_lt_Some _ _ _ He) as Hlt.
  rewrite List.Forall_forall in Hall.
  pose proof (Hall e (lookup_In _ _ _ He)) as Hbelow.
  destruct (Z.ltb_spec (max_msg_length e) msg_length); [| lia].
  apply IH; [apply List.Forall_forall, Hall | lia].
Qed.

(** X5: [ucp_proto_thresholds_search_slow] has no bound on [idx]: it reads past
    the last entry of the array exactly when every entry is below the
    message length, as on an empty array. *)
Theorem search_slow_reads_past_end
    (thresholds : list ucp_proto_threshold_elem_t) (msg_length : Z) :
  ucp_proto_thresholds_search_slow thresholds msg_length = Undefined <->
  Forall (fun e => max_msg_length e < msg_length) thresholds.
Proof.
  split.
  - intros H.
    destruct (List.find (fun e => msg_length <=? max_msg_length e) thresholds)
      as [e |] eqn:Hfind.
    + apply search_slow_find in Hfind as [i Hi]. congruence.
    + apply List.Forall_forall. intros e He.
      pose proof (find_none _ _ Hfind e He) as Hn. simpl in Hn.
      apply Z.leb_gt in Hn. exact Hn.
  - intros Hall. apply search_slow_loop_past_end; [exact Hall | lia].
Qed.

(** X6: the entry found does not move back when the message grows: a longer
    message is served by the same entry or by a later one. *)
Theorem search_slow_monotone (thresholds : list ucp_proto_threshold_elem_t)
    (L1 L2 : Z) (i1 i2 : nat) (e1 e2 : ucp_proto_threshold_elem_t) :
  L1 <= L2 ->
  ucp_proto_thresholds_search_slow thresholds L1 = Ok (i1, e1) ->
  ucp_proto_thresholds_search_slow thresholds L2 = Ok (i2, e2) ->
  (i1 <= i2)%nat.
Proof.
  intros HL H1 H2.
  apply search_slow_loop_Ok in H1 as (_ & _ & _ & Hmin1).
  apply search_slow_loop_Ok in H2 as (_ & He2 & Hle2 & _).
  destruct (Nat.le_gt_cases i1 i2) as [| Hgt]; [assumption |].
  specialize (Hmin1 i2 e2 ltac:(lia) He2). lia.
Qed.

Lemma search_slow_monotone_witness :
  ucp_proto_thresholds_search_slow thresholds_cross 16
  = Ok (0%nat, thresh_elem 16 0) /\
  ucp_proto_thresholds_search_slow thresholds_cross 17
  = Ok (1%nat, thresh_elem SIZE_MAX 1) /\
  (0 <= 1)%nat.
Proof.
  assert (H1 : ucp_proto_thresholds_search_slow thresholds_cross 16
               = Ok (0%nat, thresh_elem 16 0)) by reflexivity.
  assert (H2 : ucp_proto_thresholds_search_slow thresholds_cross 17
               = Ok (1%nat, thresh_elem SIZE_MAX 1)) by reflexivity.
  split; [exact H1 |]. split; [exact H2 |].
  apply (search_slow_monotone thresholds_cross 16 17 0 1 _ _
           ltac:(lia) H1 H2).
Defined.

(** ** The protocols of a selection *)

(** The parameters that [ucp_proto_select_init_protocols] passes to the
    [init] callbacks. *)
Definition init_params_of (worker : ucp_worker_t)
    (ep_cfg_index rkey_cfg_index null_index : Z)
    (select_param : ucp_proto_select_param_t) : ucp_proto_init_params_t :=
  {| init_worker := worker;
     init_select_param := select_param;
     init_ep_config_key := ep_cfg_index;
     init_rkey_config_key :=
       if rkey_cfg_index =? null_index then None else Some rkey_cfg_index |}.

(** The size of the private area that a protocol asks for; a protocol whose
    [init] fails takes no room. *)
Definition priv_size_of (init_params : ucp_proto_init_params_t)
    (proto : ucp_proto_t) : Z :=
  match proto_init proto init_params with
  | Some (_, priv_size) => priv_size
  | None => 0
  end.

Definition sum_sizes (init_params : ucp_proto_init_params_t)
    (ps : list ucp_proto_t) : Z :=
  fold_right Z.add 0 (map (priv_size_of init_params) ps).

Lemma sum_sizes_nonneg (init_params : ucp_proto_init_params_t)
    (ps : list ucp_proto_t) :
  Forall (fun p => 0 <= priv_size_of init_params p) ps ->
  0 <= sum_sizes init_params ps.
Proof.
  unfold sum_sizes. induction 1 as [| p ps Hp _ IH]; simpl; lia.
Qed.

Lemma sum_sizes_take_le (init_params : ucp_proto_init_params_t)
    (ps : list ucp_proto_t) (k : nat) (p : ucp_proto_t) :
  Forall (fun p => 0 <= priv_size_of init_params p) ps ->
  ps !! k = Some p ->
  0 <= sum_sizes init_params (take k ps) /\
  sum_sizes init_params (take k ps) + priv_size_of init_params p
  <= sum_sizes init_params (take (S k) ps) /\
  sum_sizes init_params (take (S k) ps) <= sum_sizes init_params ps.
Proof.
  intros Hnn. revert k. induction Hnn as [| q ps Hq Hnn IH]; intros k Hk;
    [destruct k; discriminate |].
  destruct k as [| k].
  - injection Hk as ->. pose proof (sum_sizes_nonneg init_params ps Hnn).
    unfold sum_sizes in *. simpl. destruct ps; simpl in *; lia.
  - destruct (IH k Hk) as (H1 & H2 & H3).
    unfold sum_sizes in *. cbn [take firstn map fold_right] in *. lia.
Qed.

Lemma sum_sizes_take_mono (init_params : ucp_proto_init_params_t)
    (ps : list ucp_proto_t) (k k' : nat) :
  Forall (fun p => 0 <= priv_size_of init_params p) ps ->
  (k <= k')%nat ->
  sum_sizes init_params (take k ps) <= sum_sizes init_params (take k' ps).
Proof.
  intros Hnn. revert k k'. induction Hnn as [| q ps Hq Hnn IH]; intros k k' Hk.
  - destruct k, k'; simpl; lia.
  - destruct k as [| k].
    + cbn [take firstn]. apply (sum_sizes_nonneg init_params (take k' (q :: ps))).
      apply Forall_take. constructor; assumption.
    + destruct k' as [| k']; [lia |]. specialize (IH k k' ltac:(lia)).
      unfold sum_sizes in *. cbn [take firstn map fold_right] in *. lia.
Qed.

(** The loop over the registry, from the protocol [a] on. *)
Lemma init_protocols_fold (init_params : ucp_proto_init_params_t)
    (ps : list ucp_proto_t) :
  forall (a : nat) (st : init_protocols_state),
    let st' := fold_left (init_protocols_step init_params)
                 (combine (map Z.of_nat (seq a (length ps))) ps) st in
    (forall (k : nat) (p : ucp_proto_t), ps !! k = Some p ->
       match proto_init p init_params with
       | Some (c, _) =>
           Z.testbit (ip_mask st') (Z.of_nat (a + k)) = true /\
           ip_caps st' (Z.of_nat (a + k)) = c
       | None =>
           Z.testbit (ip_mask st') (Z.of_nat (a + k))
           = Z.testbit (ip_mask st) (Z.of_nat (a + k))
       end) /\
    (forall i : Z, 0 <= i ->
       i < Z.of_nat a \/ Z.of_nat (a + length ps) <= i ->
       Z.testbit (ip_mask st') i = Z.testbit (ip_mask st) i /\
       ip_caps st' i = ip_caps st i /\
       ip_priv_offsets st' i = ip_priv_offsets st i) /\
    (Forall (fun p => 0 <= priv_size_of init_params p) ps ->
     0 <= ip_offset st ->
     ip_offset st + sum_sizes init_params ps < 2 ^ 64 ->
     ip_offset st' = ip_offset st + sum_sizes init_params ps /\
     forall (k : nat) (p : ucp_proto_t), ps !! k = Some p ->
       proto_init p init_params <> None ->
       ip_priv_offsets st' (Z.of_nat (a + k))
       = ip_offset st + sum_sizes init_params (take k ps)).
Proof.
  induction ps as [| p ps IH]; intros a st.
  - simpl. split; [intros k p Hk; destruct k; discriminate |].
    split; [auto |]. intros _ _ _. unfold sum_sizes. simpl.
    split; [lia | intros k p Hk; destruct k; discriminate].
  - cbn [length seq map combine fold_left].
    set (st1 := init_protocols_step init_params st (Z.of_nat a, p)).
    destruct (IH (S a) st1) as (IHk & IHout & IHoff).
    set (st' := fold_left (init_protocols_step init_params)
                  (combine (map Z.of_nat (seq (S a) (length ps))) ps) st1)
      in *.
    destruct (IHout (Z.of_nat a) ltac:(lia) ltac:(left; lia))
      as (Hma & Hca & Hoa).
    assert (Hst1 : match proto_init p init_params with
                   | Some (c, priv_size) =>
                       st1 = {| ip_mask := mask_set (ip_mask st) (Z.of_nat a);
                                ip_caps := caps_set (ip_caps st) (Z.of_nat a) c;
                                ip_priv_offsets :=
                                  offsets_set (ip_priv_offsets st)
                                    (Z.of_nat a) (ip_offset st);
                                ip_offset := wrap64 (ip_offset st + priv_size) |}
                   | None => st1 = st
                   end).
    { unfold st1, init_protocols_step.
      destruct (proto_init p init_params) as [[c s] |]; reflexivity. }
    split; [| split].
    + intros k q Hk. destruct k as [| k].
      * injection Hk as ->. replace (a + 0)%nat with a by lia.
        rewrite Hma, Hca.
        destruct (proto_init q init_params) as [[c s] |]; rewrite Hst1;
          cbn [ip_mask ip_caps ip_priv_offsets ip_offset];
          [| reflexivity].
        rewrite mask_set_testbit by lia. unfold caps_set.
        rewrite Z.eqb_refl, orb_true_r. auto.
      * specialize (IHk k q Hk).
        replace (a + S k)%nat with (S a + k)%nat by lia.
        destruct (proto_init q init_params) as [[c s] |]; [exact IHk |].
        rewrite IHk.
        destruct (proto_init p init_params) as [[c s] |]; rewrite Hst1;
          cbn [ip_mask ip_caps ip_priv_offsets ip_offset];
          [| reflexivity].
        rewrite mask_set_testbit by lia.
        destruct (Z.eqb_spec (Z.of_nat a) (Z.of_nat (S a + k))); [lia |].
        apply orb_false_r.
    + intros i Hi Hout.
      destruct (IHout i Hi ltac:(simpl in Hout; lia)) as (Hm & Hc & Ho).
      rewrite Hm, Hc, Ho.
      destruct (proto_init p init_params) as [[c s] |]; rewrite Hst1;
          cbn [ip_mask ip_caps ip_priv_offsets ip_offset];
        [| auto].
      rewrite mask_set_testbit by lia. unfold caps_set, offsets_set.
      destruct (Z.eqb_spec (Z.of_nat a) i); [simpl in Hout; lia |].
      destruct (Z.eqb_spec i (Z.of_nat a)); [lia |].
      rewrite orb_false_r. auto.
    + intros Hnn Ho Hsum. inversion Hnn as [| ? ? Hp Hnn']; subst.
      pose proof (sum_sizes_nonneg init_params ps Hnn') as Hrest.
      assert (Hsplit : sum_sizes init_params (p :: ps)
                       = priv_size_of init_params p + sum_sizes init_params ps)
        by reflexivity.
      assert (Ho1 : ip_offset st1 = ip_offset st + priv_size_of init_params p).
      { unfold priv_size_of in *.
        destruct (proto_init p init_params) as [[c s] |]; rewrite Hst1;
          cbn [ip_mask ip_caps ip_priv_offsets ip_offset];
          [| lia].
        unfold wrap64. apply Z.mod_small. lia. }
      destruct (IHoff Hnn' ltac:(lia) ltac:(lia)) as (Hoff & Hks).
      split; [lia |]. intros k q Hk Hq. destruct k as [| k].
      * injection Hk as ->. replace (a + 0)%nat with a by lia.
        rewrite Hoa. unfold sum_sizes. simpl.
        destruct (proto_init q init_params) as [[c s] |]; [| contradiction].
        rewrite Hst1. cbn [ip_priv_offsets]. unfold offsets_set. rewrite Z.eqb_refl. lia.
      * replace (a + S k)%nat with (S a + k)%nat by lia.
        rewrite (Hks k q Hk Hq), Ho1. unfold sum_sizes.
        cbn [take firstn map fold_right]. lia.
Qed.

Definition init_protocols_state0 : init_protocols_state :=
  {| ip_mask := 0; ip_caps := caps_uninit; ip_priv_offsets := offsets_uninit;
     ip_offset := 0 |}.

(** The state of the loop of [ucp_proto_select_init_protocols] at its
    end. *)
Definition init_protocols_end (init_params : ucp_proto_init_params_t)
    (ucp_protocols : list ucp_proto_t) : init_protocols_state :=
  fold_left (init_protocols_step init_params)
    (combine (map Z.of_nat (seq 0 (length ucp_protocols))) ucp_protocols)
    init_protocols_state0.

(** The assertions at the head of [ucp_proto_select_init_protocols]. *)
Definition init_protocols_asserts (ea : bool) (worker : ucp_worker_t)
    (ep_cfg_index rkey_cfg_index null_index : Z) : Prop :=
  (ea = true -> ep_cfg_index <> null_index) /\
  (rkey_cfg_index = null_index \/
   rkey_config_ep_cfg_index worker rkey_cfg_index = ep_cfg_index).

Lemma init_protocols_unfold (ea : bool) (alloc_ok : allocation -> bool)
    (ucp_protocols : list ucp_proto_t) (null_index : Z)
    (worker : ucp_worker_t) (ep_cfg_index rkey_cfg_index : Z)
    (param : ucp_proto_select_param_t) :
  init_protocols_asserts ea worker ep_cfg_index rkey_cfg_index null_index ->
  let st := init_protocols_end
              (init_params_of worker ep_cfg_index rkey_cfg_index null_index
                 param) ucp_protocols in
  ucp_proto_select_init_protocols ea alloc_ok ucp_protocols null_index worker
    ep_cfg_index rkey_cfg_index param
  = if negb (alloc_ok Alloc_priv_buf) then Err UCS_ERR_NO_MEMORY
    else if ip_mask st =? 0 then Err UCS_ERR_NO_ELEM
    else if ip_offset st =? 0 then
      Ok {| select_param := param; mask := ip_mask st; caps := ip_caps st;
            priv_buf := None; priv_offsets := ip_priv_offsets st |}
    else if alloc_ok Realloc_priv_buf then
      Ok {| select_param := param; mask := ip_mask st; caps := ip_caps st;
            priv_buf := Some (ip_offset st);
            priv_offsets := ip_priv_offsets st |}
    else Err UCS_ERR_NO_MEMORY.
Proof.
  intros [Hep Hrkey] st. unfold ucp_proto_select_init_protocols, ucs_assert.
  replace (ea && negb (negb (ep_cfg_index =? null_index))) with false.
  - unfold ucs_assert_always.
    replace ((rkey_cfg_index =? null_index)
             || (rkey_config_ep_cfg_index worker rkey_cfg_index
                 =? ep_cfg_index)) with true; [reflexivity |].
    symmetry. apply orb_true_iff.
    destruct Hrkey as [-> | ->]; [left | right]; apply Z.eqb_refl.
  - destruct ea; [| reflexivity]. simpl. symmetry.
    rewrite negb_involutive. apply Z.eqb_neq, Hep. reflexivity.
Qed.

Lemma init_protocols_returns (ea : bool) (alloc_ok : allocation -> bool)
    (ucp_protocols : list ucp_proto_t) (null_index : Z)
    (worker : ucp_worker_t) (ep_cfg_index rkey_cfg_index : Z)
    (param : ucp_proto_select_param_t) :
  (forall a, ucp_proto_select_init_protocols ea alloc_ok ucp_protocols
               null_index worker ep_cfg_index rkey_cfg_index param
             <> Fatal a) ->
  init_protocols_asserts ea worker ep_cfg_index rkey_cfg_index null_index.
Proof.
  unfold ucp_proto_select_init_protocols, ucs_assert, ucs_assert_always.
  intros H. split.
  - intros ->. destruct (Z.eqb_spec ep_cfg_index null_index) as [Heq | Hne];
      [| exact Hne].
    exfalso. simpl in H. eapply H. reflexivity.
  - destruct (ea && negb (negb (ep_cfg_index =? null_index)));
      [exfalso; eapply H; reflexivity |].
    destruct (Z.eqb_spec rkey_cfg_index null_index) as [Heq | Hne];
      [now left |].
    destruct (Z.eqb_spec (rkey_config_ep_cfg_index worker rkey_cfg_index)
                ep_cfg_index) as [Heq' | Hne']; [now right |].
    exfalso. simpl in H. eapply H. reflexivity.
Qed.

Lemma In_lookup {A : Type} (l : list A) (x : A) :
  In x l -> exists i : nat, l !! i = Some x.
Proof.
  induction l as [| a l IH]; intros H; [destruct H |].
  destruct H as [-> | H]; [exists 0%nat; reflexivity |].
  destruct (IH H) as [i Hi]. exists (S i). exact Hi.
Qed.

Lemma init_protocols_end_mask (init_params : ucp_proto_init_params_t)
    (ucp_protocols : list ucp_proto_t) (i : Z) :
  0 <= i ->
  Z.testbit (ip_mask (init_protocols_end init_params ucp_protocols)) i = true
  <-> exists (k : nat) (p : ucp_proto_t),
        i = Z.of_nat k /\ ucp_protocols !! k = Some p /\
        proto_init p init_params <> None.
Proof.
  intros Hi. unfold init_protocols_end.
  destruct (init_protocols_fold init_params ucp_protocols 0
              init_protocols_state0) as (Hk & Hout & _).
  split.
  - intros Hb.
    destruct (ucp_protocols !! Z.to_nat i) as [p |] eqn:Hp.
    + exists (Z.to_nat i), p. split; [lia |]. split; [exact Hp |].
      specialize (Hk (Z.to_nat i) p Hp). simpl in Hk.
      rewrite Z2Nat.id in Hk by lia.
      destruct (proto_init p init_params); [discriminate |].
      rewrite Hk in Hb. simpl in Hb. rewrite Z.bits_0 in Hb. discriminate.
    + apply lookup_ge_None in Hp.
      destruct (Hout i Hi ltac:(right; simpl; lia)) as (Hm & _).
      rewrite Hm in Hb. simpl in Hb. rewrite Z.bits_0 in Hb. discriminate.
  - intros (k & p & -> & Hp & Hinit). specialize (Hk k p Hp). simpl in Hk.
    destruct (proto_init p init_params) as [[c s] |]; [apply Hk | contradiction].
Qed.

(** X7: [ucp_proto_select_init_protocols] returns [UCS_ERR_NO_ELEM] exactly
    when its assertions hold, the buffer for the private areas is allocated
    and the [init] of every protocol of the registry fails. *)
Theorem init_protocols_no_elem (enable_assert : bool)
    (alloc_ok : allocation -> bool) (ucp_protocols : list ucp_proto_t)
    (null_index : Z) (worker : ucp_worker_t)
    (ep_cfg_index rkey_cfg_index : Z) (param : ucp_proto_select_param_t) :
  ucp_proto_select_init_protocols enable_assert alloc_ok ucp_protocols
    null_index worker ep_cfg_index rkey_cfg_index param
  = Err UCS_ERR_NO_ELEM <->
  init_protocols_asserts enable_assert worker ep_cfg_index rkey_cfg_index
    null_index /\
  alloc_ok Alloc_priv_buf = true /\
  forall p, In p ucp_protocols ->
    proto_init p (init_params_of worker ep_cfg_index rkey_cfg_index null_index
                    param) = None.
Proof.
  set (params := init_params_of worker ep_cfg_index rkey_cfg_index null_index
                   param).
  split.
  - intros H.
    assert (Has : init_protocols_asserts enable_assert worker ep_cfg_index
                    rkey_cfg_index null_index).
    { apply (init_protocols_returns enable_assert alloc_ok ucp_protocols
               null_index worker ep_cfg_index rkey_cfg_index param).
      intros a. rewrite H. discriminate. }
    split; [exact Has |].
    rewrite (init_protocols_unfold _ _ _ _ _ _ _ _ Has) in H. fold params in H.
    destruct (alloc_ok Alloc_priv_buf); [| discriminate].
    split; [reflexivity |]. simpl in H.
    destruct (Z.eqb_spec (ip_mask (init_protocols_end params ucp_protocols)) 0)
      as [Hz | Hnz].
    + intros p Hp. apply In_lookup in Hp as [k Hk].
      destruct (proto_init p params) as [[c s] |] eqn:Hinit; [| reflexivity].
      exfalso.
      assert (Hb : Z.testbit (ip_mask (init_protocols_end params ucp_protocols))
                     (Z.of_nat k) = true).
      { apply init_protocols_end_mask; [lia |]. exists k, p.
        rewrite Hinit. split; [reflexivity |]. split; [exact Hk | discriminate]. }
      rewrite Hz, Z.bits_0 in Hb. discriminate.
    + destruct (_ =? 0); [discriminate |].
      destruct (alloc_ok Realloc_priv_buf); discriminate.
  - intros (Has & Halloc & Hnone).
    rewrite (init_protocols_unfold _ _ _ _ _ _ _ _ Has). fold params.
    rewrite Halloc. simpl.
    replace (ip_mask (init_protocols_end params ucp_protocols)) with 0;
      [reflexivity |].
    symmetry. apply Z.bits_inj'. intros i Hi. rewrite Z.bits_0.
    destruct (Z.testbit _ i) eqn:Hb; [| reflexivity].
    apply init_protocols_end_mask in Hb as (k & p & _ & Hk & Hinit); [| exact Hi].
    exfalso. apply Hinit, Hnone. eapply lookup_In, Hk.
Qed.

(** X8: after a successful [ucp_proto_select_init_protocols] on a registry of
    at most 64 protocols, the mask fits its 64 bits and is not empty; it
    holds exactly the protocols whose [init] succeeded, each with the
    capabilities that its [init] reported. *)
Theorem init_protocols_mask (enable_assert : bool)
    (alloc_ok : allocation -> bool) (ucp_protocols : list ucp_proto_t)
    (null_index : Z) (worker : ucp_worker_t)
    (ep_cfg_index rkey_cfg_index : Z) (param : ucp_proto_select_param_t)
    (proto_init_v : ucp_proto_select_init_protocols_t) :
  Z.of_nat (length ucp_protocols) <= UCP_PROTO_MAX_COUNT ->
  ucp_proto_select_init_protocols enable_assert alloc_ok ucp_protocols
    null_index worker ep_cfg_index rkey_cfg_index param = Ok proto_init_v ->
  let params := init_params_of worker ep_cfg_index rkey_cfg_index null_index
                  param in
  select_param proto_init_v = param /\
  is_mask (mask proto_init_v) /\ mask proto_init_v <> 0 /\
  (forall i, In i (ucs_for_each_bit (mask proto_init_v)) <->
     exists (k : nat) (p : ucp_proto_t),
       i = Z.of_nat k /\ ucp_protocols !! k = Some p /\
       proto_init p params <> None) /\
  (forall (k : nat) (p : ucp_proto_t) (c : ucp_proto_caps_t) (s : Z),
     ucp_protocols !! k = Some p -> proto_init p params = Some (c, s) ->
     caps proto_init_v (Z.of_nat k) = c).
Proof.
  intros Hcount H params.
  assert (Has : init_protocols_asserts enable_assert worker ep_cfg_index
                  rkey_cfg_index null_index).
  { apply (init_protocols_returns enable_assert alloc_ok ucp_protocols
             null_index worker ep_cfg_index rkey_cfg_index param).
    intros a. rewrite H. discriminate. }
  rewrite (init_protocols_unfold _ _ _ _ _ _ _ _ Has) in H. fold params in H.
  set (st := init_protocols_end params ucp_protocols) in *.
  assert (Hres : ip_mask st <> 0 /\ select_param proto_init_v = param /\
                 mask proto_init_v = ip_mask st /\
                 caps proto_init_v = ip_caps st).
  { destruct (negb _); [discriminate |].
    destruct (Z.eqb_spec (ip_mask st) 0); [discriminate |].
    destruct (_ =? 0); [injection H as <-; auto |].
    destruct (alloc_ok Realloc_priv_buf); [injection H as <-; auto |].
    discriminate. }
  destruct Hres as (Hnz & Hparam & Hmask & Hcaps). rewrite Hmask, Hcaps.
  unfold UCP_PROTO_MAX_COUNT in Hcount.
  assert (Hhigh : forall j, 64 <= j -> Z.testbit (ip_mask st) j = false).
  { intros j Hj. destruct (Z.testbit (ip_mask st) j) eqn:Hb; [| reflexivity].
    apply init_protocols_end_mask in Hb as (k & p & -> & Hk & _); [| lia].
    apply lookup_lt_Some in Hk. lia. }
  split; [exact Hparam |]. split; [| split; [exact Hnz | split]].
  - apply is_mask_intro; [| exact Hhigh].
    set (n := Z.max 64 (Z.log2 (Z.abs (ip_mask st)) + 1)).
    apply (Z.bits_iff_nonneg (ip_mask st) n); [lia |].
    apply Hhigh. lia.
  - intros i. rewrite in_for_each_bit. split.
    + intros [Hi Hb]. apply init_protocols_end_mask; [lia | exact Hb].
    + intros (k & p & -> & Hk & Hinit). split.
      * apply lookup_lt_Some in Hk. lia.
      * apply init_protocols_end_mask; [lia |]. eauto.
  - intros k p c s Hk Hinit. unfold st, init_protocols_end.
    destruct (init_protocols_fold params ucp_protocols 0
                init_protocols_state0) as (Hfold & _).
    specialize (Hfold k p Hk). rewrite Hinit in Hfold. apply Hfold.
Qed.

Lemma init_protocols_mask_witness :
  exists v,
    ucp_proto_select_init_protocols true all_alloc_ok protocols_two 255
      worker_two 0 255 7 = Ok v /\
    select_param v = 7 /\ is_mask (mask v) /\ mask v <> 0.
Proof.
  eexists. split; [vm_compute; reflexivity |].
  pose proof (init_protocols_mask true all_alloc_ok protocols_two 255
                worker_two 0 255 7 _
                ltac:(unfold UCP_PROTO_MAX_COUNT; simpl; lia)
                ltac:(vm_compute; reflexivity)) as (H1 & H2 & H3 & _).
  split; [exact H1 |]. split; [exact H2 | exact H3].
Defined.

(** The layout of the private areas after a successful
    [ucp_proto_select_init_protocols]. *)
Lemma init_protocols_offsets (enable_assert : bool)
    (alloc_ok : allocation -> bool) (ucp_protocols : list ucp_proto_t)
    (null_index : Z) (worker : ucp_worker_t)
    (ep_cfg_index rkey_cfg_index : Z) (param : ucp_proto_select_param_t)
    (proto_init_v : ucp_proto_select_init_protocols_t) :
  let params := init_params_of worker ep_cfg_index rkey_cfg_index null_index
                  param in
  Forall (fun p => 0 <= priv_size_of params p) ucp_protocols ->
  sum_sizes params ucp_protocols < 2 ^ 64 ->
  ucp_proto_select_init_protocols enable_assert alloc_ok ucp_protocols
    null_index worker ep_cfg_index rkey_cfg_index param = Ok proto_init_v ->
  priv_buf proto_init_v
  = (if sum_sizes params ucp_protocols =? 0 then None
     else Some (sum_sizes params ucp_protocols)) /\
  forall (k : nat) (p : ucp_proto_t) (c : ucp_proto_caps_t) (s : Z),
    ucp_protocols !! k = Some p -> proto_init p params = Some (c, s) ->
    priv_offsets proto_init_v (Z.of_nat k)
    = sum_sizes params (take k ucp_protocols) /\
    0 <= priv_offsets proto_init_v (Z.of_nat k) /\
    priv_offsets proto_init_v (Z.of_nat k) + s
    <= sum_sizes params ucp_protocols /\
    forall (k' : nat) (p' : ucp_proto_t) (c' : ucp_proto_caps_t) (s' : Z),
      (k < k')%nat -> ucp_protocols !! k' = Some p' ->
      proto_init p' params = Some (c', s') ->
      priv_offsets proto_init_v (Z.of_nat k) + s
      <= priv_offsets proto_init_v (Z.of_nat k').
Proof.
  intros params Hnn Hsum H.
  assert (Has : init_protocols_asserts enable_assert worker ep_cfg_index
                  rkey_cfg_index null_index).
  { apply (init_protocols_returns enable_assert alloc_ok ucp_protocols
             null_index worker ep_cfg_index rkey_cfg_index param).
    intros a. rewrite H. discriminate. }
  rewrite (init_protocols_unfold _ _ _ _ _ _ _ _ Has) in H. fold params in H.
  destruct (init_protocols_fold params ucp_protocols 0 init_protocols_state0)
    as (_ & _ & Hoff).
  destruct (Hoff Hnn ltac:(simpl; lia) ltac:(simpl; lia)) as (Htotal & Hks).
  fold (init_protocols_end params ucp_protocols) in Htotal, Hks.
  set (st := init_protocols_end params ucp_protocols) in *.
  simpl in Htotal, Hks.
  assert (Hres : priv_buf proto_init_v
                 = (if ip_offset st =? 0 then None else Some (ip_offset st)) /\
                 priv_offsets proto_init_v = ip_priv_offsets st).
  { destruct (negb _); [discriminate |].
    destruct (_ =? 0); [discriminate |].
    destruct (ip_offset st =? 0); [injection H as <-; auto |].
    destruct (alloc_ok Realloc_priv_buf); [injection H as <-; auto |].
    discriminate. }
  destruct Hres as [Hbuf Hoffs]. rewrite Hbuf, Hoffs, Htotal.
  split; [reflexivity |].
  intros k p c s Hk Hinit.
  assert (Hs : priv_size_of params p = s)
    by (unfold priv_size_of; rewrite Hinit; reflexivity).
  destruct (sum_sizes_take_le params ucp_protocols k p Hnn Hk)
    as (H0 & H1 & H2). rewrite Hs in H1.
  rewrite (Hks k p Hk) by (rewrite Hinit; discriminate).
  split; [reflexivity |]. split; [lia |]. split; [lia |].
  intros k' p' c' s' Hlt Hk' Hinit'.
  rewrite (Hks k' p' Hk') by (rewrite Hinit'; discriminate).
  pose proof (sum_sizes_take_mono params ucp_protocols (S k) k' Hnn
                ltac:(lia)).
  lia.
Qed.

(** X9: the private areas of the protocols whose [init] succeeded lie one after
    the other in [priv_buf], in the order of the registry: each starts at
    the sum of the sizes before it, none overlaps a later one, and all end
    within the size to which the buffer is shrunk; the buffer is null
    exactly when no protocol asks for room. *)
Theorem init_protocols_priv_layout (enable_assert : bool)
    (alloc_ok : allocation -> bool) (ucp_protocols : list ucp_proto_t)
    (null_index : Z) (worker : ucp_worker_t)
    (ep_cfg_index rkey_cfg_index : Z) (param : ucp_proto_select_param_t)
    (proto_init_v : ucp_proto_select_init_protocols_t) :
  let params := init_params_of worker ep_cfg_index rkey_cfg_index null_index
                  param in
  Forall (fun p => 0 <= priv_size_of params p) ucp_protocols ->
  sum_sizes params ucp_protocols < 2 ^ 64 ->
  ucp_proto_select_init_protocols enable_assert alloc_ok ucp_protocols
    null_index worker ep_cfg_index rkey_cfg_index param = Ok proto_init_v ->
  priv_buf proto_init_v
  = (if sum_sizes params ucp_protocols =? 0 then None
     else Some (sum_sizes params ucp_protocols)) /\
  forall (k : nat) (p : ucp_proto_t) (c : ucp_proto_caps_t) (s : Z),
    ucp_protocols !! k = Some p -> proto_init p params = Some (c, s) ->
    priv_offsets proto_init_v (Z.of_nat k)
    = sum_sizes params (take k ucp_protocols) /\
    0 <= priv_offsets proto_init_v (Z.of_nat k) /\
    priv_offsets proto_init_v (Z.of_nat k) + s
    <= sum_sizes params ucp_protocols /\
    forall (k' : nat) (p' : ucp_proto_t) (c' : ucp_proto_caps_t) (s' : Z),
      (k < k')%nat -> ucp_protocols !! k' = Some p' ->
      proto_init p' params = Some (c', s') ->
      priv_offsets proto_init_v (Z.of_nat k) + s
      <= priv_offsets proto_init_v (Z.of_nat k').
Proof.
  exact (init_protocols_offsets enable_assert alloc_ok ucp_protocols null_index
           worker ep_cfg_index rkey_cfg_index param proto_init_v).
Qed.

Lemma protocols_two_sizes :
  Forall (fun p => 0 <= priv_size_of (init_params_of worker_two 0 255 255 7) p)
    protocols_two.
Proof. repeat constructor; vm_compute; discriminate. Qed.

Lemma init_protocols_priv_layout_witness :
  exists v,
    ucp_proto_select_init_protocols true all_alloc_ok protocols_two 255
      worker_two 0 255 7 = Ok v /\
    priv_buf v = Some 24 /\
    priv_offsets v 0 = 0 /\ priv_offsets v 1 = 8.
Proof.
  eexists. split; [vm_compute; reflexivity |].
  pose proof (init_protocols_priv_layout true all_alloc_ok protocols_two 255
                worker_two 0 255 7 _ protocols_two_sizes
                ltac:(vm_compute; reflexivity)
                ltac:(vm_compute; reflexivity)) as [Hbuf Hoffs].
  split; [exact Hbuf |]. split.
  - exact (proj1 (Hoffs 0%nat _ _ 8 eq_refl eq_refl)).
  - exact (proj1 (Hoffs 1%nat _ _ 16 eq_refl eq_refl)).
Defined.

(** ** The entries of an element *)

Lemma thresholds_append_In (ea : bool)
    (tl tl' : list ucp_proto_threshold_tmp_elem_t) (max_length proto_id p : Z) :
  ucp_proto_thresholds_append ea tl max_length proto_id = Ok tl' ->
  In p (map tmp_proto_id tl') ->
  In p (map tmp_proto_id tl) \/ p = proto_id.
Proof.
  intros H Hp.
  apply thresholds_append_ids in H as [[Heq _] | [Heq _]]; rewrite Heq in Hp.
  - now left.
  - apply in_app_or in Hp as [Hp | [<- | []]]; auto.
Qed.

Lemma select_best_loop_In (ea : bool) (n : nat) :
  forall (proto_mask : Z) (perf : Z -> ucs_linear_func_t)
         (tl tl' : list ucp_proto_threshold_tmp_elem_t) (start end_ p : Z),
    select_best_loop ea n proto_mask perf tl start end_ = Ok tl' ->
    In p (map tmp_proto_id tl') ->
    In p (map tmp_proto_id tl) \/ In p (ucs_for_each_bit proto_mask).
Proof.
  induction n as [| n IH]; intros proto_mask perf tl tl' start end_ p H Hp;
    [discriminate |].
  rewrite select_best_loop_S in H. apply ucs_assert_Ok in H.
  apply bind_Ok in H as (best & Hfb & H).
  destruct (best_proto_id best) as [b |] eqn:Hb;
    [| apply ucs_assert_Ok in H; discriminate].
  assert (Hin : In b (ucs_for_each_bit proto_mask)).
  { unfold best_at in Hfb.
    destruct (find_best_cases ea (ucs_for_each_bit proto_mask) perf
                (Double.of_size_t start + Double.UCP_PROTO_MSGLEN_EPSILON)%float
                {| best_proto_id := None; best_result := Double.DBL_MAX |})
      as [Hf | (best' & Hf & Hid)]; rewrite Hfb in Hf; [discriminate |].
    injection Hf as <-. rewrite Hb in Hid.
    destruct Hid as [Hid | (b' & Hb' & Hin')]; [discriminate |].
    injection Hb' as <-. exact Hin'. }
  cbv zeta in H. apply bind_Ok in H as (tl1 & Happ & H).
  assert (Hstep : forall q, In q (map tmp_proto_id tl1) ->
            In q (map tmp_proto_id tl) \/ In q (ucs_for_each_bit proto_mask)).
  { intros q Hq.
    destruct (thresholds_append_In ea tl tl1 _ b q Happ Hq) as [| ->]; auto. }
  destruct (_ <? _); [| injection H as <-; auto].
  destruct (IH _ _ _ _ _ _ p H Hp) as [Hp1 | Hp1]; [auto |].
  right. eapply for_each_bit_mask_clear, Hp1.
Qed.

Lemma init_thresh_loop_In (ea : bool) (proto_mask : Z)
    (proto_caps : Z -> ucp_proto_caps_t) (n : nat) :
  forall (tl tl' : list ucp_proto_threshold_tmp_elem_t) (L p : Z),
    init_thresh_loop ea n proto_mask proto_caps tl L = Ok tl' ->
    In p (map tmp_proto_id tl') ->
    In p (map tmp_proto_id tl) \/ In p (ucs_for_each_bit proto_mask).
Proof.
  induction n as [| n IH]; intros tl tl' L p H Hp; [discriminate |].
  cbn [init_thresh_loop] in H.
  apply bind_Ok in H as ([tl1 mx] & Hnext & H).
  apply select_next_Ok in Hnext as (_ & _ & Hbest).
  unfold ucp_proto_thresholds_select_best in Hbest.
  assert (Hstep : forall q, In q (map tmp_proto_id tl1) ->
            In q (map tmp_proto_id tl) \/ In q (ucs_for_each_bit proto_mask)).
  { intros q Hq.
    destruct (select_best_loop_In _ _ _ _ _ _ _ _ q Hbest Hq) as [| Hc];
      [auto | right].
    apply competing_spec in Hc. tauto. }
  destruct (_ <? _); [| injection H as <-; auto].
  destruct (IH _ _ _ p H Hp); auto.
Qed.

(** X10: every entry of the thresholds of an element selects a protocol of the
    registry whose [init] succeeded, with the selection parameters of the
    call and a private area that lies inside the [priv_buf] of the
    element. *)
Theorem elem_init_entries (enable_assert : bool)
    (alloc_ok : allocation -> bool) (ucp_protocols : list ucp_proto_t)
    (null_index : Z) (worker : ucp_worker_t)
    (ep_cfg_index rkey_cfg_index : Z) (param : ucp_proto_select_param_t)
    (select_elem : ucp_proto_select_elem_t) :
  let params := init_params_of worker ep_cfg_index rkey_cfg_index null_index
                  param in
  Forall (fun p => 0 <= priv_size_of params p) ucp_protocols ->
  sum_sizes params ucp_protocols < 2 ^ 64 ->
  ucp_proto_select_elem_init enable_assert alloc_ok ucp_protocols null_index
    worker ep_cfg_index rkey_cfg_index param = Ok select_elem ->
  elem_priv_buf select_elem
  = (if sum_sizes params ucp_protocols =? 0 then None
     else Some (sum_sizes params ucp_protocols)) /\
  forall e, In e (thresholds select_elem) ->
    config_select_param (proto_config e) = param /\
    exists (k : nat) (p : ucp_proto_t) (c : ucp_proto_caps_t) (s : Z),
      config_proto (proto_config e) = Z.of_nat k /\ (k < 64)%nat /\
      ucp_protocols !! k = Some p /\ proto_init p params = Some (c, s) /\
      0 <= config_priv (proto_config e) /\
      config_priv (proto_config e) + s <= sum_sizes params ucp_protocols.
Proof.
  intros params Hnn Hsum H. unfold ucp_proto_select_elem_init in H.
  destruct (negb (alloc_ok Alloc_proto_init)); [discriminate |].
  apply bind_Ok in H as (v & Hinit & H).
  destruct (init_protocols_offsets enable_assert alloc_ok ucp_protocols
              null_index worker ep_cfg_index rkey_cfg_index param v Hnn Hsum
              Hinit) as [Hbuf Hlayout].
  fold params in Hbuf, Hlayout.
  assert (Has : init_protocols_asserts enable_assert worker ep_cfg_index
                  rkey_cfg_index null_index).
  { apply (init_protocols_returns enable_assert alloc_ok ucp_protocols
             null_index worker ep_cfg_index rkey_cfg_index param).
    intros a. rewrite Hinit. discriminate. }
  rewrite (init_protocols_unfold _ _ _ _ _ _ _ _ Has) in Hinit.
  fold params in Hinit.
  assert (Hv : select_param v = param /\
               mask v = ip_mask (init_protocols_end params ucp_protocols)).
  { destruct (negb _); [discriminate |].
    destruct (_ =? 0); [discriminate |].
    destruct (_ =? 0); [injection Hinit as <-; auto |].
    destruct (alloc_ok Realloc_priv_buf); [injection Hinit as <-; auto |].
    discriminate. }
  destruct Hv as [Hparam Hmask].
  apply elem_init_thresh_Ok in H as (tl & Hloop & _ & ->). simpl.
  split; [exact Hbuf |].
  intros e He. apply in_map_iff in He as (t & <- & Ht). simpl.
  split; [exact Hparam |].
  destruct (init_thresh_loop_In _ _ _ _ _ _ _ (tmp_proto_id t) Hloop
              (in_map _ _ _ Ht)) as [[] | Hin].
  apply in_for_each_bit in Hin as [Hrange Hb]. rewrite Hmask in Hb.
  apply init_protocols_end_mask in Hb as (k & p & Hk & Hp & Hsome); [| lia].
  destruct (proto_init p params) as [[c s] |] eqn:Hpi; [| contradiction].
  exists k, p, c, s. rewrite Hk.
  destruct (Hlayout k p c s Hp Hpi) as (_ & H0 & H1 & _).
  repeat split; try assumption. lia.
Qed.

Lemma elem_init_entries_witness :
  elem_priv_buf (select_elem_two 7) = Some 24 /\
  Forall (fun e => config_select_param (proto_config e) = 7)
    (thresholds (select_elem_two 7)).
Proof.
  pose proof (elem_init_entries true all_alloc_ok protocols_two 255 worker_two
                0 255 7 (select_elem_two 7) protocols_two_sizes
                ltac:(vm_compute; reflexivity) elem_init_two) as [Hbuf Hall].
  split; [exact Hbuf |].
  apply List.Forall_forall. intros e He. apply (Hall e He).
Defined.

(** ** Sequences of slow lookups *)

(** What a slow lookup that returns has done. *)
Lemma lookup_slow_Ok (ea : bool) (alloc_ok : allocation -> bool)
    (ucp_protocols : list ucp_proto_t) (null_index : Z)
    (worker : ucp_worker_t) (ep_cfg_index rkey_cfg_index param : Z)
    (proto_select proto_select' : ucp_proto_select_t) (o : kh_put_oracle)
    (ret : option Z) :
  ucp_proto_select_lookup_slow ea alloc_ok ucp_protocols null_index worker
    proto_select ep_cfg_index rkey_cfg_index param o
  = Ok (ret, proto_select') ->
  hash proto_select !! param = None /\ kh_resize_ok o = true /\
  ((exists select_elem,
      ucp_proto_select_elem_init ea alloc_ok ucp_protocols null_index worker
        ep_cfg_index rkey_cfg_index param = Ok select_elem /\
      ret = Some param /\
      hash proto_select'
      = <[param := Slot_elem select_elem]> (hash proto_select)) \/
   (exists status,
      ucp_proto_select_elem_init ea alloc_ok ucp_protocols null_index worker
        ep_cfg_index rkey_cfg_index param = Err status /\
      ret = None /\ hash proto_select' = hash proto_select)).
Proof.
  intros H.
  destruct (hash proto_select !! param) as [s |] eqn:Hfresh.
  - rewrite lookup_slow_not_fresh in H by (left; eauto). discriminate.
  - destruct (kh_resize_ok o) eqn:Hresize.
    + split; [reflexivity |]. split; [reflexivity |].
      rewrite lookup_slow_fresh in H by assumption.
      destruct (ucp_proto_select_elem_init _ _ _ _ _ _ _ _)
        as [select_elem | status | | |]; try discriminate;
        injection H as <- <-; [left | right].
      * exists select_elem. split; [reflexivity |]. split; [reflexivity |].
        simpl. apply insert_insert_eq.
      * exists status. split; [reflexivity |]. split; [reflexivity |].
        simpl. unfold kh_del. apply delete_insert_id, Hfresh.
    + rewrite lookup_slow_not_fresh in H by (right; exact Hresize).
      discriminate.
Qed.

(** X11: once [ucp_proto_select_lookup_slow] has returned an element for some
    parameters, every further slow lookup of these parameters on the same
    context stops at the assertion on [khret], whatever its other
    arguments are: the caller has to find the entry by the fast lookup. *)
Theorem lookup_slow_twice (ea ea' : bool) (alloc_ok alloc_ok' : allocation -> bool)
    (ucp_protocols ucp_protocols' : list ucp_proto_t) (null_index null_index' : Z)
    (worker worker' : ucp_worker_t)
    (ep_cfg_index rkey_cfg_index ep_cfg_index' rkey_cfg_index' param : Z)
    (proto_select proto_select' : ucp_proto_select_t) (o o' : kh_put_oracle)
    (ptr : Z) :
  ucp_proto_select_lookup_slow ea alloc_ok ucp_protocols null_index worker
    proto_select ep_cfg_index rkey_cfg_index param o
  = Ok (Some ptr, proto_select') ->
  ucp_proto_select_lookup_slow ea' alloc_ok' ucp_protocols' null_index'
    worker' proto_select' ep_cfg_index' rkey_cfg_index' param o'
  = Fatal Assert_khret_fresh.
Proof.
  intros H.
  apply lookup_slow_Ok in H
    as (_ & _ & [(select_elem & _ & _ & Hh) | (status & _ & Hret & _)]);
    [| discriminate].
  apply lookup_slow_not_fresh. left. rewrite Hh, lookup_insert_eq. eauto.
Qed.

(** The context after the successful lookup of the parameters 7 in the
    empty context. *)
Definition proto_select_found : ucp_proto_select_t :=
  {| hash := <[7 := Slot_elem (select_elem_two 7)]>
               (<[7 := Slot_uninit]> (hash proto_select_empty));
     cache_key := UINT64_MAX;
     cache_value := None;
     trace := [Ev_cache_reset; Ev_kh_put 7; Ev_cache_reset; Ev_kh_value 7;
               Ev_elem_init] |}.

Example lookup_slow_some :
  ucp_proto_select_lookup_slow true all_alloc_ok protocols_two 255
    worker_two proto_select_empty 0 255 7 put_ok
  = Ok (Some 7, proto_select_found).
Proof.
  rewrite lookup_slow_fresh by reflexivity.
  rewrite elem_init_two. reflexivity.
Qed.

Lemma lookup_slow_twice_witness :
  ucp_proto_select_lookup_slow true all_alloc_ok protocols_two 255
    worker_two proto_select_found 0 255 7 put_ok
  = Fatal Assert_khret_fresh.
Proof.
  exact (lookup_slow_twice true true all_alloc_ok all_alloc_ok protocols_two
           protocols_two 255 255 worker_two worker_two 0 255 0 255 7
           proto_select_empty proto_select_found put_ok put_ok 7
           lookup_slow_some).
Defined.

(** In the model, where the iterator of a bucket is its key, two slow
    lookups of different parameters made in the other order give the same
    results and the same map. *)
Lemma lookup_slow_swap (ea : bool) (alloc_ok : allocation -> bool)
    (ucp_protocols : list ucp_proto_t) (null_index : Z)
    (worker : ucp_worker_t)
    (ep1 rkey1 param1 ep2 rkey2 param2 : Z)
    (ps ps1 ps12 : ucp_proto_select_t) (o1 o2 : kh_put_oracle)
    (ret1 ret2 : option Z) :
  param1 <> param2 ->
  ucp_proto_select_lookup_slow ea alloc_ok ucp_protocols null_index worker
    ps ep1 rkey1 param1 o1 = Ok (ret1, ps1) ->
  ucp_proto_select_lookup_slow ea alloc_ok ucp_protocols null_index worker
    ps1 ep2 rkey2 param2 o2 = Ok (ret2, ps12) ->
  exists ps2 ps21,
    ucp_proto_select_lookup_slow ea alloc_ok ucp_protocols null_index worker
      ps ep2 rkey2 param2 o2 = Ok (ret2, ps2) /\
    ucp_proto_select_lookup_slow ea alloc_ok ucp_protocols null_index worker
      ps2 ep1 rkey1 param1 o1 = Ok (ret1, ps21) /\
    hash ps21 = hash ps12.
Proof.
  intros Hne H1 H2.
  apply lookup_slow_Ok in H1 as (Hf1 & Hr1 & Hc1).
  apply lookup_slow_Ok in H2 as (Hf2 & Hr2 & Hc2).
  assert (Hf2' : hash ps !! param2 = None).
  { destruct Hc1 as [(e1 & _ & _ & Hh) | (s1 & _ & _ & Hh)]; rewrite Hh in Hf2;
      [| exact Hf2].
    rewrite lookup_insert_ne in Hf2 by exact Hne. exact Hf2. }
  pose proof (lookup_slow_fresh ea alloc_ok ucp_protocols null_index worker
                ep2 rkey2 param2 ps o2 Hf2' Hr2) as Hcall2.
  destruct Hc1 as [(e1 & Hi1 & -> & Hh1) | (s1 & Hi1 & -> & Hh1)];
    destruct Hc2 as [(e2 & Hi2 & -> & Hh2) | (s2 & Hi2 & -> & Hh2)];
    rewrite Hi2 in Hcall2;
    (eexists; eexists; split; [exact Hcall2 |]);
    (rewrite lookup_slow_fresh;
     [rewrite Hi1; split; [reflexivity |]
     | cbn [hash]; unfold kh_del;
       rewrite ?insert_insert_eq, ?delete_insert_id by exact Hf2';
       rewrite ?lookup_insert_ne by congruence; exact Hf1
     | exact Hr1]);
    cbn [hash]; unfold kh_del; rewrite Hh2, Hh1;
    rewrite ?insert_insert_eq;
    rewrite ?(delete_insert_id (hash ps) param2 Slot_uninit Hf2');
    repeat (rewrite delete_insert_id
              by first [ exact Hf1 | exact Hf2'
                       | rewrite lookup_insert_ne by congruence;
                         first [exact Hf1 | exact Hf2'] ]);
    try reflexivity.
  apply insert_insert_ne. congruence.
Qed.

(** X12: two slow lookups of different parameters can be made in either
    order: each of them returns NULL in one order exactly when it does in
    the other, and both orders leave a hash that holds the same elements
    under the same keys.  Where the values lie in memory, which depends on
    the order of the insertions, is not part of the statement. *)
Theorem lookup_slow_commute (ea : bool) (alloc_ok : allocation -> bool)
    (ucp_protocols : list ucp_proto_t) (null_index : Z)
    (worker : ucp_worker_t)
    (ep1 rkey1 param1 ep2 rkey2 param2 : Z)
    (ps ps1 ps12 : ucp_proto_select_t) (o1 o2 : kh_put_oracle)
    (ret1 ret2 : option Z) :
  param1 <> param2 ->
  ucp_proto_select_lookup_slow ea alloc_ok ucp_protocols null_index worker
    ps ep1 rkey1 param1 o1 = Ok (ret1, ps1) ->
  ucp_proto_select_lookup_slow ea alloc_ok ucp_protocols null_index worker
    ps1 ep2 rkey2 param2 o2 = Ok (ret2, ps12) ->
  exists ret2' ps2 ret1' ps21,
    ucp_proto_select_lookup_slow ea alloc_ok ucp_protocols null_index worker
      ps ep2 rkey2 param2 o2 = Ok (ret2', ps2) /\
    ucp_proto_select_lookup_slow ea alloc_ok ucp_protocols null_index worker
      ps2 ep1 rkey1 param1 o1 = Ok (ret1', ps21) /\
    (ret1' = None <-> ret1 = None) /\
    (ret2' = None <-> ret2 = None) /\
    (forall key, hash ps21 !! key = hash ps12 !! key).
Proof.
  intros Hne H1 H2.
  destruct (lookup_slow_swap ea alloc_ok ucp_protocols null_index worker
              ep1 rkey1 param1 ep2 rkey2 param2 ps ps1 ps12 o1 o2 ret1 ret2
              Hne H1 H2) as (ps2 & ps21 & Hc2 & Hc1 & Hh).
  exists ret2, ps2, ret1, ps21.
  split; [exact Hc2 |]. split; [exact Hc1 |].
  split; [reflexivity |]. split; [reflexivity |].
  intros key. rewrite Hh. reflexivity.
Qed.

Example elem_init_two_nine :
  ucp_proto_select_elem_init true all_alloc_ok protocols_two 255 worker_two
    0 255 9 = Ok (select_elem_two 9).
Proof. vm_compute. reflexivity. Qed.

(** The context after the lookups of the parameters 7 and then 9. *)
Definition proto_select_found_nine : ucp_proto_select_t :=
  {| hash := <[9 := Slot_elem (select_elem_two 9)]>
               (<[9 := Slot_uninit]> (hash proto_select_found));
     cache_key := UINT64_MAX;
     cache_value := None;
     trace := ((trace proto_select_found ++ [Ev_kh_put 9])
               ++ [Ev_cache_reset]) ++ [Ev_kh_value 9; Ev_elem_init] |}.

Example lookup_slow_some_nine :
  ucp_proto_select_lookup_slow true all_alloc_ok protocols_two 255
    worker_two proto_select_found 0 255 9 put_ok
  = Ok (Some 9, proto_select_found_nine).
Proof.
  rewrite lookup_slow_fresh by reflexivity.
  rewrite elem_init_two_nine. reflexivity.
Qed.

Lemma lookup_slow_commute_witness :
  exists ret2' ps2 ret1' ps21,
    ucp_proto_select_lookup_slow true all_alloc_ok protocols_two 255
      worker_two proto_select_empty 0 255 9 put_ok = Ok (ret2', ps2) /\
    ucp_proto_select_lookup_slow true all_alloc_ok protocols_two 255
      worker_two ps2 0 255 7 put_ok = Ok (ret1', ps21) /\
    (ret1' = None <-> Some 7 = None) /\
    (ret2' = None <-> Some 9 = None) /\
    (forall key, hash ps21 !! key = hash proto_select_found_nine !! key).
Proof.
  apply (lookup_slow_commute true all_alloc_ok protocols_two 255 worker_two
           0 255 7 0 255 9 proto_select_empty proto_select_found
           proto_select_found_nine put_ok put_ok (Some 7) (Some 9)).
  - lia.
  - exact lookup_slow_some.
  - exact lookup_slow_some_nine.
Defined.

(** ** The dump of the selected protocols *)

(** A line that [ucp_proto_select_dump_thresholds] writes to the stream, by
    the values it formats: the column titles, or the range of sizes of an
    entry with the protocol and the private area whose [config_str] is
    printed. *)
Inductive thresh_line : Set :=
| Thresh_titles
| Thresh_range (range_start range_end proto priv : Z).

(** The [do ... while (range_end != SIZE_MAX)] loop; [idx] is the position
    of [thresh_elem] in the array. *)
Fixpoint dump_thresholds_loop (fuel : nat)
    (thresholds : list ucp_proto_threshold_elem_t) (idx : nat)
    (range_start : Z) : outcome (list thresh_line) :=
  match fuel with
  | O => NoFuel
  | S fuel' =>
      match thresholds !! idx with
      | None => Undefined
      | Some thresh_elem =>
          let range_end := max_msg_length thresh_elem in
          let line :=
            Thresh_range range_start range_end
              (config_proto (proto_config thresh_elem))
              (config_priv (proto_config thresh_elem)) in
          if range_end =? SIZE_MAX then Ok [line]
          else
            let* lines :=
              dump_thresholds_loop fuel' thresholds (S idx)
                (wrap64 (range_end + 1)) in
            Ok (line :: lines)
      end
  end.

Definition ucp_proto_select_dump_thresholds
    (select_elem : ucp_proto_select_elem_t) : outcome (list thresh_line) :=
  let* lines :=
    dump_thresholds_loop (S (length (thresholds select_elem)))
      (thresholds select_elem) 0 0 in
  Ok (Thresh_titles :: lines).

(** The first size of the range of the entry [idx]: the size after the end
    of the entry before it. *)
Definition range_start_of (thresholds : list ucp_proto_threshold_elem_t)
    (idx : nat) : Z :=
  match idx with
  | O => 0
  | S j =>
      match thresholds !! j with
      | Some e => max_msg_length e + 1
      | None => 0
      end
  end.

Definition thresh_line_of (thresholds : list ucp_proto_threshold_elem_t)
    (idx : nat) (e : ucp_proto_threshold_elem_t) : thresh_line :=
  Thresh_range (range_start_of thresholds idx) (max_msg_length e)
    (config_proto (proto_config e)) (config_priv (proto_config e)).

Lemma StronglySorted_lookup_lt (l : list Z) :
  StronglySorted Z.lt l ->
  forall (i j : nat) (a b : Z),
    (i < j)%nat -> l !! i = Some a -> l !! j = Some b -> a < b.
Proof.
  induction 1 as [| x l Hs IH Hx]; intros i j a b Hij Ha Hb;
    [destruct i; discriminate |].
  destruct j as [| j]; [lia |]. destruct i as [| i].
  - injection Ha as <-. rewrite List.Forall_forall in Hx.
    apply Hx. eapply lookup_In, Hb.
  - apply (IH i j); [lia | exact Ha | exact Hb].
Qed.

Section DumpThresholds.

Variable ths : list ucp_proto_threshold_elem_t.
Variable final : ucp_proto_threshold_elem_t.
Hypothesis Hsorted : StronglySorted Z.lt (map max_msg_length ths).
Hypothesis Hnonneg : Forall (fun e => 0 <= max_msg_length e) ths.
Hypothesis Hlast : last ths = Some final.
Hypothesis Hfinal : max_msg_length final = SIZE_MAX.

Lemma ths_before_last (i : nat) (e : ucp_proto_threshold_elem_t) :
  ths !! i = Some e ->
  0 <= max_msg_length e <= SIZE_MAX /\
  (max_msg_length e = SIZE_MAX <-> S i = length ths).
Proof.
  intros Hi. pose proof (lookup_lt_Some _ _ _ Hi) as Hlt.
  rewrite last_lookup in Hlast.
  assert (H0 : 0 <= max_msg_length e).
  { rewrite List.Forall_forall in Hnonneg. eapply Hnonneg, lookup_In, Hi. }
  destruct (Nat.eq_dec (S i) (length ths)) as [Heq | Hne].
  - replace (Nat.pred (length ths)) with i in Hlast by lia.
    rewrite Hi in Hlast. injection Hlast as ->. rewrite Hfinal.
    split; [unfold SIZE_MAX in *; lia | tauto].
  - assert (Hlt' : max_msg_length e < max_msg_length final).
    { apply (StronglySorted_lookup_lt _ Hsorted i (Nat.pred (length ths)));
        [lia | |]; rewrite map_lookup; [rewrite Hi | rewrite Hlast];
        reflexivity. }
    split; [lia |]. split; [lia | intros; contradiction].
Qed.

Lemma dump_thresholds_loop_lines (fuel : nat) :
  forall idx : nat,
    (idx < length ths)%nat -> (length ths < idx + fuel)%nat ->
    exists lines,
      dump_thresholds_loop fuel ths idx (range_start_of ths idx) = Ok lines /\
      (idx + length lines = length ths)%nat /\
      forall (k : nat) (e : ucp_proto_threshold_elem_t),
        ths !! (idx + k)%nat = Some e ->
        lines !! k = Some (thresh_line_of ths (idx + k) e).
Proof.
  induction fuel as [| fuel IH]; intros idx Hidx Hfuel; [lia |].
  cbn [dump_thresholds_loop].
  destruct (ths !! idx) as [e |] eqn:He;
    [| apply lookup_ge_None in He; lia].
  destruct (ths_before_last idx e He) as [Hb Hend].
  destruct (Z.eqb_spec (max_msg_length e) SIZE_MAX) as [Heq | Hne].
  - apply Hend in Heq. eexists. split; [reflexivity |].
    split; [simpl; lia |]. intros k e' Hk.
    pose proof (lookup_lt_Some _ _ _ Hk).
    assert (k = 0%nat) as -> by lia.
    replace (idx + 0)%nat with idx in * by lia.
    rewrite He in Hk. injection Hk as <-. reflexivity.
  - assert (HS : (S idx < length ths)%nat).
    { destruct (Nat.eq_dec (S idx) (length ths)) as [Heq |]; [| lia].
      apply Hend in Heq. contradiction. }
    replace (wrap64 (max_msg_length e + 1)) with (range_start_of ths (S idx)).
    + destruct (IH (S idx) HS ltac:(lia)) as (lines & Hloop & Hlen & Hlines).
      rewrite Hloop. eexists. split; [reflexivity |].
      split; [simpl; lia |]. intros k e' Hk. destruct k as [| k].
      * replace (idx + 0)%nat with idx in * by lia.
        rewrite He in Hk. injection Hk as <-. reflexivity.
      * replace (idx + S k)%nat with (S idx + k)%nat in * by lia.
        simpl. apply Hlines, Hk.
    + unfold range_start_of. rewrite He. unfold wrap64.
      symmetry. apply Z.mod_small. unfold SIZE_MAX in *. lia.
Qed.

Lemma dump_thresholds_lines_of :
  exists lines,
    ucp_proto_select_dump_thresholds
      {| thresholds := ths; elem_priv_buf := None |}
    = Ok (Thresh_titles :: lines) /\
    length lines = length ths /\
    forall (i : nat) (e : ucp_proto_threshold_elem_t),
      ths !! i = Some e -> lines !! i = Some (thresh_line_of ths i e).
Proof.
  assert (Hne : (0 < length ths)%nat).
  { rewrite last_lookup in Hlast. apply lookup_lt_Some in Hlast.
    destruct ths; simpl in *; lia. }
  destruct (dump_thresholds_loop_lines (S (length ths)) 0 Hne ltac:(lia))
    as (lines & Hloop & Hlen & Hlines).
  exists lines. unfold ucp_proto_select_dump_thresholds. simpl thresholds.
  change (range_start_of ths 0) with 0 in Hloop. rewrite Hloop.
  split; [reflexivity |]. split; [lia |]. exact Hlines.
Qed.

Lemma search_slow_in_range (L : Z) :
  is_size_t L ->
  exists (i : nat) (e : ucp_proto_threshold_elem_t),
    ucp_proto_thresholds_search_slow ths L = Ok (i, e) /\
    ths !! i = Some e /\ range_start_of ths i <= L <= max_msg_length e.
Proof.
  intros HL. unfold ucp_proto_thresholds_search_slow.
  destruct (search_slow_loop_spec ths L (S (length ths)) 0%nat)
    as (i & e & Hs & Hi & Hle & Hmin).
  - intros j e Hj. lia.
  - rewrite last_lookup in Hlast.
    exists (Nat.pred (length ths)), final.
    split; [lia |]. split; [exact Hlast |]. rewrite Hfinal. apply HL.
  - lia.
  - exists i, e. split; [exact Hs |]. split; [exact Hi |].
    split; [| exact Hle]. destruct i as [| j]; [apply HL |].
    unfold range_start_of.
    destruct (ths !! j) as [e' |] eqn:Hj; [| apply HL].
    specialize (Hmin j e' ltac:(lia) Hj). lia.
Qed.

End DumpThresholds.

(** X13: on a thresholds array that is strictly increasing and ends with
    [SIZE_MAX], [ucp_proto_select_dump_thresholds] writes the titles and
    one line for every entry; the ranges of sizes on the lines start at 0
    and follow each other without a gap, and the line whose range holds a
    message length shows the protocol and the private area that
    [ucp_proto_thresholds_search_slow] returns for that length. *)
Theorem dump_thresholds_agrees (select_elem : ucp_proto_select_elem_t)
    (final : ucp_proto_threshold_elem_t) :
  StronglySorted Z.lt (map max_msg_length (thresholds select_elem)) ->
  Forall (fun e => 0 <= max_msg_length e) (thresholds select_elem) ->
  last (thresholds select_elem) = Some final ->
  max_msg_length final = SIZE_MAX ->
  exists lines,
    ucp_proto_select_dump_thresholds select_elem
    = Ok (Thresh_titles :: lines) /\
    length lines = length (thresholds select_elem) /\
    (forall (i : nat) (e : ucp_proto_threshold_elem_t),
       thresholds select_elem !! i = Some e ->
       lines !! i
       = Some (Thresh_range (range_start_of (thresholds select_elem) i)
                 (max_msg_length e) (config_proto (proto_config e))
                 (config_priv (proto_config e)))) /\
    forall L, is_size_t L ->
      exists (i : nat) (e : ucp_proto_threshold_elem_t),
        ucp_proto_thresholds_search_slow (thresholds select_elem) L
        = Ok (i, e) /\
        lines !! i
        = Some (Thresh_range (range_start_of (thresholds select_elem) i)
                  (max_msg_length e) (config_proto (proto_config e))
                  (config_priv (proto_config e))) /\
        range_start_of (thresholds select_elem) i <= L <= max_msg_length e.
Proof.
  intros Hsorted Hnonneg Hlast Hfinal.
  destruct (dump_thresholds_lines_of (thresholds select_elem) final Hsorted
              Hnonneg Hlast Hfinal) as (lines & Hdump & Hlen & Hlines).
  exists lines. split; [exact Hdump |]. split; [exact Hlen |].
  split; [exact Hlines |]. intros L HL.
  destruct (search_slow_in_range (thresholds select_elem) final Hlast Hfinal
              L HL) as (i & e & Hs & Hi & Hr).
  exists i, e. split; [exact Hs |]. split; [apply Hlines, Hi | exact Hr].
Qed.

Lemma dump_thresholds_agrees_witness :
  exists lines,
    ucp_proto_select_dump_thresholds (select_elem_two 7)
    = Ok (Thresh_titles :: lines) /\
    length lines = 2%nat /\
    lines !! 1%nat = Some (Thresh_range 17 SIZE_MAX 1 8).
Proof.
  destruct (dump_thresholds_agrees (select_elem_two 7)
              {| max_msg_length := SIZE_MAX;
                 proto_config := {| config_select_param := 7;
                                    config_proto := 1; config_priv := 8 |} |})
    as (lines & Hdump & Hlen & Hlines & _).
  - repeat constructor; vm_compute; reflexivity.
  - repeat constructor; vm_compute; discriminate.
  - reflexivity.
  - reflexivity.
  - exists lines. split; [exact Hdump |]. split; [exact Hlen |].
    exact (Hlines 1%nat _ eq_refl).
Defined.

(** X14: the loop of [ucp_proto_select_dump_thresholds] runs until it meets an
    entry of [SIZE_MAX]: on an array without such an entry it reads past
    the end of the array. *)
Theorem dump_thresholds_reads_past_end
    (select_elem : ucp_proto_select_elem_t) :
  Forall (fun e => max_msg_length e <> SIZE_MAX) (thresholds select_elem) ->
  ucp_proto_select_dump_thresholds select_elem = Undefined.
Proof.
  intros Hall. unfold ucp_proto_select_dump_thresholds.
  set (ths := thresholds select_elem) in *.
  assert (Hloop : forall fuel idx range_start,
            (idx <= length ths < idx + fuel)%nat ->
            dump_thresholds_loop fuel ths idx range_start = Undefined).
  { induction fuel as [| fuel IH]; intros idx rs Hfuel; [lia |].
    cbn [dump_thresholds_loop].
    destruct (ths !! idx) as [e |] eqn:He; [| reflexivity].
    pose proof (lookup_lt_Some _ _ _ He).
    rewrite List.Forall_forall in Hall.
    pose proof (Hall e (lookup_In _ _ _ He)) as Hne.
    destruct (Z.eqb_spec (max_msg_length e) SIZE_MAX); [contradiction |].
    rewrite IH by lia. reflexivity. }
  rewrite Hloop by lia. reflexivity.
Qed.

Lemma dump_thresholds_reads_past_end_witness :
  ucp_proto_select_dump_thresholds
    {| thresholds := [thresh_elem 16 0]; elem_priv_buf := None |}
  = Undefined.
Proof.
  apply (dump_thresholds_reads_past_end
           {| thresholds := [thresh_elem 16 0]; elem_priv_buf := None |}).
  repeat constructor. vm_compute. discriminate.
Defined.

(** * Allocations *)

(** ** The allocator *)

(** The heap, as far as this file uses it: the blocks that are allocated,
    and the block that the next allocation returns.  A block that has been
    freed is not handed out again, so that a pointer to it stays
    recognisable as dangling. *)
Record heap : Type := { live : gset nat; brk : nat }.

(** Modelled from the spec: [ucs_malloc] and [ucs_calloc] are declared in a
    header that is not under src/; "priv_buf ownership transfers from the
    scratch ProtoInit struct to the SelectElem", with the meaning of the
    allocator of the C library: an allocation that succeeds returns a block
    that was not allocated.  Whether it succeeds is decided by the caller's
    [alloc_ok]. *)
Definition heap_alloc (h : heap) : nat * heap :=
  (brk h, {| live := {[brk h]} ∪ live h; brk := S (brk h) |}).

(** Modelled from the spec: [ucs_free] is declared in a header that is not
    under src/; "for every entry, free its thresholds and priv_buf", with
    the meaning of the allocator of the C library: a null pointer is
    ignored, and to free a block that is not allocated is undefined. *)
Definition ucs_free (ptr : option nat) (h : heap) : outcome heap :=
  match ptr with
  | None => Ok h
  | Some b =>
      if bool_decide (b ∈ live h)
      then Ok {| live := live h ∖ {[b]}; brk := brk h |}
      else Undefined
  end.

(** Modelled from the spec: [ucs_realloc] is declared in a header that is
    not under src/; "Shrink priv_buf to running_offset".  A reallocation
    that succeeds releases the old block and returns a block of its own
    (the C library may also return the old address, which then names the
    new block); one that fails leaves the old block as it is. *)
Definition heap_realloc (b : nat) (h : heap) : outcome (nat * heap) :=
  let* h := ucs_free (Some b) h in
  Ok (heap_alloc h).

(** What a function with a status returns: its result with [UCS_OK], or an
    error status. *)
Inductive returned (A : Type) : Type :=
| Done (a : A)
| Failed (status : ucs_status_t).

Arguments Done {A} a.
Arguments Failed {A} status.

(** The pointers of a [ucp_proto_select_elem_t]: [thresholds] and
    [priv_buf]. *)
Record elem_ptrs : Set := {
  thresholds_ptr : nat;
  priv_buf_ptr : option nat
}.

(** ** The functions with their allocations *)

Section Allocations.

Variable enable_assert : bool.
Variable alloc_ok : allocation -> bool.
Variable ucp_protocols : list ucp_proto_t.
Variable UCP_WORKER_CFG_INDEX_NULL : Z.

(** [ucp_proto_select_init_protocols] with the heap: the result, the
    pointer [proto_init->priv_buf] and the heap at the return. *)
Definition ucp_proto_select_init_protocols_mem (worker : ucp_worker_t)
    (ep_cfg_index rkey_cfg_index : Z)
    (select_param : ucp_proto_select_param_t) (h : heap)
  : outcome (returned (ucp_proto_select_init_protocols_t * option nat)
             * heap) :=
  ucs_assert enable_assert (negb (ep_cfg_index =? UCP_WORKER_CFG_INDEX_NULL))
    Assert_ep_cfg_index
    (ucs_assert_always
       ((rkey_cfg_index =? UCP_WORKER_CFG_INDEX_NULL)
        || (rkey_config_ep_cfg_index worker rkey_cfg_index =? ep_cfg_index))
       Assert_rkey_ep_cfg_index
       (if negb (alloc_ok Alloc_priv_buf) then Ok (Failed UCS_ERR_NO_MEMORY, h)
        else
          let '(buf, h) := heap_alloc h in
          let st :=
            init_protocols_end
              (init_params_of worker ep_cfg_index rkey_cfg_index
                 UCP_WORKER_CFG_INDEX_NULL select_param) ucp_protocols in
          let proto_init size :=
            {| select_param := select_param;
               mask := ip_mask st;
               caps := ip_caps st;
               priv_buf := size;
               priv_offsets := ip_priv_offsets st |} in
          if ip_mask st =? 0 then
            (* err_free_priv *)
            let* h := ucs_free (Some buf) h in
            Ok (Failed UCS_ERR_NO_ELEM, h)
          else if ip_offset st =? 0 then
            let* h := ucs_free (Some buf) h in
            Ok (Done (proto_init None, None), h)
          else if alloc_ok Realloc_priv_buf then
            let* r := heap_realloc buf h in
            let '(tmp, h) := r in
            Ok (Done (proto_init (Some (ip_offset st)), Some tmp), h)
          else
            (* err_free_priv *)
            let* h := ucs_free (Some buf) h in
            Ok (Failed UCS_ERR_NO_MEMORY, h))).

(** [ucp_proto_select_elem_init_thresh] with the heap; [priv_ptr] is the
    pointer [proto_init->priv_buf], which the element takes over. *)
Definition ucp_proto_select_elem_init_thresh_mem
    (proto_init : ucp_proto_select_init_protocols_t)
    (priv_ptr : option nat) (h : heap)
  : outcome (returned (ucp_proto_select_elem_t * elem_ptrs) * heap) :=
  match init_thresh_loop enable_assert
          (sweep_bound (mask proto_init) (caps proto_init))
          (mask proto_init) (caps proto_init) [] 0 with
  | Ok tmp_thresh_list =>
      ucs_assert_always (negb (Nat.eqb (length tmp_thresh_list) 0))
        Assert_thresh_list_nonempty
        (if alloc_ok Alloc_thresholds then
           let '(thresholds_p, h) := heap_alloc h in
           Ok (Done ({| thresholds :=
                          map (copy_thresh proto_init) tmp_thresh_list;
                        elem_priv_buf := priv_buf proto_init |},
                     {| thresholds_ptr := thresholds_p;
                        priv_buf_ptr := priv_ptr |}), h)
         else Ok (Failed UCS_ERR_NO_MEMORY, h))
  | Err status => Ok (Failed status, h)
  | Fatal a => Fatal a
  | Undefined => Undefined
  | NoFuel => NoFuel
  end.

(** [ucp_proto_select_elem_init] with the heap.  The string buffer of the
    trace message belongs to the string library and is left out. *)
Definition ucp_proto_select_elem_init_mem (worker : ucp_worker_t)
    (ep_cfg_index rkey_cfg_index : Z)
    (select_param : ucp_proto_select_param_t) (h : heap)
  : outcome (returned (ucp_proto_select_elem_t * elem_ptrs) * heap) :=
  if negb (alloc_ok Alloc_proto_init) then Ok (Failed UCS_ERR_NO_MEMORY, h)
  else
    let '(proto_init_p, h) := heap_alloc h in
    let* r := ucp_proto_select_init_protocols_mem worker ep_cfg_index
                rkey_cfg_index select_param h in
    match r with
    | (Failed status, h) =>
        (* out_free_proto_init *)
        let* h := ucs_free (Some proto_init_p) h in
        Ok (Failed status, h)
    | (Done (proto_init, priv_ptr), h) =>
        let* r := ucp_proto_select_elem_init_thresh_mem proto_init priv_ptr
                    h in
        match r with
        | (Failed status, h) =>
            (* err_cleanup_protocols *)
            let* h := ucs_free priv_ptr h in
            let* h := ucs_free (Some proto_init_p) h in
            Ok (Failed status, h)
        | (Done select_elem, h) =>
            let* h := ucs_free (Some proto_init_p) h in
            Ok (Done select_elem, h)
        end
    end.

End Allocations.

(** [ucp_proto_select_elem_cleanup]. *)
Definition ucp_proto_select_elem_cleanup (select_elem : elem_ptrs) (h : heap)
  : outcome heap :=
  let* h := ucs_free (Some (thresholds_ptr select_elem)) h in
  ucs_free (priv_buf_ptr select_elem) h.

(** A selection context with the heap: the context, the pointers of the
    elements in its hash, by their keys, and the heap. *)
Record session : Type := {
  ctx : ucp_proto_select_t;
  ptrs : gmap Z elem_ptrs;
  mem : heap
}.

(** [ucp_proto_select_lookup_slow] with the heap. *)
Definition ucp_proto_select_lookup_slow_mem (enable_assert : bool)
    (alloc_ok : allocation -> bool) (ucp_protocols : list ucp_proto_t)
    (UCP_WORKER_CFG_INDEX_NULL : Z) (worker : ucp_worker_t) (s : session)
    (ep_cfg_index rkey_cfg_index : Z)
    (select_param : ucp_proto_select_param_t) (o : kh_put_oracle)
  : outcome (option Z * session) :=
  let key := select_param in
  let '(khiter, khret, hsh) := kh_put (hash (ctx s)) key o in
  let proto_select :=
    {| hash := hsh;
       cache_key := cache_key (ctx s);
       cache_value := cache_value (ctx s);
       trace := trace (ctx s) ++ [Ev_kh_put key] |} in
  ucs_assert_always (khret_is_fresh khret) Assert_khret_fresh
    (let proto_select := ucp_proto_select_cache_reset proto_select in
     match khiter with
     | None => Undefined
     | Some khiter =>
         let proto_select :=
           {| hash := hash proto_select;
              cache_key := cache_key proto_select;
              cache_value := cache_value proto_select;
              trace := trace proto_select ++ [Ev_kh_value khiter; Ev_elem_init] |} in
         let* r := ucp_proto_select_elem_init_mem enable_assert alloc_ok
                     ucp_protocols UCP_WORKER_CFG_INDEX_NULL worker
                     ep_cfg_index rkey_cfg_index select_param (mem s) in
         match r with
         | (Done (select_elem, p), h) =>
             Ok (Some khiter,
                 {| ctx :=
                      {| hash := <[khiter := Slot_elem select_elem]>
                                   (hash proto_select);
                         cache_key := cache_key proto_select;
                         cache_value := cache_value proto_select;
                         trace := trace proto_select |};
                    ptrs := <[khiter := p]> (ptrs s);
                    mem := h |})
         | (Failed _, h) =>
             Ok (None,
                 {| ctx :=
                      {| hash := kh_del (hash proto_select) khiter;
                         cache_key := cache_key proto_select;
                         cache_value := cache_value proto_select;
                         trace := trace proto_select ++ [Ev_kh_del khiter] |};
                    ptrs := delete khiter (ptrs s);
                    mem := h |})
         end
     end).

(** [ucp_proto_select_cleanup]: [kh_foreach_value] visits the buckets of the
    hash in an order that the map does not show; [order] is the keys of the
    buckets in that order.  The storage of the hash table itself belongs to
    the hash library and is not part of the heap here. *)
Definition ucp_proto_select_cleanup (s : session) (order : list Z)
  : outcome heap :=
  fold_left (fun acc key =>
               let* h := acc in
               match ptrs s !! key with
               | Some select_elem =>
                   ucp_proto_select_elem_cleanup select_elem h
               | None => Ok h
               end)
            order (Ok (mem s)).

(** [ucp_proto_select_init] with the heap: [kh_init_inplace] allocates
    nothing. *)
Definition ucp_proto_select_init_mem (h : heap) : ucs_status_t * session :=
  (fst ucp_proto_select_init,
   {| ctx := snd ucp_proto_select_init; ptrs := ∅; mem := h |}).

(** ** No leak and no double free *)

#[local] Set Warnings "-clear-no-such-hyp".

(** Every allocated block is below the next block to hand out. *)
Definition heap_wf (h : heap) : Prop := forall b, b ∈ live h -> (b < brk h)%nat.

(** [h'] comes from [h] by allocations and frees that leave the blocks
    [new], all of them new, allocated on top of what was allocated. *)
Definition heap_grows (h h' : heap) (new : gset nat) : Prop :=
  heap_wf h' /\ (brk h <= brk h')%nat /\ live h' = new ∪ live h /\
  forall b, b ∈ new -> (brk h <= b)%nat.

Lemma ucs_free_live (b : nat) (h : heap) :
  b ∈ live h ->
  ucs_free (Some b) h = Ok {| live := live h ∖ {[b]}; brk := brk h |}.
Proof. intros Hb. unfold ucs_free. rewrite bool_decide_true by exact Hb. reflexivity. Qed.

Lemma heap_grows_refl (h : heap) : heap_wf h -> heap_grows h h ∅.
Proof. intros Hwf. repeat split; [exact Hwf | lia | set_solver | set_solver]. Qed.

Lemma heap_alloc_grows (h : heap) :
  heap_wf h -> heap_grows h (snd (heap_alloc h)) {[brk h]}.
Proof.
  intros Hwf. unfold heap_grows, heap_alloc, heap_wf in *. simpl.
  repeat split; [| lia | set_solver].
  intros b Hb. apply elem_of_union in Hb as [Hb | Hb].
  - apply elem_of_singleton in Hb. lia.
  - specialize (Hwf b Hb). lia.
Qed.

(** Freeing one of the new blocks. *)
Lemma heap_grows_free (h h' : heap) (new : gset nat) (b : nat) :
  heap_grows h h' new -> heap_wf h -> b ∈ new ->
  exists h'', ucs_free (Some b) h' = Ok h'' /\ heap_grows h h'' (new ∖ {[b]}).
Proof.
  intros (Hwf' & Hbrk & Hlive & Hnew) Hwf Hb.
  assert (Hbl : b ∈ live h') by (rewrite Hlive; set_solver).
  rewrite (ucs_free_live b h' Hbl). eexists. split; [reflexivity |].
  unfold heap_grows, heap_wf in *. simpl. repeat split.
  - intros c Hc. apply Hwf'. set_solver.
  - exact Hbrk.
  - rewrite Hlive. apply set_eq. intros c. rewrite !elem_of_difference,
      !elem_of_union, elem_of_difference, elem_of_singleton.
    split; [tauto |]. intros [[Hc Hne] | Hc]; [tauto |].
    split; [tauto |]. intros ->. specialize (Hwf b Hc).
    specialize (Hnew b Hb). lia.
  - intros c Hc. apply Hnew. set_solver.
Qed.

(** Allocating one more block. *)
Lemma heap_grows_alloc (h h' : heap) (new : gset nat) :
  heap_grows h h' new ->
  heap_grows h (snd (heap_alloc h')) ({[brk h']} ∪ new).
Proof.
  intros (Hwf' & Hbrk & Hlive & Hnew).
  unfold heap_grows, heap_wf, heap_alloc in *. simpl. repeat split.
  - intros b Hb. apply elem_of_union in Hb as [Hb | Hb].
    + apply elem_of_singleton in Hb. lia.
    + specialize (Hwf' b Hb). lia.
  - lia.
  - rewrite Hlive. set_solver.
  - intros b Hb. apply elem_of_union in Hb as [Hb | Hb].
    + apply elem_of_singleton in Hb. lia.
    + apply Hnew, Hb.
Qed.

(** The blocks that an element owns. *)
Definition elem_blocks (p : elem_ptrs) : gset nat :=
  {[thresholds_ptr p]}
  ∪ match priv_buf_ptr p with Some b => {[b]} | None => ∅ end.

(** Freeing the block that was allocated first, after further allocations
    and frees. *)
Lemma heap_grows_free_first (h : heap) :
  heap_wf h ->
  forall (h1 : heap) (new : gset nat),
    heap_grows (snd (heap_alloc h)) h1 new ->
    exists h2, ucs_free (Some (brk h)) h1 = Ok h2 /\ heap_grows h h2 new.
Proof.
  intros Hwf h1 new (Hwf1 & Hbrk1 & Hlive1 & Hnew1).
  cbn [heap_alloc snd live brk] in *.
  assert (Hin : brk h ∈ live h1) by (rewrite Hlive1; set_solver).
  rewrite (ucs_free_live _ _ Hin). eexists. split; [reflexivity |].
  unfold heap_grows, heap_wf in *. simpl in *. repeat split.
  - intros b Hb. apply Hwf1. set_solver.
  - lia.
  - rewrite Hlive1. apply set_eq. intros c.
    rewrite elem_of_difference, !elem_of_union, elem_of_singleton.
    split.
    + intros [[Hc | [Hc | Hc]] Hne]; [tauto | contradiction | tauto].
    + intros [Hc | Hc].
      * split; [tauto |]. intros ->. specialize (Hnew1 _ Hc). lia.
      * split; [tauto |]. intros ->. specialize (Hwf _ Hc). lia.
  - intros b Hb. specialize (Hnew1 b Hb). lia.
Qed.

Section AllocationsSpec.

Variable ea : bool.
Variable alloc_ok : allocation -> bool.
Variable ucp_protocols : list ucp_proto_t.
Variable null_index : Z.
Variable worker : ucp_worker_t.
Variable ep_cfg_index rkey_cfg_index : Z.
Variable param : ucp_proto_select_param_t.

(** [ucp_proto_select_init_protocols] with the heap returns what the
    function returns, and leaves allocated the block of [priv_buf] at
    most. *)
Lemma init_protocols_mem_spec (h : heap) :
  heap_wf h ->
  match ucp_proto_select_init_protocols ea alloc_ok ucp_protocols null_index
          worker ep_cfg_index rkey_cfg_index param with
  | Ok v =>
      exists (priv_ptr : option nat) (h' : heap),
        ucp_proto_select_init_protocols_mem ea alloc_ok ucp_protocols
          null_index worker ep_cfg_index rkey_cfg_index param h
        = Ok (Done (v, priv_ptr), h') /\
        heap_grows h h'
          match priv_ptr with Some b => {[b]} | None => ∅ end
  | Err status =>
      exists h' : heap,
        ucp_proto_select_init_protocols_mem ea alloc_ok ucp_protocols
          null_index worker ep_cfg_index rkey_cfg_index param h
        = Ok (Failed status, h') /\
        heap_grows h h' ∅
  | Fatal a =>
      ucp_proto_select_init_protocols_mem ea alloc_ok ucp_protocols
        null_index worker ep_cfg_index rkey_cfg_index param h = Fatal a
  | Undefined =>
      ucp_proto_select_init_protocols_mem ea alloc_ok ucp_protocols
        null_index worker ep_cfg_index rkey_cfg_index param h = Undefined
  | NoFuel =>
      ucp_proto_select_init_protocols_mem ea alloc_ok ucp_protocols
        null_index worker ep_cfg_index rkey_cfg_index param h = NoFuel
  end.
Proof.
  intros Hwf.
  unfold ucp_proto_select_init_protocols, ucp_proto_select_init_protocols_mem,
    ucs_assert, ucs_assert_always.
  set (st := init_protocols_end _ _).
  change (fold_left _ _ _) with st.
  destruct (ea && negb (negb (ep_cfg_index =? null_index)));
    [reflexivity |].
  destruct (_ || _); [| reflexivity].
  destruct (negb (alloc_ok Alloc_priv_buf)).
  { exists h. split; [reflexivity | apply heap_grows_refl, Hwf]. }
  cbn [heap_alloc].
  pose proof (heap_alloc_grows h Hwf) as Hg. cbn [heap_alloc snd] in Hg.
  assert (Hfree : exists h'', ucs_free (Some (brk h))
                    {| live := {[brk h]} ∪ live h; brk := S (brk h) |}
                  = Ok h'' /\ heap_grows h h'' ∅).
  { destruct (heap_grows_free h _ _ (brk h) Hg Hwf ltac:(set_solver))
      as (h'' & Hf & Hg'').
    exists h''. split; [exact Hf |].
    replace (∅ : gset nat) with ({[brk h]} ∖ {[brk h]} : gset nat)
      by set_solver.
    exact Hg''. }
  destruct Hfree as (h'' & Hf & Hg'').
  destruct (ip_mask st =? 0).
  { rewrite Hf. simpl. eauto. }
  destruct (ip_offset st =? 0).
  { rewrite Hf. simpl. exists None, h''. auto. }
  destruct (alloc_ok Realloc_priv_buf).
  - unfold heap_realloc. rewrite Hf. cbn [bind heap_alloc].
    exists (Some (brk h'')), (snd (heap_alloc h'')). split; [reflexivity |].
    pose proof (heap_grows_alloc h h'' ∅ Hg'') as Hg2.
    replace ({[brk h'']} : gset nat) with ({[brk h'']} ∪ ∅ : gset nat)
      by set_solver.
    exact Hg2.
  - rewrite Hf. simpl. eauto.
Qed.

(** [ucp_proto_select_elem_init_thresh] with the heap. *)
Lemma elem_init_thresh_mem_spec
    (proto_init_v : ucp_proto_select_init_protocols_t)
    (priv_ptr : option nat) (h : heap) :
  match ucp_proto_select_elem_init_thresh ea alloc_ok proto_init_v with
  | Ok select_elem =>
      ucp_proto_select_elem_init_thresh_mem ea alloc_ok proto_init_v priv_ptr h
      = Ok (Done (select_elem,
                  {| thresholds_ptr := brk h; priv_buf_ptr := priv_ptr |}),
            snd (heap_alloc h))
  | Err status =>
      ucp_proto_select_elem_init_thresh_mem ea alloc_ok proto_init_v priv_ptr h
      = Ok (Failed status, h)
  | Fatal a =>
      ucp_proto_select_elem_init_thresh_mem ea alloc_ok proto_init_v priv_ptr h
      = Fatal a
  | Undefined =>
      ucp_proto_select_elem_init_thresh_mem ea alloc_ok proto_init_v priv_ptr h
      = Undefined
  | NoFuel =>
      ucp_proto_select_elem_init_thresh_mem ea alloc_ok proto_init_v priv_ptr h
      = NoFuel
  end.
Proof.
  unfold ucp_proto_select_elem_init_thresh,
    ucp_proto_select_elem_init_thresh_mem, ucs_assert_always.
  destruct (init_thresh_loop _ _ _ _ _ _) as [tl | | | |]; simpl;
    try reflexivity.
  destruct (negb _); [| reflexivity].
  destruct (alloc_ok Alloc_thresholds); reflexivity.
Qed.

(** [ucp_proto_select_elem_init] with the heap returns what the function
    returns.  When it fails, all that it allocated is freed again; when it
    succeeds, what it leaves allocated is the thresholds and the
    [priv_buf] of the element, two new blocks.  It frees nothing that is
    not allocated. *)
Lemma elem_init_mem_spec (h : heap) :
  heap_wf h ->
  match ucp_proto_select_elem_init ea alloc_ok ucp_protocols null_index
          worker ep_cfg_index rkey_cfg_index param with
  | Ok select_elem =>
      exists (p : elem_ptrs) (h' : heap),
        ucp_proto_select_elem_init_mem ea alloc_ok ucp_protocols null_index
          worker ep_cfg_index rkey_cfg_index param h
        = Ok (Done (select_elem, p), h') /\
        heap_grows h h' (elem_blocks p) /\
        priv_buf_ptr p <> Some (thresholds_ptr p)
  | Err status =>
      exists h' : heap,
        ucp_proto_select_elem_init_mem ea alloc_ok ucp_protocols null_index
          worker ep_cfg_index rkey_cfg_index param h
        = Ok (Failed status, h') /\
        heap_grows h h' ∅
  | Fatal a =>
      ucp_proto_select_elem_init_mem ea alloc_ok ucp_protocols null_index
        worker ep_cfg_index rkey_cfg_index param h = Fatal a
  | Undefined =>
      ucp_proto_select_elem_init_mem ea alloc_ok ucp_protocols null_index
        worker ep_cfg_index rkey_cfg_index param h = Undefined
  | NoFuel =>
      ucp_proto_select_elem_init_mem ea alloc_ok ucp_protocols null_index
        worker ep_cfg_index rkey_cfg_index param h = NoFuel
  end.
Proof.
  intros Hwf.
  unfold ucp_proto_select_elem_init, ucp_proto_select_elem_init_mem.
  destruct (negb (alloc_ok Alloc_proto_init)).
  { exists h. split; [reflexivity | apply heap_grows_refl, Hwf]. }
  cbn [heap_alloc].
  pose proof (heap_alloc_grows h Hwf) as Hg0. cbn [heap_alloc snd] in Hg0.
  set (h0 := {| live := {[brk h]} ∪ live h; brk := S (brk h) |}) in *.
  assert (Hwf0 : heap_wf h0) by apply Hg0.
  pose proof (init_protocols_mem_spec h0 Hwf0) as Hinit.
  pose proof (heap_grows_free_first h Hwf) as Hpi. fold h0 in Hpi.
  destruct (ucp_proto_select_init_protocols ea alloc_ok ucp_protocols
              null_index worker ep_cfg_index rkey_cfg_index param)
    as [v | status | a | |]; cbn [bind].
  - destruct Hinit as (priv_ptr & h1 & -> & Hg1). cbn [bind].
    pose proof (elem_init_thresh_mem_spec v priv_ptr h1) as Hthresh.
    destruct (ucp_proto_select_elem_init_thresh ea alloc_ok v)
      as [select_elem | status | a | |]; rewrite Hthresh; cbn [bind];
      try reflexivity.
    + pose proof (heap_grows_alloc h0 h1 _ Hg1) as Hg2.
      destruct (Hpi _ _ Hg2) as (h3 & -> & Hg3). cbn [bind].
      eexists _, h3. split; [reflexivity |]. split.
      * unfold elem_blocks. simpl. exact Hg3.
      * simpl. destruct priv_ptr as [b |]; [| discriminate].
        intros Heq. injection Heq as ->.
        destruct Hg1 as (Hwf1 & _ & Hlive1 & _).
        assert (Hb : brk h1 ∈ live h1) by (rewrite Hlive1; set_solver).
        specialize (Hwf1 _ Hb). lia.
    + assert (Hfp : exists h2, ucs_free priv_ptr h1 = Ok h2 /\
                               heap_grows h0 h2 ∅).
      { destruct priv_ptr as [b |]; [| exists h1; auto].
        destruct (heap_grows_free h0 h1 _ b Hg1 Hwf0 ltac:(set_solver))
          as (h2 & Hf & Hg2).
        exists h2. split; [exact Hf |].
        replace (∅ : gset nat) with ({[b]} ∖ {[b]} : gset nat) by set_solver.
        exact Hg2. }
      destruct Hfp as (h2 & -> & Hg2). cbn [bind].
      destruct (Hpi _ _ Hg2) as (h3 & -> & Hg3). cbn [bind]. eauto.
  - destruct Hinit as (h1 & -> & Hg1). cbn [bind].
    destruct (Hpi _ _ Hg1) as (h2 & -> & Hg2). cbn [bind]. eauto.
  - rewrite Hinit. reflexivity.
  - rewrite Hinit. reflexivity.
  - rewrite Hinit. reflexivity.
Qed.

End AllocationsSpec.

(** X15: [ucp_proto_select_elem_init], followed with its allocations, returns
    what the function returns.  When it fails, the heap holds the same
    blocks as before: all that was allocated on the way is freed.  When it
    succeeds, the blocks that it leaves allocated are the thresholds and
    the [priv_buf] of the element, new and different from each other.  It
    frees no block that is not allocated, unless the function itself is
    undefined. *)
Theorem elem_init_no_leak (enable_assert : bool)
    (alloc_ok : allocation -> bool) (ucp_protocols : list ucp_proto_t)
    (null_index : Z) (worker : ucp_worker_t)
    (ep_cfg_index rkey_cfg_index : Z) (param : ucp_proto_select_param_t)
    (h : heap) :
  heap_wf h ->
  (forall r h',
     ucp_proto_select_elem_init_mem enable_assert alloc_ok ucp_protocols
       null_index worker ep_cfg_index rkey_cfg_index param h = Ok (r, h') ->
     match r with
     | Failed status =>
         ucp_proto_select_elem_init enable_assert alloc_ok ucp_protocols
           null_index worker ep_cfg_index rkey_cfg_index param = Err status /\
         live h' = live h
     | Done (select_elem, p) =>
         ucp_proto_select_elem_init enable_assert alloc_ok ucp_protocols
           null_index worker ep_cfg_index rkey_cfg_index param
         = Ok select_elem /\
         live h' = elem_blocks p ∪ live h /\
         elem_blocks p ## live h /\
         priv_buf_ptr p <> Some (thresholds_ptr p)
     end) /\
  (ucp_proto_select_elem_init_mem enable_assert alloc_ok ucp_protocols
     null_index worker ep_cfg_index rkey_cfg_index param h = Undefined ->
   ucp_proto_select_elem_init enable_assert alloc_ok ucp_protocols
     null_index worker ep_cfg_index rkey_cfg_index param = Undefined).
Proof.
  intros Hwf.
  pose proof (elem_init_mem_spec enable_assert alloc_ok ucp_protocols
                null_index worker ep_cfg_index rkey_cfg_index param h Hwf)
    as Hspec.
  destruct (ucp_proto_select_elem_init enable_assert alloc_ok ucp_protocols
              null_index worker ep_cfg_index rkey_cfg_index param)
    as [select_elem | status | a | |].
  - destruct Hspec as (p & h1 & -> & (Hwf1 & Hbrk & Hlive & Hnew) & Hne).
    split; [| discriminate]. intros r h' H. injection H as <- <-.
    split; [reflexivity |]. split; [exact Hlive |]. split; [| exact Hne].
    intros b Hb Hb'. specialize (Hnew b Hb). specialize (Hwf b Hb'). lia.
  - destruct Hspec as (h1 & -> & (Hwf1 & Hbrk & Hlive & Hnew)).
    split; [| discriminate]. intros r h' H. injection H as <- <-.
    split; [reflexivity |]. rewrite Hlive. set_solver.
  - rewrite Hspec. split; [discriminate | discriminate].
  - rewrite Hspec. split; [discriminate | reflexivity].
  - rewrite Hspec. split; [discriminate | discriminate].
Qed.

(** A heap on which nothing is allocated. *)
Definition heap_empty : heap := {| live := ∅; brk := 0 |}.

Lemma heap_empty_wf : heap_wf heap_empty.
Proof. intros b Hb. apply elem_of_empty in Hb. destruct Hb. Qed.

Lemma elem_init_no_leak_witness :
  exists h',
    ucp_proto_select_elem_init_mem true all_alloc_ok [] 255 worker_two 0 255
      7 heap_empty = Ok (Failed UCS_ERR_NO_ELEM, h') /\
    live h' = live heap_empty.
Proof.
  eexists. split; [vm_compute; reflexivity |].
  apply (proj1 (elem_init_no_leak true all_alloc_ok [] 255 worker_two 0 255 7
                  heap_empty heap_empty_wf) (Failed UCS_ERR_NO_ELEM)).
  vm_compute. reflexivity.
Defined.

(** ** A selection context over its lifetime *)

(** What a slow lookup with the heap that returns has done. *)
Lemma lookup_slow_mem_Ok (ea : bool) (alloc_ok : allocation -> bool)
    (ucp_protocols : list ucp_proto_t) (null_index : Z)
    (worker : ucp_worker_t) (ep_cfg_index rkey_cfg_index param : Z)
    (s s' : session) (o : kh_put_oracle) (ret : option Z) :
  heap_wf (mem s) ->
  ucp_proto_select_lookup_slow_mem ea alloc_ok ucp_protocols null_index worker
    s ep_cfg_index rkey_cfg_index param o = Ok (ret, s') ->
  hash (ctx s) !! param = None /\
  ((exists select_elem p,
      ret = Some param /\
      hash (ctx s') = <[param := Slot_elem select_elem]> (hash (ctx s)) /\
      ptrs s' = <[param := p]> (ptrs s) /\
      heap_grows (mem s) (mem s') (elem_blocks p) /\
      priv_buf_ptr p <> Some (thresholds_ptr p)) \/
   (ret = None /\ hash (ctx s') = hash (ctx s) /\
    ptrs s' = delete param (ptrs s) /\
    heap_grows (mem s) (mem s') ∅)).
Proof.
  intros Hwf H.
  unfold ucp_proto_select_lookup_slow_mem, kh_put in H. cbv zeta in H.
  destruct (kh_resize_ok o); [| discriminate].
  destruct (hash (ctx s) !! param) as [sl |] eqn:Hfresh; [discriminate |].
  split; [reflexivity |].
  assert (Hk : khret_is_fresh
                 (if kh_bucket_deleted o then UCS_KH_PUT_BUCKET_CLEAR
                  else UCS_KH_PUT_BUCKET_EMPTY) = true)
    by (destruct (kh_bucket_deleted o); reflexivity).
  cbn [negb] in H. unfold ucs_assert_always in H. rewrite Hk in H.
  pose proof (elem_init_mem_spec ea alloc_ok ucp_protocols null_index worker
                ep_cfg_index rkey_cfg_index param (mem s) Hwf) as Hspec.
  destruct (ucp_proto_select_elem_init ea alloc_ok ucp_protocols null_index
              worker ep_cfg_index rkey_cfg_index param)
    as [select_elem | status | a | |].
  - destruct Hspec as (p & h1 & Hm & Hg & Hne). rewrite Hm in H.
    cbn [bind] in H. injection H as <- <-. left.
    exists select_elem, p. cbn [ctx ptrs mem hash].
    split; [reflexivity |]. split; [apply insert_insert_eq |]. auto.
  - destruct Hspec as (h1 & Hm & Hg). rewrite Hm in H.
    cbn [bind] in H. injection H as <- <-. right. cbn [ctx ptrs mem hash].
    split; [reflexivity |]. split; [| auto].
    unfold kh_del. apply delete_insert_id, Hfresh.
  - rewrite Hspec in H. discriminate.
  - rewrite Hspec in H. discriminate.
  - rewrite Hspec in H. discriminate.
Qed.

(** The contexts that a program reaches from [ucp_proto_select_init] by
    slow lookups that return, started on the heap [base]. *)
Inductive reachable (base : heap) : session -> Prop :=
| reach_init : reachable base (snd (ucp_proto_select_init_mem base))
| reach_lookup (s s' : session) (ea : bool) (alloc_ok : allocation -> bool)
    (ucp_protocols : list ucp_proto_t) (null_index : Z)
    (worker : ucp_worker_t) (ep_cfg_index rkey_cfg_index param : Z)
    (o : kh_put_oracle) (ret : option Z) :
    reachable base s ->
    ucp_proto_select_lookup_slow_mem ea alloc_ok ucp_protocols null_index
      worker s ep_cfg_index rkey_cfg_index param o = Ok (ret, s') ->
    reachable base s'.

(** The elements of the hash own their blocks: every element has its own,
    allocated above the blocks of [base], and nothing else is allocated. *)
Record session_inv (base : heap) (s : session) : Prop := {
  inv_wf : heap_wf (mem s);
  inv_brk : (brk base <= brk (mem s))%nat;
  inv_dom : forall k, ptrs s !! k = None <-> hash (ctx s) !! k = None;
  inv_slot : forall k, hash (ctx s) !! k <> Some Slot_uninit;
  inv_own : forall k p, ptrs s !! k = Some p ->
              priv_buf_ptr p <> Some (thresholds_ptr p) /\
              forall b, b ∈ elem_blocks p ->
                        b ∈ live (mem s) /\ (brk base <= b)%nat;
  inv_sep : forall k1 k2 p1 p2, k1 <> k2 ->
              ptrs s !! k1 = Some p1 -> ptrs s !! k2 = Some p2 ->
              elem_blocks p1 ## elem_blocks p2;
  inv_live : forall b, b ∈ live (mem s) ->
               b ∈ live base \/
               exists k p, ptrs s !! k = Some p /\ b ∈ elem_blocks p;
  inv_base : forall b, b ∈ live base -> b ∈ live (mem s)
}.

Lemma reachable_inv (base : heap) (s : session) :
  heap_wf base -> reachable base s -> session_inv base s.
Proof.
  intros Hbase Hr. induction Hr as [| s s' ea alloc_ok ucp_protocols
    null_index worker ep_cfg_index rkey_cfg_index param o ret Hr IH Hcall].
  - split; cbn [ucp_proto_select_init_mem snd ctx ptrs mem].
    + exact Hbase.
    + lia.
    + intros k. simpl. rewrite !lookup_empty. tauto.
    + intros k. simpl. rewrite lookup_empty. discriminate.
    + intros k p Hk. rewrite lookup_empty in Hk. discriminate.
    + intros k1 k2 p1 p2 _ Hk. rewrite lookup_empty in Hk. discriminate.
    + intros b Hb. now left.
    + intros b Hb. exact Hb.
  - destruct IH as [Iwf Ibrk Idom Islot Iown Isep Ilive Ibase].
    apply lookup_slow_mem_Ok in Hcall as (Hfresh & Hcase); [| exact Iwf].
    assert (Hpfresh : ptrs s !! param = None) by (apply Idom, Hfresh).
    destruct Hcase as [(e & p & _ & Hh & Hp & (Hwf' & Hbrk' & Hlive' & Hnew) & Hne)
                      | (_ & Hh & Hp & (Hwf' & Hbrk' & Hlive' & Hnew))].
    + split.
      * exact Hwf'.
      * lia.
      * intros k. rewrite Hh, Hp.
        destruct (Z.eq_dec k param) as [-> | Hk].
        -- rewrite !lookup_insert_eq. split; discriminate.
        -- rewrite !lookup_insert_ne by congruence. apply Idom.
      * intros k. rewrite Hh. destruct (Z.eq_dec k param) as [-> | Hk].
        -- rewrite lookup_insert_eq. discriminate.
        -- rewrite lookup_insert_ne by congruence. apply Islot.
      * intros k q. rewrite Hp. destruct (Z.eq_dec k param) as [-> | Hk].
        -- rewrite lookup_insert_eq. intros Hq. injection Hq as <-.
           split; [exact Hne |]. intros b Hb. split.
           ++ rewrite Hlive'. set_solver.
           ++ specialize (Hnew b Hb). lia.
        -- rewrite lookup_insert_ne by congruence. intros Hq.
           destruct (Iown k q Hq) as [Hq1 Hq2]. split; [exact Hq1 |].
           intros b Hb. destruct (Hq2 b Hb). split; [| assumption].
           rewrite Hlive'. set_solver.
      * assert (Hdisj : forall k q, ptrs s !! k = Some q ->
                                    elem_blocks p ## elem_blocks q).
        { intros k q Hq b Hb Hb'. destruct (Iown k q Hq) as [_ Hq2].
          destruct (Hq2 b Hb') as [Hlv _]. specialize (Iwf b Hlv).
          specialize (Hnew b Hb). lia. }
        intros k1 k2 p1 p2 Hk. rewrite Hp.
        destruct (Z.eq_dec k1 param) as [-> | Hk1];
          destruct (Z.eq_dec k2 param) as [-> | Hk2]; [congruence | | |].
        -- rewrite lookup_insert_eq, lookup_insert_ne by congruence.
           intros H1 H2. injection H1 as <-. eapply Hdisj, H2.
        -- rewrite lookup_insert_eq, lookup_insert_ne by congruence.
           intros H1 H2. injection H2 as <-. symmetry. eapply Hdisj, H1.
        -- rewrite !lookup_insert_ne by congruence. apply Isep, Hk.
      * intros b Hb. rewrite Hlive' in Hb.
        apply elem_of_union in Hb as [Hb | Hb].
        -- right. exists param, p. rewrite Hp, lookup_insert_eq. auto.
        -- destruct (Ilive b Hb) as [| (k & q & Hq & Hbq)]; [now left | right].
           exists k, q. rewrite Hp. split; [| exact Hbq].
           rewrite lookup_insert_ne; [exact Hq | congruence].
      * intros b Hb. rewrite Hlive'. apply Ibase in Hb. set_solver.
    + assert (Hp' : ptrs s' = ptrs s).
      { rewrite Hp. apply delete_id, Hpfresh. }
      assert (Hl : live (mem s') = live (mem s)) by (rewrite Hlive'; set_solver).
      split; rewrite ?Hh, ?Hp', ?Hl; try assumption. lia.
Qed.

Lemma elem_cleanup_spec (p : elem_ptrs) (h : heap) :
  priv_buf_ptr p <> Some (thresholds_ptr p) ->
  (forall b, b ∈ elem_blocks p -> b ∈ live h) ->
  exists h',
    ucp_proto_select_elem_cleanup p h = Ok h' /\
    live h' = live h ∖ elem_blocks p.
Proof.
  intros Hne Hlive. unfold ucp_proto_select_elem_cleanup, elem_blocks in *.
  rewrite ucs_free_live by (apply Hlive; set_solver). cbn [bind].
  destruct (priv_buf_ptr p) as [b |].
  - rewrite ucs_free_live.
    + eexists. split; [reflexivity |]. simpl. set_solver.
    + simpl. apply elem_of_difference. split; [apply Hlive; set_solver |].
      intros Hb. apply elem_of_singleton in Hb. congruence.
  - eexists. split; [reflexivity |]. simpl. set_solver.
Qed.

Lemma cleanup_keys (s : session) :
  (forall k p, ptrs s !! k = Some p ->
               priv_buf_ptr p <> Some (thresholds_ptr p)) ->
  (forall k1 k2 p1 p2, k1 <> k2 ->
     ptrs s !! k1 = Some p1 -> ptrs s !! k2 = Some p2 ->
     elem_blocks p1 ## elem_blocks p2) ->
  forall (order : list Z) (h : heap),
    List.NoDup order ->
    (forall k p b, In k order -> ptrs s !! k = Some p ->
                   b ∈ elem_blocks p -> b ∈ live h) ->
    exists h',
      fold_left (fun acc key =>
                   let* h := acc in
                   match ptrs s !! key with
                   | Some select_elem =>
                       ucp_proto_select_elem_cleanup select_elem h
                   | None => Ok h
                   end) order (Ok h) = Ok h' /\
      forall b, b ∈ live h' <->
                b ∈ live h /\
                ~ exists k p, In k order /\ ptrs s !! k = Some p /\
                              b ∈ elem_blocks p.
Proof.
  intros Hne Hsep order. induction order as [| k order IH]; intros h Hnd Hlive.
  - exists h. split; [reflexivity |]. intros b. split; [| tauto].
    intros Hb. split; [exact Hb |]. intros (k & p & [] & _).
  - inversion Hnd as [| ? ? Hk Hnd']; subst. cbn [fold_left bind].
    destruct (ptrs s !! k) as [p |] eqn:Hp.
    + destruct (elem_cleanup_spec p h (Hne k p Hp)) as (h1 & Hc & Hl1).
      { intros b Hb. apply (Hlive k p b); [now left | exact Hp | exact Hb]. }
      rewrite Hc.
      destruct (IH h1 Hnd') as (h' & Hfold & Hl').
      { intros k' p' b Hk' Hp' Hb. rewrite Hl1. apply elem_of_difference.
        split; [apply (Hlive k' p' b); [now right | exact Hp' | exact Hb] |].
        intros Hb'.
        assert (Hkk : k <> k') by (intros ->; contradiction).
        exact (Hsep k k' p p' Hkk Hp Hp' b Hb' Hb). }
      exists h'. split; [exact Hfold |]. intros b. rewrite Hl', Hl1.
      rewrite elem_of_difference. split.
      * intros [[Hb Hnb] Hno]. split; [exact Hb |].
        intros (k' & p' & [<- | Hk'] & Hp' & Hb').
        -- rewrite Hp in Hp'. injection Hp' as <-. contradiction.
        -- apply Hno. eauto.
      * intros [Hb Hno]. split; [split; [exact Hb |] |].
        -- intros Hb'. apply Hno. exists k, p. split; [now left | auto].
        -- intros (k' & p' & Hk' & Hp' & Hb'). apply Hno.
           exists k', p'. split; [now right | auto].
    + destruct (IH h Hnd') as (h' & Hfold & Hl').
      { intros k' p' b Hk'. apply Hlive. now right. }
      exists h'. split; [exact Hfold |]. intros b. rewrite Hl'. split.
      * intros [Hb Hno]. split; [exact Hb |].
        intros (k' & p' & [<- | Hk'] & Hp' & Hb'); [congruence |].
        apply Hno. eauto.
      * intros [Hb Hno]. split; [exact Hb |].
        intros (k' & p' & Hk' & Hp' & Hb'). apply Hno.
        exists k', p'. split; [now right | auto].
Qed.

(** X16: a context that was set up by [ucp_proto_select_init] and filled by slow
    lookups, of which any may have failed, is torn down completely by
    [ucp_proto_select_cleanup]: whatever the order in which the buckets are
    visited, every block of every element is freed once, none twice, and
    the heap holds the blocks that it held before the context was set
    up. *)
Theorem cleanup_releases_all (base : heap) (s : session) (order : list Z) :
  heap_wf base -> reachable base s ->
  List.NoDup order ->
  (forall k, In k order <-> is_Some (hash (ctx s) !! k)) ->
  exists h',
    ucp_proto_select_cleanup s order = Ok h' /\ live h' = live base.
Proof.
  intros Hbase Hr Hnd Hkeys.
  destruct (reachable_inv base s Hbase Hr)
    as [Iwf Ibrk Idom Islot Iown Isep Ilive Ibase].
  destruct (cleanup_keys s (fun k p Hp => proj1 (Iown k p Hp)) Isep order
              (mem s) Hnd) as (h' & Hfold & Hl').
  { intros k p b _ Hp Hb. apply (Iown k p Hp), Hb. }
  exists h'. split; [exact Hfold |].
  apply set_eq. intros b. rewrite Hl'. split.
  - intros [Hb Hno]. destruct (Ilive b Hb) as [| (k & p & Hp & Hbp)];
      [assumption |].
    exfalso. apply Hno. exists k, p. split; [| auto].
    apply Hkeys. destruct (hash (ctx s) !! k) eqn:Hh; [eauto |].
    apply Idom in Hh. congruence.
  - intros Hb. split; [apply Ibase, Hb |].
    intros (k & p & _ & Hp & Hbp).
    destruct (Iown k p Hp) as [_ Hown]. destruct (Hown b Hbp) as [_ Hge].
    specialize (Hbase b Hb). lia.
Qed.

(** The context after the lookup of the parameters 7, with its heap. *)
Definition session_seven : session :=
  match ucp_proto_select_lookup_slow_mem true all_alloc_ok protocols_two 255
          worker_two (snd (ucp_proto_select_init_mem heap_empty)) 0 255 7
          put_ok with
  | Ok (_, s) => s
  | _ => snd (ucp_proto_select_init_mem heap_empty)
  end.

Example lookup_slow_mem_seven :
  ucp_proto_select_lookup_slow_mem true all_alloc_ok protocols_two 255
    worker_two (snd (ucp_proto_select_init_mem heap_empty)) 0 255 7 put_ok
  = Ok (Some 7, session_seven).
Proof. vm_compute. reflexivity. Qed.

Lemma session_seven_keys (k : Z) :
  In k [7] <-> is_Some (hash (ctx session_seven) !! k).
Proof.
  destruct (lookup_slow_mem_Ok true all_alloc_ok protocols_two 255 worker_two
              0 255 7 (snd (ucp_proto_select_init_mem heap_empty))
              session_seven put_ok (Some 7) heap_empty_wf
              lookup_slow_mem_seven)
    as (_ & [(e & p & _ & Hh & _) | (Hret & _)]); [| discriminate].
  rewrite Hh. simpl. destruct (Z.eq_dec k 7) as [-> | Hk].
  - rewrite lookup_insert_eq. split; [eauto | now left].
  - rewrite lookup_insert_ne, lookup_empty by congruence. split.
    + intros [Heq | []]. congruence.
    + intros [x Hx]. discriminate.
Qed.

Lemma cleanup_releases_all_witness :
  exists h',
    ucp_proto_select_cleanup session_seven [7] = Ok h' /\
    live h' = live heap_empty.
Proof.
  apply (cleanup_releases_all heap_empty session_seven [7] heap_empty_wf).
  - eapply reach_lookup; [apply reach_init | exact lookup_slow_mem_seven].
  - repeat constructor. intros [].
  - exact session_seven_keys.
Defined.

(** The slow lookup with the heap acts on the context as the slow lookup
    does. *)
Lemma lookup_slow_mem_ctx (ea : bool) (alloc_ok : allocation -> bool)
    (ucp_protocols : list ucp_proto_t) (null_index : Z)
    (worker : ucp_worker_t) (ep_cfg_index rkey_cfg_index param : Z)
    (s : session) (o : kh_put_oracle) :
  heap_wf (mem s) ->
  match ucp_proto_select_lookup_slow ea alloc_ok ucp_protocols null_index
          worker (ctx s) ep_cfg_index rkey_cfg_index param o with
  | Ok (ret, proto_select') =>
      exists s',
        ucp_proto_select_lookup_slow_mem ea alloc_ok ucp_protocols null_index
          worker s ep_cfg_index rkey_cfg_index param o = Ok (ret, s') /\
        ctx s' = proto_select'
  | Err status => False
  | Fatal a =>
      ucp_proto_select_lookup_slow_mem ea alloc_ok ucp_protocols null_index
        worker s ep_cfg_index rkey_cfg_index param o = Fatal a
  | Undefined =>
      ucp_proto_select_lookup_slow_mem ea alloc_ok ucp_protocols null_index
        worker s ep_cfg_index rkey_cfg_index param o = Undefined
  | NoFuel =>
      ucp_proto_select_lookup_slow_mem ea alloc_ok ucp_protocols null_index
        worker s ep_cfg_index rkey_cfg_index param o = NoFuel
  end.
Proof.
  intros Hwf.
  unfold ucp_proto_select_lookup_slow, ucp_proto_select_lookup_slow_mem, kh_put.
  cbv zeta.
  destruct (kh_resize_ok o); [| reflexivity].
  destruct (hash (ctx s) !! param) as [sl |]; [reflexivity |].
  cbn [negb]. unfold ucs_assert_always.
  replace (khret_is_fresh
             (if kh_bucket_deleted o then UCS_KH_PUT_BUCKET_CLEAR
              else UCS_KH_PUT_BUCKET_EMPTY)) with true
    by (destruct (kh_bucket_deleted o); reflexivity).
  pose proof (elem_init_mem_spec ea alloc_ok ucp_protocols null_index worker
                ep_cfg_index rkey_cfg_index param (mem s) Hwf) as Hspec.
  destruct (ucp_proto_select_elem_init ea alloc_ok ucp_protocols null_index
              worker ep_cfg_index rkey_cfg_index param)
    as [select_elem | status | a | |].
  - destruct Hspec as (p & h1 & -> & _). cbn [bind]. eauto.
  - destruct Hspec as (h1 & -> & _). cbn [bind]. eauto.
  - rewrite Hspec. reflexivity.
  - rewrite Hspec. reflexivity.
  - rewrite Hspec. reflexivity.
Qed.

(** ** The dump of the candidates *)

(** A line that [ucp_proto_select_dump_all] writes to the stream, by the
    values it formats: the two messages, the column titles, the closing
    line, and the line of a performance range, on which the name of the
    protocol, its configured threshold and its configuration (of the
    private area at [config]) are shown for the first range only. *)
Inductive all_line : Set :=
| All_no_memory
| All_status (status : ucs_status_t)
| All_titles
| All_range (name : option Z) (range_start range_end : Z)
    (perf : ucs_linear_func_t) (thresh : option Z) (config : option Z)
| All_end.

(** The loop over the ranges of one protocol; [first] is [i == 0]. *)
Fixpoint dump_all_ranges (first : bool) (proto_id cfg_thresh priv : Z)
    (range_start : Z) (ranges : list ucp_proto_perf_range_t)
  : list all_line :=
  match ranges with
  | [] => []
  | r :: ranges' =>
      let range_end := range_max_length r in
      All_range (if first then Some proto_id else None) range_start range_end
        (range_perf r) (if first then Some cfg_thresh else None)
        (if first then Some priv else None)
      :: dump_all_ranges false proto_id cfg_thresh priv
           (wrap64 (range_end + 1)) ranges'
  end.

(** [ucp_proto_select_dump_all] with the heap: the lines written and the
    heap at the return.  The string buffer of [config_str] belongs to the
    string library and is left out. *)
Definition ucp_proto_select_dump_all (enable_assert : bool)
    (alloc_ok : allocation -> bool) (ucp_protocols : list ucp_proto_t)
    (UCP_WORKER_CFG_INDEX_NULL : Z) (worker : ucp_worker_t)
    (ep_cfg_index rkey_cfg_index : Z)
    (select_param : ucp_proto_select_param_t) (h : heap)
  : outcome (list all_line * heap) :=
  (* Allocate on heap, since the structure is quite large *)
  if negb (alloc_ok Alloc_proto_init) then Ok ([All_no_memory], h)
  else
    let '(proto_init_p, h) := heap_alloc h in
    let* r := ucp_proto_select_init_protocols_mem enable_assert alloc_ok
                ucp_protocols UCP_WORKER_CFG_INDEX_NULL worker ep_cfg_index
                rkey_cfg_index select_param h in
    match r with
    | (Failed status, h) =>
        (* out_free *)
        let* h := ucs_free (Some proto_init_p) h in
        Ok ([All_status status], h)
    | (Done (proto_init, priv_ptr), h) =>
        let lines :=
          flat_map (fun proto_id =>
                      let caps := caps proto_init proto_id in
                      dump_all_ranges true proto_id (cfg_thresh caps)
                        (priv_offsets proto_init proto_id) (min_length caps)
                        (ranges caps))
                   (ucs_for_each_bit (mask proto_init)) in
        let* h := ucs_free priv_ptr h in
        let* h := ucs_free (Some proto_init_p) h in
        Ok (All_titles :: lines ++ [All_end], h)
    end.

Lemma init_protocols_returns_or_aborts (ea : bool)
    (alloc_ok : allocation -> bool) (ucp_protocols : list ucp_proto_t)
    (null_index : Z) (worker : ucp_worker_t)
    (ep_cfg_index rkey_cfg_index : Z) (param : ucp_proto_select_param_t) :
  ucp_proto_select_init_protocols ea alloc_ok ucp_protocols null_index worker
    ep_cfg_index rkey_cfg_index param <> Undefined /\
  ucp_proto_select_init_protocols ea alloc_ok ucp_protocols null_index worker
    ep_cfg_index rkey_cfg_index param <> NoFuel.
Proof.
  unfold ucp_proto_select_init_protocols, ucs_assert, ucs_assert_always.
  destruct (ea && _); [split; discriminate |].
  destruct (_ || _); [| split; discriminate].
  destruct (negb _); [split; discriminate |].
  destruct (_ =? 0); [split; discriminate |].
  destruct (_ =? 0); [split; discriminate |].
  destruct (alloc_ok Realloc_priv_buf); split; discriminate.
Qed.

(** X17: [ucp_proto_select_dump_all] returns, or stops at an assertion of
    [ucp_proto_select_init_protocols]; when it returns, the heap holds the
    blocks that it held at the call: the scratch structure and the buffer
    of the private areas are freed on every path, and nothing is freed that
    is not allocated. *)
Theorem dump_all_no_leak (enable_assert : bool)
    (alloc_ok : allocation -> bool) (ucp_protocols : list ucp_proto_t)
    (null_index : Z) (worker : ucp_worker_t)
    (ep_cfg_index rkey_cfg_index : Z) (param : ucp_proto_select_param_t)
    (h : heap) :
  heap_wf h ->
  (exists a,
     ucp_proto_select_dump_all enable_assert alloc_ok ucp_protocols null_index
       worker ep_cfg_index rkey_cfg_index param h = Fatal a /\
     ucp_proto_select_init_protocols enable_assert alloc_ok ucp_protocols
       null_index worker ep_cfg_index rkey_cfg_index param = Fatal a) \/
  (exists lines h',
     ucp_proto_select_dump_all enable_assert alloc_ok ucp_protocols null_index
       worker ep_cfg_index rkey_cfg_index param h = Ok (lines, h') /\
     live h' = live h).
Proof.
  intros Hwf. unfold ucp_proto_select_dump_all.
  destruct (negb (alloc_ok Alloc_proto_init)); [right; eauto |].
  cbn [heap_alloc].
  pose proof (heap_alloc_grows h Hwf) as Hg0. cbn [heap_alloc snd] in Hg0.
  pose proof (heap_grows_free_first h Hwf) as Hpi.
  cbn [heap_alloc snd] in Hpi.
  set (h0 := {| live := {[brk h]} ∪ live h; brk := S (brk h) |}) in *.
  assert (Hwf0 : heap_wf h0) by apply Hg0.
  pose proof (init_protocols_mem_spec enable_assert alloc_ok ucp_protocols
                null_index worker ep_cfg_index rkey_cfg_index param h0 Hwf0)
    as Hinit.
  destruct (init_protocols_returns_or_aborts enable_assert alloc_ok
              ucp_protocols null_index worker ep_cfg_index rkey_cfg_index
              param) as [Hu Hn].
  destruct (ucp_proto_select_init_protocols enable_assert alloc_ok
              ucp_protocols null_index worker ep_cfg_index rkey_cfg_index
              param) as [v | status | a | |]; [| | | contradiction ..].
  - right. destruct Hinit as (priv_ptr & h1 & -> & Hg1). cbn [bind].
    assert (Hfp : exists h2, ucs_free priv_ptr h1 = Ok h2 /\
                             heap_grows h0 h2 ∅).
    { destruct priv_ptr as [b |]; [| exists h1; auto].
      destruct (heap_grows_free h0 h1 _ b Hg1 Hwf0 ltac:(set_solver))
        as (h2 & Hf & Hg2).
      exists h2. split; [exact Hf |].
      replace (∅ : gset nat) with ({[b]} ∖ {[b]} : gset nat) by set_solver.
      exact Hg2. }
    destruct Hfp as (h2 & -> & Hg2). cbn [bind].
    destruct (Hpi _ _ Hg2) as (h3 & -> & (_ & _ & Hl & _)). cbn [bind].
    eexists _, h3. split; [reflexivity |]. rewrite Hl. set_solver.
  - right. destruct Hinit as (h1 & -> & Hg1). cbn [bind].
    destruct (Hpi _ _ Hg1) as (h2 & -> & (_ & _ & Hl & _)). cbn [bind].
    eexists _, h2. split; [reflexivity |]. rewrite Hl. set_solver.
  - left. exists a. rewrite Hinit. auto.
Qed.

Lemma dump_all_no_leak_witness :
  exists lines h',
    ucp_proto_select_dump_all true all_alloc_ok protocols_two 255 worker_two
      0 255 7 heap_empty = Ok (lines, h') /\
    live h' = live heap_empty.
Proof.
  destruct (dump_all_no_leak true all_alloc_ok protocols_two 255 worker_two
              0 255 7 heap_empty heap_empty_wf) as [(a & _ & Ha) | H].
  - exfalso. vm_compute in Ha. discriminate.
  - exact H.
Defined.

Lemma dump_all_ranges_named (first : bool) (proto_id cfg_thresh priv : Z)
    (rgs : list ucp_proto_perf_range_t) :
  forall (range_start : Z) (id rs re : Z) (perf : ucs_linear_func_t)
         (th cf : option Z),
    In (All_range (Some id) rs re perf th cf)
       (dump_all_ranges first proto_id cfg_thresh priv range_start rgs) ->
    first = true /\ id = proto_id /\ rgs <> [] /\ rs = range_start /\
    th = Some cfg_thresh /\ cf = Some priv.
Proof.
  revert first. induction rgs as [| r rgs IH]; intros first range_start id rs
    re perf th cf Hin; [destruct Hin |].
  cbn [dump_all_ranges] in Hin. destruct Hin as [Heq | Hin].
  - destruct first; [| discriminate]. injection Heq as <- <- <- <- <- <-.
    repeat split. discriminate.
  - apply IH in Hin as (Hf & _). discriminate.
Qed.

(** X18: after the titles [ucp_proto_select_dump_all] writes the lines of the
    performance ranges, then the closing line.  A protocol is named on a
    line exactly when it is in the mask of the protocols whose [init]
    succeeded and has at least one range: a protocol without ranges does
    not appear.  The line that names it starts at its [min_length] and
    shows its configured threshold and the configuration of its private
    area. *)
Theorem dump_all_names (enable_assert : bool)
    (alloc_ok : allocation -> bool) (ucp_protocols : list ucp_proto_t)
    (null_index : Z) (worker : ucp_worker_t)
    (ep_cfg_index rkey_cfg_index : Z) (param : ucp_proto_select_param_t)
    (h : heap) (v : ucp_proto_select_init_protocols_t) :
  heap_wf h -> alloc_ok Alloc_proto_init = true ->
  ucp_proto_select_init_protocols enable_assert alloc_ok ucp_protocols
    null_index worker ep_cfg_index rkey_cfg_index param = Ok v ->
  exists lines h',
    ucp_proto_select_dump_all enable_assert alloc_ok ucp_protocols null_index
      worker ep_cfg_index rkey_cfg_index param h
    = Ok (All_titles :: lines ++ [All_end], h') /\
    forall id,
      ((exists rs re perf th cf,
          In (All_range (Some id) rs re perf th cf) lines) <->
       In id (ucs_for_each_bit (mask v)) /\ ranges (caps v id) <> []) /\
      (forall rs re perf th cf,
         In (All_range (Some id) rs re perf th cf) lines ->
         rs = min_length (caps v id) /\
         th = Some (cfg_thresh (caps v id)) /\
         cf = Some (priv_offsets v id)).
Proof.
  intros Hwf Halloc Hv. unfold ucp_proto_select_dump_all.
  rewrite Halloc. cbn [negb heap_alloc].
  pose proof (heap_alloc_grows h Hwf) as Hg0. cbn [heap_alloc snd] in Hg0.
  pose proof (heap_grows_free_first h Hwf) as Hpi.
  cbn [heap_alloc snd] in Hpi.
  set (h0 := {| live := {[brk h]} ∪ live h; brk := S (brk h) |}) in *.
  assert (Hwf0 : heap_wf h0) by apply Hg0.
  pose proof (init_protocols_mem_spec enable_assert alloc_ok ucp_protocols
                null_index worker ep_cfg_index rkey_cfg_index param h0 Hwf0)
    as Hinit.
  rewrite Hv in Hinit. destruct Hinit as (priv_ptr & h1 & -> & Hg1).
  cbn [bind].
  assert (Hfp : exists h2, ucs_free priv_ptr h1 = Ok h2 /\
                           heap_grows h0 h2 ∅).
  { destruct priv_ptr as [b |]; [| exists h1; auto].
    destruct (heap_grows_free h0 h1 _ b Hg1 Hwf0 ltac:(set_solver))
      as (h2 & Hf & Hg2).
    exists h2. split; [exact Hf |].
    replace (∅ : gset nat) with ({[b]} ∖ {[b]} : gset nat) by set_solver.
    exact Hg2. }
  destruct Hfp as (h2 & -> & Hg2). cbn [bind].
  destruct (Hpi _ _ Hg2) as (h3 & -> & _). cbn [bind].
  eexists _, h3. split; [reflexivity |].
  intros id. split; [split |].
  - intros (rs & re & perf & th & cf & Hin).
    apply in_flat_map in Hin as (id' & Hid' & Hin).
    apply dump_all_ranges_named in Hin as (_ & -> & Hne & _). auto.
  - intros (Hid & Hne).
    destruct (ranges (caps v id)) as [| r rgs] eqn:Hr; [contradiction |].
    exists (min_length (caps v id)), (range_max_length r), (range_perf r),
      (Some (cfg_thresh (caps v id))), (Some (priv_offsets v id)).
    apply in_flat_map. exists id. split; [exact Hid |].
    cbv zeta. rewrite Hr. now left.
  - intros rs re perf th cf Hin.
    apply in_flat_map in Hin as (id' & Hid' & Hin).
    apply dump_all_ranges_named in Hin as (_ & -> & _ & -> & -> & ->). auto.
Qed.

Lemma dump_all_names_witness :
  exists lines h',
    ucp_proto_select_dump_all true all_alloc_ok protocols_two 255 worker_two
      0 255 7 heap_empty = Ok (All_titles :: lines ++ [All_end], h') /\
    exists rs re perf th cf, In (All_range (Some 1) rs re perf th cf) lines.
Proof.
  eassert (Hv : ucp_proto_select_init_protocols true all_alloc_ok
                  protocols_two 255 worker_two 0 255 7 = Ok _)
    by (vm_compute; reflexivity).
  destruct (dump_all_names true all_alloc_ok protocols_two 255 worker_two
              0 255 7 heap_empty _ heap_empty_wf eq_refl Hv)
    as (lines & h' & Hdump & Hnames).
  exists lines, h'. split; [exact Hdump |].
  apply (Hnames 1). split.
  - vm_compute. auto.
  - vm_compute. discriminate.
Defined.

(** * Builds with and without assertions *)

(** The build without [ucs_assert] does what the build with it does,
    wherever that one does not stop at an assertion. *)
Definition agrees {A : Type} (debug release : outcome A) : Prop :=
  match debug with
  | Fatal _ => True
  | _ => release = debug
  end.

Lemma agrees_refl {A : Type} (o : outcome A) : agrees o o.
Proof. destruct o; reflexivity. Qed.

Lemma ucs_assert_agrees {A : Type} (cond : bool) (a : assertion)
    (kd kr : outcome A) :
  agrees kd kr -> agrees (ucs_assert true cond a kd) (ucs_assert false cond a kr).
Proof. unfold ucs_assert. destruct cond; simpl; auto. Qed.

Lemma bind_agrees {A B : Type} (d r : outcome A) (kd kr : A -> outcome B) :
  agrees d r -> (forall x, agrees (kd x) (kr x)) ->
  agrees (bind d kd) (bind r kr).
Proof.
  intros Hdr Hk. destruct d as [x | s | a | |]; simpl in *; subst; simpl;
    auto.
Qed.

Lemma find_best_agrees (ids : list Z) (perf : Z -> ucs_linear_func_t)
    (x : float) :
  forall best, agrees (find_best true ids perf x best)
                      (find_best false ids perf x best).
Proof.
  induction ids as [| curr ids IH]; intros best; cbn [find_best].
  - reflexivity.
  - apply ucs_assert_agrees, IH.
Qed.

Lemma thresholds_append_agrees (tl : list ucp_proto_threshold_tmp_elem_t)
    (max_length proto_id : Z) :
  agrees (ucp_proto_thresholds_append true tl max_length proto_id)
         (ucp_proto_thresholds_append false tl max_length proto_id).
Proof.
  unfold ucp_proto_thresholds_append. destruct (last tl) as [e |].
  - apply ucs_assert_agrees, agrees_refl.
  - apply agrees_refl.
Qed.

Lemma select_best_loop_agrees (n : nat) :
  forall (proto_mask : Z) (perf : Z -> ucs_linear_func_t)
         (tl : list ucp_proto_threshold_tmp_elem_t) (start end_ : Z),
    agrees (select_best_loop true n proto_mask perf tl start end_)
           (select_best_loop false n proto_mask perf tl start end_).
Proof.
  induction n as [| n IH]; intros proto_mask perf tl start end_;
    [reflexivity |].
  rewrite !select_best_loop_S.
  apply ucs_assert_agrees, bind_agrees; [apply find_best_agrees |].
  intros best. destruct (best_proto_id best) as [b |].
  - cbv zeta. apply bind_agrees; [apply thresholds_append_agrees |].
    intros tl1. destruct (_ <? _); [apply IH | reflexivity].
  - exact I.
Qed.

Lemma init_thresh_loop_agrees (proto_mask : Z)
    (proto_caps : Z -> ucp_proto_caps_t) (n : nat) :
  forall (tl : list ucp_proto_threshold_tmp_elem_t) (L : Z),
    agrees (init_thresh_loop true n proto_mask proto_caps tl L)
           (init_thresh_loop false n proto_mask proto_caps tl L).
Proof.
  induction n as [| n IH]; intros tl L; [reflexivity |].
  cbn [init_thresh_loop]. apply bind_agrees.
  - unfold ucp_proto_thresholds_select_next. apply ucs_assert_agrees.
    destruct (_ =? 0); [reflexivity |].
    apply bind_agrees; [apply select_best_loop_agrees | reflexivity].
  - intros [tl1 mx]. destruct (_ <? _); [apply IH | reflexivity].
Qed.

Lemma elem_init_agrees (alloc_ok : allocation -> bool)
    (ucp_protocols : list ucp_proto_t) (null_index : Z)
    (worker : ucp_worker_t) (ep_cfg_index rkey_cfg_index : Z)
    (param : ucp_proto_select_param_t) :
  agrees (ucp_proto_select_elem_init true alloc_ok ucp_protocols null_index
            worker ep_cfg_index rkey_cfg_index param)
         (ucp_proto_select_elem_init false alloc_ok ucp_protocols null_index
            worker ep_cfg_index rkey_cfg_index param).
Proof.
  unfold ucp_proto_select_elem_init.
  destruct (negb (alloc_ok Alloc_proto_init)); [reflexivity |].
  apply bind_agrees.
  - unfold ucp_proto_select_init_protocols.
    apply ucs_assert_agrees, agrees_refl.
  - intros v. unfold ucp_proto_select_elem_init_thresh.
    apply bind_agrees; [apply init_thresh_loop_agrees |].
    intros tl. apply agrees_refl.
Qed.

(** X19: the assertions of [ucs_assert] only stop the program: whenever the
    build that compiles them in returns from
    [ucp_proto_select_elem_init] or from [ucp_proto_select_lookup_slow],
    the build that leaves them out returns the same status, element and
    context. *)
Theorem release_build_agrees (alloc_ok : allocation -> bool)
    (ucp_protocols : list ucp_proto_t) (null_index : Z)
    (worker : ucp_worker_t) (ep_cfg_index rkey_cfg_index param : Z)
    (proto_select : ucp_proto_select_t) (o : kh_put_oracle) :
  ((forall a, ucp_proto_select_elem_init true alloc_ok ucp_protocols
                null_index worker ep_cfg_index rkey_cfg_index param
              <> Fatal a) ->
   ucp_proto_select_elem_init false alloc_ok ucp_protocols null_index worker
     ep_cfg_index rkey_cfg_index param
   = ucp_proto_select_elem_init true alloc_ok ucp_protocols null_index worker
       ep_cfg_index rkey_cfg_index param) /\
  ((forall a, ucp_proto_select_lookup_slow true alloc_ok ucp_protocols
                null_index worker proto_select ep_cfg_index rkey_cfg_index
                param o <> Fatal a) ->
   ucp_proto_select_lookup_slow false alloc_ok ucp_protocols null_index
     worker proto_select ep_cfg_index rkey_cfg_index param o
   = ucp_proto_select_lookup_slow true alloc_ok ucp_protocols null_index
       worker proto_select ep_cfg_index rkey_cfg_index param o).
Proof.
  pose proof (elem_init_agrees alloc_ok ucp_protocols null_index worker
                ep_cfg_index rkey_cfg_index param) as Hag.
  split.
  - intros Hnf. unfold agrees in Hag.
    destruct (ucp_proto_select_elem_init true alloc_ok ucp_protocols
                null_index worker ep_cfg_index rkey_cfg_index param)
      as [e | s | a | |]; try exact Hag.
    exfalso. eapply Hnf. reflexivity.
  - intros Hnf.
    destruct (hash proto_select !! param) as [sl |] eqn:Hfresh.
    { rewrite !lookup_slow_not_fresh by (left; eauto). reflexivity. }
    destruct (kh_resize_ok o) eqn:Hresize.
    2: { rewrite !lookup_slow_not_fresh by (right; exact Hresize).
         reflexivity. }
    rewrite lookup_slow_fresh in Hnf by assumption.
    rewrite !lookup_slow_fresh by assumption.
    unfold agrees in Hag.
    destruct (ucp_proto_select_elem_init true alloc_ok ucp_protocols
                null_index worker ep_cfg_index rkey_cfg_index param)
      as [e | s | a | |]; try (rewrite Hag; reflexivity).
    exfalso. eapply Hnf. reflexivity.
Qed.

Lemma release_build_agrees_witness :
  ucp_proto_select_lookup_slow false all_alloc_ok protocols_two 255
    worker_two proto_select_empty 0 255 7 put_ok
  = ucp_proto_select_lookup_slow true all_alloc_ok protocols_two 255
      worker_two proto_select_empty 0 255 7 put_ok.
Proof.
  apply (release_build_agrees all_alloc_ok protocols_two 255 worker_two 0 255
           7 proto_select_empty put_ok).
  intros a. rewrite lookup_slow_some. discriminate.
Defined.

(** * More on the lower envelope and the slow lookup *)

Lemma thresholds_append_length (ea : bool)
    (tl tl' : list ucp_proto_threshold_tmp_elem_t) (max_length proto_id : Z) :
  ucp_proto_thresholds_append ea tl max_length proto_id = Ok tl' ->
  (length tl' <= S (length tl))%nat.
Proof.
  intros H. apply thresholds_append_Ok in H.
  destruct H as [-> | (tl0 & m0 & -> & ->)]; rewrite !length_app; simpl; lia.
Qed.

Lemma select_best_loop_length (ea : bool) (n : nat) :
  forall (proto_mask : Z) (perf : Z -> ucs_linear_func_t)
         (tl tl' : list ucp_proto_threshold_tmp_elem_t) (start end_ : Z),
    select_best_loop ea n proto_mask perf tl start end_ = Ok tl' ->
    (length tl' <= length tl + popcount proto_mask)%nat.
Proof.
  induction n as [| n IH]; intros proto_mask perf tl tl' start end_ H;
    [discriminate |].
  rewrite select_best_loop_S in H. apply ucs_assert_Ok in H.
  apply bind_Ok in H as (best & Hfb & H).
  destruct (best_proto_id best) as [b |] eqn:Hb;
    [| apply ucs_assert_Ok in H; discriminate].
  assert (Hin : In b (ucs_for_each_bit proto_mask)).
  { unfold best_at in Hfb.
    destruct (find_best_cases ea (ucs_for_each_bit proto_mask) perf
                (Double.of_size_t start + Double.UCP_PROTO_MSGLEN_EPSILON)%float
                {| best_proto_id := None; best_result := Double.DBL_MAX |})
      as [Hf | (best' & Hf & Hid)]; rewrite Hfb in Hf; [discriminate |].
    injection Hf as <-. rewrite Hb in Hid.
    destruct Hid as [Hid | (b' & Hb' & Hin')]; [discriminate |].
    injection Hb' as <-. exact Hin'. }
  pose proof (popcount_mask_clear proto_mask b Hin) as Hpop.
  cbv zeta in H. apply bind_Ok in H as (tl1 & Happ & H).
  apply thresholds_append_length in Happ.
  destruct (_ <? _).
  - apply IH in H. lia.
  - injection H as <-. lia.
Qed.

(** X20: a successful [ucp_proto_thresholds_select_best] on a list that ends
    before [start] leaves a list that is strictly increasing and ends
    exactly at [end]; the lengths below [start] keep their protocol, every
    length from [start] to [end] is given a protocol of the mask, and at
    most as many entries are added as the mask has protocols. *)
Theorem select_best_covers (enable_assert : bool) (proto_mask : Z)
    (perf : Z -> ucs_linear_func_t)
    (tl tl' : list ucp_proto_threshold_tmp_elem_t) (start end_ : Z) :
  0 <= start <= end_ -> end_ <= SIZE_MAX ->
  StronglySorted Z.lt (map tmp_max_length tl) ->
  Forall (fun e => tmp_max_length e < start) tl ->
  ucp_proto_thresholds_select_best enable_assert proto_mask perf tl start end_
  = Ok tl' ->
  StronglySorted Z.lt (map tmp_max_length tl') /\
  (exists e, last tl' = Some e /\ tmp_max_length e = end_) /\
  (forall L p, tmp_lookup tl L = Some p -> tmp_lookup tl' L = Some p) /\
  (forall L, start <= L <= end_ ->
     exists p, tmp_lookup tl' L = Some p /\
               In p (ucs_for_each_bit proto_mask)) /\
  (length tl' <= length tl + popcount proto_mask)%nat.
Proof.
  intros Hse Hend Hsorted Hbelow H.
  unfold ucp_proto_thresholds_select_best in H.
  destruct (select_best_loop_extends enable_assert _ proto_mask perf tl tl'
              start end_ Hse Hend (conj Hsorted Hbelow) H)
    as [[[Hs _] Hstable Hnew _ Hlast] _].
  split; [exact Hs |]. split; [exact Hlast |]. split; [exact Hstable |].
  split; [exact Hnew |].
  eapply select_best_loop_length, H.
Qed.

Lemma select_best_covers_witness :
  exists tl',
    ucp_proto_thresholds_select_best true 3 perf_cross [] 0 SIZE_MAX = Ok tl' /\
    (length tl' <= length (@nil ucp_proto_threshold_tmp_elem_t) + popcount 3)%nat.
Proof.
  eexists. split; [vm_compute; reflexivity |].
  apply (select_best_covers true 3 perf_cross [] _ 0 SIZE_MAX).
  - unfold SIZE_MAX. lia.
  - lia.
  - constructor.
  - constructor.
  - vm_compute. reflexivity.
Defined.

(** X21: the value of a new bucket, which [kh_put] leaves unwritten, is never
    seen after [ucp_proto_select_lookup_slow] has returned: the element is
    constructed in it, or the bucket is deleted. *)
Theorem lookup_slow_no_uninit (enable_assert : bool)
    (alloc_ok : allocation -> bool) (ucp_protocols : list ucp_proto_t)
    (null_index : Z) (worker : ucp_worker_t)
    (ep_cfg_index rkey_cfg_index param : Z)
    (proto_select proto_select' : ucp_proto_select_t) (o : kh_put_oracle)
    (ret : option Z) :
  (forall k, hash proto_select !! k <> Some Slot_uninit) ->
  ucp_proto_select_lookup_slow enable_assert alloc_ok ucp_protocols
    null_index worker proto_select ep_cfg_index rkey_cfg_index param o
  = Ok (ret, proto_select') ->
  forall k, hash proto_select' !! k <> Some Slot_uninit.
Proof.
  intros Hinit H k.
  apply lookup_slow_Ok in H
    as (_ & _ & [(e & _ & _ & ->) | (s & _ & _ & ->)]); [| apply Hinit].
  destruct (Z.eq_dec k param) as [-> | Hk].
  - rewrite lookup_insert_eq. discriminate.
  - rewrite lookup_insert_ne by congruence. apply Hinit.
Qed.

Lemma lookup_slow_no_uninit_witness :
  ucp_proto_select_lookup_slow true all_alloc_ok protocols_two 255
    worker_two proto_select_empty 0 255 7 put_ok
  = Ok (Some 7, proto_select_found) /\
  hash proto_select_found !! 7 <> Some Slot_uninit.
Proof.
  split; [exact lookup_slow_some |].
  apply (lookup_slow_no_uninit true all_alloc_ok protocols_two 255 worker_two
           0 255 7 proto_select_empty proto_select_found put_ok (Some 7)).
  - intros k. simpl. rewrite lookup_empty. discriminate.
  - exact lookup_slow_some.
Defined.

(** * The dump of an element that was constructed *)

Lemma thresholds_append_nonneg (ea : bool)
    (tl tl' : list ucp_proto_threshold_tmp_elem_t) (max_length proto_id : Z) :
  Forall (fun e => 0 <= tmp_max_length e) tl -> 0 <= max_length ->
  ucp_proto_thresholds_append ea tl max_length proto_id = Ok tl' ->
  Forall (fun e => 0 <= tmp_max_length e) tl'.
Proof.
  intros Hall Hm H. apply thresholds_append_Ok in H.
  destruct H as [-> | (tl0 & m0 & -> & ->)].
  - apply Forall_app. split; [exact Hall |]. repeat constructor. exact Hm.
  - apply Forall_app in Hall as [Hall _].
    apply Forall_app. split; [exact Hall |]. repeat constructor. exact Hm.
Qed.

Lemma select_best_loop_nonneg (ea : bool) (n : nat) :
  forall (proto_mask : Z) (perf : Z -> ucs_linear_func_t)
         (tl tl' : list ucp_proto_threshold_tmp_elem_t) (start end_ : Z),
    0 <= start <= end_ -> end_ <= SIZE_MAX ->
    Forall (fun e => 0 <= tmp_max_length e) tl ->
    select_best_loop ea n proto_mask perf tl start end_ = Ok tl' ->
    Forall (fun e => 0 <= tmp_max_length e) tl'.
Proof.
  induction n as [| n IH];
    intros proto_mask perf tl tl' start end_ Hse Hend Hall H; [discriminate |].
  rewrite select_best_loop_S in H. apply ucs_assert_Ok in H.
  apply bind_Ok in H as (best & _ & H).
  destruct (best_proto_id best) as [b |];
    [| apply ucs_assert_Ok in H; discriminate].
  cbv zeta in H.
  set (midpoint := fold_left (midpoint_step perf b start)
                     (ucs_for_each_bit (mask_clear proto_mask b)) end_) in *.
  assert (Hmid : start <= midpoint <= end_).
  { split; [apply midpoint_fold_ge; lia | apply midpoint_fold_le]. }
  apply bind_Ok in H as (tl1 & Happ & H).
  pose proof (thresholds_append_nonneg ea tl tl1 midpoint b Hall ltac:(lia)
                Happ) as Hall1.
  destruct (Z.ltb_spec midpoint end_) as [Hlt | Hge].
  - unfold wrap64 in H. rewrite Z.mod_small in H
      by (unfold SIZE_MAX in Hend; lia).
    eapply (IH _ _ tl1 tl' (midpoint + 1) end_); [lia | exact Hend | | exact H].
    exact Hall1.
  - injection H as <-. exact Hall1.
Qed.

Lemma init_thresh_loop_nonneg (ea : bool) (proto_mask : Z)
    (proto_caps : Z -> ucp_proto_caps_t) (n : nat) :
  caps_wf proto_mask proto_caps ->
  forall (tl tl' : list ucp_proto_threshold_tmp_elem_t) (L : Z),
    0 <= L <= SIZE_MAX -> thresh_inv tl L ->
    Forall (fun e => 0 <= tmp_max_length e) tl ->
    init_thresh_loop ea n proto_mask proto_caps tl L = Ok tl' ->
    Forall (fun e => 0 <= tmp_max_length e) tl'.
Proof.
  intros Hwf. induction n as [| n IH]; intros tl tl' L HL Hinv Hall H;
    [discriminate |].
  cbn [init_thresh_loop] in H.
  apply bind_Ok in H as ([tl1 mx] & Hnext & H).
  destruct (select_next_extends ea proto_mask proto_caps tl tl1 L mx HL Hwf
              Hinv Hnext) as (Hmx & Hb & Hext & _).
  apply select_next_Ok in Hnext as (_ & _ & Hbest). rewrite <- Hmx in Hbest.
  unfold ucp_proto_thresholds_select_best in Hbest.
  pose proof (select_best_loop_nonneg ea _ _ _ tl tl1 L mx ltac:(lia)
                ltac:(lia) Hall Hbest) as Hall1.
  destruct (Z.ltb_spec mx SIZE_MAX) as [Hlt | Hge].
  - unfold wrap64 in H. rewrite Z.mod_small in H by (unfold SIZE_MAX in *; lia).
    eapply (IH tl1 tl' (mx + 1)); [lia | exact (ext_inv _ _ _ _ _ Hext) | |
                                   exact H].
    exact Hall1.
  - injection H as <-. exact Hall1.
Qed.

(** X22: for every element that [ucp_proto_select_elem_init] constructs from a
    registry whose protocols report thresholds that fit [size_t], the dump
    of the selected protocols stays inside the thresholds array and writes
    one line per entry, and for every message length the line whose range
    holds it shows the protocol that the lookup returns. *)
Theorem elem_dump_thresholds (enable_assert : bool)
    (alloc_ok : allocation -> bool) (ucp_protocols : list ucp_proto_t)
    (null_index : Z) (worker : ucp_worker_t)
    (ep_cfg_index rkey_cfg_index : Z) (param : ucp_proto_select_param_t)
    (select_elem : ucp_proto_select_elem_t) :
  protocols_wf ucp_protocols ->
  ucp_proto_select_elem_init enable_assert alloc_ok ucp_protocols null_index
    worker ep_cfg_index rkey_cfg_index param = Ok select_elem ->
  exists lines,
    ucp_proto_select_dump_thresholds select_elem
    = Ok (Thresh_titles :: lines) /\
    length lines = length (thresholds select_elem) /\
    forall L, is_size_t L ->
      exists (i : nat) (e : ucp_proto_threshold_elem_t),
        ucp_proto_thresholds_search_slow (thresholds select_elem) L
        = Ok (i, e) /\
        lines !! i
        = Some (Thresh_range (range_start_of (thresholds select_elem) i)
                  (max_msg_length e) (config_proto (proto_config e))
                  (config_priv (proto_config e))) /\
        range_start_of (thresholds select_elem) i <= L <= max_msg_length e.
Proof.
  intros Hpwf H. unfold ucp_proto_select_elem_init in H.
  destruct (negb (alloc_ok Alloc_proto_init)); [discriminate |].
  apply bind_Ok in H as (v & Hinit & H).
  pose proof (init_protocols_wf enable_assert alloc_ok ucp_protocols null_index
                worker ep_cfg_index rkey_cfg_index param v Hpwf Hinit) as Hwf.
  apply elem_init_thresh_Ok in H as (tl & Hloop & _ & ->).
  destruct (init_thresh_loop_extends enable_assert _ _ _ Hwf [] tl 0
              ltac:(unfold SIZE_MAX; lia) (thresh_inv_nil 0) Hloop)
    as [[[Hsorted _] _ _ _ (final & Hlast & Hmax)] _].
  pose proof (init_thresh_loop_nonneg enable_assert _ _ _ Hwf [] tl 0
                ltac:(unfold SIZE_MAX; lia) (thresh_inv_nil 0)
                ltac:(constructor) Hloop) as Hnn.
  set (ths := map (copy_thresh v) tl).
  assert (Hs : StronglySorted Z.lt (map max_msg_length ths))
    by (unfold ths; rewrite map_map; exact Hsorted).
  assert (Hn : Forall (fun e => 0 <= max_msg_length e) ths).
  { unfold ths. apply Forall_map. exact Hnn. }
  assert (Hl : last ths = Some (copy_thresh v final)).
  { unfold ths. apply last_Some in Hlast as [tl0 ->].
    rewrite map_app. apply last_snoc. }
  destruct (dump_thresholds_lines_of ths (copy_thresh v final) Hs Hn Hl Hmax)
    as (lines & Hdump & Hlen & Hlines).
  exists lines. split; [exact Hdump |]. split; [exact Hlen |].
  intros L HL.
  destruct (search_slow_in_range ths (copy_thresh v final) Hl Hmax L HL)
    as (i & e & Hsearch & Hi & Hr).
  exists i, e. split; [exact Hsearch |]. split; [apply Hlines, Hi | exact Hr].
Qed.

Lemma protocols_two_wf : protocols_wf protocols_two.
Proof.
  intros proto init_params c priv_size Hin Hinit.
  destruct Hin as [<- | [<- | []]]; injection Hinit as <- _;
    apply is_size_t_AUTO.
Qed.

Lemma elem_dump_thresholds_witness :
  exists lines,
    ucp_proto_select_dump_thresholds (select_elem_two 7)
    = Ok (Thresh_titles :: lines) /\
    length lines = 2%nat.
Proof.
  destruct (elem_dump_thresholds true all_alloc_ok protocols_two 255
              worker_two 0 255 7 (select_elem_two 7) protocols_two_wf
              elem_init_two) as (lines & Hdump & Hlen & _).
  exists lines. split; [exact Hdump | exact Hlen].
Defined.

(** * The lower envelope, iteration by iteration *)

Lemma select_best_loop_iterations (ea : bool) (n : nat) :
  forall (proto_mask : Z) (perf : Z -> ucs_linear_func_t)
         (tl tl' : list ucp_proto_threshold_tmp_elem_t) (start end_ : Z),
    0 <= start <= end_ -> end_ <= SIZE_MAX -> thresh_inv tl start ->
    select_best_loop ea n proto_mask perf tl start end_ = Ok tl' ->
    forall proto_mask' start',
      envelope_reaches ea perf end_ proto_mask start proto_mask' start' ->
      exists best b,
        best_at ea proto_mask' perf start' = Ok best /\
        best_proto_id best = Some b /\
        tmp_lookup tl' start' = Some b.
Proof.
  induction n as [| n IH];
    intros proto_mask perf tl tl' start end_ Hse Hend Hinv H mask' start' Hr;
    [discriminate |].
  destruct (select_best_loop_extends ea (S n) proto_mask perf tl tl' start
              end_ Hse Hend Hinv H) as [_ (best0 & b0 & Hb0 & Hid0 & Hlk0)].
  inversion Hr as [| ? ? best b ? ? Hfb Hb Hlt Hr']; subst;
    [exists best0, b0; auto |].
  rewrite select_best_loop_S in H. apply ucs_assert_Ok in H.
  rewrite Hfb in H. cbn [bind] in H. rewrite Hb in H. cbv zeta in H.
  set (mask1 := mask_clear proto_mask b) in *.
  set (midpoint := fold_left (midpoint_step perf b start)
                             (ucs_for_each_bit mask1) end_) in *.
  assert (Hmid : start <= midpoint) by (apply midpoint_fold_ge; lia).
  apply bind_Ok in H as (tl1 & Happ & H).
  pose proof (thresholds_append_extends ea tl tl1 start midpoint b Hinv Hmid
                Happ) as Hext1.
  destruct (Z.ltb_spec midpoint end_) as [_ | Hge]; [| lia].
  unfold wrap64 in H. rewrite Z.mod_small in H
    by (unfold SIZE_MAX in Hend; lia).
  eapply (IH mask1 perf tl1 tl' (midpoint + 1) end_);
    [lia | exact Hend | exact (ext_inv _ _ _ _ _ Hext1) | exact H | exact Hr'].
Qed.

(** X23: in the list that a successful [ucp_proto_thresholds_select_best]
    leaves, the protocol at the first length of every iteration of its loop
    is the one with the least cost at that length plus 0.5 among the
    protocols that are left in the mask in that iteration, the lowest id
    among those of equal cost. *)
Theorem select_best_iteration_cheapest (enable_assert : bool)
    (proto_mask : Z) (perf : Z -> ucs_linear_func_t)
    (tl tl' : list ucp_proto_threshold_tmp_elem_t) (start end_ : Z) :
  0 <= start <= end_ -> end_ <= SIZE_MAX ->
  StronglySorted Z.lt (map tmp_max_length tl) ->
  Forall (fun e => tmp_max_length e < start) tl ->
  ucp_proto_thresholds_select_best enable_assert proto_mask perf tl start end_
  = Ok tl' ->
  forall proto_mask' start',
    envelope_reaches enable_assert perf end_ proto_mask start
      proto_mask' start' ->
    exists b,
      tmp_lookup tl' start' = Some b /\
      is_cheapest
        (fun q => ucs_linear_func_apply (perf q)
                    (Double.of_size_t start'
                     + Double.UCP_PROTO_MSGLEN_EPSILON)%float)
        (ucs_for_each_bit proto_mask') b.
Proof.
  intros Hse Hend Hsorted Hbelow H mask' start' Hr.
  unfold ucp_proto_thresholds_select_best in H.
  destruct (select_best_loop_iterations enable_assert _ proto_mask perf tl tl'
              start end_ Hse Hend (conj Hsorted Hbelow) H mask' start' Hr)
    as (best & b & Hbest & Hid & Hlk).
  exists b. split; [exact Hlk |].
  eapply best_at_is_cheapest; eassumption.
Qed.

Lemma select_best_iteration_cheapest_witness :
  exists tl' b,
    ucp_proto_thresholds_select_best true 3 perf_cross [] 0 SIZE_MAX = Ok tl' /\
    tmp_lookup tl' 0 = Some b /\
    is_cheapest
      (fun q => ucs_linear_func_apply (perf_cross q)
                  (Double.of_size_t 0 + Double.UCP_PROTO_MSGLEN_EPSILON)%float)
      (ucs_for_each_bit 3) b.
Proof.
  eassert (H : ucp_proto_thresholds_select_best true 3 perf_cross [] 0 SIZE_MAX
               = Ok _) by (vm_compute; reflexivity).
  destruct (select_best_iteration_cheapest true 3 perf_cross [] _ 0 SIZE_MAX
              ltac:(unfold SIZE_MAX; lia) ltac:(lia) ltac:(constructor)
              ltac:(constructor) H 3 0
              (envelope_here true perf_cross SIZE_MAX 3 0))
    as (b & Hlk & Hcheap).
  eexists _, b. split; [exact H |]. split; [exact Hlk | exact Hcheap].
Defined.

(** * What the selection never reads *)

(** The loop of [ucp_proto_thresholds_select_next] over the protocols,
    started on an arbitrary content [init] of the local array [proto_perf],
    which the function does not initialize. *)
Definition select_next_scan_from (init : Z -> ucs_linear_func_t)
    (proto_mask : Z) (proto_caps : Z -> ucp_proto_caps_t) (msg_length : Z)
  : select_next_state :=
  fold_left (select_next_step proto_caps msg_length)
    (ucs_for_each_bit proto_mask)
    {| valid_proto_mask := 0;
       forced_proto_mask := 0;
       max_length := SIZE_MAX;
       proto_perf := init |}.

(** [ucp_proto_thresholds_select_next] on the content [init] of the stack
    where [proto_perf] is placed. *)
Definition ucp_proto_thresholds_select_next_from (enable_assert : bool)
    (init : Z -> ucs_linear_func_t) (proto_mask : Z)
    (proto_caps : Z -> ucp_proto_caps_t)
    (thresh_list : list ucp_proto_threshold_tmp_elem_t) (msg_length : Z)
  : outcome (list ucp_proto_threshold_tmp_elem_t * Z) :=
  let st := select_next_scan_from init proto_mask proto_caps msg_length in
  ucs_assert enable_assert (msg_length <=? max_length st)
    Assert_msg_length_le_max
    (if valid_proto_mask st =? 0 then Err UCS_ERR_UNSUPPORTED
     else
       let* thresh_list' :=
         ucp_proto_thresholds_select_best enable_assert (select_next_mask st)
           (proto_perf st) thresh_list msg_length (max_length st) in
       Ok (thresh_list', max_length st)).

Lemma find_best_ext (ea : bool) (ids : list Z)
    (perf1 perf2 : Z -> ucs_linear_func_t) (x : float) :
  (forall q, In q ids -> perf1 q = perf2 q) ->
  forall best,
    find_best ea ids perf1 x best = find_best ea ids perf2 x best.
Proof.
  induction ids as [| curr ids IH]; intros H best; [reflexivity |].
  simpl. rewrite (H curr) by now left.
  rewrite IH by (intros q Hq; apply H; now right). reflexivity.
Qed.

Lemma midpoint_fold_ext (perf1 perf2 : Z -> ucs_linear_func_t)
    (b start : Z) (ids : list Z) :
  perf1 b = perf2 b -> (forall q, In q ids -> perf1 q = perf2 q) ->
  forall end_,
    fold_left (midpoint_step perf1 b start) ids end_ =
    fold_left (midpoint_step perf2 b start) ids end_.
Proof.
  intros Hb. induction ids as [| curr ids IH]; intros H end_; [reflexivity |].
  simpl.
  assert (Hstep : midpoint_step perf1 b start end_ curr
                  = midpoint_step perf2 b start end_ curr).
  { unfold midpoint_step. rewrite Hb, (H curr) by now left. reflexivity. }
  rewrite Hstep. apply IH. intros q Hq. apply H. now right.
Qed.

(** The lower-envelope loop reads [proto_perf] at the protocols of its mask
    only. *)
Lemma select_best_loop_ext (ea : bool) (n : nat) :
  forall (proto_mask : Z) (perf1 perf2 : Z -> ucs_linear_func_t)
         (tl : list ucp_proto_threshold_tmp_elem_t) (start end_ : Z),
    (forall q, In q (ucs_for_each_bit proto_mask) -> perf1 q = perf2 q) ->
    select_best_loop ea n proto_mask perf1 tl start end_ =
    select_best_loop ea n proto_mask perf2 tl start end_.
Proof.
  induction n as [| n IH]; intros proto_mask perf1 perf2 tl start end_ H;
    [reflexivity |].
  rewrite !select_best_loop_S. unfold best_at.
  rewrite (find_best_ext ea _ perf1 perf2 _ H).
  f_equal.
  destruct (find_best_cases ea (ucs_for_each_bit proto_mask) perf2
              (Double.of_size_t start + Double.UCP_PROTO_MSGLEN_EPSILON)%float
              {| best_proto_id := None; best_result := Double.DBL_MAX |})
    as [-> | (best & -> & Hid)]; [reflexivity |].
  cbn [bind].
  destruct (best_proto_id best) as [b |] eqn:Hb; [| reflexivity].
  assert (Hin : In b (ucs_for_each_bit proto_mask)).
  { destruct Hid as [Hid | (b' & Hb' & Hin)]; [discriminate Hid |].
    injection Hb' as <-. exact Hin. }
  cbv zeta.
  rewrite (midpoint_fold_ext perf1 perf2 b start _ (H b Hin))
    by (intros q Hq; apply H; eapply for_each_bit_mask_clear; exact Hq).
  destruct (ucp_proto_thresholds_append _ _ _ _); try reflexivity.
  cbn [bind]. destruct (_ <? _); [| reflexivity].
  apply IH. intros q Hq. apply H. eapply for_each_bit_mask_clear; exact Hq.
Qed.

(** Two states of the scan that differ in [proto_perf] outside the valid
    protocols only. *)
Definition scan_agree (st1 st2 : select_next_state) : Prop :=
  valid_proto_mask st1 = valid_proto_mask st2 /\
  forced_proto_mask st1 = forced_proto_mask st2 /\
  max_length st1 = max_length st2 /\
  forall q, 0 <= q -> Z.testbit (valid_proto_mask st1) q = true ->
            proto_perf st1 q = proto_perf st2 q.

Lemma select_next_range_agree (c : ucp_proto_caps_t) (L id : Z)
    (st1 st2 : select_next_state) :
  0 <= id -> scan_agree st1 st2 ->
  scan_agree (select_next_range c L id st1) (select_next_range c L id st2).
Proof.
  intros Hid (Hv & Hf & Hm & Hp). unfold select_next_range.
  destruct (find_range c L) as [r |]; [| repeat split; assumption].
  unfold scan_agree. cbn. rewrite Hv, Hf, Hm. repeat split.
  intros q Hq Hb. unfold perf_set.
  destruct (Z.eqb_spec q id) as [-> | Hne]; [reflexivity |].
  apply Hp; [exact Hq |]. rewrite Hv.
  rewrite mask_set_testbit in Hb by exact Hid.
  apply orb_true_iff in Hb as [Hb | Hb]; [exact Hb | lia].
Qed.

Lemma select_next_thresh_agree (c : ucp_proto_caps_t) (L id : Z)
    (st1 st2 : select_next_state) :
  0 <= id -> scan_agree st1 st2 ->
  scan_agree (select_next_thresh c L id st1) (select_next_thresh c L id st2).
Proof.
  intros Hid (Hv & Hf & Hm & Hp). unfold select_next_thresh.
  assert (Hclear : forall q, 0 <= q ->
            Z.testbit (mask_clear (valid_proto_mask st1) id) q = true ->
            proto_perf st1 q = proto_perf st2 q).
  { intros q Hq Hb. rewrite mask_clear_testbit in Hb by assumption.
    apply andb_true_iff in Hb as [Hb _]. auto. }
  repeat destruct (_ =? _); [repeat split; assumption | |];
    [| destruct (_ <=? _)];
    unfold scan_agree; cbn; rewrite <- ?Hv, <- ?Hf, <- ?Hm;
    repeat split; assumption.
Qed.

Lemma select_next_scan_agree (proto_caps : Z -> ucp_proto_caps_t) (L : Z)
    (ids : list Z) :
  Forall (fun id => 0 <= id) ids ->
  forall st1 st2,
    scan_agree st1 st2 ->
    scan_agree (fold_left (select_next_step proto_caps L) ids st1)
               (fold_left (select_next_step proto_caps L) ids st2).
Proof.
  induction 1 as [| id ids Hid _ IH]; intros st1 st2 Hag; [exact Hag |].
  simpl. apply IH. unfold select_next_step.
  destruct (_ <? _); [exact Hag |].
  apply select_next_thresh_agree; [exact Hid |].
  apply select_next_range_agree; assumption.
Qed.

Lemma select_next_mask_valid (st : select_next_state) (q : Z) :
  In q (ucs_for_each_bit (select_next_mask st)) ->
  0 <= q /\ Z.testbit (valid_proto_mask st) q = true.
Proof.
  rewrite in_for_each_bit. intros [Hq Hb]. split; [lia |].
  unfold select_next_mask in Hb. cbv zeta in Hb.
  destruct (_ =? _); [exact Hb |].
  rewrite Z.land_spec in Hb. apply andb_true_iff in Hb. tauto.
Qed.

(** X24: [ucp_proto_thresholds_select_next] never reads an entry of its
    local array [proto_perf] that it has not written: whatever the array
    holds when the function starts, the function returns the same thresholds
    list, the same maximal length and the same status or failed
    assertion. *)
Theorem select_next_ignores_uninit (enable_assert : bool)
    (init : Z -> ucs_linear_func_t) (proto_mask : Z)
    (proto_caps : Z -> ucp_proto_caps_t)
    (thresh_list : list ucp_proto_threshold_tmp_elem_t) (msg_length : Z) :
  ucp_proto_thresholds_select_next_from enable_assert init proto_mask
    proto_caps thresh_list msg_length
  = ucp_proto_thresholds_select_next enable_assert proto_mask proto_caps
      thresh_list msg_length.
Proof.
  unfold ucp_proto_thresholds_select_next_from,
    ucp_proto_thresholds_select_next. cbv zeta.
  assert (Hag : scan_agree
                  (select_next_scan_from init proto_mask proto_caps msg_length)
                  (select_next_scan proto_mask proto_caps msg_length)).
  { apply select_next_scan_agree.
    - apply List.Forall_forall. intros q Hq. apply in_for_each_bit in Hq. lia.
    - repeat split. intros q _ Hb. cbn in Hb.
      rewrite Z.bits_0 in Hb. discriminate Hb. }
  set (st1 := select_next_scan_from _ _ _ _) in *.
  set (st2 := select_next_scan _ _ _) in *.
  destruct Hag as (Hv & Hf & Hm & Hp).
  assert (Hmask : select_next_mask st1 = select_next_mask st2)
    by (unfold select_next_mask; rewrite Hv, Hf; reflexivity).
  rewrite Hv, Hm.
  unfold ucp_proto_thresholds_select_best. rewrite Hmask.
  rewrite (select_best_loop_ext enable_assert _ (select_next_mask st2)
             (proto_perf st1) (proto_perf st2)); [reflexivity |].
  intros q Hq. rewrite <- Hmask in Hq.
  apply select_next_mask_valid in Hq as [Hq Hb]. auto.
Qed.

Lemma select_next_scan_ext (proto_mask : Z)
    (caps1 caps2 : Z -> ucp_proto_caps_t) (L : Z) :
  (forall q, In q (ucs_for_each_bit proto_mask) -> caps1 q = caps2 q) ->
  select_next_scan proto_mask caps1 L = select_next_scan proto_mask caps2 L.
Proof.
  unfold select_next_scan.
  generalize {| valid_proto_mask := 0; forced_proto_mask := 0;
                max_length := SIZE_MAX; proto_perf := proto_perf_uninit |}.
  induction (ucs_for_each_bit proto_mask) as [| id ids IH]; intros st H;
    [reflexivity |].
  simpl. unfold select_next_step at 2 4. rewrite (H id) by now left.
  apply IH. intros q Hq. apply H. now right.
Qed.

Lemma init_thresh_loop_ext (ea : bool) (proto_mask : Z)
    (caps1 caps2 : Z -> ucp_proto_caps_t) (n : nat) :
  (forall q, In q (ucs_for_each_bit proto_mask) -> caps1 q = caps2 q) ->
  forall (tl : list ucp_proto_threshold_tmp_elem_t) (L : Z),
    init_thresh_loop ea n proto_mask caps1 tl L =
    init_thresh_loop ea n proto_mask caps2 tl L.
Proof.
  intros H. induction n as [| n IH]; intros tl L; [reflexivity |].
  cbn [init_thresh_loop]. unfold ucp_proto_thresholds_select_next.
  rewrite (select_next_scan_ext proto_mask caps1 caps2 L H).
  destruct (ucs_assert _ _ _ _) as [[tl1 mx] | | | |]; try reflexivity.
  cbn [bind]. destruct (_ <? _); [apply IH | reflexivity].
Qed.

Lemma breakpoints_ext (proto_mask : Z) (caps1 caps2 : Z -> ucp_proto_caps_t) :
  (forall q, In q (ucs_for_each_bit proto_mask) -> caps1 q = caps2 q) ->
  breakpoints proto_mask caps1 = breakpoints proto_mask caps2.
Proof.
  unfold breakpoints.
  induction (ucs_for_each_bit proto_mask) as [| id ids IH]; intros H;
    [reflexivity |].
  cbn [flat_map]. rewrite (H id) by now left.
  rewrite IH by (intros q Hq; apply H; now right). reflexivity.
Qed.

(** X25: [ucp_proto_select_elem_init_thresh] reads the capabilities and the
    private-data offsets of the protocols of [proto_init->mask] only: two
    [proto_init] structures that differ in [caps] and [priv_offsets] outside
    the mask give the same element, the same status or the same failed
    assertion. *)
Theorem elem_init_thresh_reads_mask_only (enable_assert : bool)
    (alloc_ok : allocation -> bool) (param proto_mask : Z)
    (caps1 caps2 : Z -> ucp_proto_caps_t) (priv : option Z)
    (priv_offsets1 priv_offsets2 : Z -> Z) :
  (forall q, In q (ucs_for_each_bit proto_mask) ->
             caps1 q = caps2 q /\ priv_offsets1 q = priv_offsets2 q) ->
  ucp_proto_select_elem_init_thresh enable_assert alloc_ok
    {| select_param := param; mask := proto_mask; caps := caps1;
       priv_buf := priv; priv_offsets := priv_offsets1 |}
  = ucp_proto_select_elem_init_thresh enable_assert alloc_ok
      {| select_param := param; mask := proto_mask; caps := caps2;
         priv_buf := priv; priv_offsets := priv_offsets2 |}.
Proof.
  intros H.
  assert (Hcaps : forall q, In q (ucs_for_each_bit proto_mask) ->
                            caps1 q = caps2 q) by (intros q Hq; apply H, Hq).
  unfold ucp_proto_select_elem_init_thresh, sweep_bound. cbn [mask caps].
  rewrite (breakpoints_ext proto_mask caps1 caps2 Hcaps).
  rewrite (init_thresh_loop_ext enable_assert proto_mask caps1 caps2 _ Hcaps).
  destruct (init_thresh_loop _ _ _ _ _ _) as [tl | | | |] eqn:Hloop;
    try reflexivity.
  cbn [bind]. unfold ucs_assert_always.
  destruct (negb _); [| reflexivity].
  destruct (alloc_ok _); [| reflexivity].
  cbn [priv_buf]. do 2 f_equal.
  apply map_ext_in. intros e He. unfold copy_thresh.
  cbn [select_param priv_offsets].
  assert (Hin : In (tmp_proto_id e) (ucs_for_each_bit proto_mask)).
  { destruct (init_thresh_loop_In enable_assert proto_mask caps2 _ [] tl 0
                (tmp_proto_id e) Hloop (in_map tmp_proto_id tl e He))
      as [[] | Hin]. exact Hin. }
  destruct (H _ Hin) as [_ ->]. reflexivity.
Qed.

Lemma elem_init_thresh_reads_mask_only_witness :
  ucp_proto_select_elem_init_thresh true all_alloc_ok
    {| select_param := 0; mask := 3; caps := caps_two 0 0;
       priv_buf := None; priv_offsets := fun _ => 0 |}
  = ucp_proto_select_elem_init_thresh true all_alloc_ok
      {| select_param := 0; mask := 3;
         caps := fun i => if i =? 5 then caps_inf i else caps_two 0 0 i;
         priv_buf := None;
         priv_offsets := fun i => if i =? 5 then 48 else 0 |}.
Proof.
  apply (elem_init_thresh_reads_mask_only true all_alloc_ok 0 3).
  intros q Hq. rewrite for_each_bit_3 in Hq.
  destruct Hq as [<- | [<- | []]]; split; reflexivity.
Defined.
